(* ===== verification/_CoqProject ===== *)
-Q . S2P
Prelude.v
CInt.v
Memory.v
Exec.v
Solver.v
PureSolver.v
Loop.v
Ceq.v
CeqFacts.v
BatchSpec.v
BatchFrame.v
BatchIndep.v
BatchList.v
BatchWorkers.v
BatchStep.v
CSyntax.v
CSem.v
CRelate.v
COverflow.v
CFuel.v
CTyping.v
CeqAst.v
CeqDeep.v
Report.v
Status.v
Thermo.v
Newton.v
BatchNewton.v
Linear.v
Elimination.v
Balance.v
BalanceKernel.v
Demo.v
DemoDeep.v
DemoWorkers.v
DemoNewton.v
DemoBalance.v
