(* ===== verification/Prelude.v ===== *)
(** * Verification of ceq: the C entry points of an equilibrium-chemistry
    library

    ** The program

    [src/ceq.c] is the C interface of a library that computes chemical
    equilibrium compositions.  It exports five functions:

    - [pt] and [rhou]: thin wrappers that forward every argument to the
      solvers [solve_pt] (declared in pt.h) and [solve_rhou] (rhou.h);
    - [batch_pt] and [batch_rhou]: loops that apply a solver to [N]
      independent inputs stored in flat arrays of doubles, slicing the arrays
      with pointer arithmetic ([X0 + i*nsp], [X1 + i*nsp], [T + i]), and that
      stop at the first non-zero status, print the failing index and return
      that status;
    - [main]: prints one line and returns 0.

    The solvers themselves are not part of the sources under [src/]; the
    wrapper only relies on their calling convention.  They are therefore
    modelled as an interface: a type class of operations and a class of laws
    taken from the specification (what a solver may write, that its output
    is only appended, that [verbose] only affects the diagnostic output, that
    it returns, that it does not fault on allocated arrays).

    ** Files, in dependency order

    - [Prelude] (this file): the shared scope, tactics, hint databases and
      the lemmas on strings, lists and integer intervals that several
      components use.
    - [CInt]: the C type [int] as a 32-bit two's complement integer carried by
      [Z]: [wrap], [int_add] ([i++]), [int_mul] ([i*nsp]), the comparisons
      [int_lt] ([i<N]) and [int_ne] ([result!=0]), with their range and
      exactness lemmas.
    - [Memory]: the store of doubles the arrays live in, a finite map from
      cell addresses to IEEE binary64 values ([float]); pointers are cell
      addresses, [ptr_add] is C pointer arithmetic on [double*], [load] and
      [store] fail outside the allocated cells; regions, agreement of two
      stores on a region and the frame relation [unchanged_except].
    - [Exec]: the state of a run (store and standard output) and the monad
      [exec] of computations that read and write it and may fault; [printf]
      with the [%d] conversion; the relations a computation carries from
      the state before to the state after ([steps_in]).
    - [Solver]: the interface of [solve_pt] and [solve_rhou] (class [Solver]),
      their contract (class [SolverOk]) and the locality of a solve (class
      [SolverLocal]).
    - [PureSolver]: [lift] builds a [Solver] from a function on the contents
      of the arrays; [lift_ok] and [lift_local] prove the contract and the
      locality for it; [demo_solver] is the concrete instance on which the
      theorems are evaluated.
    - [Loop]: the shape shared by the two loops ([failfast_loop]), its
      abstract contract (the fail-fast fold [failfast] over a list of
      indices, and the relation [all_ok]), and the refinement between them.
    - [Ceq]: the translation of [src/ceq.c]: [pt], [rhou], [batch_pt_body],
      [batch_pt_report], [batch_pt_loop], [batch_pt], the same four for
      [batch_rhou], and [main].  The file holds definitions only.
    - [CeqFacts]: the first properties of these definitions: the texts
      printed, the value an iteration returns, the loops as instances of
      [failfast_loop].
    - [BatchSpec]: the contract of a batch (items on their own slices, in
      exact arithmetic), the condition [slices_fit] under which the [int]
      arithmetic of the code is exact, the refinement theorems, how a run
      ends, splitting a batch in two, what happens beyond the range of
      [int], batches of one item.
    - [BatchFrame]: what follows from the solver's contract: termination,
      the frame of a batch, append-only output, validity of the outputs
      written before a failure, independence from [verbose], absence of
      faults on allocated arrays, where the status returned comes from.
    - [BatchIndep]: independence of the items: when the outputs overlap no
      input and the solver is local ([SolverLocal]), each item of a batch has
      the result it has when run alone on the caller's store.
    - [BatchList]: for the solvers built by [lift], the whole call as a
      function of the caller's store: the answers of the solver to the
      items ([pt_answers]), and the fold [batch_pt_ref] that gives the
      status, the numbers written and the text printed; the same for
      [batch_rhou].
    - [BatchWorkers]: the items of [batch_pt] run by concurrent workers, as
      section 5 of the specification allows: a pool of items in flight over
      the shared store, the events [Take] (a worker reads the inputs of an
      item) and [Put] (it writes the composition), runs as lists of events
      in any interleaving.
    - [BatchStep]: the loops as transition systems on configurations
      ([Running], [Done], [Crashed]): determinism, progress, the invariant
      by induction on runs, a bound on the number of transitions, liveness
      ([eventually]), and agreement with the recursive model.
    - [CSyntax], [CSem], [CRelate], [COverflow], [CFuel], [CTyping],
      [CeqAst], [CeqDeep]: the source as syntax.  [CSyntax]: the abstract
      syntax of the fragment of C in which [src/ceq.c] is written (types
      [int], [double], [double*]; expressions; statements; functions with
      their parameters and locals).  [CSem]: an interpreter of that
      syntax in the monad [exec]: [eval_expr], [exec_stmt], [run_loop]
      for [for], [run_function] for a
      call, with the errors of a program that a C compiler rejects, and
      with two readings of an [int] result out of range ([Wraps],
      [Undefined]).  [CRelate]: two runs that are equal unless the first
      stops in an excused way ([unless]), through expressions, statements
      and calls.  [COverflow]: the relation between the two readings.
      [CFuel]: the relation between two bounds on the iterations.
      [CTyping]: the static check a compiler makes of the fragment
      ([type_expr], [check_stmt], [returns], [check_function]).
      [CeqAst]: the five functions of the source as syntax trees, statement
      by statement ([pt_fn], [rhou_fn], [batch_pt_fn], [batch_rhou_fn],
      [main_fn]).  [CeqDeep]: the trees, run by the interpreter, have the
      outcomes of the definitions of [Ceq].
    - [Report]: the reader of the error message of the batch functions (the
      fixed text, then the index in decimal) and its round trip with
      [printf].
    - [Status], [Thermo], [Newton]: the solvers as the specification
      describes them, since their sources are not under [src/].  [Status]:
      the four kinds of failure and the class [StatusCodes] of assignments
      of codes to them.  [Thermo]: the table of coefficients, of the size
      [nsp*3*9] of the doc comments of [src/ceq.c] and in an order of the
      cells that the model assumes, and the selection of the temperature
      range.  [Newton]: the control of the iterations
      ([pt_step], [pt_iterate], [pt_solve], [rhou_iterate], [rhou_solve])
      over a class [Kernel] that holds the numerical content of a step, and
      the function [newton] that puts them behind the solver interface.
    - [BatchNewton]: [batch_pt] and [batch_rhou] of [Ceq] on the solver
      [lift newton]: what a batch returns in terms of the problems its
      items pose.
    - [Linear], [Elimination], [Balance], [BalanceKernel]: the Newton step
      of the pressure-temperature solve (specification, section 4.2,
      ElementBalanceSystem), whose source is not under [src/] either.
      [Linear]: the class [Number] of the arithmetic a solver computes
      with, the class [Exact] of the arithmetic that is exact, vectors as
      lists.  [Elimination]: the direct elimination [solve] with its
      choice of a pivot that is not negligible.  [Balance]: the data of a
      step, the composition matrix as the rows of the caller's array [a]
      (shape [nel,nsp] in the doc comments of [src/ceq.c], taken to be
      stored row by row), the reduced
      system of [nel+1] equations, the step [newton_step], the
      linearised equations [linearised] that it is to solve, and the
      compositions at which nothing is to be corrected ([equilibrium]).
      [BalanceKernel]: the doubles as numbers, and the step as the
      operation [reduced_solve] of a kernel of [Newton].
    - [Demo]: a concrete store and solver; the functions are run on it by
      evaluation, and every theorem with hypotheses is applied to it.
    - [DemoDeep]: the syntax trees of [CeqAst] run on the demo store in
      both readings of overflow, calls that end in an error of the
      interpreter and functions that the check of [CTyping] rejects, a
      batch whose offsets do not fit, and the theorems of [CeqDeep]
      applied to them.
    - [DemoWorkers]: schedules of the workers run on the demo store, and the
      theorems of [BatchWorkers] applied to them.
    - [DemoNewton]: a small kernel on which the iterations of [Newton] run
      by evaluation, and the theorems of [BatchNewton] applied to it.
    - [DemoBalance]: the rationals as exact numbers; the Newton step of a
      mixture of H2, O2 and H2O run in exact arithmetic and in double
      precision, away from an equilibrium and at one; the theorems of
      [Elimination] and [Balance] applied to it.

    ** How the model corresponds to the code

    - A C [int] is a [Z]; every operation the code performs on an [int] is
      written with its wrap-around ([CInt.wrap]).  Signed overflow is
      undefined behaviour in C; the model takes the two's complement result
      that the usual targets produce, and the theorems say when no overflow
      occurs.
    - A [double] is a primitive [float].  The wrappers never compute with
      doubles, they only move them between the store and the solver.
    - A [double*] is the address of a cell; [p + k] is [ptr_add p k], and
      [p[i]] is a [load] at [ptr_add p i].  The store is shared by all
      arrays, so aliasing between the caller's arrays is part of the model.
    - Reading or writing a cell that is not allocated is a [Fault]: the run
      has no defined result.
    - [printf] appends to the standard output, a string kept in the state.
    - Each function of [src/ceq.c] is a definition of [Ceq] with the same
      name and the same parameters in the same order.  A function's body is
      a computation in the monad [exec]; [let* x := c in k] is the C
      sequence [x = c; k].
    - Each function is also a syntax tree of [CeqAst] with the declarations
      and statements of the source in their order.  In [CSem] the
      parameters and locals of a call are slots with their declared types;
      a local has no value until it is assigned, an assignment checks the
      type, and the calls of [solve_pt] and [solve_rhou] check the number
      and types of the arguments, which is what the prototypes of pt.h and
      rhou.h make a compiler do; a [printf] has one [int] argument per
      [%d] of its format.  [CeqDeep] proves that the tree and the
      definition of [Ceq] have the same outcome, so that the theorems on
      the definitions are theorems on the trees.
    - [CSem] reads an [int] result out of range in two ways: [Wraps], the
      wrap-around of [CInt], and [Undefined], an error, which is the
      reading of ISO C.  [Ceq] and the theorems on it use the first;
      [COverflow] and [CeqDeep] relate it to the second.
    - The [for] loops are [Fixpoint]s on a fuel argument.  [batch_pt] and
      [batch_rhou] supply [Z.to_nat N] units of fuel, one per iteration of
      [for (i=0; i<N; i++)]: the counter starts at 0, grows by one, and the
      guard stops it at [N], so at most [N] iterations run.  The
      termination theorems prove that this fuel is never exhausted, and the
      fuel theorems that more fuel changes nothing.
    - A [for] of [CSem] runs at most [fuel] iterations, [fuel] being an
      argument of [run_function], and tests its condition before it asks
      for fuel, as the loops of [Ceq] do; the theorems of [CeqDeep] hold
      for every [fuel] of at least [Z.to_nat N], and [CFuel] proves for
      every function of the fragment that a run which does not stop at
      the bound is the run with any larger bound: the bound has no effect
      but the fault [OutOfFuel].
    - The check of [CTyping] is that of a C compiler on this fragment
      without the implicit conversions of C, which the source does not
      use: declarations, the types of operators, calls, assignments and
      returns, the assignment of every variable before it is read on
      every path (what only a branch or the body of a loop assigns does
      not count afterwards), a [return] on every path.
    - The Newton step of [Balance] is defined once, for every arithmetic of
      the class [Number]; it runs on the doubles (the arithmetic of the
      solvers) and on the rationals.  The elimination recurs on the number
      of unknowns and needs no fuel.
    - The iterations of [Newton] are [Fixpoint]s on the number of steps
      that the policy allows ([max_inner_iter], [max_outer_iter]): the fuel
      is the iteration cap of the specification itself, and running out of
      it is the convergence failure, a result and not a missing one.

    ** What is translated, and what is assumed

    Translated from the statements of [src/ceq.c]: the definitions of
    [Ceq] and the syntax trees of [CeqAst], with the operations on [int],
    pointers and the store that they use ([CInt], [Memory], [Exec]), the
    loop they share ([Loop]) and its transition system ([BatchStep]).

    Read off the doc comments of [src/ceq.c], not translated from code:
    the sizes of the arrays in the preconditions of the safety theorems
    ([batch_allocated], [batch_rhou_allocated]: [N] cells of [p] and [T],
    [N*nsp] of [X0] and [X1], [nsp*3*9] of [lewis], [nsp] of [M],
    [nel*nsp] of [a]) and the footprints [batch_reads] and
    [batch_rhou_writes].  The comments give a size for [lewis] and a shape
    for [a], and no order of the cells; the order of [coefficient_offset]
    (species, then range, then coefficient) and the storage of [a] row by
    row ([Balance.rows]) are assumptions.  That an [int] has 32 bits is an
    assumption as well; the source only declares [int i,result].

    Modelled from the specification, because the code is not under
    [src/]: the contract of the solvers ([Solver], [PureSolver]), the
    solvers themselves ([Status], [Thermo], [Newton], [Linear],
    [Elimination], [Balance], [BalanceKernel]) and the concurrent workers
    ([BatchWorkers]).  The reference views of a batch as a function of the
    caller's store ([pt_item_answer], [pt_answers], [batch_pt_ref],
    [item_problem] and their analogues for [batch_rhou]) are
    specifications against which [batch_pt] and [batch_rhou] are proved,
    not translations.

    The theorems of [CRelate], [COverflow], [CFuel] and [CTyping] hold for
    every program of the fragment, whatever [src/ceq.c] contains; what
    they give for the five functions of the source is stated in
    [CeqDeep].  The theorems of [Status], [Thermo], [Newton],
    [Elimination] and [Balance], and those of [BatchWorkers] on the
    progress and the length of a run, are about the specification only.

    ** What the theorems show

    - [CInt]: [wrap] yields the one [int] congruent to its argument modulo
      [2^32]; the arithmetic of the loop is exact under stated bounds.
    - [Loop]: with enough fuel the loop is the fail-fast fold over
      [i, i+1, ..., N-1]; characterisation of the three ways a fold ends
      (all items returned 0; an item returned another status; an item
      faulted); relations that every item respects are respected by the
      fold.
    - [CeqFacts]: the loops of the code are instances of [failfast_loop];
      [batch_pt] with [N <= 0] returns 0 and touches nothing; [main] prints
      its line.
    - [BatchSpec]: when [N] and [(N-1)*nsp] are [int]s, [batch_pt] and
      [batch_rhou] have the outcome of their contract; they return 0 exactly
      when every item returned 0, and the status [r] of the first item that
      did not, after printing its index; a batch is its first part followed
      by its second part on the advanced arrays, up to the index reported;
      a batch of one item agrees with a direct call up to stdout; when
      [i*nsp] overflows, the solver is handed slices outside the caller's
      arrays.
    - [BatchFrame], for every solver that satisfies [SolverOk]: termination;
      only [X1[0 .. N*nsp)] (and [T[0 .. N)] for [batch_rhou]) can change;
      stdout only grows; outputs of earlier items survive later items;
      [verbose] changes neither status nor store; no fault on allocated
      arrays; the value returned is 0 or the status that the solver
      returned for an item below [N], with the values read at its index
      and the slices at its offset, in the state that the report of that
      index extends: no other value leaves the loop.
    - [BatchIndep], for every solver that also satisfies [SolverLocal]:
      after a successful batch whose outputs overlap no input, each slice of
      [X1] holds what the single solve of that input on the caller's store
      writes there.
    - [COverflow], for every program of the fragment: a run that does not
      end in a signed overflow in the reading of ISO C has the same outcome
      in the wrapping reading.
    - [CFuel], for every program of the fragment: a run that does not end
      at the bound on the iterations has the same outcome with every
      larger bound.
    - [CTyping], for every program of the fragment: a function that passes
      the check, called with arguments of the types of its parameters,
      ends with a value of its return type, with a fault of [Exec] or, in
      the reading of ISO C, with a signed overflow; the environment of
      the call keeps the declared types and never loses a value; on
      expressions the check is exact: one that evaluates to a value has
      the type of that value.
    - [CeqDeep], for every solver and store: the syntax trees of
      [batch_pt], [batch_rhou], [pt], [rhou] and [main] have the outcomes
      of the definitions of [Ceq]; in the reading of ISO C the same holds
      of a batch with [N] and [(N-1)*nsp] in the range of [int], and at an
      index whose offset is out of that range the body ends in a signed
      overflow; the five functions pass the check of [CTyping], so that a
      call of any of them with arguments of the declared types never ends
      in an error of the interpreter other than, in the reading of ISO C,
      a signed overflow.
    - [Report]: the index printed by the report of a batch is the index
      read back from the text, for every integer; the messages of the two
      functions are not confused.
    - [BatchList], for every solver [lift f]: when no item reads a cell that
      an earlier item wrote (outputs apart from the inputs, or a batch in
      place with [X1 = X0]), [batch_pt] returns the status, stores the
      numbers and prints the text that [batch_pt_ref] computes from the
      store at the call; a batch whose answers all have status 0 leaves the
      compositions of the answers in [X1], item after item.  For
      [batch_rhou] the interleaved stores to [X1] and [T] amount to the
      store of one array of compositions and one of temperatures.
    - [BatchWorkers], for every solver [lift f], when no item reads a cell
      of the slice another item writes: every pool reached holds the
      answers computed from the store at the call (the invariant
      [pool_inv]); a complete run has the status [batch_pt] returns and,
      where [batch_pt] wrote, the numbers it wrote, and for a batch without
      failure the very store [batch_pt] leaves; the workers never block or
      fault on allocated arrays; a run has at most [2 * N] events and can
      always be completed.
    - [BatchStep]: the small-step and the recursive model of the loops
      agree; the loop invariant; at most [N+1] transitions; from every
      reachable configuration a [return] or a fault is reached.
    - [Status]: a status is read back to the kind of failure it stands for,
      for every assignment of codes that satisfies the class.
    - [Thermo]: every coefficient of a species of the table is a cell of the
      [nsp*3*9] cells that the entry points hand over, different
      coefficients are different cells, and the table read from the store
      holds the contents of these cells; a temperature outside the ranges
      is rejected and the evaluator fails in no other way.  With the
      comparisons of binary64 as [FloatAxioms] specifies them (a total
      preorder on the doubles that are numbers): for bounds in order the
      temperatures that have a range are exactly those from [T_min] to
      [T_max], a boundary belongs to the range above it, what is not a
      number has no range, and for a table that passes the check of
      continuity the value at a boundary differs from that of the range
      below by at most the tolerance.
    - [Newton], for every kernel: the number of steps never exceeds the
      cap; a successful solve ended on a state that passes the convergence
      test; a failure is one of the four kinds and each has its cause; more
      steps allowed do not change a solve that converged; a failure of the
      inner solve ends the outer search with that failure; the answers have
      [nsp] fractions, so [newton] satisfies the contract [PureOk].
    - [Elimination], in exact arithmetic: for [n] equations in [n]
      unknowns, [solve] returns the one solution of the system, or fails,
      and it fails exactly when the system is singular (its homogeneous
      system has a solution other than zero); an equation without
      coefficients makes it fail.
    - [Balance], in exact arithmetic: the step that [newton_step] returns
      satisfies the linearised equations of stationarity, conservation and
      the total, gives no correction to a species at rest, and is the only
      such step; [newton_step] fails exactly when the reduced system is
      singular, and it fails when an element occurs in no species (the
      failure injection of section 8 of the specification); the step it
      returns corrects nothing exactly when the composition is an
      equilibrium with the potentials of the step: the active species are
      stationary and the elements are conserved.  In any
      arithmetic the step has a correction per species and a potential per
      element.
    - [BatchNewton]: a batch on [lift newton] with allocated arrays returns;
      its status is 0 when every item was accepted and converged, and
      else the code of the failure of the first item that did not, with
      the reason of that failure in that item (inconsistent composition,
      temperature in no range, cap reached, singular system); the
      coefficients that the items see are the contents of the caller's
      array [lewis].

    ** Not modelled

    The sources of the numerical solvers are not under [src/].  The
    theorems about [src/ceq.c] hold for every solver that satisfies the
    laws of the [Solver] interface, which are taken from the specification
    and shown satisfiable by [PureSolver.lift_ok], [PureSolver.lift_local]
    and [Newton.newton_ok].  Of the solvers themselves the control is
    modelled from the specification ([Status], [Thermo], [Newton]), and
    so is the Newton step with its reduced system and elimination
    ([Balance], [Elimination]).  The rest of their numerical content is
    not: the polynomials of the standard-state properties and the
    logarithms of the chemical potentials, the residual norms, the mixture
    energy and heat capacity.  These are the operations of the classes
    [Newton.Kernel] and [Thermo.Polynomials], of which the theorems assume
    nothing but the lengths of the lists they return; convergence of the
    iteration to the minimum of the Gibbs energy is a property of that
    content and is not claimed.  Rounding is not modelled: the theorems on
    the Newton step are theorems of exact arithmetic, and say of a
    computation in double precision only what sizes its results have;
    [DemoBalance] compares the two on an example.  The numeric defaults of
    the policy are not in the specification and are not fixed.

    The workers of [BatchWorkers] read all the inputs of an item in one
    event and write its composition in one event; interleavings of the
    single loads and stores of two items are not modelled, nor is the text
    the workers print, nor the concurrent execution of [batch_rhou].

    The byte-level layout of doubles and the representation of pointers as
    machine words are abstracted: addresses are unbounded integers counted
    in cells.  Of [printf] only the [%d] conversion is modelled, and its
    return value is ignored, as the code does.

    [CSyntax] and [CSem] cover the constructs that [src/ceq.c] uses and no
    others: no [while], [else], compound assignment, address-of, structs,
    casts or implicit conversions, and only the two external functions.
    The provenance of pointers is not modelled: forming [X0 + i*nsp] past
    the end of the caller's array is not an error of its own, only the
    access to a cell that is not allocated is. *)

From Stdlib Require Export ZArith Lia String.
From stdpp Require Export base tactics option list numbers strings.

#[global] Open Scope Z_scope.

(** ** Scope of the development's notations *)

Declare Scope ceq_scope.
Delimit Scope ceq_scope with ceq.

(** ** Hint databases

    [ceq] collects the resolution hints of the components (range facts,
    frame facts); [ceq_rw] the rewriting rules that normalise runs. *)

Create HintDb ceq discriminated.
Create Rewrite HintDb ceq_rw.

(** ** Tactics *)

(** Turn boolean comparisons on [Z] found in the context into propositions. *)
Ltac reflect_Z :=
  repeat match goal with
  | H : (_ <? _) = true |- _ => apply Z.ltb_lt in H
  | H : (_ <? _) = false |- _ => apply Z.ltb_ge in H
  | H : (_ <=? _) = true |- _ => apply Z.leb_le in H
  | H : (_ <=? _) = false |- _ => apply Z.leb_gt in H
  | H : (_ =? _) = true |- _ => apply Z.eqb_eq in H
  | H : (_ =? _) = false |- _ => apply Z.eqb_neq in H
  | H : negb _ = true |- _ => apply negb_true_iff in H
  | H : negb _ = false |- _ => apply negb_false_iff in H
  end.

(** Case analysis on the first boolean comparison on [Z] in the goal. *)
Ltac case_Zb :=
  match goal with
  | |- context [?a <? ?b] => destruct (Z.ltb_spec a b)
  | |- context [?a <=? ?b] => destruct (Z.leb_spec a b)
  | |- context [?a =? ?b] => destruct (Z.eqb_spec a b)
  end.

(** Close an arithmetic goal after reflecting the boolean tests. *)
Ltac Zdone := reflect_Z; first [done | lia | congruence].

(** ** Strings *)

Section strings.
Implicit Types s t u : string.

Lemma append_cons c s t : String c s +:+ t = String c (s +:+ t).
Proof. reflexivity. Qed.

Lemma append_nil_r s : s +:+ "" = s.
Proof. induction s as [|c s IH]; [done|]. by rewrite append_cons, IH. Qed.

Lemma append_assoc s t u : (s +:+ t) +:+ u = s +:+ (t +:+ u).
Proof. induction s as [|c s IH]; [done|]. by rewrite !append_cons, IH. Qed.

Lemma append_length s t :
  String.length (s +:+ t) = (String.length s + String.length t)%nat.
Proof. induction s as [|c s IH]; [done|]. rewrite append_cons. simpl. lia. Qed.

(** A stream can only be extended in one way to a given stream. *)
Lemma append_inv_l s t u : s +:+ t = s +:+ u → t = u.
Proof. apply (inj (String.app s)). Qed.

(** [s] is an initial segment of [t]: the output [t] extends [s]. *)
Definition extends (s t : string) : Prop := ∃ u, t = s +:+ u.

#[export] Instance extends_refl : Reflexive extends.
Proof. intros s. exists "". by rewrite append_nil_r. Qed.

#[export] Instance extends_trans : Transitive extends.
Proof.
  intros s t u [v ->] [w ->]. exists (v +:+ w). by rewrite append_assoc.
Qed.

Lemma extends_append s t : extends s (s +:+ t).
Proof. by exists t. Qed.

End strings.

#[export] Hint Resolve extends_append : ceq.
#[export] Hint Rewrite append_nil_r append_assoc : ceq_rw.

(** ** Lists and options *)

Section lists.
Context {A B : Type}.
Implicit Types f g : A → option B.
Implicit Types l : list A.

(** [mapM] only looks at the function on the elements of the list. *)
Lemma mapM_ext_Forall f g l :
  Forall (λ x, f x = g x) l → mapM f l = mapM g l.
Proof.
  induction 1 as [|x l Hx _ IH]; [done|]. simpl. by rewrite Hx, IH.
Qed.

End lists.

(** ** Integer intervals

    [between lo n x] says that [x] is one of the [n] integers from [lo] on:
    the cells of an array of [n] elements that starts at [lo]. *)

Definition between (lo n x : Z) : Prop := lo ≤ x < lo + n.

#[export] Instance between_dec lo n x : Decision (between lo n x).
Proof. unfold between. apply _. Defined.

Section intervals.
Implicit Types lo n x i k : Z.

Lemma between_empty lo n x : n ≤ 0 → ¬ between lo n x.
Proof. unfold between. lia. Qed.

Lemma between_seqZ lo n x : between lo n x ↔ x ∈ seqZ lo n.
Proof. unfold between. by rewrite elem_of_seqZ. Qed.

(** The [i]-th slice of width [k] of an array of [n] slices. *)
Lemma between_slice lo n k i x :
  0 ≤ i < n → between (lo + i * k) k x → between lo (n * k) x.
Proof. unfold between. intros Hi Hx. assert (0 < k) by lia. nia. Qed.

(** Two different slices of the same width share no cell. *)
Lemma slices_disjoint lo k i j x :
  i ≠ j → between (lo + i * k) k x → between (lo + j * k) k x → False.
Proof. unfold between. nia. Qed.

Lemma between_split lo n1 n2 x :
  0 ≤ n1 → 0 ≤ n2 →
  between lo (n1 + n2) x ↔ between lo n1 x ∨ between (lo + n1) n2 x.
Proof. unfold between. lia. Qed.

(** The indices from [m] on are the indices from 0 on, shifted. *)
Lemma seqZ_shift m n : seqZ m n = Z.add m <$> seqZ 0 n.
Proof. by rewrite fmap_add_seqZ, Z.add_0_r. Qed.

(** [seqZ m n] around one of its elements. *)
Lemma seqZ_split m n i :
  m ≤ i < m + n →
  seqZ m n = seqZ m (i - m) ++ i :: seqZ (i + 1) (m + n - i - 1).
Proof.
  intros Hi. replace n with ((i - m) + (n - (i - m))) at 1 by lia.
  rewrite seqZ_app by lia. f_equal.
  rewrite seqZ_cons by lia. f_equal; [lia|]. f_equal; lia.
Qed.

(** An element of [seqZ m n] determines what precedes and what follows it. *)
Lemma seqZ_middle m n (pre post : list Z) i :
  seqZ m n = pre ++ i :: post →
  m ≤ i < m + n ∧ pre = seqZ m (i - m) ∧ post = seqZ (i + 1) (m + n - i - 1).
Proof.
  intros Heq.
  assert (seqZ m n !! length pre = Some i) as [-> Hlt]%lookup_seqZ
    by (rewrite Heq; apply list_lookup_middle; done).
  remember (Z.of_nat (length pre)) as k eqn:Hk.
  assert (length pre = Z.to_nat k) as Hlen by lia.
  replace n with (k + (n - k)) in Heq by lia.
  rewrite seqZ_app in Heq by lia.
  apply app_inj_1 in Heq as [Hpre Hrest]; [|rewrite length_seqZ; lia].
  rewrite seqZ_cons in Hrest by lia. injection Hrest as Hpost.
  split; [lia|]. split.
  - rewrite <- Hpre. f_equal. lia.
  - rewrite <- Hpost. f_equal; lia.
Qed.

(** A relation between the indices from [i] on and the elements of a list
    holds of the first elements of the list. *)
Lemma Forall2_seqZ_take {A} (P : Z → A → Prop) (l : list A) : ∀ i (k : nat),
  Forall2 P (seqZ i (Z.of_nat (length l))) l →
  Forall2 P (seqZ i (Z.of_nat (length (take k l)))) (take k l).
Proof.
  induction l as [|x l IH]; intros i [|k]; cbn [take firstn length];
    try by constructor.
  rewrite !Nat2Z.inj_succ, (seqZ_cons i (Z.succ (Z.of_nat (length l)))),
    (seqZ_cons i (Z.succ (Z.of_nat (length (take k l))))), !Z.pred_succ
    by lia.
  intros [Hx Hl]%Forall2_cons. constructor; [done|by apply IH].
Qed.

End intervals.

#[export] Hint Resolve between_slice : ceq.
#[export] Hint Unfold between : ceq.
