(* ===== verification/CInt.v ===== *)
(** * CInt: the C type [int]

    The counters, sizes and status codes of [src/ceq.c] are C [int]s:
    32-bit two's complement integers.  A value is carried by a [Z] in
    [INT_MIN .. INT_MAX]; the operations the code performs ([i++], [i*nsp],
    [i<N], [result!=0]) are written with their wrap-around, and the lemmas
    say when the result is the mathematical one. *)

From S2P Require Import Prelude.

(** ** Range and wrap-around *)

Definition INT_MIN : Z := -2147483648.
Definition INT_MAX : Z := 2147483647.
Definition int_modulus : Z := 4294967296.

(** [z] is the value of some [int]. *)
Definition in_int (z : Z) : Prop := INT_MIN ≤ z ≤ INT_MAX.

#[export] Instance in_int_dec z : Decision (in_int z).
Proof. unfold in_int. apply _. Defined.

(** The representative of [z] modulo [2^32] in the range of [int]. *)
Definition wrap (z : Z) : Z := (z - INT_MIN) mod int_modulus + INT_MIN.

(** ** The operations of the code *)

(** [a + b] on [int]s; [i++] is [int_add i 1]. *)
Definition int_add (a b : Z) : Z := wrap (a + b).

(** [a * b] on [int]s; the slice offset is [int_mul i nsp]. *)
Definition int_mul (a b : Z) : Z := wrap (a * b).

(** [a < b], the loop guard [i<N]. *)
Definition int_lt (a b : Z) : bool := a <? b.

(** [a != b], the status test [result!=0]. *)
Definition int_ne (a b : Z) : bool := negb (a =? b).

(** Unfold the layer of definitions above, turn the divisions into their
    equations and call [lia]. *)
Ltac int_lia :=
  unfold int_add, int_mul, wrap, in_int, INT_MIN, INT_MAX, int_modulus in *;
  Z.div_mod_to_equations; lia.

(** ** The constants are the powers of two of a 32-bit word *)

Lemma INT_MIN_pow : INT_MIN = - 2 ^ 31.
Proof. reflexivity. Qed.

Lemma INT_MAX_pow : INT_MAX = 2 ^ 31 - 1.
Proof. reflexivity. Qed.

Lemma int_modulus_pow : int_modulus = 2 ^ 32.
Proof. reflexivity. Qed.

(** ** Wrap-around *)

Section wrap.
Implicit Types a b z : Z.

Lemma wrap_in_int z : in_int (wrap z).
Proof. int_lia. Qed.

Lemma wrap_id z : in_int z → wrap z = z.
Proof. int_lia. Qed.

Lemma wrap_fixed z : wrap z = z ↔ in_int z.
Proof. split; [intros <-; apply wrap_in_int | apply wrap_id]. Qed.

Lemma wrap_idemp z : wrap (wrap z) = wrap z.
Proof. apply wrap_id, wrap_in_int. Qed.

(** [wrap z] differs from [z] by a multiple of [2^32]. *)
Lemma wrap_congruent z : ∃ k, wrap z = z + k * int_modulus.
Proof.
  exists (- ((z - INT_MIN) / int_modulus)). unfold wrap.
  pose proof (Z.div_mod (z - INT_MIN) int_modulus) as H.
  unfold int_modulus in *. lia.
Qed.

Lemma wrap_shift z k : wrap (z + k * int_modulus) = wrap z.
Proof.
  unfold wrap. f_equal.
  replace (z + k * int_modulus - INT_MIN) with (z - INT_MIN + k * int_modulus)
    by lia.
  apply Z.mod_add. unfold int_modulus; lia.
Qed.

Lemma wrap_add_l a b : wrap (wrap a + b) = wrap (a + b).
Proof.
  destruct (wrap_congruent a) as [k ->].
  replace (a + k * int_modulus + b) with (a + b + k * int_modulus) by lia.
  apply wrap_shift.
Qed.

Lemma wrap_mul_l a b : wrap (wrap a * b) = wrap (a * b).
Proof.
  destruct (wrap_congruent a) as [k ->].
  replace ((a + k * int_modulus) * b) with (a * b + (k * b) * int_modulus)
    by lia.
  apply wrap_shift.
Qed.

(** One overflow upwards wraps to the value minus [2^32]. *)
Lemma wrap_overflow z :
  INT_MAX < z ≤ INT_MAX + int_modulus → wrap z = z - int_modulus.
Proof. int_lia. Qed.

End wrap.

#[export] Hint Resolve wrap_in_int : ceq.
#[export] Hint Rewrite wrap_idemp : ceq_rw.

(** ** Arithmetic *)

Section arith.
Implicit Types a b i N nsp : Z.

Lemma int_add_in_int a b : in_int (int_add a b).
Proof. apply wrap_in_int. Qed.

Lemma int_mul_in_int a b : in_int (int_mul a b).
Proof. apply wrap_in_int. Qed.

Lemma int_add_exact a b : in_int (a + b) → int_add a b = a + b.
Proof. apply wrap_id. Qed.

Lemma int_mul_exact a b : in_int (a * b) → int_mul a b = a * b.
Proof. apply wrap_id. Qed.

Lemma int_add_comm a b : int_add a b = int_add b a.
Proof. unfold int_add. f_equal. lia. Qed.

Lemma int_mul_comm a b : int_mul a b = int_mul b a.
Proof. unfold int_mul. f_equal. lia. Qed.

Lemma int_mul_0_l b : int_mul 0 b = 0.
Proof. reflexivity. Qed.

Lemma int_lt_spec a b : reflect (a < b) (int_lt a b).
Proof. apply Z.ltb_spec0. Qed.

Lemma int_ne_spec a b : reflect (a ≠ b) (int_ne a b).
Proof. unfold int_ne. destruct (Z.eqb_spec a b); constructor; auto. Qed.

Lemma int_lt_true a b : int_lt a b = true ↔ a < b.
Proof. unfold int_lt. apply Z.ltb_lt. Qed.

Lemma int_lt_false a b : int_lt a b = false ↔ b ≤ a.
Proof. unfold int_lt. apply Z.ltb_ge. Qed.

Lemma int_ne_true a b : int_ne a b = true ↔ a ≠ b.
Proof. unfold int_ne. rewrite negb_true_iff. apply Z.eqb_neq. Qed.

Lemma int_ne_false a b : int_ne a b = false ↔ a = b.
Proof. unfold int_ne. rewrite negb_false_iff. apply Z.eqb_eq. Qed.

(** Product of two non-negative factors below a bound. *)
Lemma mul_le_bound i N nsp :
  0 ≤ i < N → 0 ≤ nsp → 0 ≤ i * nsp ≤ (N - 1) * nsp.
Proof. nia. Qed.

End arith.

#[export] Hint Resolve int_add_in_int int_mul_in_int : ceq.
#[export] Hint Rewrite int_mul_0_l : ceq_rw.

(** Reflect the tests of the code found in the context. *)
Ltac reflect_int :=
  repeat match goal with
  | H : int_lt _ _ = true |- _ => apply int_lt_true in H
  | H : int_lt _ _ = false |- _ => apply int_lt_false in H
  | H : int_ne _ _ = true |- _ => apply int_ne_true in H
  | H : int_ne _ _ = false |- _ => apply int_ne_false in H
  end.

(** Decide the tests of the code found in the goal from the context. *)
Ltac decide_tests :=
  repeat first
    [ rewrite (proj2 (int_lt_true _ _)) by (done || lia)
    | rewrite (proj2 (int_lt_false _ _)) by (done || lia)
    | rewrite (proj2 (int_ne_true _ _)) by (done || lia)
    | rewrite (proj2 (int_ne_false _ _)) by (done || lia) ].

(** ** The index arithmetic of the batch loops *)

Section index.
Implicit Types i N nsp : Z.

(** [i++] under the guard [i<N]: the counter never overflows, because
    [N] is itself an [int]. *)
Lemma int_succ_exact i N : in_int N → 0 ≤ i < N → int_add i 1 = i + 1.
Proof. intros. apply int_add_exact. int_lia. Qed.

(** [i*nsp] is the mathematical product for every index of a batch whose
    last slice starts at an offset that fits in an [int]. *)
Lemma int_mul_index_exact i N nsp :
  0 ≤ i < N → 0 ≤ nsp → (N - 1) * nsp ≤ INT_MAX → int_mul i nsp = i * nsp.
Proof.
  intros Hi Hnsp Hmax. apply int_mul_exact.
  pose proof (mul_le_bound i N nsp Hi Hnsp). int_lia.
Qed.

(** Beyond [INT_MAX] the product wraps: the offset of the slice is negative
    as long as the product stays below [2^32]. *)
Lemma int_mul_index_overflow i nsp :
  INT_MAX < i * nsp ≤ INT_MAX + int_modulus →
  int_mul i nsp = i * nsp - int_modulus.
Proof. apply wrap_overflow. Qed.

End index.

(** ** What [wrap] is *)

(** The value an [int] takes for the mathematical result [z] is the
    one number of the range [INT_MIN .. INT_MAX] that differs from [z] by a
    multiple of [2^32]. *)
Theorem wrap_characterised z r :
  wrap z = r ↔ in_int r ∧ ∃ k, r = z + k * int_modulus.
Proof.
  split.
  - intros <-. split; [apply wrap_in_int|apply wrap_congruent].
  - intros [Hr [k ->]]. rewrite <- (wrap_shift z k). by apply wrap_id.
Qed.
