(* ===== verification/Memory.v ===== *)
(** * Memory: the store of doubles

    Every array that [src/ceq.c] receives ([p], [T], [rho], [u], [X0], [X1],
    [lewis], [M], [a]) is a [double*] into memory owned by the caller.  The
    store is one finite map from cell addresses to doubles, shared by all
    arrays: two pointers may alias, and a write through one is seen through
    the other.  Addresses count cells of [sizeof(double)] bytes.

    - [ptr_add p k] is the C expression [p + k] on a [double*];
    - [load m p] is the rvalue [*p] ([p[i]] is [load m (ptr_add p i)]);
      it is [None] when the cell is not allocated;
    - [store m p v] is the assignment [*p = v], [None] outside the
      allocated cells (a store never allocates);
    - [load_array] and [store_array] read and write [n] consecutive cells,
      the way a callee walks an array argument. *)

From Corelib Require Import PrimFloat.
From stdpp Require Import gmap.
From S2P Require Import Prelude.

(** A C [double]. *)
Abbreviation double := float (only parsing).

(** A [double*]: the address of a cell. *)
Abbreviation ptr := Z (only parsing).

(** The store. *)
Abbreviation mem := (gmap Z float) (only parsing).

(** ** Operations *)

Definition ptr_add (p : ptr) (k : Z) : ptr := p + k.

Definition load (m : mem) (p : ptr) : option double := m !! p.

Definition store (m : mem) (p : ptr) (v : double) : option mem :=
  match m !! p with
  | Some _ => Some (<[p := v]> m)
  | None => None
  end.

(** The [n] cells from [p] on, in order; nothing when [n <= 0]. *)
Definition load_array (m : mem) (p : ptr) (n : Z) : option (list double) :=
  mapM (load m) (seqZ p n).

(** Write the elements of [l] to the cells from [p] on, first to last. *)
Fixpoint store_array (m : mem) (p : ptr) (l : list double) : option mem :=
  match l with
  | [] => Some m
  | v :: l' =>
      match store m p v with
      | Some m' => store_array m' (ptr_add p 1) l'
      | None => None
      end
  end.

(** ** Regions and frames *)

(** The [n] cells from [p] on are allocated in [m]. *)
Definition allocated (m : mem) (p : ptr) (n : Z) : Prop :=
  ∀ a, between p n a → is_Some (m !! a).

(** [m1] and [m2] hold the same value in every cell that satisfies [P]. *)
Definition agree_on (P : Z → Prop) (m1 m2 : mem) : Prop :=
  ∀ a, P a → m1 !! a = m2 !! a.

(** [m'] differs from [m] at most in the cells that satisfy [P]. *)
Definition unchanged_except (P : Z → Prop) (m m' : mem) : Prop :=
  agree_on (λ a, ¬ P a) m m'.

(** [m'] differs from [m] at most in the [n] cells from [p] on. *)
Abbreviation unchanged_outside p n := (unchanged_except (between p n)).

(** [m'] has the cells of [m]: nothing was allocated or freed. *)
Definition same_cells (m m' : mem) : Prop :=
  ∀ a, is_Some (m !! a) ↔ is_Some (m' !! a).

(** ** Pointer arithmetic *)

Section pointers.
Implicit Types p : ptr.
Implicit Types k n i : Z.

Lemma ptr_add_0 p : ptr_add p 0 = p.
Proof. unfold ptr_add. lia. Qed.

Lemma ptr_add_add p k n : ptr_add (ptr_add p k) n = ptr_add p (k + n).
Proof. unfold ptr_add. lia. Qed.

(** The slice [i] of width [k] of an array at [p] lies inside the array of
    [n] slices. *)
Lemma slice_between p n k i a :
  0 ≤ i < n → between (ptr_add p (i * k)) k a → between p (n * k) a.
Proof. apply between_slice. Qed.

End pointers.

#[export] Hint Rewrite ptr_add_0 ptr_add_add : ceq_rw.

(** ** Agreement is an equivalence, frames are a preorder *)

Section relations.
Implicit Types m : mem.
Implicit Types P Q : Z → Prop.

#[export] Instance agree_on_equiv P : Equivalence (agree_on P).
Proof.
  split.
  - by intros m a _.
  - intros m1 m2 H a Ha. symmetry. by apply H.
  - intros m1 m2 m3 H12 H23 a Ha. rewrite H12 by done. by apply H23.
Qed.

Lemma agree_on_weaken P Q m1 m2 :
  (∀ a, Q a → P a) → agree_on P m1 m2 → agree_on Q m1 m2.
Proof. intros HQP H a Ha. apply H, HQP, Ha. Qed.

Lemma agree_on_all m1 m2 : agree_on (λ _, True) m1 m2 → m1 = m2.
Proof. intros H. apply map_eq. intros a. by apply H. Qed.

#[export] Instance unchanged_except_preorder P : PreOrder (unchanged_except P).
Proof.
  unfold unchanged_except. split.
  - intros m. reflexivity.
  - intros m1 m2 m3 H12 H23. by etrans.
Qed.

(** A frame can be widened to any set of cells that contains it. *)
Lemma unchanged_except_weaken P Q m m' :
  (∀ a, P a → Q a) → unchanged_except P m m' → unchanged_except Q m m'.
Proof. intros Hin. apply agree_on_weaken. intros a Ha Hb. auto. Qed.

(** Nothing changes under a frame on an empty region. *)
Lemma unchanged_outside_empty p n m m' :
  n ≤ 0 → unchanged_outside p n m m' → m = m'.
Proof.
  intros Hn H. apply agree_on_all. revert H. apply agree_on_weaken.
  intros a _. by apply between_empty.
Qed.

(** What is outside the frame agrees before and after. *)
Lemma unchanged_except_agree P Q m m' :
  (∀ a, Q a → ¬ P a) → unchanged_except P m m' → agree_on Q m m'.
Proof. intros HP. by apply agree_on_weaken. Qed.

#[export] Instance same_cells_equiv : Equivalence same_cells.
Proof.
  split.
  - by intros m a.
  - intros m1 m2 H a. symmetry. apply H.
  - intros m1 m2 m3 H12 H23 a. by rewrite (H12 a).
Qed.

Lemma same_cells_allocated m m' p n :
  same_cells m m' → allocated m p n → allocated m' p n.
Proof. intros Hc Ha a Hb. apply Hc, Ha, Hb. Qed.

Lemma allocated_weaken m p n q k :
  (∀ a, between q k a → between p n a) → allocated m p n → allocated m q k.
Proof. intros Hin Ha a Hb. apply Ha, Hin, Hb. Qed.

(** A region is allocated when each of its cells is: this is how the
    property is decided on a concrete store. *)
Lemma allocated_Forall m p n :
  allocated m p n ↔ Forall (λ a, is_Some (m !! a)) (seqZ p n).
Proof.
  rewrite Forall_forall. unfold allocated.
  by setoid_rewrite <- between_seqZ.
Qed.

End relations.

#[export] Instance allocated_dec m p n : Decision (allocated m p n).
Proof.
  refine (cast_if (decide (Forall (λ a, is_Some (m !! a)) (seqZ p n))));
    by rewrite allocated_Forall.
Defined.

#[export] Hint Resolve same_cells_allocated : ceq.

(** ** Loads and stores of one cell *)

Section cells.
Implicit Types m : mem.
Implicit Types p q : ptr.
Implicit Types v : double.

Lemma load_allocated m p : allocated m p 1 → is_Some (load m p).
Proof. intros H. apply H. unfold between. lia. Qed.

Lemma load_agree P m1 m2 p : agree_on P m1 m2 → P p → load m1 p = load m2 p.
Proof. intros H Hp. by apply H. Qed.

Lemma store_Some m p v :
  is_Some (m !! p) → store m p v = Some (<[p := v]> m).
Proof. intros [w Hw]. unfold store. by rewrite Hw. Qed.

Lemma store_None m p v : m !! p = None → store m p v = None.
Proof. intros H. unfold store. by rewrite H. Qed.

Lemma store_inv m p v m' :
  store m p v = Some m' → is_Some (m !! p) ∧ m' = <[p := v]> m.
Proof. unfold store. destruct (m !! p) eqn:E; naive_solver. Qed.

Lemma load_store_same m p v m' : store m p v = Some m' → load m' p = Some v.
Proof.
  intros (_ & ->)%store_inv. unfold load. apply lookup_insert_eq.
Qed.

Lemma load_store_other m p q v m' :
  store m p v = Some m' → p ≠ q → load m' q = load m q.
Proof.
  intros (_ & ->)%store_inv Hne. unfold load. by apply lookup_insert_ne.
Qed.

Lemma store_same_cells m p v m' : store m p v = Some m' → same_cells m m'.
Proof.
  intros (Hp & ->)%store_inv a.
  destruct (decide (p = a)) as [<-|Hne].
  - rewrite lookup_insert_eq. naive_solver.
  - by rewrite lookup_insert_ne.
Qed.

Lemma store_unchanged_outside m p v m' :
  store m p v = Some m' → unchanged_outside p 1 m m'.
Proof.
  intros (_ & ->)%store_inv a Ha. symmetry. apply lookup_insert_ne.
  intros <-. apply Ha. unfold between. lia.
Qed.

End cells.

(** ** Arrays *)

Section arrays.
Implicit Types m : mem.
Implicit Types p : ptr.
Implicit Types n : Z.
Implicit Types l : list double.

Lemma load_array_Some m p n l :
  load_array m p n = Some l ↔
  Forall2 (λ a v, m !! a = Some v) (seqZ p n) l.
Proof. unfold load_array. apply mapM_Some. Qed.

Lemma load_array_length m p n l :
  load_array m p n = Some l → length l = Z.to_nat n.
Proof.
  intros H%load_array_Some%Forall2_length. by rewrite length_seqZ in H.
Qed.

Lemma load_array_lookup m p n l (i : nat) :
  load_array m p n = Some l → Z.of_nat i < n →
  m !! (p + Z.of_nat i) = l !! i.
Proof.
  intros H%load_array_Some Hi.
  destruct (Forall2_lookup_l _ _ _ i (p + Z.of_nat i) H) as (v & Hv & ->);
    [by apply lookup_seqZ_lt | done].
Qed.

(** A region can be read exactly when it is allocated. *)
Lemma load_array_is_Some m p n :
  is_Some (load_array m p n) ↔ allocated m p n.
Proof.
  unfold load_array. rewrite mapM_is_Some, Forall_seqZ. reflexivity.
Qed.

(** The result of a read only depends on the cells read. *)
Lemma load_array_agree m1 m2 p n :
  agree_on (between p n) m1 m2 → load_array m1 p n = load_array m2 p n.
Proof.
  intros H. unfold load_array. apply mapM_ext_Forall.
  apply Forall_seqZ. intros a Ha. by apply H.
Qed.

Lemma load_array_empty m p n : n ≤ 0 → load_array m p n = Some [].
Proof. intros Hn. unfold load_array. by rewrite seqZ_nil. Qed.

(** Reading [n + 1] cells is reading one cell and then [n] cells. *)
Lemma load_array_cons m p n :
  0 ≤ n →
  load_array m p (n + 1) =
  v ← load m p; l ← load_array m (ptr_add p 1) n; Some (v :: l).
Proof.
  intros Hn. unfold load_array, ptr_add.
  rewrite seqZ_cons by lia. simpl.
  replace (Z.succ p) with (p + 1) by lia.
  replace (Z.pred (n + 1)) with n by lia.
  destruct (load m p); simpl; [|done].
  by destruct (mapM (load m) (seqZ (p + 1) n)).
Qed.

Lemma store_array_inv m p l m' :
  store_array m p l = Some m' →
  allocated m p (Z.of_nat (length l)) ∧
  ∀ a, m' !! a =
       if decide (between p (Z.of_nat (length l)) a)
       then l !! Z.to_nat (a - p) else m !! a.
Proof.
  revert m p. induction l as [|v l IH]; intros m p; simpl.
  - intros [= <-]. split; [intros a Ha; unfold between in Ha; lia|].
    intros a. case_decide as Hb; [unfold between in Hb; lia | done].
  - destruct (store m p v) as [m1|] eqn:Hst; [|done].
    intros (Hal & Hlk)%IH. apply store_inv in Hst as (Hp & ->).
    unfold allocated, ptr_add, between in *. split.
    + intros a Ha. destruct (decide (a = p)) as [->|Hne]; [done|].
      specialize (Hal a). rewrite lookup_insert_ne in Hal by done.
      apply Hal. lia.
    + intros a. rewrite Hlk. clear Hlk Hal IH.
      destruct (decide (a = p)) as [->|Hne].
      * rewrite decide_False, decide_True by lia.
        rewrite lookup_insert_eq. by replace (p - p) with 0 by lia.
      * rewrite lookup_insert_ne by done.
        repeat case_decide; try lia; [|done].
        replace (Z.to_nat (a - p)) with (S (Z.to_nat (a - (p + 1)))) by lia.
        done.
Qed.

(** A region can be written exactly when it is allocated. *)
Lemma store_array_is_Some m p l :
  is_Some (store_array m p l) ↔ allocated m p (Z.of_nat (length l)).
Proof.
  split; [intros [m' H]; by apply store_array_inv in H as [? _]|].
  revert m p. induction l as [|v l IH]; intros m p Hal; simpl; [by eexists|].
  assert (is_Some (m !! p)) as Hp
    by (apply Hal; unfold between; simpl length; lia).
  rewrite (store_Some _ _ _ Hp). apply IH.
  unfold allocated, ptr_add, between in *. intros a Ha.
  rewrite lookup_insert_ne by lia. apply Hal. simpl length. lia.
Qed.

Lemma store_array_unchanged_outside m p l m' :
  store_array m p l = Some m' →
  unchanged_outside p (Z.of_nat (length l)) m m'.
Proof.
  intros (_ & Hlk)%store_array_inv a Ha. by rewrite Hlk, decide_False.
Qed.

Lemma store_array_same_cells m p l m' :
  store_array m p l = Some m' → same_cells m m'.
Proof.
  intros (Hal & Hlk)%store_array_inv a. rewrite Hlk.
  case_decide as Hb; [|done].
  split; [intros _|intros _; by apply Hal].
  apply lookup_lt_is_Some. unfold between in Hb. lia.
Qed.

(** What was written is what is read back. *)
(** The same list stored at the same place in two stores makes them agree
    there, and can be stored in both or in neither when they have the same
    cells. *)
Lemma store_array_agree m1 m2 p l m1' m2' :
  store_array m1 p l = Some m1' → store_array m2 p l = Some m2' →
  agree_on (between p (Z.of_nat (length l))) m1' m2'.
Proof.
  intros (_ & H1)%store_array_inv (_ & H2)%store_array_inv a Ha.
  by rewrite H1, H2, !decide_True.
Qed.

Lemma store_array_same_cells_None m1 m2 p l :
  same_cells m1 m2 → store_array m1 p l = None → store_array m2 p l = None.
Proof.
  intros Hc H1. apply eq_None_not_Some. rewrite store_array_is_Some.
  intros Hal. apply (same_cells_allocated m2 m1) in Hal; [|done].
  apply store_array_is_Some in Hal as [m' Hm']. congruence.
Qed.

(** Storing a list is storing its first part and then the rest after
    it. *)
Lemma store_array_app m p l1 l2 :
  store_array m p (l1 ++ l2)
  = store_array m p l1 ≫= λ m1,
      store_array m1 (ptr_add p (Z.of_nat (length l1))) l2.
Proof.
  revert m p. induction l1 as [|v l1 IH]; intros m p; simpl.
  - by rewrite ptr_add_0.
  - destruct (store m p v) as [m1|]; simpl; [|done].
    rewrite IH, ptr_add_add.
    by replace (1 + Z.of_nat (length l1)) with (Z.of_nat (S (length l1)))
      by lia.
Qed.

(** Stores to different cells commute. *)
Lemma store_store_comm m p q v w :
  p ≠ q →
  store m p v ≫= (λ m1, store m1 q w) = store m q w ≫= (λ m1, store m1 p v).
Proof.
  intros Hpq. unfold store.
  destruct (m !! p) as [vp|] eqn:Hp, (m !! q) as [vq|] eqn:Hq; simpl;
    rewrite ?lookup_insert_ne, ?Hp, ?Hq by done; try done.
  by rewrite insert_insert_ne.
Qed.

(** A store to a cell outside an array commutes with the store of the
    array. *)
Lemma store_store_array_comm m p v q l :
  ¬ between q (Z.of_nat (length l)) p →
  store m p v ≫= (λ m1, store_array m1 q l)
  = store_array m q l ≫= (λ m1, store m1 p v).
Proof.
  revert m q. induction l as [|w l IH]; intros m q Hp; simpl.
  - by destruct (store m p v).
  - assert (p ≠ q) as Hpq by (unfold between in Hp; simpl length in Hp; lia).
    pose proof (store_store_comm m p q v w Hpq) as Hc.
    destruct (store m q w) as [m2|] eqn:Hq; simpl in *.
    + rewrite <- IH by (unfold between, ptr_add in *; simpl length in Hp; lia).
      destruct (store m p v) as [m1|]; simpl in *;
        [by rewrite Hc|by rewrite <- Hc].
    + destruct (store m p v) as [m1|]; simpl in *; [by rewrite Hc|done].
Qed.

(** Two arrays stored one after the other, the first in two parts: the
    first element of the second array can be stored between the parts when
    its cell is not in the second part. *)
Lemma store_array_interleave m q l1 l2 p v l3 mX m' :
  ¬ between (q + Z.of_nat (length l1)) (Z.of_nat (length l2)) p →
  store_array m q (l1 ++ l2) = Some mX →
  store_array mX p (v :: l3) = Some m' →
  ∃ m1 m2 m3,
    store_array m q l1 = Some m1 ∧ store m1 p v = Some m2 ∧
    store_array m2 (q + Z.of_nat (length l1)) l2 = Some m3 ∧
    store_array m3 (p + 1) l3 = Some m'.
Proof.
  intros Hp. rewrite store_array_app. unfold ptr_add. simpl.
  destruct (store_array m q l1) as [m1|]; simpl; [|done]. intros H2.
  destruct (store mX p v) as [m3|] eqn:H3; [|done]. intros H4.
  pose proof (store_store_array_comm m1 p v _ l2 Hp) as Hc.
  rewrite H2 in Hc. simpl in Hc. rewrite H3 in Hc.
  destruct (store m1 p v) as [m2|] eqn:H1; [|done]. simpl in Hc.
  unfold ptr_add in *. by exists m1, m2, m3.
Qed.

Lemma load_store_array m p l m' :
  store_array m p l = Some m' →
  load_array m' p (Z.of_nat (length l)) = Some l.
Proof.
  intros (_ & Hlk)%store_array_inv. apply load_array_Some.
  apply Forall2_same_length_lookup. split; [by rewrite length_seqZ; lia|].
  intros i a v (-> & Hi)%lookup_seqZ Hv.
  rewrite Hlk, decide_True by (unfold between; lia).
  by replace (Z.to_nat (p + Z.of_nat i - p)) with i by lia.
Qed.

(** Reading two adjoining regions is reading the region they form. *)
Lemma load_array_app m p n1 n2 l1 l2 :
  0 ≤ n1 → 0 ≤ n2 →
  load_array m p n1 = Some l1 → load_array m (ptr_add p n1) n2 = Some l2 →
  load_array m p (n1 + n2) = Some (l1 ++ l2).
Proof.
  rewrite !load_array_Some. intros Hn1 Hn2 H1 H2.
  rewrite seqZ_app by done. by apply Forall2_app.
Qed.

(** Reading slices of width [k] one after the other from slice [i] on is
    reading the region they form. *)
Lemma load_array_concat m p k (ls : list (list double)) : ∀ i,
  0 ≤ k →
  Forall2 (λ j l, load_array m (p + j * k) k = Some l)
          (seqZ i (Z.of_nat (length ls))) ls →
  load_array m (p + i * k) (Z.of_nat (length ls) * k) = Some (concat ls).
Proof.
  induction ls as [|l ls IH]; intros i Hk; simpl length.
  { intros _. by apply load_array_empty. }
  rewrite Nat2Z.inj_succ, seqZ_cons, Z.pred_succ by lia.
  intros [Hl Hls]%Forall2_cons. simpl.
  replace (Z.succ (Z.of_nat (length ls)) * k)
    with (k + Z.of_nat (length ls) * k) by lia.
  apply load_array_app; [lia|nia|done|]. unfold ptr_add.
  replace (p + i * k + k) with (p + Z.succ i * k) by lia. by apply IH.
Qed.

(** Two stores in which a region reads the same agree on the region. *)
Lemma load_array_same m1 m2 p n l :
  load_array m1 p n = Some l → load_array m2 p n = Some l →
  agree_on (between p n) m1 m2.
Proof.
  intros H1 H2 c Hc. unfold between in Hc.
  replace c with (p + Z.of_nat (Z.to_nat (c - p))) by lia.
  rewrite (load_array_lookup _ _ _ _ _ H1), (load_array_lookup _ _ _ _ _ H2);
    [done|lia..].
Qed.

(** The store after writing a region is determined by the content of the
    region and the cells outside it. *)
Lemma store_array_unique m p l m1 m' :
  store_array m p l = Some m' →
  load_array m1 p (Z.of_nat (length l)) = Some l →
  unchanged_outside p (Z.of_nat (length l)) m m1 →
  m1 = m'.
Proof.
  intros (_ & Hlk)%store_array_inv Hld Hout. apply map_eq. intros c.
  rewrite Hlk. case_decide as Hc; [|symmetry; by apply Hout].
  rewrite <- (load_array_lookup _ _ _ _ _ Hld) by (unfold between in Hc; lia).
  f_equal. unfold between in Hc. lia.
Qed.

End arrays.

#[export] Hint Resolve store_array_unchanged_outside store_array_same_cells
  store_unchanged_outside store_same_cells : ceq.
