(* ===== verification/Exec.v ===== *)
(** * Exec: the state of a run and the monad of computations

    A C function of [src/ceq.c] reads the caller's arrays, calls a solver
    that writes into them, and prints to the standard output.  The state of a
    run is the store together with the text printed so far; a computation
    takes a state to an [outcome]: a result with the new state, or a fault
    when the run has no defined behaviour (a read or write outside the
    allocated cells) or when the fuel of a loop ran out.

    - [ret], [bind] (written [let* x := c in k]) sequence computations the
      way C statements are sequenced;
    - [read p] is the rvalue [*p], [write p v] the assignment [*p = v];
    - [printf fmt args] is the call [printf(fmt, args...)] for formats whose
      only directive is [%d];
    - [steps_in R c] says that every terminating run of [c] relates its
      initial and final states by [R]: the form in which frame conditions and
      the growth of the output are stated and composed. *)

From Corelib Require Import PrimFloat.
From Stdlib Require Import Ascii.
From stdpp Require Import gmap pretty.
From S2P Require Import Prelude CInt Memory.

(** ** States and outcomes *)

Record state := State {
  st_mem : gmap Z float;   (* the store of doubles *)
  st_out : string          (* what was written to stdout, oldest first *)
}.

Inductive fault :=
  | InvalidRead (a : Z)    (* [*p] on a cell that is not allocated *)
  | InvalidWrite (a : Z)   (* [*p = v] on a cell that is not allocated *)
  | OutOfFuel.             (* a loop of the model ran out of fuel *)

Inductive outcome (A : Type) :=
  | Ret (a : A) (s : state)
  | Fault (f : fault).
Arguments Ret {A} a s.
Arguments Fault {A} f.

Definition exec (A : Type) : Type := state → outcome A.

#[export] Instance fault_eq_dec : EqDecision fault.
Proof. solve_decision. Defined.

(** ** The monad *)

Definition ret {A} (a : A) : exec A := λ s, Ret a s.

Definition bind {A B} (c : exec A) (k : A → exec B) : exec B :=
  λ s, match c s with
       | Ret a s' => k a s'
       | Fault f => Fault f
       end.

Definition fail {A} (f : fault) : exec A := λ _, Fault f.

Notation "'let*' x := c 'in' k" := (bind c (λ x, k))
  (at level 10, x binder, c at level 100, k at level 200,
   format "'[v' 'let*'  x  :=  c  'in' '/' k ']'") : ceq_scope.
Notation "c ;; k" := (bind c (λ _, k))
  (at level 100, k at level 200, right associativity) : ceq_scope.

#[global] Open Scope ceq_scope.

(** ** Effects *)

(** The rvalue [*p]. *)
Definition read (p : ptr) : exec double :=
  λ s, match load (st_mem s) p with
       | Some v => Ret v s
       | None => Fault (InvalidRead p)
       end.

(** The assignment [*p = v]. *)
Definition write (p : ptr) (v : double) : exec unit :=
  λ s, match store (st_mem s) p v with
       | Some m => Ret () (State m (st_out s))
       | None => Fault (InvalidWrite p)
       end.

(** Read the [n] cells from [p] on; the fault names the array. *)
Definition read_array (p : ptr) (n : Z) : exec (list double) :=
  λ s, match load_array (st_mem s) p n with
       | Some l => Ret l s
       | None => Fault (InvalidRead p)
       end.

(** Write [l] to the cells from [p] on. *)
Definition write_array (p : ptr) (l : list double) : exec unit :=
  λ s, match store_array (st_mem s) p l with
       | Some m => Ret () (State m (st_out s))
       | None => Fault (InvalidWrite p)
       end.

(** Append [t] to stdout. *)
Definition emit (t : string) : exec unit :=
  λ s, Ret () (State (st_mem s) (st_out s +:+ t)).

(** Expansion of a [printf] format whose directives are all [%d]: each
    directive prints the next argument in decimal, every other character is
    copied.  A directive without an argument prints nothing. *)
Fixpoint format (fmt : string) (args : list Z) : string :=
  match fmt with
  | EmptyString => EmptyString
  | String "%"%char (String "d"%char rest) =>
      match args with
      | a :: args' => pretty a +:+ format rest args'
      | [] => format rest []
      end
  | String c rest => String c (format rest args)
  end.

(** [printf(fmt, args...)]: the expansion is appended to stdout.  The code
    never uses the value [printf] returns. *)
Definition printf (fmt : string) (args : list Z) : exec unit :=
  emit (format fmt args).

(** ** Equality of computations

    Two computations are equivalent when they agree on every state. *)

#[export] Instance exec_equiv {A} : Equiv (exec A) := λ c1 c2, ∀ s, c1 s = c2 s.

#[export] Instance exec_equivalence {A} : Equivalence (≡@{exec A}).
Proof.
  split.
  - by intros c s.
  - intros c1 c2 H s. by rewrite (H s).
  - intros c1 c2 c3 H12 H23 s. by rewrite (H12 s).
Qed.

#[export] Instance bind_proper {A B} :
  Proper ((≡) ==> pointwise_relation A (≡) ==> (≡@{exec B})) bind.
Proof.
  intros c1 c2 Hc k1 k2 Hk s. unfold bind. rewrite (Hc s).
  destruct (c2 s); [apply Hk | done].
Qed.

Section monad_laws.
Context {A B C : Type}.
Implicit Types c : exec A.
Implicit Types k : A → exec B.
Implicit Types h : B → exec C.

Lemma bind_ret_l a k : bind (ret a) k ≡ k a.
Proof. by intros s. Qed.

Lemma bind_ret_r c : bind c ret ≡ c.
Proof. intros s. unfold bind, ret. by destruct (c s). Qed.

Lemma bind_assoc c k h :
  bind (bind c k) h ≡ bind c (λ a, bind (k a) h).
Proof. intros s. unfold bind. by destruct (c s). Qed.

Lemma bind_fail f k : bind (fail f) k ≡ fail f.
Proof. by intros s. Qed.

(** How a sequence terminates: both parts did. *)
Lemma bind_Ret c k s b s2 :
  bind c k s = Ret b s2 ↔ ∃ a s1, c s = Ret a s1 ∧ k a s1 = Ret b s2.
Proof.
  unfold bind. destruct (c s) as [a s1|f]; [|naive_solver].
  split; [by exists a, s1 | by intros (? & ? & [= <- <-] & ?)].
Qed.

(** How a sequence faults: in its first part, or in the second after the
    first has terminated. *)
Lemma bind_Fault c k s f :
  bind c k s = Fault f ↔
  c s = Fault f ∨ ∃ a s1, c s = Ret a s1 ∧ k a s1 = Fault f.
Proof.
  unfold bind. destruct (c s) as [a s1|f']; [|naive_solver].
  split; [right; by exists a, s1 | by intros [|(? & ? & [= <- <-] & ?)]].
Qed.

Lemma bind_run c k s a s1 : c s = Ret a s1 → bind c k s = k a s1.
Proof. unfold bind. by intros ->. Qed.

Lemma bind_run_fault c k s f : c s = Fault f → bind c k s = Fault f.
Proof. unfold bind. by intros ->. Qed.

End monad_laws.

(** Decompose the hypotheses that say how a sequence ended. *)
Ltac exec_inv :=
  repeat match goal with
  | H : bind _ _ _ = Ret _ _ |- _ =>
      apply bind_Ret in H as (? & ? & ? & H)
  | H : ret _ _ = _ |- _ => unfold ret in H
  | H : fail _ _ = _ |- _ => unfold fail in H
  end;
  simplify_eq.

(** ** Runs of the effects *)

Section effects.
Implicit Types s : state.
Implicit Types p : ptr.
Implicit Types v : double.

Lemma read_Ret p s v s' :
  read p s = Ret v s' ↔ load (st_mem s) p = Some v ∧ s' = s.
Proof. unfold read. destruct (load _ _); naive_solver. Qed.

Lemma read_Fault p s f :
  read p s = Fault f ↔ load (st_mem s) p = None ∧ f = InvalidRead p.
Proof. unfold read. destruct (load _ _); naive_solver. Qed.

Lemma read_run p s v : load (st_mem s) p = Some v → read p s = Ret v s.
Proof. unfold read. by intros ->. Qed.

Lemma write_Ret p v s s' :
  write p v s = Ret () s' ↔
  ∃ m, store (st_mem s) p v = Some m ∧ s' = State m (st_out s).
Proof. unfold write. destruct (store _ _ _); naive_solver. Qed.

Lemma read_array_Ret p n s l s' :
  read_array p n s = Ret l s' ↔ load_array (st_mem s) p n = Some l ∧ s' = s.
Proof. unfold read_array. destruct (load_array _ _ _); naive_solver. Qed.

Lemma read_array_Fault p n s f :
  read_array p n s = Fault f ↔
  load_array (st_mem s) p n = None ∧ f = InvalidRead p.
Proof. unfold read_array. destruct (load_array _ _ _); naive_solver. Qed.

Lemma write_array_Ret p l s s' :
  write_array p l s = Ret () s' ↔
  ∃ m, store_array (st_mem s) p l = Some m ∧ s' = State m (st_out s).
Proof. unfold write_array. destruct (store_array _ _ _); naive_solver. Qed.

Lemma write_array_Fault p l s f :
  write_array p l s = Fault f ↔
  store_array (st_mem s) p l = None ∧ f = InvalidWrite p.
Proof. unfold write_array. destruct (store_array _ _ _); naive_solver. Qed.

Lemma emit_run t s : emit t s = Ret () (State (st_mem s) (st_out s +:+ t)).
Proof. reflexivity. Qed.

Lemma printf_run fmt args s :
  printf fmt args s = Ret () (State (st_mem s) (st_out s +:+ format fmt args)).
Proof. reflexivity. Qed.

End effects.

(** ** Outcomes up to the diagnostic output *)

(** Two outcomes agree on everything but stdout. *)
Definition same_effect {A} (o1 o2 : outcome A) : Prop :=
  match o1, o2 with
  | Ret a1 s1, Ret a2 s2 => a1 = a2 ∧ st_mem s1 = st_mem s2
  | Fault f1, Fault f2 => f1 = f2
  | _, _ => False
  end.

#[export] Instance same_effect_equiv {A} : Equivalence (@same_effect A).
Proof.
  split.
  - by intros [a s|f].
  - intros [a1 s1|f1] [a2 s2|f2]; simpl; naive_solver.
  - intros [a1 s1|f1] [a2 s2|f2] [a3 s3|f3]; simpl; naive_solver congruence.
Qed.

(** ** Relations between the initial and the final state *)

(** Every terminating run of [c] relates its initial and final states
    by [R]. *)
Definition steps_in {A} (R : relation state) (c : exec A) : Prop :=
  ∀ s a s', c s = Ret a s' → R s s'.

(** The store changes at most in the cells that satisfy [P], and no cell is
    allocated or freed. *)
Definition mem_frame_on (P : Z → Prop) : relation state :=
  λ s s', unchanged_except P (st_mem s) (st_mem s') ∧
          same_cells (st_mem s) (st_mem s').

(** The same for the [n] cells from [p] on. *)
Abbreviation mem_frame p n := (mem_frame_on (between p n)).

(** The store is left as it is. *)
Definition mem_same : relation state := λ s s', st_mem s' = st_mem s.

(** The output is only appended to. *)
Definition out_extends : relation state :=
  λ s s', extends (st_out s) (st_out s').

(** The output is left as it is. *)
Definition out_same : relation state := λ s s', st_out s' = st_out s.

Section steps.
Context {A B : Type}.
Implicit Types R : relation state.
Implicit Types c : exec A.
Implicit Types k : A → exec B.

Lemma steps_in_ret R (a : A) : Reflexive R → steps_in R (ret a).
Proof. intros HR s a' s' [= <- <-]. reflexivity. Qed.

Lemma steps_in_fail R f : steps_in R (@fail A f).
Proof. by intros s a s'. Qed.

Lemma steps_in_bind R c k :
  Transitive R →
  steps_in R c → (∀ a, steps_in R (k a)) → steps_in R (bind c k).
Proof.
  intros HR Hc Hk s b s2 (a & s1 & H1 & H2)%bind_Ret.
  etrans; [by eapply Hc | by eapply Hk].
Qed.

Lemma steps_in_weaken (R R' : relation state) c :
  (∀ s s', R s s' → R' s s') → steps_in R c → steps_in R' c.
Proof. intros HR Hc s a s' H. eapply HR, Hc, H. Qed.

Lemma steps_in_and (R R' : relation state) c :
  steps_in R c → steps_in R' c → steps_in (λ s s', R s s' ∧ R' s s') c.
Proof. intros H1 H2 s a s' H. split; [by eapply H1 | by eapply H2]. Qed.

Lemma steps_in_proper R c c' : c ≡ c' → steps_in R c → steps_in R c'.
Proof. intros Heq Hc s a s' H. eapply Hc. by rewrite (Heq s). Qed.

End steps.

(** Split a goal on a sequence, or close one on a result, for a relation
    that is a preorder. *)
Ltac steps_bind := apply steps_in_bind; [apply _ | | intros ?].
Ltac steps_ret := apply steps_in_ret; apply _.

(** The four relations are preorders, so they compose along [bind]. *)

#[export] Instance mem_frame_on_preorder P : PreOrder (mem_frame_on P).
Proof.
  split.
  - intros s. split; reflexivity.
  - intros s1 s2 s3 [H12 C12] [H23 C23]. split; by etrans.
Qed.

#[export] Instance mem_same_preorder : PreOrder mem_same.
Proof. unfold mem_same. split; [done | intros s1 s2 s3; congruence]. Qed.

#[export] Instance out_extends_preorder : PreOrder out_extends.
Proof.
  unfold out_extends. split; [intros s; reflexivity|].
  intros s1 s2 s3 ??. by etrans.
Qed.

#[export] Instance out_same_preorder : PreOrder out_same.
Proof. unfold out_same. split; [done | intros s1 s2 s3; congruence]. Qed.

Section relations.
Implicit Types s : state.
Implicit Types p q : ptr.
Implicit Types n : Z.

Lemma mem_same_is_frame P s s' : mem_same s s' → mem_frame_on P s s'.
Proof.
  unfold mem_same, mem_frame_on. intros Heq. rewrite Heq. split; reflexivity.
Qed.

Lemma mem_frame_weaken (P Q : Z → Prop) s s' :
  (∀ a, P a → Q a) → mem_frame_on P s s' → mem_frame_on Q s s'.
Proof.
  intros Hin [Hu Hc]. split; [|done]. by eapply unchanged_except_weaken.
Qed.

Lemma mem_frame_empty p n s s' :
  n ≤ 0 → mem_frame p n s s' → mem_same s s'.
Proof.
  intros Hn [Hu _]. unfold mem_same. symmetry.
  by eapply unchanged_outside_empty.
Qed.

Lemma out_same_extends s s' : out_same s s' → out_extends s s'.
Proof. unfold out_same, out_extends. intros ->. reflexivity. Qed.

Lemma steps_in_read_mem p : steps_in mem_same (read p).
Proof. by intros s v s' [_ ->]%read_Ret. Qed.

Lemma steps_in_read_out p : steps_in out_same (read p).
Proof. by intros s v s' [_ ->]%read_Ret. Qed.

Lemma steps_in_emit_mem t : steps_in mem_same (emit t).
Proof. by intros s [] s' [= <-]. Qed.

Lemma steps_in_emit_out t : steps_in out_extends (emit t).
Proof. intros s [] s' [= <-]. apply extends_append. Qed.

Lemma steps_in_printf_mem fmt args : steps_in mem_same (printf fmt args).
Proof. apply steps_in_emit_mem. Qed.

Lemma steps_in_printf_out fmt args : steps_in out_extends (printf fmt args).
Proof. apply steps_in_emit_out. Qed.

Lemma steps_in_read_array_mem p n : steps_in mem_same (read_array p n).
Proof. by intros s l s' [_ ->]%read_array_Ret. Qed.

Lemma steps_in_read_array_out p n : steps_in out_same (read_array p n).
Proof. by intros s l s' [_ ->]%read_array_Ret. Qed.

Lemma steps_in_write_array_out p l : steps_in out_same (write_array p l).
Proof. by intros s [] s' (m & _ & ->)%write_array_Ret. Qed.

Lemma steps_in_write_array_mem p l :
  steps_in (mem_frame p (Z.of_nat (length l))) (write_array p l).
Proof.
  intros s [] s' (m & Hst & ->)%write_array_Ret. split; simpl; eauto with ceq.
Qed.

Lemma steps_in_write_out p v : steps_in out_same (write p v).
Proof. by intros s [] s' (m & _ & ->)%write_Ret. Qed.

Lemma steps_in_write_mem p v : steps_in (mem_frame p 1) (write p v).
Proof.
  intros s [] s' (m & Hst & ->)%write_Ret. split; simpl; eauto with ceq.
Qed.

End relations.

#[export] Hint Resolve steps_in_read_mem steps_in_read_out steps_in_printf_mem
  steps_in_printf_out steps_in_write_out steps_in_write_mem
  steps_in_emit_mem steps_in_emit_out steps_in_read_array_mem
  steps_in_read_array_out steps_in_write_array_out
  steps_in_write_array_mem : ceq.
#[export] Hint Resolve mem_same_is_frame out_same_extends : ceq.

(** A computation that leaves the store alone satisfies every frame, one
    that leaves the output alone extends it. *)
Lemma steps_in_mem_same_frame {A} (P : Z → Prop) (c : exec A) :
  steps_in mem_same c → steps_in (mem_frame_on P) c.
Proof. apply steps_in_weaken. intros s s'. apply mem_same_is_frame. Qed.

Lemma steps_in_out_same_extends {A} (c : exec A) :
  steps_in out_same c → steps_in out_extends c.
Proof. apply steps_in_weaken. intros s s'. apply out_same_extends. Qed.

Lemma steps_in_frame_weaken {A} (P Q : Z → Prop) (c : exec A) :
  (∀ a, P a → Q a) → steps_in (mem_frame_on P) c → steps_in (mem_frame_on Q) c.
Proof.
  intros HPQ. apply steps_in_weaken. intros s s'. by apply mem_frame_weaken.
Qed.

#[export] Hint Resolve steps_in_mem_same_frame steps_in_out_same_extends : ceq.
