(* ===== verification/Solver.v ===== *)
(** * Solver: the interface of [solve_pt] and [solve_rhou]

    [src/ceq.c] includes pt.h and rhou.h and calls

      int solve_pt  (double p, double T, double* X0, int nsp, int nel,
                     double* lewis, double* M, double* a, double* X1,
                     int verbose);
      int solve_rhou(double rho, double u, double* X0, int nsp, int nel,
                     double* lewis, double* M, double* a, double* X1,
                     double* T, int verbose);

    whose bodies are not among the sources.  The class [Solver] holds the two
    operations with these signatures; the class [SolverOk] states what the
    specification promises of them:

    - arrays: [X0] and [X1] have [nsp] cells, [lewis] has [nsp*3*9], [M] has
      [nsp], [a] has [nel*nsp]; the solver writes [X1] (and [T] for
      [solve_rhou]) and nothing else, and neither allocates nor frees;
    - the status is an [int];
    - diagnostic output is only appended to stdout;
    - [verbose] changes neither the status nor the store;
    - every call returns (iteration caps bound the work), and a call whose
      arrays are allocated does not fault.

    The class [SolverLocal] adds that a solve has no state of its own between
    calls: its result is a function of its arguments and of the arrays it
    reads.

    The theorems about the batch loops are proved for any [Solver] and, when
    they need the contract, for any [SolverOk]. *)

From Corelib Require Import PrimFloat.
From stdpp Require Import gmap.
From S2P Require Import Prelude CInt Memory Exec.

(** ** Operations *)

Class Solver := {
  solve_pt (p T : double) (X0 : ptr) (nsp nel : Z)
           (lewis M a X1 : ptr) (verbose : Z) : exec Z;
  solve_rhou (rho u : double) (X0 : ptr) (nsp nel : Z)
             (lewis M a X1 T : ptr) (verbose : Z) : exec Z
}.

(** ** Footprints *)

(** Number of thermodynamic coefficients per species: three temperature
    ranges of nine coefficients. *)
Definition lewis_per_species : Z := 3 * 9.

(** The cells a solver reads: the initial composition, the thermodynamic
    table, the molar masses and the element matrix. *)
Definition solver_reads (X0 : ptr) (nsp nel : Z) (lewis M a : ptr) (c : Z)
  : Prop :=
  between X0 nsp c ∨ between lewis (nsp * lewis_per_species) c ∨
  between M nsp c ∨ between a (nel * nsp) c.

(** The cells [solve_rhou] writes: the composition and the temperature. *)
Definition rhou_writes (X1 : ptr) (nsp : Z) (T : ptr) (c : Z) : Prop :=
  between X1 nsp c ∨ between T 1 c.

(** The cells read are allocated. *)
Definition inputs_allocated (m : gmap Z float)
    (X0 : ptr) (nsp nel : Z) (lewis M a : ptr) : Prop :=
  allocated m X0 nsp ∧ allocated m lewis (nsp * lewis_per_species) ∧
  allocated m M nsp ∧ allocated m a (nel * nsp).

(** ** The contract *)

Class SolverOk (S : Solver) : Prop := {
  solve_pt_frame p T X0 nsp nel lewis M a X1 verbose :
    steps_in (mem_frame X1 nsp)
             (solve_pt p T X0 nsp nel lewis M a X1 verbose);
  solve_pt_out p T X0 nsp nel lewis M a X1 verbose :
    steps_in out_extends (solve_pt p T X0 nsp nel lewis M a X1 verbose);
  solve_pt_status p T X0 nsp nel lewis M a X1 verbose s r s' :
    solve_pt p T X0 nsp nel lewis M a X1 verbose s = Ret r s' → in_int r;
  solve_pt_total p T X0 nsp nel lewis M a X1 verbose s :
    solve_pt p T X0 nsp nel lewis M a X1 verbose s ≠ Fault OutOfFuel;
  solve_pt_verbose p T X0 nsp nel lewis M a X1 verbose verbose' s s' :
    st_mem s = st_mem s' →
    same_effect (solve_pt p T X0 nsp nel lewis M a X1 verbose s)
                (solve_pt p T X0 nsp nel lewis M a X1 verbose' s');
  solve_pt_safe p T X0 nsp nel lewis M a X1 verbose s :
    inputs_allocated (st_mem s) X0 nsp nel lewis M a →
    allocated (st_mem s) X1 nsp →
    ∃ r s', solve_pt p T X0 nsp nel lewis M a X1 verbose s = Ret r s';

  solve_rhou_frame rho u X0 nsp nel lewis M a X1 T verbose :
    steps_in (mem_frame_on (rhou_writes X1 nsp T))
             (solve_rhou rho u X0 nsp nel lewis M a X1 T verbose);
  solve_rhou_out rho u X0 nsp nel lewis M a X1 T verbose :
    steps_in out_extends
             (solve_rhou rho u X0 nsp nel lewis M a X1 T verbose);
  solve_rhou_status rho u X0 nsp nel lewis M a X1 T verbose s r s' :
    solve_rhou rho u X0 nsp nel lewis M a X1 T verbose s = Ret r s' →
    in_int r;
  solve_rhou_total rho u X0 nsp nel lewis M a X1 T verbose s :
    solve_rhou rho u X0 nsp nel lewis M a X1 T verbose s ≠ Fault OutOfFuel;
  solve_rhou_verbose rho u X0 nsp nel lewis M a X1 T verbose verbose' s s' :
    st_mem s = st_mem s' →
    same_effect (solve_rhou rho u X0 nsp nel lewis M a X1 T verbose s)
                (solve_rhou rho u X0 nsp nel lewis M a X1 T verbose' s');
  solve_rhou_safe rho u X0 nsp nel lewis M a X1 T verbose s :
    inputs_allocated (st_mem s) X0 nsp nel lewis M a →
    allocated (st_mem s) X1 nsp → allocated (st_mem s) T 1 →
    ∃ r s', solve_rhou rho u X0 nsp nel lewis M a X1 T verbose s = Ret r s'
}.

#[export] Hint Resolve solve_pt_frame solve_pt_out solve_rhou_frame
  solve_rhou_out : ceq.

(** ** Locality *)

(** Two outcomes of a solve are the same result on the cells [W]: the same
    status and the same contents of [W], or the same fault. *)
Definition same_result (W : Z → Prop) (o1 o2 : outcome Z) : Prop :=
  match o1, o2 with
  | Ret r1 s1, Ret r2 s2 => r1 = r2 ∧ agree_on W (st_mem s1) (st_mem s2)
  | Fault f1, Fault f2 => f1 = f2
  | _, _ => False
  end.

(** A solve owns its iteration state and shares nothing with other solves:
    what it returns and what it writes is determined by its scalar arguments
    and by the contents of the arrays it reads. *)
Class SolverLocal (S : Solver) : Prop := {
  solve_pt_local p T X0 nsp nel lewis M a X1 verbose s1 s2 :
    agree_on (solver_reads X0 nsp nel lewis M a) (st_mem s1) (st_mem s2) →
    same_cells (st_mem s1) (st_mem s2) →
    same_result (between X1 nsp)
      (solve_pt p T X0 nsp nel lewis M a X1 verbose s1)
      (solve_pt p T X0 nsp nel lewis M a X1 verbose s2);
  solve_rhou_local rho u X0 nsp nel lewis M a X1 T verbose s1 s2 :
    agree_on (solver_reads X0 nsp nel lewis M a) (st_mem s1) (st_mem s2) →
    same_cells (st_mem s1) (st_mem s2) →
    same_result (rhou_writes X1 nsp T)
      (solve_rhou rho u X0 nsp nel lewis M a X1 T verbose s1)
      (solve_rhou rho u X0 nsp nel lewis M a X1 T verbose s2)
}.

(** ** Consequences of the contract *)

Section contract.
Context `{SolverOk}.
Implicit Types s : state.

(** A cell outside [X1] holds the same value after a call of [solve_pt]. *)
Lemma solve_pt_preserves p T X0 nsp nel lewis M a X1 verbose s r s' c :
  solve_pt p T X0 nsp nel lewis M a X1 verbose s = Ret r s' →
  ¬ between X1 nsp c → load (st_mem s') c = load (st_mem s) c.
Proof.
  intros Hrun Hc. apply solve_pt_frame in Hrun as [Hu _].
  symmetry. by apply Hu.
Qed.

(** A region that was allocated before a call is allocated after it. *)
Lemma solve_pt_allocated p T X0 nsp nel lewis M a X1 verbose s r s' q n :
  solve_pt p T X0 nsp nel lewis M a X1 verbose s = Ret r s' →
  allocated (st_mem s) q n → allocated (st_mem s') q n.
Proof.
  intros Hrun. apply solve_pt_frame in Hrun as [_ Hc].
  by apply same_cells_allocated.
Qed.

Lemma solve_rhou_preserves rho u X0 nsp nel lewis M a X1 T verbose s r s' c :
  solve_rhou rho u X0 nsp nel lewis M a X1 T verbose s = Ret r s' →
  ¬ between X1 nsp c → ¬ between T 1 c →
  load (st_mem s') c = load (st_mem s) c.
Proof.
  intros Hrun Hc HT. apply solve_rhou_frame in Hrun as [Hu _].
  symmetry. apply Hu. unfold rhou_writes. tauto.
Qed.

Lemma solve_rhou_allocated rho u X0 nsp nel lewis M a X1 T verbose s r s' q n :
  solve_rhou rho u X0 nsp nel lewis M a X1 T verbose s = Ret r s' →
  allocated (st_mem s) q n → allocated (st_mem s') q n.
Proof.
  intros Hrun. apply solve_rhou_frame in Hrun as [_ Hc].
  by apply same_cells_allocated.
Qed.

End contract.
