(* ===== verification/PureSolver.v ===== *)
(** * PureSolver: solvers given by functions on lists

    The specification describes a solve as a function of its inputs: it owns
    its iteration state, reads the caller's arrays and returns a fresh
    result.  [lift] turns such a function into an implementation of the
    [Solver] interface on the store: it reads the four input arrays, applies
    the function, writes the composition to [X1] (and the temperature to
    [T]), appends the diagnostic text to stdout and returns the status.
    [lift_ok] proves the contract [SolverOk] for it, so the contract is
    satisfiable and the theorems stated against it apply to every solver of
    this form.

    [demo_solver] is a small instance (the composition is copied, the status
    depends on the sign of the temperature or density) on which the
    theorems of the development are evaluated. *)

From Corelib Require Import PrimFloat.
From stdpp Require Import gmap.
From S2P Require Import Prelude CInt Memory Exec Solver.

(** ** Results of a solve *)

Record pt_answer := PtAnswer {
  pt_status : Z;            (* the value returned *)
  pt_X1 : list double;      (* the equilibrium mole fractions *)
  pt_diag : string          (* what [verbose] made it print *)
}.

Record rhou_answer := RhouAnswer {
  rhou_status : Z;
  rhou_X1 : list double;
  rhou_T : double;          (* the equilibrium temperature *)
  rhou_diag : string
}.

(** The two solves as functions of the contents of the input arrays. *)
Record pure_solver := PureSolver {
  pure_pt (p T : double) (X0 : list double) (nsp nel : Z)
          (lewis M a : list double) (verbose : Z) : pt_answer;
  pure_rhou (rho u : double) (X0 : list double) (nsp nel : Z)
            (lewis M a : list double) (verbose : Z) : rhou_answer
}.

(** What is asked of the functions: the status is an [int], the composition
    returned has [nsp] entries, and [verbose] only affects the text. *)
Class PureOk (f : pure_solver) : Prop := {
  pure_pt_status p T X0 nsp nel lewis M a verbose :
    in_int (pt_status (pure_pt f p T X0 nsp nel lewis M a verbose));
  pure_pt_length p T X0 nsp nel lewis M a verbose :
    length X0 = Z.to_nat nsp →
    length (pt_X1 (pure_pt f p T X0 nsp nel lewis M a verbose))
    = Z.to_nat nsp;
  pure_pt_verbose p T X0 nsp nel lewis M a verbose verbose' :
    pt_status (pure_pt f p T X0 nsp nel lewis M a verbose)
    = pt_status (pure_pt f p T X0 nsp nel lewis M a verbose') ∧
    pt_X1 (pure_pt f p T X0 nsp nel lewis M a verbose)
    = pt_X1 (pure_pt f p T X0 nsp nel lewis M a verbose');
  pure_rhou_status rho u X0 nsp nel lewis M a verbose :
    in_int (rhou_status (pure_rhou f rho u X0 nsp nel lewis M a verbose));
  pure_rhou_length rho u X0 nsp nel lewis M a verbose :
    length X0 = Z.to_nat nsp →
    length (rhou_X1 (pure_rhou f rho u X0 nsp nel lewis M a verbose))
    = Z.to_nat nsp;
  pure_rhou_verbose rho u X0 nsp nel lewis M a verbose verbose' :
    rhou_status (pure_rhou f rho u X0 nsp nel lewis M a verbose)
    = rhou_status (pure_rhou f rho u X0 nsp nel lewis M a verbose') ∧
    rhou_X1 (pure_rhou f rho u X0 nsp nel lewis M a verbose)
    = rhou_X1 (pure_rhou f rho u X0 nsp nel lewis M a verbose') ∧
    rhou_T (pure_rhou f rho u X0 nsp nel lewis M a verbose)
    = rhou_T (pure_rhou f rho u X0 nsp nel lewis M a verbose')
}.

(** ** The solver on the store *)

Section lift.
Variable f : pure_solver.

Definition lift_pt (p T : double) (X0 : ptr) (nsp nel : Z)
    (lewis M a X1 : ptr) (verbose : Z) : exec Z :=
  let* x0 := read_array X0 nsp in
  let* lw := read_array lewis (nsp * lewis_per_species) in
  let* mm := read_array M nsp in
  let* aa := read_array a (nel * nsp) in
  let r := pure_pt f p T x0 nsp nel lw mm aa verbose in
  write_array X1 (pt_X1 r);;
  emit (pt_diag r);;
  ret (pt_status r).

Definition lift_rhou (rho u : double) (X0 : ptr) (nsp nel : Z)
    (lewis M a X1 T : ptr) (verbose : Z) : exec Z :=
  let* x0 := read_array X0 nsp in
  let* lw := read_array lewis (nsp * lewis_per_species) in
  let* mm := read_array M nsp in
  let* aa := read_array a (nel * nsp) in
  let r := pure_rhou f rho u x0 nsp nel lw mm aa verbose in
  write_array X1 (rhou_X1 r);;
  write T (rhou_T r);;
  emit (rhou_diag r);;
  ret (rhou_status r).

Definition lift : Solver :=
  {| solve_pt := lift_pt; solve_rhou := lift_rhou |}.

End lift.

(** ** The lifted solver satisfies the contract *)

(** Unfold a lifted solve down to the loads and stores of the store. *)
Ltac unfold_lift :=
  unfold lift_pt, lift_rhou, bind, read_array, write_array, write, emit, ret.

Section lift_ok.
Context (f : pure_solver) `{!PureOk f}.
Implicit Types s : state.

(** A terminating run of [lift_pt]: the four arrays were read, the answer
    of the function was stored at [X1] and its text printed. *)
Lemma lift_pt_inv p T X0 nsp nel lewis M a X1 verbose s r s' :
  lift_pt f p T X0 nsp nel lewis M a X1 verbose s = Ret r s' →
  ∃ x0 lw mm aa m',
    load_array (st_mem s) X0 nsp = Some x0 ∧
    load_array (st_mem s) lewis (nsp * lewis_per_species) = Some lw ∧
    load_array (st_mem s) M nsp = Some mm ∧
    load_array (st_mem s) a (nel * nsp) = Some aa ∧
    store_array (st_mem s) X1
      (pt_X1 (pure_pt f p T x0 nsp nel lw mm aa verbose)) = Some m' ∧
    r = pt_status (pure_pt f p T x0 nsp nel lw mm aa verbose) ∧
    s' = State m'
      (st_out s +:+ pt_diag (pure_pt f p T x0 nsp nel lw mm aa verbose)).
Proof.
  unfold_lift. intros Hrun. repeat case_match; simplify_eq.
  by repeat eexists.
Qed.

Lemma lift_rhou_inv rho u X0 nsp nel lewis M a X1 T verbose s r s' :
  lift_rhou f rho u X0 nsp nel lewis M a X1 T verbose s = Ret r s' →
  ∃ x0 lw mm aa m1 m',
    load_array (st_mem s) X0 nsp = Some x0 ∧
    load_array (st_mem s) lewis (nsp * lewis_per_species) = Some lw ∧
    load_array (st_mem s) M nsp = Some mm ∧
    load_array (st_mem s) a (nel * nsp) = Some aa ∧
    store_array (st_mem s) X1
      (rhou_X1 (pure_rhou f rho u x0 nsp nel lw mm aa verbose)) = Some m1 ∧
    store m1 T (rhou_T (pure_rhou f rho u x0 nsp nel lw mm aa verbose))
      = Some m' ∧
    r = rhou_status (pure_rhou f rho u x0 nsp nel lw mm aa verbose) ∧
    s' = State m'
      (st_out s +:+ rhou_diag (pure_rhou f rho u x0 nsp nel lw mm aa verbose)).
Proof.
  unfold_lift. intros Hrun. repeat case_match; simplify_eq.
  by repeat eexists.
Qed.

(** The cells of an answer of [nsp] entries are cells of [X1]. *)
Lemma answer_cells X1 nsp (l : list double) c :
  length l = Z.to_nat nsp → between X1 (Z.of_nat (length l)) c →
  between X1 nsp c.
Proof. unfold between. lia. Qed.

Lemma lift_pt_frame p T X0 nsp nel lewis M a X1 verbose :
  steps_in (mem_frame X1 nsp) (lift_pt f p T X0 nsp nel lewis M a X1 verbose).
Proof.
  intros s r s' (x0 & lw & mm & aa & m' & H0 & _ & _ & _ & Hst & _ & ->)
    %lift_pt_inv.
  apply load_array_length in H0.
  eapply (mem_frame_weaken (between X1 _)).
  - intros c. eapply answer_cells. by apply pure_pt_length.
  - split; simpl; eauto with ceq.
Qed.

Lemma lift_rhou_frame rho u X0 nsp nel lewis M a X1 T verbose :
  steps_in (mem_frame_on (rhou_writes X1 nsp T))
    (lift_rhou f rho u X0 nsp nel lewis M a X1 T verbose).
Proof.
  intros s r s'
    (x0 & lw & mm & aa & m1 & m' & H0 & _ & _ & _ & Hst & HT & _ & ->)
    %lift_rhou_inv.
  apply load_array_length in H0. simpl. split; simpl.
  - trans m1.
    + eapply unchanged_except_weaken;
        [|by eapply store_array_unchanged_outside].
      intros c Hc. left. revert Hc. eapply answer_cells.
      by apply pure_rhou_length.
    + eapply unchanged_except_weaken; [|by eapply store_unchanged_outside].
      intros c Hc. by right.
  - trans m1; eauto with ceq.
Qed.

Lemma lift_pt_out p T X0 nsp nel lewis M a X1 verbose :
  steps_in out_extends (lift_pt f p T X0 nsp nel lewis M a X1 verbose).
Proof.
  intros s r s' (x0 & lw & mm & aa & m' & _ & _ & _ & _ & _ & _ & ->)
    %lift_pt_inv.
  apply extends_append.
Qed.

Lemma lift_rhou_out rho u X0 nsp nel lewis M a X1 T verbose :
  steps_in out_extends
    (lift_rhou f rho u X0 nsp nel lewis M a X1 T verbose).
Proof.
  intros s r s'
    (x0 & lw & mm & aa & m1 & m' & _ & _ & _ & _ & _ & _ & _ & ->)
    %lift_rhou_inv.
  apply extends_append.
Qed.

Lemma lift_pt_total p T X0 nsp nel lewis M a X1 verbose s :
  lift_pt f p T X0 nsp nel lewis M a X1 verbose s ≠ Fault OutOfFuel.
Proof.
  unfold_lift. repeat (destruct (load_array _ _ _); [|done]).
  simpl. by destruct (store_array _ _ _).
Qed.

Lemma lift_rhou_total rho u X0 nsp nel lewis M a X1 T verbose s :
  lift_rhou f rho u X0 nsp nel lewis M a X1 T verbose s ≠ Fault OutOfFuel.
Proof.
  unfold_lift. repeat (destruct (load_array _ _ _); [|done]).
  simpl. destruct (store_array _ _ _) as [m1|]; simpl; [|done].
  by destruct (store m1 _ _).
Qed.

Lemma lift_pt_verbose p T X0 nsp nel lewis M a X1 verbose verbose' s s' :
  st_mem s = st_mem s' →
  same_effect (lift_pt f p T X0 nsp nel lewis M a X1 verbose s)
              (lift_pt f p T X0 nsp nel lewis M a X1 verbose' s').
Proof.
  destruct s as [m o], s' as [m' o']. simpl. intros <-. unfold_lift. simpl.
  destruct (load_array m X0 _) as [x0|]; simpl; [|done].
  destruct (load_array m lewis _) as [lw|]; simpl; [|done].
  destruct (load_array m M _) as [mm|]; simpl; [|done].
  destruct (load_array m a _) as [aa|]; simpl; [|done].
  destruct (pure_pt_verbose p T x0 nsp nel lw mm aa verbose verbose')
    as [-> ->].
  destruct (store_array _ _ _); by simpl.
Qed.

Lemma lift_rhou_verbose rho u X0 nsp nel lewis M a X1 T verbose verbose' s s' :
  st_mem s = st_mem s' →
  same_effect (lift_rhou f rho u X0 nsp nel lewis M a X1 T verbose s)
              (lift_rhou f rho u X0 nsp nel lewis M a X1 T verbose' s').
Proof.
  destruct s as [m o], s' as [m' o']. simpl. intros <-. unfold_lift. simpl.
  destruct (load_array m X0 _) as [x0|]; simpl; [|done].
  destruct (load_array m lewis _) as [lw|]; simpl; [|done].
  destruct (load_array m M _) as [mm|]; simpl; [|done].
  destruct (load_array m a _) as [aa|]; simpl; [|done].
  destruct (pure_rhou_verbose rho u x0 nsp nel lw mm aa verbose verbose')
    as (-> & -> & ->).
  destruct (store_array _ _ _) as [m1|]; simpl; [|done].
  destruct (store m1 _ _); by simpl.
Qed.

End lift_ok.

Section lift_safe.
Context (f : pure_solver) `{!PureOk f}.
Implicit Types s : state.

Lemma lift_pt_status p T X0 nsp nel lewis M a X1 verbose s r s' :
  lift_pt f p T X0 nsp nel lewis M a X1 verbose s = Ret r s' → in_int r.
Proof.
  intros (x0 & lw & mm & aa & m' & _ & _ & _ & _ & _ & -> & _)%lift_pt_inv.
  apply pure_pt_status.
Qed.

Lemma lift_rhou_status rho u X0 nsp nel lewis M a X1 T verbose s r s' :
  lift_rhou f rho u X0 nsp nel lewis M a X1 T verbose s = Ret r s' →
  in_int r.
Proof.
  intros (x0 & lw & mm & aa & m1 & m' & _ & _ & _ & _ & _ & _ & -> & _)
    %lift_rhou_inv.
  apply pure_rhou_status.
Qed.

(** An answer of [nsp] entries can be stored in [nsp] allocated cells. *)
Lemma answer_stored (m : gmap Z float) X1 nsp (l : list double) :
  length l = Z.to_nat nsp → allocated m X1 nsp →
  is_Some (store_array m X1 l).
Proof.
  intros Hlen Hal. apply store_array_is_Some.
  revert Hal. apply allocated_weaken. intros c. by apply answer_cells.
Qed.

Lemma lift_pt_safe p T X0 nsp nel lewis M a X1 verbose s :
  inputs_allocated (st_mem s) X0 nsp nel lewis M a →
  allocated (st_mem s) X1 nsp →
  ∃ r s', lift_pt f p T X0 nsp nel lewis M a X1 verbose s = Ret r s'.
Proof.
  destruct s as [m o]. simpl.
  intros ([x0 H0]%load_array_is_Some & [lw Hl]%load_array_is_Some &
          [mm HM]%load_array_is_Some & [aa Ha]%load_array_is_Some) H1.
  unfold_lift. simpl. rewrite H0. simpl. rewrite Hl. simpl.
  rewrite HM. simpl. rewrite Ha. simpl.
  destruct (answer_stored m X1 nsp
    (pt_X1 (pure_pt f p T x0 nsp nel lw mm aa verbose))) as [m' ->];
    [|done|simpl; eauto].
  apply pure_pt_length. by apply load_array_length in H0.
Qed.

Lemma lift_rhou_safe rho u X0 nsp nel lewis M a X1 T verbose s :
  inputs_allocated (st_mem s) X0 nsp nel lewis M a →
  allocated (st_mem s) X1 nsp → allocated (st_mem s) T 1 →
  ∃ r s', lift_rhou f rho u X0 nsp nel lewis M a X1 T verbose s = Ret r s'.
Proof.
  destruct s as [m o]. simpl.
  intros ([x0 H0]%load_array_is_Some & [lw Hl]%load_array_is_Some &
          [mm HM]%load_array_is_Some & [aa Ha]%load_array_is_Some) H1 HT.
  unfold_lift. simpl. rewrite H0. simpl. rewrite Hl. simpl.
  rewrite HM. simpl. rewrite Ha. simpl.
  destruct (answer_stored m X1 nsp
    (rhou_X1 (pure_rhou f rho u x0 nsp nel lw mm aa verbose))) as [m1 Hst];
    [|done|].
  { apply pure_rhou_length. by apply load_array_length in H0. }
  rewrite Hst. simpl.
  assert (is_Some (m1 !! T)) as HT1.
  { apply (store_array_same_cells _ _ _ _ Hst), HT. unfold between. lia. }
  rewrite (store_Some _ _ _ HT1). simpl. eauto.
Qed.

(** The contract holds for every lifted solver. *)
#[export] Instance lift_ok : SolverOk (lift f).
Proof.
  split; simpl.
  - apply lift_pt_frame, _.
  - apply lift_pt_out.
  - apply lift_pt_status.
  - apply lift_pt_total.
  - apply lift_pt_verbose, _.
  - apply lift_pt_safe.
  - apply lift_rhou_frame, _.
  - apply lift_rhou_out.
  - apply lift_rhou_status.
  - apply lift_rhou_total.
  - apply lift_rhou_verbose, _.
  - apply lift_rhou_safe.
Qed.

End lift_safe.

(** ** The lifted solver is local *)

(** One more cell stored in two stores that agree on [X1]. *)
Lemma store_agree (m1 m2 : gmap Z float) X1 nsp T v :
  agree_on (between X1 nsp) m1 m2 → same_cells m1 m2 →
  match store m1 T v, store m2 T v with
  | Some m1', Some m2' => agree_on (rhou_writes X1 nsp T) m1' m2'
  | None, None => True
  | _, _ => False
  end.
Proof.
  intros Hag Hc. unfold store. pose proof (Hc T) as HT.
  destruct (m1 !! T) as [v1|] eqn:H1, (m2 !! T) as [v2|] eqn:H2;
    [|by destruct HT as [[? ?] _]; eauto|by destruct HT as [_ [? ?]]; eauto
     |done].
  intros c Hw. destruct (decide (c = T)) as [->|Hne].
  - by rewrite !lookup_insert_eq.
  - rewrite !lookup_insert_ne by done. apply Hag.
    destruct Hw as [?|Hw]; [done|]. unfold between in Hw. lia.
Qed.

Section lift_local.
Context (f : pure_solver) `{!PureOk f}.
Implicit Types m : gmap Z float.

(** Stores that agree on the cells read give the same four arrays. *)
Lemma reads_agree m1 m2 X0 nsp nel lewis M a :
  agree_on (solver_reads X0 nsp nel lewis M a) m1 m2 →
  load_array m1 X0 nsp = load_array m2 X0 nsp ∧
  load_array m1 lewis (nsp * lewis_per_species)
  = load_array m2 lewis (nsp * lewis_per_species) ∧
  load_array m1 M nsp = load_array m2 M nsp ∧
  load_array m1 a (nel * nsp) = load_array m2 a (nel * nsp).
Proof.
  intros Hag. repeat split; apply load_array_agree;
    (eapply agree_on_weaken; [|exact Hag]); unfold solver_reads; tauto.
Qed.

(** An answer of [nsp] entries stored at [X1] in two stores with the same
    cells: stored in both, and then equal on [X1], or in neither. *)
Lemma answer_agree m1 m2 X1 nsp (l : list double) :
  length l = Z.to_nat nsp → same_cells m1 m2 →
  match store_array m1 X1 l, store_array m2 X1 l with
  | Some m1', Some m2' =>
      agree_on (between X1 nsp) m1' m2' ∧ same_cells m1' m2'
  | None, None => True
  | _, _ => False
  end.
Proof.
  intros Hlen Hc.
  destruct (store_array m1 X1 l) as [m1'|] eqn:H1,
           (store_array m2 X1 l) as [m2'|] eqn:H2; [| | |done].
  - split.
    + eapply agree_on_weaken; [|by eapply store_array_agree].
      intros c. unfold between. lia.
    + apply store_array_same_cells in H1, H2.
      by rewrite <- H1, <- H2.
  - apply (store_array_same_cells_None m2 m1) in H2; [congruence|done].
  - apply (store_array_same_cells_None m1 m2) in H1; [congruence|done].
Qed.

Lemma lift_pt_local p T X0 nsp nel lewis M a X1 verbose s1 s2 :
  agree_on (solver_reads X0 nsp nel lewis M a) (st_mem s1) (st_mem s2) →
  same_cells (st_mem s1) (st_mem s2) →
  same_result (between X1 nsp)
    (lift_pt f p T X0 nsp nel lewis M a X1 verbose s1)
    (lift_pt f p T X0 nsp nel lewis M a X1 verbose s2).
Proof.
  destruct s1 as [m1 o1], s2 as [m2 o2]. simpl.
  intros (E0 & El & EM & Ea)%reads_agree Hc. unfold_lift. simpl.
  rewrite E0. destruct (load_array m2 X0 _) as [x0|] eqn:H0; simpl; [|done].
  rewrite El. destruct (load_array m2 lewis _) as [lw|]; simpl; [|done].
  rewrite EM. destruct (load_array m2 M _) as [mm|]; simpl; [|done].
  rewrite Ea. destruct (load_array m2 a _) as [aa|]; simpl; [|done].
  pose proof (answer_agree m1 m2 X1 nsp
    (pt_X1 (pure_pt f p T x0 nsp nel lw mm aa verbose))) as Hst.
  specialize (Hst ltac:(eauto using pure_pt_length, load_array_length) Hc).
  destruct (store_array m1 _ _), (store_array m2 _ _); simpl; try done.
  by destruct Hst.
Qed.

Lemma lift_rhou_local rho u X0 nsp nel lewis M a X1 T verbose s1 s2 :
  agree_on (solver_reads X0 nsp nel lewis M a) (st_mem s1) (st_mem s2) →
  same_cells (st_mem s1) (st_mem s2) →
  same_result (rhou_writes X1 nsp T)
    (lift_rhou f rho u X0 nsp nel lewis M a X1 T verbose s1)
    (lift_rhou f rho u X0 nsp nel lewis M a X1 T verbose s2).
Proof.
  destruct s1 as [m1 o1], s2 as [m2 o2]. simpl.
  intros (E0 & El & EM & Ea)%reads_agree Hc. unfold_lift. simpl.
  rewrite E0. destruct (load_array m2 X0 _) as [x0|] eqn:H0; simpl; [|done].
  rewrite El. destruct (load_array m2 lewis _) as [lw|]; simpl; [|done].
  rewrite EM. destruct (load_array m2 M _) as [mm|]; simpl; [|done].
  rewrite Ea. destruct (load_array m2 a _) as [aa|]; simpl; [|done].
  pose proof (answer_agree m1 m2 X1 nsp
    (rhou_X1 (pure_rhou f rho u x0 nsp nel lw mm aa verbose))) as Hst.
  specialize (Hst ltac:(eauto using pure_rhou_length, load_array_length) Hc).
  destruct (store_array m1 _ _) as [m1'|], (store_array m2 _ _) as [m2'|];
    simpl; try done.
  destruct Hst as [Hag Hc'].
  pose proof (store_agree m1' m2' X1 nsp T
    (rhou_T (pure_rhou f rho u x0 nsp nel lw mm aa verbose)) Hag Hc') as HT.
  by destruct (store m1' T _), (store m2' T _).
Qed.

#[export] Instance lift_local : SolverLocal (lift f).
Proof. split; simpl; [apply lift_pt_local | apply lift_rhou_local]. Qed.

End lift_local.

(** ** A small instance, to evaluate the theorems on *)

(** The composition is returned as it is; the status is 0 for a positive
    temperature and 3 otherwise; [verbose] prints a marker. *)
Definition demo_pt (p T : double) (X0 : list double) (nsp nel : Z)
    (lewis M a : list double) (verbose : Z) : pt_answer :=
  {| pt_status := if (0 <? T)%float then 0 else 3;
     pt_X1 := X0;
     pt_diag := if verbose =? 0 then "" else "pt;" |}.

(** The same with the density; the temperature returned is [u]. *)
Definition demo_rhou (rho u : double) (X0 : list double) (nsp nel : Z)
    (lewis M a : list double) (verbose : Z) : rhou_answer :=
  {| rhou_status := if (0 <? rho)%float then 0 else 4;
     rhou_X1 := X0;
     rhou_T := u;
     rhou_diag := if verbose =? 0 then "" else "rhou;" |}.

Definition demo_pure : pure_solver :=
  {| pure_pt := demo_pt; pure_rhou := demo_rhou |}.

#[export] Instance demo_pure_ok : PureOk demo_pure.
Proof.
  split; simpl; unfold demo_pt, demo_rhou; simpl; intros; try done;
    by case_match.
Qed.

Definition demo_solver : Solver := lift demo_pure.

#[export] Instance demo_solver_ok : SolverOk demo_solver.
Proof. apply lift_ok, _. Qed.

#[export] Instance demo_solver_local : SolverLocal demo_solver.
Proof. apply lift_local, _. Qed.
