(* ===== verification/Loop.v ===== *)
(** * Loop: the fail-fast [for] loop of the batch functions

    [batch_pt] and [batch_rhou] of [src/ceq.c] share one control structure:

      for (i=0; i<N; i++){
          ...
          result = <body at index i>;
          if (result!=0){
              printf(<message>, i);
              return result;
          }
      }
      return 0;

    [failfast_loop] is that structure with the body and the report as
    parameters, the counter an [int] and the iteration bounded by fuel.
    [failfast] is its contract: a fold over the list of indices in exact
    arithmetic.  The file proves that the loop refines the contract, that
    [Z.to_nat (N - i)] units of fuel suffice, how a run ends (all items
    succeeded, or a first item failed), and the rule that carries a relation
    on states through the loop. *)

From stdpp Require Import gmap.
From S2P Require Import Prelude CInt Memory Exec.

Section loop.
Variable body : Z → exec Z.       (* one iteration, returns the status *)
Variable report : Z → exec unit.  (* the [printf] of the failing index *)
Variable N : Z.                   (* the bound of the loop *)

(** ** The loop of the code *)

Fixpoint failfast_loop (fuel : nat) (i : Z) : exec Z :=
  if int_lt i N then
    match fuel with
    | O => fail OutOfFuel
    | S fuel' =>
        let* result := body i in
        if int_ne result 0 then (report i;; ret result)
        else failfast_loop fuel' (int_add i 1)
    end
  else ret 0.

(** ** The contract: a fail-fast fold over the indices *)

Fixpoint failfast (items : list Z) : exec Z :=
  match items with
  | [] => ret 0
  | i :: rest =>
      let* result := body i in
      if decide (result = 0) then failfast rest
      else (report i;; ret result)
  end.

(** [all_ok items s s']: run from [s], the body succeeds (status 0) on every
    item of [items] in turn, and leaves the state [s']. *)
Inductive all_ok : list Z → state → state → Prop :=
  | all_ok_nil s : all_ok [] s s
  | all_ok_cons i rest s s1 s' :
      body i s = Ret 0 s1 → all_ok rest s1 s' → all_ok (i :: rest) s s'.

(** ** Unfolding *)

Lemma failfast_loop_done fuel i : N ≤ i → failfast_loop fuel i = ret 0.
Proof.
  intros Hi. destruct fuel; simpl;
    by rewrite (proj2 (int_lt_false i N) Hi).
Qed.

Lemma failfast_loop_step fuel i :
  i < N →
  failfast_loop (S fuel) i =
  let* result := body i in
  if int_ne result 0 then (report i;; ret result)
  else failfast_loop fuel (int_add i 1).
Proof. intros Hi. simpl. by rewrite (proj2 (int_lt_true i N) Hi). Qed.

Lemma failfast_cons_ok i rest s s1 :
  body i s = Ret 0 s1 → failfast (i :: rest) s = failfast rest s1.
Proof. intros Hb. simpl. by rewrite (bind_run _ _ _ _ _ Hb). Qed.

Lemma failfast_cons_fail i rest s r s1 :
  body i s = Ret r s1 → r ≠ 0 →
  failfast (i :: rest) s = (report i;; ret r) s1.
Proof.
  intros Hb Hr. simpl. rewrite (bind_run _ _ _ _ _ Hb).
  by rewrite decide_False.
Qed.

Lemma failfast_cons_fault i rest s f :
  body i s = Fault f → failfast (i :: rest) s = Fault f.
Proof. intros Hb. simpl. by rewrite (bind_run_fault _ _ _ _ Hb). Qed.

(** ** Refinement: the loop implements the contract *)

(** From index [i] on, with enough fuel, the loop is the fold over the
    indices [i, i+1, ..., N-1]. *)
Lemma failfast_loop_refines fuel i :
  in_int N → 0 ≤ i → (Z.to_nat (N - i) ≤ fuel)%nat →
  failfast_loop fuel i ≡ failfast (seqZ i (N - i)).
Proof.
  intros HN. revert i. induction fuel as [|fuel IH]; intros i Hi Hfuel s.
  - rewrite failfast_loop_done, seqZ_nil by lia. done.
  - destruct (decide (i < N)) as [Hlt|Hge].
    + rewrite failfast_loop_step, seqZ_cons by lia. simpl. unfold bind at 1 3.
      destruct (body i s) as [r s1|f]; [|done].
      rewrite (int_succ_exact i N) by (done || lia).
      replace (Z.pred (N - i)) with (N - (i + 1)) by lia.
      replace (Z.succ i) with (i + 1) by lia.
      destruct (int_ne r 0) eqn:Hr; reflect_int.
      * by rewrite decide_False.
      * rewrite decide_True by done. apply IH; lia.
    + rewrite failfast_loop_done, seqZ_nil by lia. done.
Qed.

(** More fuel than needed changes nothing. *)
Lemma failfast_loop_fuel fuel fuel' i :
  in_int N → 0 ≤ i →
  (Z.to_nat (N - i) ≤ fuel)%nat → (Z.to_nat (N - i) ≤ fuel')%nat →
  failfast_loop fuel i ≡ failfast_loop fuel' i.
Proof. intros. by rewrite !failfast_loop_refines. Qed.

(** ** Termination *)

(** The contract never runs out of fuel when its parts do not. *)
Lemma failfast_total items s :
  (∀ j s, body j s ≠ Fault OutOfFuel) →
  (∀ j s, report j s ≠ Fault OutOfFuel) →
  failfast items s ≠ Fault OutOfFuel.
Proof.
  intros Hbody Hreport. revert s.
  induction items as [|i rest IH]; intros s; [done|]. simpl.
  intros [Hb|(r & s1 & Hb & Hk)]%bind_Fault; [by eapply Hbody|].
  case_decide; [by eapply IH|].
  apply bind_Fault in Hk as [Hk|(? & ? & _ & [=])]. by eapply Hreport.
Qed.

(** [Z.to_nat (N - i)] units of fuel are enough for the loop from [i]. *)
Lemma failfast_loop_total fuel i s :
  in_int N → 0 ≤ i → (Z.to_nat (N - i) ≤ fuel)%nat →
  (∀ j s, body j s ≠ Fault OutOfFuel) →
  (∀ j s, report j s ≠ Fault OutOfFuel) →
  failfast_loop fuel i s ≠ Fault OutOfFuel.
Proof.
  intros HN Hi Hfuel Hbody Hreport.
  rewrite (failfast_loop_refines fuel i HN Hi Hfuel s).
  by apply failfast_total.
Qed.

(** ** How a run of the contract ends *)

Lemma all_ok_cons_inv i rest s s' :
  all_ok (i :: rest) s s' → ∃ s1, body i s = Ret 0 s1 ∧ all_ok rest s1 s'.
Proof. intros H. inv H. eauto. Qed.

Lemma all_ok_app l1 l2 s s1 s' :
  all_ok l1 s s1 → all_ok l2 s1 s' → all_ok (l1 ++ l2) s s'.
Proof. induction 1; simpl; eauto using all_ok. Qed.

Lemma all_ok_app_inv l1 l2 s s' :
  all_ok (l1 ++ l2) s s' → ∃ s1, all_ok l1 s s1 ∧ all_ok l2 s1 s'.
Proof.
  revert s. induction l1 as [|i l1 IH]; simpl; intros s H.
  - exists s. eauto using all_ok.
  - inv H. edestruct IH as (s2 & ? & ?); [done|]. eauto using all_ok.
Qed.

(** The body is a function: the state after the successful items is
    determined. *)
Lemma all_ok_functional items s s1 s2 :
  all_ok items s s1 → all_ok items s s2 → s1 = s2.
Proof.
  intros H. revert s2. induction H as [|i rest s sa s' Hb _ IH]; intros s2 H2.
  - by inv H2.
  - inv H2. apply IH. congruence.
Qed.

(** Running the contract after a prefix of successful items is running it
    on the rest. *)
Lemma failfast_all_ok pre rest s s1 :
  all_ok pre s s1 → failfast (pre ++ rest) s = failfast rest s1.
Proof.
  induction 1 as [|i pre s sa s1 Hb _ IH]; [done|]. simpl app.
  by rewrite (failfast_cons_ok _ _ _ _ Hb).
Qed.

(** Status 0: every item succeeded. *)
Lemma failfast_Ret_0 items s s' :
  failfast items s = Ret 0 s' ↔ all_ok items s s'.
Proof.
  split.
  - revert s. induction items as [|i rest IH]; intros s; simpl.
    + intros [= <-]. constructor.
    + intros (r & s1 & Hb & Hk)%bind_Ret. case_decide as Hr.
      * subst r. econstructor; eauto.
      * by exec_inv.
  - intros H. rewrite <- (app_nil_r items).
    by rewrite (failfast_all_ok _ _ _ _ H).
Qed.

(** A non-zero status: some item failed with it after all earlier items
    succeeded, and its index was reported. *)
Lemma failfast_Ret_fail items s r s' :
  r ≠ 0 →
  failfast items s = Ret r s' ↔
  ∃ pre i post s1 s2,
    items = pre ++ i :: post ∧ all_ok pre s s1 ∧
    body i s1 = Ret r s2 ∧ report i s2 = Ret () s'.
Proof.
  intros Hr. split.
  - revert s. induction items as [|i rest IH]; intros s; simpl.
    + by intros [= <-].
    + intros (r1 & s1 & Hb & Hk)%bind_Ret. case_decide as Hr1.
      * subst r1. destruct (IH _ Hk) as (pre & j & post & sa & sb & -> & ?).
        exists (i :: pre), j, post, sa, sb. naive_solver eauto using all_ok.
      * apply bind_Ret in Hk as ([] & s2 & Hrep & [= -> <-]).
        exists [], i, rest, s, s1. naive_solver eauto using all_ok.
  - intros (pre & i & post & s1 & s2 & -> & Hpre & Hb & Hrep).
    rewrite (failfast_all_ok _ _ _ _ Hpre).
    rewrite (failfast_cons_fail _ _ _ _ _ Hb Hr).
    by rewrite (bind_run _ _ _ _ _ Hrep).
Qed.

(** A fault: some item, or its report, faulted after all earlier items
    succeeded. *)
Lemma failfast_Fault items s f :
  failfast items s = Fault f ↔
  ∃ pre i post s1,
    items = pre ++ i :: post ∧ all_ok pre s s1 ∧
    (body i s1 = Fault f ∨
     ∃ r s2, body i s1 = Ret r s2 ∧ r ≠ 0 ∧ report i s2 = Fault f).
Proof.
  split.
  - revert s. induction items as [|i rest IH]; intros s; simpl; [done|].
    intros [Hb|(r & s1 & Hb & Hk)]%bind_Fault.
    + exists [], i, rest, s. naive_solver eauto using all_ok.
    + case_decide as Hr.
      * subst r. destruct (IH _ Hk) as (pre & j & post & sa & -> & ? & ?).
        exists (i :: pre), j, post, sa. naive_solver eauto using all_ok.
      * apply bind_Fault in Hk as [Hk|(? & ? & _ & [=])].
        exists [], i, rest, s. naive_solver eauto using all_ok.
  - intros (pre & i & post & s1 & -> & Hpre & Hend).
    rewrite (failfast_all_ok _ _ _ _ Hpre).
    destruct Hend as [Hb|(r & s2 & Hb & Hr & Hrep)].
    + by apply failfast_cons_fault.
    + rewrite (failfast_cons_fail _ _ _ _ _ Hb Hr).
      by rewrite (bind_run_fault _ _ _ _ Hrep).
Qed.

(** The same over the indices [0 .. n-1]: the failing item is determined by
    its index. *)
Lemma failfast_seqZ_fail n s r s' :
  r ≠ 0 →
  failfast (seqZ 0 n) s = Ret r s' ↔
  ∃ i s1 s2,
    0 ≤ i < n ∧ all_ok (seqZ 0 i) s s1 ∧
    body i s1 = Ret r s2 ∧ report i s2 = Ret () s'.
Proof.
  intros Hr. rewrite failfast_Ret_fail by done. split.
  - intros (pre & i & post & s1 & s2 & Hsplit & Hpre & Hb & Hrep).
    apply seqZ_middle in Hsplit as (Hi & -> & _).
    rewrite Z.sub_0_r in Hpre. exists i, s1, s2. split; [lia | done].
  - intros (i & s1 & s2 & Hi & Hpre & Hb & Hrep).
    exists (seqZ 0 i), i, (seqZ (i + 1) (0 + n - i - 1)), s1, s2.
    split; [|done]. rewrite (seqZ_split 0 n i) by lia. by rewrite Z.sub_0_r.
Qed.

(** ** Composition of batches *)

(** A batch over [l1 ++ l2] is the batch over [l1] followed, when it
    succeeds, by the batch over [l2]. *)
Lemma failfast_app l1 l2 :
  failfast (l1 ++ l2) ≡
  let* r := failfast l1 in if decide (r = 0) then failfast l2 else ret r.
Proof.
  induction l1 as [|i l1 IH]; intros s; [done|]. simpl.
  unfold bind at 1 3 4. destruct (body i s) as [r s1|f]; [|done].
  case_decide as Hr; [apply IH|].
  unfold bind. destruct (report i s1) as [[] s2|f]; [|done].
  simpl. by rewrite decide_False.
Qed.

(** ** Relations carried through the loop *)

Section invariant.
Context (R : relation state) `{!PreOrder R}.
Hypothesis report_R : ∀ i, steps_in R (report i).

(** A preorder that every item of the list respects is respected by the
    batch. *)
Lemma failfast_steps_in items :
  (∀ i, i ∈ items → steps_in R (body i)) → steps_in R (failfast items).
Proof.
  induction items as [|i rest IH]; intros Hb; simpl; [steps_ret|].
  steps_bind; [apply Hb; left|].
  case_decide; [apply IH; intros j Hj; apply Hb; by right|].
  steps_bind; [done|]. steps_ret.
Qed.

Lemma failfast_loop_steps_in fuel i :
  (∀ j, steps_in R (body j)) → steps_in R (failfast_loop fuel i).
Proof.
  intros Hb. revert i. induction fuel as [|fuel IH]; intros i; simpl;
    destruct (int_lt i N); [apply steps_in_fail | steps_ret | | steps_ret].
  steps_bind; [done|]. destruct (int_ne _ 0); [|done].
  steps_bind; [done|]. steps_ret.
Qed.

Lemma all_ok_steps_in items s s' :
  (∀ i, i ∈ items → steps_in R (body i)) → all_ok items s s' → R s s'.
Proof.
  intros Hb H. induction H as [|i rest s s1 s' Hrun _ IH]; [reflexivity|].
  etrans; [by eapply (Hb i); [left|] |].
  apply IH. intros j Hj. apply Hb. by right.
Qed.

End invariant.

(** ** Absence of faults *)

(** If some property of states is kept by the successful items, makes
    every item of the list return, and the report returns, then the batch
    returns. *)
Lemma failfast_returns (I : state → Prop) items s :
  (∀ i s, i ∈ items → I s → ∃ r s', body i s = Ret r s') →
  (∀ i s s', i ∈ items → I s → body i s = Ret 0 s' → I s') →
  (∀ i s, ∃ s', report i s = Ret () s') →
  I s → ∃ r s', failfast items s = Ret r s'.
Proof.
  intros Hret Hkeep Hrep. revert s.
  induction items as [|i rest IH]; intros s Hs; simpl; [by eexists _, _|].
  destruct (Hret i s) as (r & s1 & Hb); [left|done|].
  rewrite (bind_run _ _ _ _ _ Hb). case_decide as Hr.
  - subst r. apply IH.
    + intros j sj Hj. apply Hret. by right.
    + intros j sj sj' Hj. apply Hkeep. by right.
    + eapply Hkeep; [left| |]; done.
  - destruct (Hrep i s1) as [s2 Hs2]. rewrite (bind_run _ _ _ _ _ Hs2).
    by eexists _, _.
Qed.

(** ** The status returned *)

(** The loop returns 0 or a status of its body: a property of 0 and of
    every status of the body is a property of every status of the loop,
    whatever the bound and the fuel. *)
Lemma failfast_loop_status (Q : Z → Prop) fuel i s r s' :
  Q 0 → (∀ j s r s', body j s = Ret r s' → Q r) →
  failfast_loop fuel i s = Ret r s' → Q r.
Proof.
  intros Q0 Hbody. revert i s.
  induction fuel as [|fuel IH]; intros i s; simpl;
    destruct (int_lt i N); try (intros; exec_inv; done).
  intros Hrun. apply bind_Ret in Hrun as (r1 & s1 & Hb & Hrun).
  destruct (int_ne r1 0); [|by eapply IH].
  exec_inv. by eapply Hbody.
Qed.

(** Where a status other than 0 comes from: the loop returns it from an
    iteration that passed the guard, whose body returned it, and whose
    report led to the final state.  No other value leaves the loop: not
    the counter, and not the status of another iteration. *)
Lemma failfast_loop_reported fuel i s r s' :
  r ≠ 0 → failfast_loop fuel i s = Ret r s' →
  ∃ j s1 s2, j < N ∧ body j s1 = Ret r s2 ∧ report j s2 = Ret () s'.
Proof.
  intros Hr. revert i s.
  induction fuel as [|fuel IH]; intros i s; simpl;
    destruct (int_lt i N) eqn:Hi; try (intros; exec_inv; done).
  intros Hrun. apply bind_Ret in Hrun as (r1 & s1 & Hb & Hrun).
  destruct (int_ne r1 0); [|by eapply IH].
  apply bind_Ret in Hrun as ([] & s2 & Hrep & Hret). exec_inv.
  apply Z.ltb_lt in Hi. by eexists _, _, _.
Qed.

End loop.

Arguments all_ok_nil {body} s.
Arguments all_ok_cons {body} i rest s s1 s'.

(** The loops of two bodies that agree on every state are the same loop. *)
Lemma failfast_loop_ext body body' report report' N fuel i :
  (∀ j, body j ≡ body' j) → (∀ j, report j ≡ report' j) →
  failfast_loop body report N fuel i ≡ failfast_loop body' report' N fuel i.
Proof.
  intros Hb Hr. revert i. induction fuel as [|fuel IH]; intros i s; simpl;
    destruct (int_lt i N); try done.
  unfold bind at 1 3. rewrite (Hb i s).
  destruct (body' i s) as [r s1|f]; [|done].
  destruct (int_ne r 0); [|apply IH]. unfold bind. by rewrite (Hr i s1).
Qed.

(** The contract only looks at the body on the items of the list. *)
Lemma failfast_ext_in body body' report items :
  (∀ i, i ∈ items → body i ≡ body' i) →
  failfast body report items ≡ failfast body' report items.
Proof.
  induction items as [|i rest IH]; intros Hb s; [done|]. simpl.
  unfold bind at 1 3. rewrite (Hb i) by left.
  destruct (body' i s) as [r s1|f]; [|done].
  case_decide; [|done]. apply IH. intros j Hj. apply Hb. by right.
Qed.

(** Two batches whose bodies and reports agree up to stdout, on states
    with the same store, agree up to stdout. *)
Lemma failfast_same_effect body body' report report' items s s' :
  (∀ i s s', st_mem s = st_mem s' → same_effect (body i s) (body' i s')) →
  (∀ i s s', st_mem s = st_mem s' →
             same_effect (report i s) (report' i s')) →
  st_mem s = st_mem s' →
  same_effect (failfast body report items s)
              (failfast body' report' items s').
Proof.
  intros Hb Hr. revert s s'.
  induction items as [|i rest IH]; intros s s' Hm; [done|]. simpl.
  unfold bind at 1 3. specialize (Hb i s s' Hm).
  destruct (body i s) as [r s1|f], (body' i s') as [r' s1'|f'];
    simpl in Hb; try done.
  destruct Hb as [<- Hm1]. case_decide; [by apply IH|].
  unfold bind. specialize (Hr i s1 s1' Hm1).
  destruct (report i s1) as [[] s2|f], (report' i s1') as [[] s2'|f'];
    simpl in *; naive_solver.
Qed.

(** Renaming the indices: a batch over [f <$> items] is the batch over
    [items] of the body composed with [f]; the reports may differ in what
    they print. *)
Lemma failfast_reindex body body' report report' (f : Z → Z) items s :
  (∀ j, j ∈ items → body' j ≡ body (f j)) →
  (∀ j s, same_effect (report (f j) s) (report' j s)) →
  same_effect (failfast body report (f <$> items) s)
              (failfast body' report' items s).
Proof.
  intros Hb Hr. revert s.
  induction items as [|j rest IH]; intros s; [done|]. rewrite fmap_cons.
  simpl. unfold bind at 1 3. rewrite (Hb j) by left.
  destruct (body (f j) s) as [r s1|e]; [|done].
  case_decide; [apply IH; intros i Hi; apply Hb; by right|].
  unfold bind. specialize (Hr j s1).
  destruct (report (f j) s1) as [[] s2|e1], (report' j s1) as [[] s2'|e2];
    simpl in *; naive_solver.
Qed.

(** A fault over the indices [0 .. n-1], when the report cannot fault: the
    body faulted on some item after all earlier items succeeded. *)
Lemma failfast_seqZ_Fault body report n s f :
  (∀ i s, ∃ s', report i s = Ret () s') →
  failfast body report (seqZ 0 n) s = Fault f ↔
  ∃ i s1, 0 ≤ i < n ∧ all_ok body (seqZ 0 i) s s1 ∧ body i s1 = Fault f.
Proof.
  intros Hrep. rewrite failfast_Fault. split.
  - intros (pre & i & post & s1 & Hsplit & Hpre & Hend).
    apply seqZ_middle in Hsplit as (Hi & -> & _).
    rewrite Z.sub_0_r in Hpre. exists i, s1.
    destruct Hend as [Hb|(r & s2 & _ & _ & Hr)]; [split; [lia|done]|].
    destruct (Hrep i s2) as [s' Hs']. congruence.
  - intros (i & s1 & Hi & Hpre & Hb).
    exists (seqZ 0 i), i, (seqZ (i + 1) (0 + n - i - 1)), s1.
    rewrite (seqZ_split 0 n i) by lia. rewrite Z.sub_0_r. auto.
Qed.
