(* ===== verification/Ceq.v ===== *)
(** * Ceq: the functions of [src/ceq.c]

    Each function of the source is one definition with the parameters of
    the C function, in the same order.  The two loops are written out as the
    code has them ([batch_pt_loop], [batch_rhou_loop]: a counter [i] of type
    [int], the guard [i<N], the body, the test [result!=0], [i++]).

    - [pt], [rhou]: the solver with the same arguments;
    - [batch_pt], [batch_rhou]: the loop from [i=0], with the fuel
      [Z.to_nat N];
    - [main]: prints its line and returns 0.

    The file holds the definitions only; [CeqFacts] has their first
    properties. *)

From Corelib Require Import PrimFloat.
From Stdlib Require Import Ascii.
From stdpp Require Import gmap pretty.
From S2P Require Import Prelude CInt Memory Exec Solver Loop.

(** ** The string literals of the source *)

(** ["Error in batch_pt @ position: %d"] *)
Definition batch_pt_error : string := "Error in batch_pt @ position: %d".

(** ["Error in batch_rhou @ position: %d"] *)
Definition batch_rhou_error : string := "Error in batch_rhou @ position: %d".

(** ["Called main in ceq.c!\n"] *)
Definition main_message : string :=
  "Called main in ceq.c!" +:+ String "010"%char EmptyString.

Section ceq.
Context `{!Solver}.

(** ** [pt] and [rhou] *)

(** [return solve_pt(p, T, X0, nsp, nel, lewis, M, a, X1, verbose);] *)
Definition pt (p T : double) (X0 : ptr) (nsp nel : Z)
    (lewis M a X1 : ptr) (verbose : Z) : exec Z :=
  solve_pt p T X0 nsp nel lewis M a X1 verbose.

(** [return solve_rhou(rho, u, X0,nsp,nel, lewis, M, a, X1, T, verbose);] *)
Definition rhou (rho u : double) (X0 : ptr) (nsp nel : Z)
    (lewis M a X1 T : ptr) (verbose : Z) : exec Z :=
  solve_rhou rho u X0 nsp nel lewis M a X1 T verbose.

(** ** [batch_pt] *)

Section batch_pt.
Variables (N : Z) (p T X0 : ptr) (nsp nel : Z) (lewis M a X1 : ptr).
Variable verbose : Z.

(** The statements of one iteration, up to the call:
      Ti = T[i];  pi = p[i];
      X0i = X0 + i*nsp;  X1i = X1 + i*nsp;
      result = solve_pt(pi, Ti, X0i, nsp, nel, lewis, M, a, X1i, verbose); *)
Definition batch_pt_body (i : Z) : exec Z :=
  let* Ti := read (ptr_add T i) in
  let* pi := read (ptr_add p i) in
  let X0i := ptr_add X0 (int_mul i nsp) in
  let X1i := ptr_add X1 (int_mul i nsp) in
  solve_pt pi Ti X0i nsp nel lewis M a X1i verbose.

(** [printf("Error in batch_pt @ position: %d", i);] *)
Definition batch_pt_report (i : Z) : exec unit := printf batch_pt_error [i].

(** [for (i=...; i<N; i++){ ...; if (result!=0){ printf; return result; } }
    return 0;] from the current value of [i]. *)
Fixpoint batch_pt_loop (fuel : nat) (i : Z) : exec Z :=
  if int_lt i N then
    match fuel with
    | O => fail OutOfFuel
    | S fuel' =>
        let* result := batch_pt_body i in
        if int_ne result 0 then
          (batch_pt_report i;; ret result)
        else batch_pt_loop fuel' (int_add i 1)
    end
  else ret 0.

(** The function: the loop from [i=0]. *)
Definition batch_pt : exec Z := batch_pt_loop (Z.to_nat N) 0.

End batch_pt.

(** ** [batch_rhou] *)

Section batch_rhou.
Variables (N : Z) (rho u X0 : ptr) (nsp nel : Z) (lewis M a X1 T : ptr).
Variable verbose : Z.

(** The statements of one iteration, up to the call:
      rhoi = rho[i];  ui = u[i];
      X0i = X0 + i*nsp;  X1i = X1 + i*nsp;  Ti = T + i;
      result = solve_rhou(rhoi, ui, X0i,nsp,nel, lewis, M, a, X1i, Ti,
                          verbose); *)
Definition batch_rhou_body (i : Z) : exec Z :=
  let* rhoi := read (ptr_add rho i) in
  let* ui := read (ptr_add u i) in
  let X0i := ptr_add X0 (int_mul i nsp) in
  let X1i := ptr_add X1 (int_mul i nsp) in
  let Ti := ptr_add T i in
  solve_rhou rhoi ui X0i nsp nel lewis M a X1i Ti verbose.

(** [printf("Error in batch_rhou @ position: %d", i);] *)
Definition batch_rhou_report (i : Z) : exec unit :=
  printf batch_rhou_error [i].

Fixpoint batch_rhou_loop (fuel : nat) (i : Z) : exec Z :=
  if int_lt i N then
    match fuel with
    | O => fail OutOfFuel
    | S fuel' =>
        let* result := batch_rhou_body i in
        if int_ne result 0 then
          (batch_rhou_report i;; ret result)
        else batch_rhou_loop fuel' (int_add i 1)
    end
  else ret 0.

Definition batch_rhou : exec Z := batch_rhou_loop (Z.to_nat N) 0.

End batch_rhou.

(** ** [main] *)

(** [printf("Called main in ceq.c!\n"); return 0;] *)
Definition main : exec Z := printf main_message [];; ret 0.

End ceq.
