(* ===== verification/CeqFacts.v ===== *)
(** * CeqFacts: first properties of the functions of [Ceq]

    - the texts that the three [printf] of the source print;
    - [main] prints its line and returns 0;
    - the loops of [batch_pt] and [batch_rhou] are instances of the
      fail-fast loop of [Loop], whose theorems give their behaviour: each
      is the fail-fast fold of its body over the indices [0 .. N-1], the
      fuel supplied is enough, and a batch with [N <= 0] does nothing. *)

From Corelib Require Import PrimFloat.
From Stdlib Require Import Ascii.
From stdpp Require Import gmap pretty.
From S2P Require Import Prelude CInt Memory Exec Solver Loop Ceq.

(** ** The messages *)

Lemma format_batch_pt_error i :
  format batch_pt_error [i] = "Error in batch_pt @ position: " +:+ pretty i.
Proof. unfold batch_pt_error. cbn. by rewrite append_nil_r. Qed.

Lemma format_batch_rhou_error i :
  format batch_rhou_error [i]
  = "Error in batch_rhou @ position: " +:+ pretty i.
Proof. unfold batch_rhou_error. cbn. by rewrite append_nil_r. Qed.

Lemma format_main_message : format main_message [] = main_message.
Proof. reflexivity. Qed.

(** The reports print and do nothing else. *)
Lemma batch_pt_report_run i s :
  batch_pt_report i s
  = Ret () (State (st_mem s)
              (st_out s +:+ "Error in batch_pt @ position: " +:+ pretty i)).
Proof.
  unfold batch_pt_report. by rewrite printf_run, format_batch_pt_error.
Qed.

Lemma batch_rhou_report_run i s :
  batch_rhou_report i s
  = Ret () (State (st_mem s)
              (st_out s +:+ "Error in batch_rhou @ position: " +:+ pretty i)).
Proof.
  unfold batch_rhou_report. by rewrite printf_run, format_batch_rhou_error.
Qed.

Lemma batch_pt_report_total i s : batch_pt_report i s ≠ Fault OutOfFuel.
Proof. by rewrite batch_pt_report_run. Qed.

Lemma batch_rhou_report_total i s : batch_rhou_report i s ≠ Fault OutOfFuel.
Proof. by rewrite batch_rhou_report_run. Qed.

(** ** [main] *)

(** [main] prints the line "Called main in ceq.c!" followed by a newline
    on stdout, returns 0 and leaves the store as it is. *)
Theorem main_run s :
  main s = Ret 0 (State (st_mem s) (st_out s +:+ main_message)).
Proof. reflexivity. Qed.

(** ** The loops are fail-fast loops *)

Section loops.
Context `{!Solver}.
Variables (N : Z) (p T X0 : ptr) (nsp nel : Z) (lewis M a X1 T' : ptr).
Variable verbose : Z.

(** An iteration returns what the solver returns for the values read at
    index [i] and the slices at the offset [i*nsp]. *)
Lemma batch_pt_body_Ret i s r s' :
  batch_pt_body p T X0 nsp nel lewis M a X1 verbose i s = Ret r s' ↔
  ∃ Ti pi,
    load (st_mem s) (ptr_add T i) = Some Ti
    ∧ load (st_mem s) (ptr_add p i) = Some pi
    ∧ solve_pt pi Ti (ptr_add X0 (int_mul i nsp)) nsp nel lewis M a
        (ptr_add X1 (int_mul i nsp)) verbose s = Ret r s'.
Proof.
  unfold batch_pt_body. rewrite bind_Ret. setoid_rewrite bind_Ret.
  setoid_rewrite read_Ret. naive_solver.
Qed.

Lemma batch_rhou_body_Ret i s r s' :
  batch_rhou_body p T X0 nsp nel lewis M a X1 T' verbose i s = Ret r s' ↔
  ∃ rhoi ui,
    load (st_mem s) (ptr_add p i) = Some rhoi
    ∧ load (st_mem s) (ptr_add T i) = Some ui
    ∧ solve_rhou rhoi ui (ptr_add X0 (int_mul i nsp)) nsp nel lewis M a
        (ptr_add X1 (int_mul i nsp)) (ptr_add T' i) verbose s = Ret r s'.
Proof.
  unfold batch_rhou_body. rewrite bind_Ret. setoid_rewrite bind_Ret.
  setoid_rewrite read_Ret. naive_solver.
Qed.

(** The loops of the code unfold to the fail-fast loop of their body. *)
Lemma batch_pt_loop_failfast :
  batch_pt_loop N p T X0 nsp nel lewis M a X1 verbose
  = failfast_loop (batch_pt_body p T X0 nsp nel lewis M a X1 verbose)
      batch_pt_report N.
Proof. reflexivity. Qed.

Lemma batch_rhou_loop_failfast :
  batch_rhou_loop N p T X0 nsp nel lewis M a X1 T' verbose
  = failfast_loop (batch_rhou_body p T X0 nsp nel lewis M a X1 T' verbose)
      batch_rhou_report N.
Proof. reflexivity. Qed.

(** [batch_pt] is the fail-fast fold of its body over [0 .. N-1]. *)
Lemma batch_pt_failfast :
  in_int N →
  batch_pt N p T X0 nsp nel lewis M a X1 verbose
  ≡ failfast (batch_pt_body p T X0 nsp nel lewis M a X1 verbose)
      batch_pt_report (seqZ 0 N).
Proof.
  intros HN. unfold batch_pt. rewrite batch_pt_loop_failfast.
  rewrite failfast_loop_refines by (done || lia). by rewrite Z.sub_0_r.
Qed.

Lemma batch_rhou_failfast :
  in_int N →
  batch_rhou N p T X0 nsp nel lewis M a X1 T' verbose
  ≡ failfast (batch_rhou_body p T X0 nsp nel lewis M a X1 T' verbose)
      batch_rhou_report (seqZ 0 N).
Proof.
  intros HN. unfold batch_rhou. rewrite batch_rhou_loop_failfast.
  rewrite failfast_loop_refines by (done || lia). by rewrite Z.sub_0_r.
Qed.

(** C40: with [N <= 0] the body of the loop never runs: [batch_pt] returns
    0 and leaves the store and stdout as they are, whatever the arrays. *)
Theorem batch_pt_nothing s :
  N ≤ 0 → batch_pt N p T X0 nsp nel lewis M a X1 verbose s = Ret 0 s.
Proof.
  intros HN. unfold batch_pt. rewrite batch_pt_loop_failfast.
  by rewrite failfast_loop_done.
Qed.

(** The same for [batch_rhou]. *)
Theorem batch_rhou_nothing s :
  N ≤ 0 → batch_rhou N p T X0 nsp nel lewis M a X1 T' verbose s = Ret 0 s.
Proof.
  intros HN. unfold batch_rhou. rewrite batch_rhou_loop_failfast.
  by rewrite failfast_loop_done.
Qed.

(** The fuel [Z.to_nat N] that [batch_pt] gives its loop is enough: with
    any larger amount the loop has the same outcome on every state. *)
Theorem batch_pt_fuel fuel :
  in_int N → (Z.to_nat N ≤ fuel)%nat →
  batch_pt_loop N p T X0 nsp nel lewis M a X1 verbose fuel 0
  ≡ batch_pt N p T X0 nsp nel lewis M a X1 verbose.
Proof.
  intros HN Hfuel. unfold batch_pt. rewrite batch_pt_loop_failfast.
  apply failfast_loop_fuel; (done || lia).
Qed.

(** The same for [batch_rhou]. *)
Theorem batch_rhou_fuel fuel :
  in_int N → (Z.to_nat N ≤ fuel)%nat →
  batch_rhou_loop N p T X0 nsp nel lewis M a X1 T' verbose fuel 0
  ≡ batch_rhou N p T X0 nsp nel lewis M a X1 T' verbose.
Proof.
  intros HN Hfuel. unfold batch_rhou. rewrite batch_rhou_loop_failfast.
  apply failfast_loop_fuel; (done || lia).
Qed.

End loops.
