(* ===== verification/BatchSpec.v ===== *)
(** * BatchSpec: the contract of the batch functions

    What [batch_pt] and [batch_rhou] promise, in exact integer arithmetic:
    item [i] of a batch is the solve of the [i]-th pressure and temperature
    (density and energy) on the [i]-th slice of [X0], writing the [i]-th
    slice of [X1] (and [T[i]]); the items are run in order; the first
    non-zero status stops the run, is reported with its index and returned;
    when every item succeeds the result is 0.

    [batch_pt_item], [batch_pt_spec], [batch_rhou_item], [batch_rhou_spec]
    state this contract.  The C functions compute the slice offset [i*nsp] in
    the type [int]; [slices_fit] is the condition under which that product
    does not overflow, and the refinement theorems show that the C functions
    implement the contract under it.  The characterisations of the two ways
    a run can end, and the equivalence of a batch of one item with a direct
    call, follow from the contract, and so does the decomposition of a batch
    into a first and a second part.  Beyond the range of [int] the product
    wraps, and the theorems on overflow say which slices the solver is then
    handed. *)

From Corelib Require Import PrimFloat.
From stdpp Require Import gmap pretty.
From S2P Require Import Prelude CInt Memory Exec Solver Loop Ceq CeqFacts.

(** ** When the index arithmetic is exact *)

(** The offset of the last slice of a batch of [N] items fits in an [int]
    (and then the offset of every slice does). *)
Definition slices_fit (N nsp : Z) : Prop := in_int ((N - 1) * nsp).

#[export] Instance slices_fit_dec N nsp : Decision (slices_fit N nsp).
Proof. unfold slices_fit. apply _. Defined.

(** ** The contract *)

Section contract.
Context `{!Solver}.
Variables (N : Z) (p T X0 : ptr) (nsp nel : Z) (lewis M a X1 T' : ptr).
Variable verbose : Z.

(** Item [i] of [batch_pt]: [pt] on [p[i]], [T[i]] and the slices [i]. *)
Definition batch_pt_item (i : Z) : exec Z :=
  let* Ti := read (T + i) in
  let* pi := read (p + i) in
  pt pi Ti (X0 + i * nsp) nsp nel lewis M a (X1 + i * nsp) verbose.

Definition batch_pt_spec : exec Z :=
  failfast batch_pt_item batch_pt_report (seqZ 0 N).

(** Item [i] of [batch_rhou]; here [p] and [T] are the arrays [rho] and
    [u], and [T'] is the array of temperatures. *)
Definition batch_rhou_item (i : Z) : exec Z :=
  let* rhoi := read (p + i) in
  let* ui := read (T + i) in
  rhou rhoi ui (X0 + i * nsp) nsp nel lewis M a (X1 + i * nsp) (T' + i)
       verbose.

Definition batch_rhou_spec : exec Z :=
  failfast batch_rhou_item batch_rhou_report (seqZ 0 N).

End contract.

(** ** Exactness of the slice offsets *)

Section offsets.
Implicit Types i N nsp : Z.

Lemma slices_fit_exact N nsp i :
  slices_fit N nsp → 0 ≤ i < N → int_mul i nsp = i * nsp.
Proof.
  unfold slices_fit. intros Hfit Hi. apply int_mul_exact.
  unfold in_int, INT_MIN, INT_MAX in *.
  destruct (Z.le_gt_cases 0 nsp); nia.
Qed.

Lemma slices_fit_nonneg N nsp :
  0 ≤ nsp → (N - 1) * nsp ≤ INT_MAX → 0 < N → slices_fit N nsp.
Proof. unfold slices_fit, in_int, INT_MIN, INT_MAX. nia. Qed.

(** A batch of one item always fits. *)
Lemma slices_fit_1 nsp : slices_fit 1 nsp.
Proof. unfold slices_fit. by compute. Qed.

(** A smaller batch of the same slices fits too. *)
Lemma slices_fit_le N N' nsp :
  slices_fit N nsp → 0 < N' ≤ N → slices_fit N' nsp.
Proof.
  unfold slices_fit, in_int, INT_MIN, INT_MAX.
  destruct (Z.le_gt_cases 0 nsp); nia.
Qed.

End offsets.

(** ** Refinement *)

Section refinement.
Context `{!Solver}.
Variables (N : Z) (p T X0 : ptr) (nsp nel : Z) (lewis M a X1 T' : ptr).
Variable verbose : Z.

(** When [i*nsp] does not overflow the body of the loop is the item of the
    contract. *)
Lemma batch_pt_body_item i :
  int_mul i nsp = i * nsp →
  batch_pt_body p T X0 nsp nel lewis M a X1 verbose i
  = batch_pt_item p T X0 nsp nel lewis M a X1 verbose i.
Proof.
  intros Hi. unfold batch_pt_body, batch_pt_item, pt, ptr_add. by rewrite Hi.
Qed.

Lemma batch_rhou_body_item i :
  int_mul i nsp = i * nsp →
  batch_rhou_body p T X0 nsp nel lewis M a X1 T' verbose i
  = batch_rhou_item p T X0 nsp nel lewis M a X1 T' verbose i.
Proof.
  intros Hi. unfold batch_rhou_body, batch_rhou_item, rhou, ptr_add.
  by rewrite Hi.
Qed.

(** On every state the function has the outcome of its contract, when the
    offsets of its slices are exact. *)
Lemma batch_pt_run_exact s :
  in_int N → (∀ i, 0 ≤ i < N → int_mul i nsp = i * nsp) →
  batch_pt N p T X0 nsp nel lewis M a X1 verbose s
  = batch_pt_spec N p T X0 nsp nel lewis M a X1 verbose s.
Proof.
  intros HN Hex. rewrite (batch_pt_failfast N) by done. apply failfast_ext_in.
  intros i Hi%elem_of_seqZ s1. rewrite batch_pt_body_item; [done|].
  apply Hex. lia.
Qed.

Lemma batch_rhou_run_exact s :
  in_int N → (∀ i, 0 ≤ i < N → int_mul i nsp = i * nsp) →
  batch_rhou N p T X0 nsp nel lewis M a X1 T' verbose s
  = batch_rhou_spec N p T X0 nsp nel lewis M a X1 T' verbose s.
Proof.
  intros HN Hex. rewrite (batch_rhou_failfast N) by done.
  apply failfast_ext_in.
  intros i Hi%elem_of_seqZ s1. rewrite batch_rhou_body_item; [done|].
  apply Hex. lia.
Qed.

Hypothesis N_int : in_int N.
Hypothesis fit : slices_fit N nsp.

Lemma batch_pt_run_spec s :
  batch_pt N p T X0 nsp nel lewis M a X1 verbose s
  = batch_pt_spec N p T X0 nsp nel lewis M a X1 verbose s.
Proof.
  apply batch_pt_run_exact; [done|]. intros i. by apply slices_fit_exact.
Qed.

Lemma batch_rhou_run_spec s :
  batch_rhou N p T X0 nsp nel lewis M a X1 T' verbose s
  = batch_rhou_spec N p T X0 nsp nel lewis M a X1 T' verbose s.
Proof.
  apply batch_rhou_run_exact; [done|]. intros i. by apply slices_fit_exact.
Qed.

(** C1: when [N] is an [int] and the offset of the last slice fits in an
    [int], [batch_pt] is its contract: the fail-fast run of the items
    [0 .. N-1], each on its own slices, in exact arithmetic. *)
Theorem batch_pt_refines_spec :
  batch_pt N p T X0 nsp nel lewis M a X1 verbose
  ≡ batch_pt_spec N p T X0 nsp nel lewis M a X1 verbose.
Proof. exact batch_pt_run_spec. Qed.

(** C2: under the same conditions [batch_rhou] is its contract. *)
Theorem batch_rhou_refines_spec :
  batch_rhou N p T X0 nsp nel lewis M a X1 T' verbose
  ≡ batch_rhou_spec N p T X0 nsp nel lewis M a X1 T' verbose.
Proof. exact batch_rhou_run_spec. Qed.

End refinement.

(** ** How a run of [batch_pt] ends *)

Section runs_pt.
Context `{!Solver}.
Variables (N : Z) (p T X0 : ptr) (nsp nel : Z) (lewis M a X1 : ptr).
Variable verbose : Z.
Hypothesis N_int : in_int N.
Hypothesis fit : slices_fit N nsp.

#[local] Abbreviation item :=
  (batch_pt_item p T X0 nsp nel lewis M a X1 verbose).

(** C5: when [N] is an [int] and the offset [(N-1)*nsp] of the last slice
    is one, [batch_pt] returns 0 exactly when every item [0 .. N-1], run
    in order, returned 0; the final state is the state after the last
    item. *)
Theorem batch_pt_success s s' :
  batch_pt N p T X0 nsp nel lewis M a X1 verbose s = Ret 0 s'
  ↔ all_ok item (seqZ 0 N) s s'.
Proof. rewrite (batch_pt_run_spec N) by done. apply failfast_Ret_0. Qed.

(** C3: when [N] is an [int] and the offset [(N-1)*nsp] of the last slice
    is one, [batch_pt] returns a non-zero status [r] exactly when some
    item [i] returned [r] after the items [0 .. i-1] all returned 0; no
    later item is run, and the final state is the state after item [i]
    with the message ["Error in batch_pt @ position: <i>"] appended to
    stdout. *)
Theorem batch_pt_first_failure s r s' :
  r ≠ 0 →
  batch_pt N p T X0 nsp nel lewis M a X1 verbose s = Ret r s' ↔
  ∃ i s1 s2,
    0 ≤ i < N ∧ all_ok item (seqZ 0 i) s s1 ∧ item i s1 = Ret r s2 ∧
    s' = State (st_mem s2)
           (st_out s2 +:+ "Error in batch_pt @ position: " +:+ pretty i).
Proof.
  intros Hr. rewrite (batch_pt_run_spec N) by done.
  unfold batch_pt_spec. rewrite failfast_seqZ_fail by done.
  setoid_rewrite batch_pt_report_run. naive_solver.
Qed.

(** A fault of [batch_pt] is a fault of one of its items, after the earlier
    items all returned 0. *)
Lemma batch_pt_Fault s f :
  batch_pt N p T X0 nsp nel lewis M a X1 verbose s = Fault f ↔
  ∃ i s1, 0 ≤ i < N ∧ all_ok item (seqZ 0 i) s s1 ∧ item i s1 = Fault f.
Proof.
  rewrite (batch_pt_run_spec N) by done. apply failfast_seqZ_Fault.
  intros i s1. rewrite batch_pt_report_run. eauto.
Qed.

End runs_pt.

(** ** How a run of [batch_rhou] ends *)

Section runs_rhou.
Context `{!Solver}.
Variables (N : Z) (rho u X0 : ptr) (nsp nel : Z) (lewis M a X1 T : ptr).
Variable verbose : Z.
Hypothesis N_int : in_int N.
Hypothesis fit : slices_fit N nsp.

#[local] Abbreviation item :=
  (batch_rhou_item rho u X0 nsp nel lewis M a X1 T verbose).

(** C6: when [N] is an [int] and the offset [(N-1)*nsp] of the last slice
    is one, [batch_rhou] returns 0 exactly when every item [0 .. N-1],
    run in order, returned 0. *)
Theorem batch_rhou_success s s' :
  batch_rhou N rho u X0 nsp nel lewis M a X1 T verbose s = Ret 0 s'
  ↔ all_ok item (seqZ 0 N) s s'.
Proof. rewrite (batch_rhou_run_spec N) by done. apply failfast_Ret_0. Qed.

(** C4: when [N] is an [int] and the offset [(N-1)*nsp] of the last slice
    is one, [batch_rhou] returns a non-zero status [r] exactly when some
    item [i] returned [r] after the items before it all returned 0; the
    final state is the state after item [i] with the message
    ["Error in batch_rhou @ position: <i>"] appended to stdout. *)
Theorem batch_rhou_first_failure s r s' :
  r ≠ 0 →
  batch_rhou N rho u X0 nsp nel lewis M a X1 T verbose s = Ret r s' ↔
  ∃ i s1 s2,
    0 ≤ i < N ∧ all_ok item (seqZ 0 i) s s1 ∧ item i s1 = Ret r s2 ∧
    s' = State (st_mem s2)
           (st_out s2 +:+ "Error in batch_rhou @ position: " +:+ pretty i).
Proof.
  intros Hr. rewrite (batch_rhou_run_spec N) by done.
  unfold batch_rhou_spec. rewrite failfast_seqZ_fail by done.
  setoid_rewrite batch_rhou_report_run. naive_solver.
Qed.

Lemma batch_rhou_Fault s f :
  batch_rhou N rho u X0 nsp nel lewis M a X1 T verbose s = Fault f ↔
  ∃ i s1, 0 ≤ i < N ∧ all_ok item (seqZ 0 i) s s1 ∧ item i s1 = Fault f.
Proof.
  rewrite (batch_rhou_run_spec N) by done. apply failfast_seqZ_Fault.
  intros i s1. rewrite batch_rhou_report_run. eauto.
Qed.

End runs_rhou.

(** ** Splitting a batch *)

Section split.
Context `{!Solver}.
Variables (N1 N2 : Z) (p T X0 : ptr) (nsp nel : Z) (lewis M a X1 T' : ptr).
Variable verbose : Z.
Hypothesis N1_pos : 0 ≤ N1.
Hypothesis N2_pos : 0 ≤ N2.
Hypothesis N_int : in_int (N1 + N2).
Hypothesis fit : slices_fit (N1 + N2) nsp.

(** The offsets of both parts are exact, and the parts are [int]s. *)
Lemma split_exact i : 0 ≤ i < N1 + N2 → int_mul i nsp = i * nsp.
Proof. by apply slices_fit_exact. Qed.

Lemma split_in_int : in_int N1 ∧ in_int N2.
Proof. unfold in_int, INT_MIN, INT_MAX in *. lia. Qed.

(** Item [j] of the second part is item [N1 + j] of the whole. *)
Lemma batch_pt_item_shift j :
  batch_pt_item (p + N1) (T + N1) (X0 + N1 * nsp) nsp nel lewis M a
    (X1 + N1 * nsp) verbose j
  = batch_pt_item p T X0 nsp nel lewis M a X1 verbose (N1 + j).
Proof.
  unfold batch_pt_item. rewrite <- !Z.add_assoc.
  by replace (N1 * nsp + j * nsp) with ((N1 + j) * nsp) by lia.
Qed.

Lemma batch_rhou_item_shift j :
  batch_rhou_item (p + N1) (T + N1) (X0 + N1 * nsp) nsp nel lewis M a
    (X1 + N1 * nsp) (T' + N1) verbose j
  = batch_rhou_item p T X0 nsp nel lewis M a X1 T' verbose (N1 + j).
Proof.
  unfold batch_rhou_item. rewrite <- !Z.add_assoc.
  by replace (N1 * nsp + j * nsp) with ((N1 + j) * nsp) by lia.
Qed.

(** C33: batches compose.  For [N1, N2 >= 0] with [N1 + N2] and the offset
    of the last slice in the range of [int], a batch of [N1 + N2] items
    is the batch of the first [N1] items followed, when it returned 0, by
    the batch of the other [N2] items on the arrays advanced by [N1]
    items ([p + N1], [T + N1], [X0 + N1*nsp], [X1 + N1*nsp]): same status,
    same store, same fault.  The two differ only in the index that a
    failure in the second part reports, which is relative to the arrays
    given. *)
Theorem batch_pt_split s :
  same_effect
    (batch_pt (N1 + N2) p T X0 nsp nel lewis M a X1 verbose s)
    ((let* r := batch_pt N1 p T X0 nsp nel lewis M a X1 verbose in
      if decide (r = 0)
      then batch_pt N2 (p + N1) (T + N1) (X0 + N1 * nsp) nsp nel lewis M a
             (X1 + N1 * nsp) verbose
      else ret r) s).
Proof.
  destruct split_in_int as [HN1 HN2].
  rewrite (batch_pt_run_exact (N1 + N2)) by auto using split_exact.
  unfold batch_pt_spec. rewrite seqZ_app, failfast_app by done. unfold bind.
  rewrite (batch_pt_run_exact N1) by (intros; (done || apply split_exact; lia)).
  unfold batch_pt_spec.
  destruct (failfast _ _ (seqZ 0 N1) s) as [r s1|f]; [|done].
  case_decide; [|done].
  rewrite (batch_pt_run_exact N2) by (intros; (done || apply split_exact; lia)).
  unfold batch_pt_spec. rewrite Z.add_0_l, (seqZ_shift N1 N2).
  apply failfast_reindex.
  - intros j _ s2. by rewrite batch_pt_item_shift.
  - intros j s2. by rewrite !batch_pt_report_run.
Qed.

(** The same for [batch_rhou], whose second part also takes the
    temperatures advanced by [N1] cells. *)
Theorem batch_rhou_split s :
  same_effect
    (batch_rhou (N1 + N2) p T X0 nsp nel lewis M a X1 T' verbose s)
    ((let* r := batch_rhou N1 p T X0 nsp nel lewis M a X1 T' verbose in
      if decide (r = 0)
      then batch_rhou N2 (p + N1) (T + N1) (X0 + N1 * nsp) nsp nel lewis M a
             (X1 + N1 * nsp) (T' + N1) verbose
      else ret r) s).
Proof.
  destruct split_in_int as [HN1 HN2].
  rewrite (batch_rhou_run_exact (N1 + N2)) by auto using split_exact.
  unfold batch_rhou_spec. rewrite seqZ_app, failfast_app by done. unfold bind.
  rewrite (batch_rhou_run_exact N1)
    by (intros; (done || apply split_exact; lia)).
  unfold batch_rhou_spec.
  destruct (failfast _ _ (seqZ 0 N1) s) as [r s1|f]; [|done].
  case_decide; [|done].
  rewrite (batch_rhou_run_exact N2)
    by (intros; (done || apply split_exact; lia)).
  unfold batch_rhou_spec. rewrite Z.add_0_l, (seqZ_shift N1 N2).
  apply failfast_reindex.
  - intros j _ s2. by rewrite batch_rhou_item_shift.
  - intros j s2. by rewrite !batch_rhou_report_run.
Qed.

End split.

(** ** Beyond the range of [int] *)

Section overflow.
Context `{!Solver}.
Variables (p T X0 : ptr) (nsp nel : Z) (lewis M a X1 T' : ptr).
Variable verbose : Z.

(** C38: when the offset [i*nsp] of a slice exceeds [INT_MAX] (and stays
    below [2^32 + INT_MAX]) the product computed in [int] wraps, and the body
    of the loop of [batch_pt] runs item [i] on arrays [X0] and [X1] that
    start [2^32] cells before the caller's: the solver is handed slices
    outside the caller's arrays. *)
Theorem batch_pt_body_overflow i :
  INT_MAX < i * nsp ≤ INT_MAX + int_modulus →
  batch_pt_body p T X0 nsp nel lewis M a X1 verbose i
  = batch_pt_item p T (X0 - int_modulus) nsp nel lewis M a
      (X1 - int_modulus) verbose i.
Proof.
  intros Hi. unfold batch_pt_body, batch_pt_item, pt, ptr_add.
  rewrite (int_mul_index_overflow i nsp Hi).
  by replace (X0 - int_modulus + i * nsp) with (X0 + (i * nsp - int_modulus))
    by lia; replace (X1 - int_modulus + i * nsp)
    with (X1 + (i * nsp - int_modulus)) by lia.
Qed.

(** The same for [batch_rhou]; the temperature cell [T'+i] is not
    affected, since its offset is the index itself. *)
Theorem batch_rhou_body_overflow i :
  INT_MAX < i * nsp ≤ INT_MAX + int_modulus →
  batch_rhou_body p T X0 nsp nel lewis M a X1 T' verbose i
  = batch_rhou_item p T (X0 - int_modulus) nsp nel lewis M a
      (X1 - int_modulus) T' verbose i.
Proof.
  intros Hi. unfold batch_rhou_body, batch_rhou_item, rhou, ptr_add.
  rewrite (int_mul_index_overflow i nsp Hi).
  by replace (X0 - int_modulus + i * nsp) with (X0 + (i * nsp - int_modulus))
    by lia; replace (X1 - int_modulus + i * nsp)
    with (X1 + (i * nsp - int_modulus)) by lia.
Qed.

End overflow.

(** ** A batch of one item *)

Section single.
Context `{!Solver}.
Variables (p T X0 : ptr) (nsp nel : Z) (lewis M a X1 T' : ptr).
Variable verbose : Z.

(** A batch of one item reads [T[0]] and [p[0]], calls [pt] on the arrays
    themselves, and reports index 0 when the call fails. *)
Lemma batch_pt_one :
  batch_pt 1 p T X0 nsp nel lewis M a X1 verbose ≡
  let* T0 := read T in
  let* p0 := read p in
  let* r := pt p0 T0 X0 nsp nel lewis M a X1 verbose in
  if decide (r = 0) then ret 0
  else (emit "Error in batch_pt @ position: 0";; ret r).
Proof.
  intros s. rewrite (batch_pt_run_spec 1) by (done || apply slices_fit_1).
  unfold batch_pt_spec. change (seqZ 0 1) with [0]. simpl.
  unfold batch_pt_item. rewrite ?Z.mul_0_l, !Z.add_0_r. unfold bind.
  destruct (read T s) as [T0 s1|]; simpl; [|done].
  destruct (read p s1) as [p0 s2|]; simpl; [|done].
  by destruct (pt _ _ _ _ _ _ _ _ _ _ _).
Qed.

Lemma batch_rhou_one :
  batch_rhou 1 p T X0 nsp nel lewis M a X1 T' verbose ≡
  let* rho0 := read p in
  let* u0 := read T in
  let* r := rhou rho0 u0 X0 nsp nel lewis M a X1 T' verbose in
  if decide (r = 0) then ret 0
  else (emit "Error in batch_rhou @ position: 0";; ret r).
Proof.
  intros s. rewrite (batch_rhou_run_spec 1) by (done || apply slices_fit_1).
  unfold batch_rhou_spec. change (seqZ 0 1) with [0]. simpl.
  unfold batch_rhou_item. rewrite ?Z.mul_0_l, !Z.add_0_r. unfold bind.
  destruct (read p s) as [rho0 s1|]; simpl; [|done].
  destruct (read T s1) as [u0 s2|]; simpl; [|done].
  by destruct (rhou _ _ _ _ _ _ _ _ _ _ _ _).
Qed.

(** C31: a batch of one item and a direct call of [pt] on the same input
    return the same status and leave the same store; they differ at most in
    what is printed (the batch reports the failing index). *)
Theorem batch_pt_single p0 T0 s :
  load (st_mem s) T = Some T0 → load (st_mem s) p = Some p0 →
  same_effect (batch_pt 1 p T X0 nsp nel lewis M a X1 verbose s)
              (pt p0 T0 X0 nsp nel lewis M a X1 verbose s).
Proof.
  intros HT Hp. rewrite (batch_pt_one s).
  rewrite (bind_run _ _ _ _ _ (read_run _ _ _ HT)).
  rewrite (bind_run _ _ _ _ _ (read_run _ _ _ Hp)). unfold bind.
  destruct (pt _ _ _ _ _ _ _ _ _ _ _) as [r s'|f]; [|done].
  by case_decide; simplify_eq.
Qed.

(** C32: a batch of one item of [batch_rhou] and a direct call of [rhou]
    on [rho[0]], [u[0]] and the same arrays return the same status and
    leave the same store; they differ at most in what is printed (the
    batch reports the failing index). *)
Theorem batch_rhou_single rho0 u0 s :
  load (st_mem s) p = Some rho0 → load (st_mem s) T = Some u0 →
  same_effect (batch_rhou 1 p T X0 nsp nel lewis M a X1 T' verbose s)
              (rhou rho0 u0 X0 nsp nel lewis M a X1 T' verbose s).
Proof.
  intros Hp HT. rewrite (batch_rhou_one s).
  rewrite (bind_run _ _ _ _ _ (read_run _ _ _ Hp)).
  rewrite (bind_run _ _ _ _ _ (read_run _ _ _ HT)). unfold bind.
  destruct (rhou _ _ _ _ _ _ _ _ _ _ _ _) as [r s'|f]; [|done].
  by case_decide; simplify_eq.
Qed.

End single.
