(* ===== verification/BatchFrame.v ===== *)
(** * BatchFrame: what the solver's contract gives the batch functions

    The theorems of this file hold for every solver that satisfies
    [SolverOk].  For [batch_pt] (and likewise [batch_rhou], which also writes
    the array of temperatures):

    - termination: the fuel supplied by the function is never exhausted;
    - frame: the store changes at most inside [X1[0 .. N*nsp)], and no cell
      is allocated or freed;
    - output: stdout is only appended to;
    - validity of earlier outputs: what item [j] wrote to its slice of [X1]
      is still there when the batch returns, whether it succeeded or stopped
      at a later item;
    - [verbose] changes neither the status nor the store;
    - safety: a batch whose arrays are allocated does not fault;
    - the status: the value returned is 0 or what the solver returned for
      an item of the batch, whose index the report names.

    The sizes of the arrays in the precondition of safety
    ([batch_allocated], [batch_rhou_allocated]) are those of the doc
    comments of the two functions. *)

From Corelib Require Import PrimFloat.
From stdpp Require Import gmap pretty.
From S2P Require Import Prelude CInt Memory Exec Solver Loop BatchSpec.
From S2P Require Import Ceq CeqFacts.

(** ** The arrays of a batch *)

(** The arrays a batch of [N] items is given are allocated: [N] cells for
    each per-item scalar, [N*nsp] for the compositions, and the shared
    tables at the sizes the solver reads them. *)
Definition batch_allocated (m : gmap Z float) (N : Z) (p T X0 : ptr)
    (nsp nel : Z) (lewis M a X1 : ptr) : Prop :=
  allocated m p N ∧ allocated m T N ∧
  allocated m X0 (N * nsp) ∧ allocated m X1 (N * nsp) ∧
  allocated m lewis (nsp * lewis_per_species) ∧
  allocated m M nsp ∧ allocated m a (nel * nsp).

#[export] Instance batch_allocated_dec m N p T X0 nsp nel lewis M a X1 :
  Decision (batch_allocated m N p T X0 nsp nel lewis M a X1).
Proof. unfold batch_allocated. apply _. Defined.

(** Cell [i] of an array of [N] cells, slice [i] of an array of [N]
    slices. *)
Lemma allocated_cell m q N i :
  0 ≤ i < N → allocated m q N → allocated m (q + i) 1.
Proof. intros Hi. apply allocated_weaken. unfold between. lia. Qed.

Lemma allocated_slice m q N k i :
  0 ≤ i < N → allocated m q (N * k) → allocated m (q + i * k) k.
Proof.
  intros Hi. apply allocated_weaken. intros c Hc. by eapply between_slice.
Qed.

Lemma batch_allocated_same_cells m m' N p T X0 nsp nel lewis M a X1 :
  same_cells m m' →
  batch_allocated m N p T X0 nsp nel lewis M a X1 →
  batch_allocated m' N p T X0 nsp nel lewis M a X1.
Proof.
  unfold batch_allocated. intros Hc. pose proof (same_cells_allocated m m').
  naive_solver.
Qed.

(** ** One item *)

Section item.
Context `{SolverOk}.
Variables (p T X0 : ptr) (nsp nel : Z) (lewis M a X1 : ptr).
Variable verbose : Z.

#[local] Abbreviation body :=
  (batch_pt_body p T X0 nsp nel lewis M a X1 verbose).
#[local] Abbreviation item :=
  (batch_pt_item p T X0 nsp nel lewis M a X1 verbose).

(** The body of the loop writes the slice its (wrapped) offset selects. *)
Lemma batch_pt_body_frame i :
  steps_in (mem_frame (ptr_add X1 (int_mul i nsp)) nsp) (body i).
Proof.
  unfold batch_pt_body. steps_bind; [auto with ceq|].
  steps_bind; [auto with ceq|]. apply solve_pt_frame.
Qed.

Lemma batch_pt_body_out i : steps_in out_extends (body i).
Proof.
  unfold batch_pt_body. steps_bind; [auto with ceq|].
  steps_bind; [auto with ceq|]. apply solve_pt_out.
Qed.

Lemma batch_pt_body_total i s : body i s ≠ Fault OutOfFuel.
Proof.
  unfold batch_pt_body.
  intros [Hf|(Ti & s1 & _ & Hk)]%bind_Fault; [by apply read_Fault in Hf as []|].
  apply bind_Fault in Hk as [Hf|(pi & s2 & _ & Hk)];
    [by apply read_Fault in Hf as []|].
  by eapply solve_pt_total.
Qed.

(** The status of the body is the status of the solver, an [int]. *)
Lemma batch_pt_body_status i s r s' : body i s = Ret r s' → in_int r.
Proof.
  unfold batch_pt_body. intros Hrun. exec_inv. by eapply solve_pt_status.
Qed.

(** Item [i] of the contract writes slice [i]. *)
Lemma batch_pt_item_frame i :
  steps_in (mem_frame (X1 + i * nsp) nsp) (item i).
Proof.
  unfold batch_pt_item, pt. steps_bind; [auto with ceq|].
  steps_bind; [auto with ceq|]. apply solve_pt_frame.
Qed.

(** Slice [i] of a batch of [N] items lies inside [X1[0 .. N*nsp)]. *)
Lemma batch_pt_item_frame_in N i :
  0 ≤ i < N → steps_in (mem_frame X1 (N * nsp)) (item i).
Proof.
  intros Hi. eapply steps_in_frame_weaken; [|apply batch_pt_item_frame].
  intros c Hc. by eapply between_slice.
Qed.

(** An item other than [j] leaves slice [j] as it is. *)
Lemma batch_pt_item_keeps j i :
  i ≠ j →
  steps_in (mem_frame_on (λ c, ¬ between (X1 + j * nsp) nsp c)) (item i).
Proof.
  intros Hij. eapply steps_in_frame_weaken; [|apply batch_pt_item_frame].
  intros c Hi Hj. by eapply (slices_disjoint X1 nsp i j).
Qed.

(** An item whose cells are allocated returns. *)
Lemma batch_pt_item_safe i s :
  allocated (st_mem s) (T + i) 1 → allocated (st_mem s) (p + i) 1 →
  inputs_allocated (st_mem s) (X0 + i * nsp) nsp nel lewis M a →
  allocated (st_mem s) (X1 + i * nsp) nsp →
  ∃ r s', item i s = Ret r s'.
Proof.
  intros [Ti HT]%load_allocated [pi Hp]%load_allocated Hin Hout.
  unfold batch_pt_item, pt.
  rewrite (bind_run _ _ _ _ _ (read_run _ _ _ HT)).
  rewrite (bind_run _ _ _ _ _ (read_run _ _ _ Hp)). by apply solve_pt_safe.
Qed.

Lemma batch_pt_item_safe_in N i s :
  0 ≤ i < N →
  batch_allocated (st_mem s) N p T X0 nsp nel lewis M a X1 →
  ∃ r s', item i s = Ret r s'.
Proof.
  intros Hi (Hp & HT & HX0 & HX1 & Hl & HM & Ha).
  apply batch_pt_item_safe; [| |split|];
    eauto using allocated_cell, allocated_slice.
Qed.

Lemma batch_pt_report_mem i : steps_in mem_same (batch_pt_report i).
Proof. apply steps_in_printf_mem. Qed.

Lemma batch_pt_report_out i : steps_in out_extends (batch_pt_report i).
Proof. apply steps_in_printf_out. Qed.

End item.

(** The body of the loop does not depend on [verbose], up to stdout. *)
Lemma batch_pt_body_verbose `{SolverOk} p T X0 nsp nel lewis M a X1
    verbose verbose' i s s' :
  st_mem s = st_mem s' →
  same_effect (batch_pt_body p T X0 nsp nel lewis M a X1 verbose i s)
              (batch_pt_body p T X0 nsp nel lewis M a X1 verbose' i s').
Proof.
  destruct s as [m o], s' as [m' o']; simpl; intros <-.
  unfold batch_pt_body, bind, read; simpl.
  destruct (load m (ptr_add T i)); simpl; [|done].
  destruct (load m (ptr_add p i)); simpl; [|done]. by apply solve_pt_verbose.
Qed.

Lemma batch_pt_report_same_effect i s s' :
  st_mem s = st_mem s' →
  same_effect (batch_pt_report i s) (batch_pt_report i s').
Proof. intros Hm. by rewrite !batch_pt_report_run. Qed.

#[export] Hint Resolve batch_pt_report_mem batch_pt_report_out : ceq.

(** Items other than [j] leave slice [j] as it is, whether they all
    succeed or one of them fails. *)
Lemma batch_pt_items_keep `{SolverOk} p T X0 nsp nel lewis M a X1 verbose
    j items s1 r s' :
  (∀ i, i ∈ items → i ≠ j) →
  failfast (batch_pt_item p T X0 nsp nel lewis M a X1 verbose)
    batch_pt_report items s1 = Ret r s' →
  agree_on (between (X1 + j * nsp) nsp) (st_mem s1) (st_mem s').
Proof.
  intros Hne Hrun.
  eapply (failfast_steps_in _ _
            (mem_frame_on (λ c, ¬ between (X1 + j * nsp) nsp c)))
    in Hrun as [Hu _]; [|auto with ceq|].
  - eapply unchanged_except_agree; [|exact Hu]. intros c Hc Hn. by apply Hn.
  - intros i Hi. apply batch_pt_item_keeps. by apply Hne.
Qed.

(** ** The batch *)

Section batch_pt.
Context `{SolverOk}.
Variables (N : Z) (p T X0 : ptr) (nsp nel : Z) (lewis M a X1 : ptr).
Variable verbose : Z.
Hypothesis N_int : in_int N.

#[local] Abbreviation item :=
  (batch_pt_item p T X0 nsp nel lewis M a X1 verbose).

(** C7: [batch_pt] returns or faults on a memory access: the fuel
    [Z.to_nat N] that the model gives the loop is never exhausted, for any
    state and any arguments with [N] an [int]. *)
Theorem batch_pt_terminates s :
  batch_pt N p T X0 nsp nel lewis M a X1 verbose s ≠ Fault OutOfFuel.
Proof.
  unfold batch_pt. rewrite batch_pt_loop_failfast.
  apply failfast_loop_total; [done | lia | lia | |].
  - apply batch_pt_body_total.
  - apply batch_pt_report_total.
Qed.

(** Whatever [batch_pt] prints is appended to stdout: the text that was
    there before the call is an initial segment of the text after it. *)
Theorem batch_pt_out :
  steps_in out_extends (batch_pt N p T X0 nsp nel lewis M a X1 verbose).
Proof.
  unfold batch_pt. rewrite batch_pt_loop_failfast.
  apply failfast_loop_steps_in; [apply _ | auto with ceq |].
  apply batch_pt_body_out.
Qed.

Hypothesis fit : slices_fit N nsp.

(** C9: when [N] is an [int] and the slice offsets fit in an [int],
    [batch_pt] changes the store at most in the cells [X1[0 .. N*nsp)],
    and neither allocates nor frees a cell: the inputs [p], [T], [X0],
    [lewis], [M], [a] are intact wherever they do not overlap [X1]. *)
Theorem batch_pt_frame :
  steps_in (mem_frame X1 (N * nsp))
           (batch_pt N p T X0 nsp nel lewis M a X1 verbose).
Proof.
  intros s r s'. rewrite (batch_pt_run_spec N) by done. revert s r s'.
  apply failfast_steps_in; [apply _ | auto with ceq |].
  intros i Hi%elem_of_seqZ. apply batch_pt_item_frame_in. lia.
Qed.

(** C22: when [N] is an [int] and the slice offsets fit in an [int], the
    composition written for item [j] is still in its slice
    [X1[j*nsp .. (j+1)*nsp)] when the batch returns, with status 0 or with
    the status of a later item: the later items do not touch it. *)
Theorem batch_pt_outputs_kept j s sj r s' :
  0 ≤ j < N →
  all_ok item (seqZ 0 (j + 1)) s sj →
  batch_pt N p T X0 nsp nel lewis M a X1 verbose s = Ret r s' →
  agree_on (between (X1 + j * nsp) nsp) (st_mem sj) (st_mem s').
Proof.
  intros Hj Hok. rewrite (batch_pt_run_spec N) by done. unfold batch_pt_spec.
  replace N with ((j + 1) + (N - (j + 1))) at 1 by lia.
  rewrite seqZ_app, (failfast_all_ok _ _ _ _ _ _ Hok) by lia.
  apply batch_pt_items_keep. intros i Hi%elem_of_seqZ. lia.
Qed.

(** C26: when [N] is an [int] and the slice offsets fit in an [int], a
    batch whose arrays are allocated ([N] cells of [p] and [T], [N*nsp]
    of [X0] and [X1], the tables at the sizes the solver reads) returns a
    status: no item reads or writes outside the store. *)
Theorem batch_pt_safe s :
  batch_allocated (st_mem s) N p T X0 nsp nel lewis M a X1 →
  ∃ r s', batch_pt N p T X0 nsp nel lewis M a X1 verbose s = Ret r s'.
Proof.
  intros Hs. rewrite (batch_pt_run_spec N) by done.
  apply (failfast_returns _ _
    (λ s, batch_allocated (st_mem s) N p T X0 nsp nel lewis M a X1));
    [| | |done].
  - intros i s1 Hi%elem_of_seqZ. apply batch_pt_item_safe_in. lia.
  - intros i s1 s2 _ Hs1 [_ Hc]%batch_pt_item_frame.
    by eapply batch_allocated_same_cells.
  - intros i s1. rewrite batch_pt_report_run. eauto.
Qed.

End batch_pt.

(** C20: the value [batch_pt] returns is 0 or a status that the solver
    returned in this call, and an [int] as its C type says.  A status
    other than 0 is the value of [solve_pt] on an index [i] below [N]
    that passed the guard, for the temperature and the pressure read at
    [T[i]] and [p[i]] and the slices at the offset [i*nsp]; the batch
    returns in the state that this solve left, with the report of [i]
    appended to stdout.  Neither the counter nor any arithmetic of the
    loop reaches the value returned. *)
Theorem batch_pt_status `{SolverOk} N p T X0 nsp nel lewis M a X1 verbose
    s r s' :
  batch_pt N p T X0 nsp nel lewis M a X1 verbose s = Ret r s' →
  in_int r ∧
  (r = 0 ∨
   ∃ i Ti pi s1 s2,
     i < N
     ∧ load (st_mem s1) (ptr_add T i) = Some Ti
     ∧ load (st_mem s1) (ptr_add p i) = Some pi
     ∧ solve_pt pi Ti (ptr_add X0 (int_mul i nsp)) nsp nel lewis M a
         (ptr_add X1 (int_mul i nsp)) verbose s1 = Ret r s2
     ∧ s' = State (st_mem s2)
              (st_out s2 +:+ "Error in batch_pt @ position: " +:+ pretty i)).
Proof.
  unfold batch_pt. rewrite batch_pt_loop_failfast. intros Hrun. split.
  { eapply failfast_loop_status; [| |exact Hrun];
      [done|apply batch_pt_body_status]. }
  destruct (decide (r = 0)) as [|Hr]; [by left|right].
  apply failfast_loop_reported in Hrun as (i & s1 & s2 & Hi & Hb & Hrep);
    [|done].
  apply batch_pt_body_Ret in Hb as (Ti & pi & HT & Hp & Hsolve).
  rewrite batch_pt_report_run in Hrep. exists i, Ti, pi, s1, s2.
  by simplify_eq.
Qed.

(** C30: [verbose] selects diagnostic output only: for [N] an [int], two
    calls of [batch_pt] that differ in [verbose], from states with the
    same store, return the same status and the same store, or fault
    alike. *)
Theorem batch_pt_verbose `{SolverOk} N p T X0 nsp nel lewis M a X1
    verbose verbose' s s' :
  in_int N → st_mem s = st_mem s' →
  same_effect (batch_pt N p T X0 nsp nel lewis M a X1 verbose s)
              (batch_pt N p T X0 nsp nel lewis M a X1 verbose' s').
Proof.
  intros HN Hm. rewrite !(batch_pt_failfast N) by done.
  apply failfast_same_effect; [|apply batch_pt_report_same_effect|done].
  intros. by apply batch_pt_body_verbose.
Qed.

(** * [batch_rhou] *)

(** The cells a batch of [N] items of [batch_rhou] may write: the
    compositions and the temperatures. *)
Definition batch_rhou_writes (X1 : ptr) (N nsp : Z) (T : ptr) (c : Z) : Prop :=
  between X1 (N * nsp) c ∨ between T N c.

(** The arrays of [batch_rhou]: those of [batch_pt] (with [rho] and [u] for
    [p] and [T]) and the [N] temperatures. *)
Definition batch_rhou_allocated (m : gmap Z float) (N : Z) (rho u X0 : ptr)
    (nsp nel : Z) (lewis M a X1 T : ptr) : Prop :=
  batch_allocated m N rho u X0 nsp nel lewis M a X1 ∧ allocated m T N.

#[export] Instance batch_rhou_allocated_dec m N rho u X0 nsp nel lewis M a
    X1 T :
  Decision (batch_rhou_allocated m N rho u X0 nsp nel lewis M a X1 T).
Proof. unfold batch_rhou_allocated. apply _. Defined.

(** The writes of item [i] are among those of the batch. *)
Lemma rhou_writes_in_batch X1 N nsp T i c :
  0 ≤ i < N →
  rhou_writes (X1 + i * nsp) nsp (T + i) c → batch_rhou_writes X1 N nsp T c.
Proof.
  intros Hi [Hc|Hc]; [left; by eapply between_slice|right].
  unfold between in *. lia.
Qed.

(** When the compositions and the temperatures do not overlap, two items
    write different cells. *)
Lemma rhou_writes_disjoint X1 N nsp T i j c :
  (∀ c, between X1 (N * nsp) c → between T N c → False) →
  0 ≤ i < N → 0 ≤ j < N → i ≠ j →
  rhou_writes (X1 + i * nsp) nsp (T + i) c →
  rhou_writes (X1 + j * nsp) nsp (T + j) c → False.
Proof.
  intros Hd Hi Hj Hij [Hci|Hci] [Hcj|Hcj].
  - by eapply (slices_disjoint X1 nsp i j).
  - apply (Hd c); [by apply (between_slice X1 N nsp i)|].
    unfold between in *. lia.
  - apply (Hd c); [by apply (between_slice X1 N nsp j)|].
    unfold between in *. lia.
  - unfold between in *. lia.
Qed.

Section rhou_item.
Context `{SolverOk}.
Variables (rho u X0 : ptr) (nsp nel : Z) (lewis M a X1 T : ptr).
Variable verbose : Z.

#[local] Abbreviation body :=
  (batch_rhou_body rho u X0 nsp nel lewis M a X1 T verbose).
#[local] Abbreviation item :=
  (batch_rhou_item rho u X0 nsp nel lewis M a X1 T verbose).

Lemma batch_rhou_body_out i : steps_in out_extends (body i).
Proof.
  unfold batch_rhou_body. steps_bind; [auto with ceq|].
  steps_bind; [auto with ceq|]. apply solve_rhou_out.
Qed.

Lemma batch_rhou_body_total i s : body i s ≠ Fault OutOfFuel.
Proof.
  unfold batch_rhou_body.
  intros [Hf|(ri & s1 & _ & Hk)]%bind_Fault; [by apply read_Fault in Hf as []|].
  apply bind_Fault in Hk as [Hf|(ui & s2 & _ & Hk)];
    [by apply read_Fault in Hf as []|].
  by eapply solve_rhou_total.
Qed.

(** The status of the body is the status of the solver, an [int]. *)
Lemma batch_rhou_body_status i s r s' : body i s = Ret r s' → in_int r.
Proof.
  unfold batch_rhou_body. intros Hrun. exec_inv.
  by eapply solve_rhou_status.
Qed.

(** Item [i] writes its slice of [X1] and its cell of [T]. *)
Lemma batch_rhou_item_frame i :
  steps_in (mem_frame_on (rhou_writes (X1 + i * nsp) nsp (T + i))) (item i).
Proof.
  unfold batch_rhou_item, rhou. steps_bind; [auto with ceq|].
  steps_bind; [auto with ceq|]. apply solve_rhou_frame.
Qed.

Lemma batch_rhou_item_frame_in N i :
  0 ≤ i < N →
  steps_in (mem_frame_on (batch_rhou_writes X1 N nsp T)) (item i).
Proof.
  intros Hi. eapply steps_in_frame_weaken; [|apply batch_rhou_item_frame].
  intros c. by apply rhou_writes_in_batch.
Qed.

Lemma batch_rhou_item_keeps N j i :
  (∀ c, between X1 (N * nsp) c → between T N c → False) →
  0 ≤ i < N → 0 ≤ j < N → i ≠ j →
  steps_in (mem_frame_on (λ c, ¬ rhou_writes (X1 + j * nsp) nsp (T + j) c))
           (item i).
Proof.
  intros Hd Hi Hj Hij.
  eapply steps_in_frame_weaken; [|apply batch_rhou_item_frame].
  intros c Hci Hcj. by eapply (rhou_writes_disjoint X1 N nsp T i j).
Qed.

Lemma batch_rhou_item_safe_in N i s :
  0 ≤ i < N →
  batch_rhou_allocated (st_mem s) N rho u X0 nsp nel lewis M a X1 T →
  ∃ r s', item i s = Ret r s'.
Proof.
  intros Hi [(Hr & Hu & HX0 & HX1 & Hl & HM & Ha) HT].
  destruct (load_allocated (st_mem s) (rho + i)) as [ri Hri];
    [by eapply allocated_cell|].
  destruct (load_allocated (st_mem s) (u + i)) as [ui Hui];
    [by eapply allocated_cell|].
  unfold batch_rhou_item, rhou.
  rewrite (bind_run _ _ _ _ _ (read_run _ _ _ Hri)).
  rewrite (bind_run _ _ _ _ _ (read_run _ _ _ Hui)).
  apply solve_rhou_safe; [split| |];
    eauto using allocated_cell, allocated_slice.
Qed.

Lemma batch_rhou_report_mem i : steps_in mem_same (batch_rhou_report i).
Proof. apply steps_in_printf_mem. Qed.

Lemma batch_rhou_report_out i : steps_in out_extends (batch_rhou_report i).
Proof. apply steps_in_printf_out. Qed.

End rhou_item.

#[export] Hint Resolve batch_rhou_report_mem batch_rhou_report_out : ceq.

Lemma batch_rhou_body_verbose `{SolverOk} rho u X0 nsp nel lewis M a X1 T
    verbose verbose' i s s' :
  st_mem s = st_mem s' →
  same_effect (batch_rhou_body rho u X0 nsp nel lewis M a X1 T verbose i s)
              (batch_rhou_body rho u X0 nsp nel lewis M a X1 T verbose' i s').
Proof.
  destruct s as [m o], s' as [m' o']; simpl; intros <-.
  unfold batch_rhou_body, bind, read; simpl.
  destruct (load m (ptr_add rho i)); simpl; [|done].
  destruct (load m (ptr_add u i)); simpl; [|done]. by apply solve_rhou_verbose.
Qed.

Lemma batch_rhou_report_same_effect i s s' :
  st_mem s = st_mem s' →
  same_effect (batch_rhou_report i s) (batch_rhou_report i s').
Proof. intros Hm. by rewrite !batch_rhou_report_run. Qed.

(** Items other than [j] leave the outputs of item [j] as they are. *)
Lemma batch_rhou_items_keep `{SolverOk} N rho u X0 nsp nel lewis M a X1 T
    verbose j items s1 r s' :
  (∀ c, between X1 (N * nsp) c → between T N c → False) → 0 ≤ j < N →
  (∀ i, i ∈ items → 0 ≤ i < N ∧ i ≠ j) →
  failfast (batch_rhou_item rho u X0 nsp nel lewis M a X1 T verbose)
    batch_rhou_report items s1 = Ret r s' →
  agree_on (rhou_writes (X1 + j * nsp) nsp (T + j)) (st_mem s1) (st_mem s').
Proof.
  intros Hd Hj Hne Hrun.
  eapply (failfast_steps_in _ _
            (mem_frame_on (λ c, ¬ rhou_writes (X1 + j * nsp) nsp (T + j) c)))
    in Hrun as [Hu _]; [|auto with ceq|].
  - eapply unchanged_except_agree; [|exact Hu]. intros c Hc Hn. by apply Hn.
  - intros i [Hi Hij]%Hne.
    by apply (batch_rhou_item_keeps _ _ _ _ _ _ _ _ _ _ _ N).
Qed.

Section batch_rhou.
Context `{SolverOk}.
Variables (N : Z) (rho u X0 : ptr) (nsp nel : Z) (lewis M a X1 T : ptr).
Variable verbose : Z.
Hypothesis N_int : in_int N.

#[local] Abbreviation item :=
  (batch_rhou_item rho u X0 nsp nel lewis M a X1 T verbose).

(** C8: [batch_rhou] returns or faults on a memory access: the fuel
    [Z.to_nat N] of its loop is never exhausted. *)
Theorem batch_rhou_terminates s :
  batch_rhou N rho u X0 nsp nel lewis M a X1 T verbose s ≠ Fault OutOfFuel.
Proof.
  unfold batch_rhou. rewrite batch_rhou_loop_failfast.
  apply failfast_loop_total; [done | lia | lia | |].
  - apply batch_rhou_body_total.
  - apply batch_rhou_report_total.
Qed.

(** Whatever [batch_rhou] prints is appended to stdout. *)
Theorem batch_rhou_out :
  steps_in out_extends (batch_rhou N rho u X0 nsp nel lewis M a X1 T verbose).
Proof.
  unfold batch_rhou. rewrite batch_rhou_loop_failfast.
  apply failfast_loop_steps_in; [apply _ | auto with ceq |].
  apply batch_rhou_body_out.
Qed.

Hypothesis fit : slices_fit N nsp.

(** C10: when [N] is an [int] and the slice offsets fit in an [int],
    [batch_rhou] changes the store at most in [X1[0 .. N*nsp)] and
    [T[0 .. N)], and neither allocates nor frees a cell. *)
Theorem batch_rhou_frame :
  steps_in (mem_frame_on (batch_rhou_writes X1 N nsp T))
           (batch_rhou N rho u X0 nsp nel lewis M a X1 T verbose).
Proof.
  intros s r s'. rewrite (batch_rhou_run_spec N) by done. revert s r s'.
  apply failfast_steps_in; [apply _ | auto with ceq |].
  intros i Hi%elem_of_seqZ. apply batch_rhou_item_frame_in. lia.
Qed.

(** C23: when [N] is an [int], the slice offsets fit in an [int] and the
    compositions [X1] and the temperatures [T] do not overlap, the
    composition and the temperature written for item [j] are still in
    place when the batch returns, with status 0 or with the status of a
    later item. *)
Theorem batch_rhou_outputs_kept j s sj r s' :
  (∀ c, between X1 (N * nsp) c → between T N c → False) →
  0 ≤ j < N →
  all_ok item (seqZ 0 (j + 1)) s sj →
  batch_rhou N rho u X0 nsp nel lewis M a X1 T verbose s = Ret r s' →
  agree_on (rhou_writes (X1 + j * nsp) nsp (T + j)) (st_mem sj) (st_mem s').
Proof.
  intros Hd Hj Hok. rewrite (batch_rhou_run_spec N) by done.
  unfold batch_rhou_spec. replace N with ((j + 1) + (N - (j + 1))) at 1 by lia.
  rewrite seqZ_app, (failfast_all_ok _ _ _ _ _ _ Hok) by lia.
  apply (batch_rhou_items_keep N); [done..|].
  intros i Hi%elem_of_seqZ. lia.
Qed.

(** C27: when [N] is an [int] and the slice offsets fit in an [int], a
    call of [batch_rhou] whose arrays are allocated ([N] cells of [rho],
    [u] and [T], [N*nsp] of [X0] and [X1], the tables at the sizes the
    solver reads) returns a status: no item reads or writes outside the
    store. *)
Theorem batch_rhou_safe s :
  batch_rhou_allocated (st_mem s) N rho u X0 nsp nel lewis M a X1 T →
  ∃ r s', batch_rhou N rho u X0 nsp nel lewis M a X1 T verbose s = Ret r s'.
Proof.
  intros Hs. rewrite (batch_rhou_run_spec N) by done.
  apply (failfast_returns _ _
    (λ s, batch_rhou_allocated (st_mem s) N rho u X0 nsp nel lewis M a X1 T));
    [| | |done].
  - intros i s1 Hi%elem_of_seqZ. apply batch_rhou_item_safe_in. lia.
  - intros i s1 s2 _ [Hs1 HT] [_ Hc]%batch_rhou_item_frame.
    split; [by eapply batch_allocated_same_cells|].
    by eapply same_cells_allocated.
  - intros i s1. rewrite batch_rhou_report_run. eauto.
Qed.

End batch_rhou.

(** C21: the value [batch_rhou] returns is 0 or a status that the solver
    returned in this call, and an [int].  A status other than 0 is the
    value of [solve_rhou] on an index [i] below [N] that passed the
    guard, for the density and the energy read at [rho[i]] and [u[i]],
    the slices at the offset [i*nsp] and the cell [T + i]; the batch
    returns in the state that this solve left, with the report of [i]
    appended to stdout. *)
Theorem batch_rhou_status `{SolverOk} N rho u X0 nsp nel lewis M a X1 T
    verbose s r s' :
  batch_rhou N rho u X0 nsp nel lewis M a X1 T verbose s = Ret r s' →
  in_int r ∧
  (r = 0 ∨
   ∃ i rhoi ui s1 s2,
     i < N
     ∧ load (st_mem s1) (ptr_add rho i) = Some rhoi
     ∧ load (st_mem s1) (ptr_add u i) = Some ui
     ∧ solve_rhou rhoi ui (ptr_add X0 (int_mul i nsp)) nsp nel lewis M a
         (ptr_add X1 (int_mul i nsp)) (ptr_add T i) verbose s1 = Ret r s2
     ∧ s' = State (st_mem s2)
              (st_out s2 +:+ "Error in batch_rhou @ position: "
               +:+ pretty i)).
Proof.
  unfold batch_rhou. rewrite batch_rhou_loop_failfast. intros Hrun. split.
  { eapply failfast_loop_status; [| |exact Hrun];
      [done|apply batch_rhou_body_status]. }
  destruct (decide (r = 0)) as [|Hr]; [by left|right].
  apply failfast_loop_reported in Hrun as (i & s1 & s2 & Hi & Hb & Hrep);
    [|done].
  apply batch_rhou_body_Ret in Hb as (rhoi & ui & Hrho & Hu & Hsolve).
  rewrite batch_rhou_report_run in Hrep. exists i, rhoi, ui, s1, s2.
  by simplify_eq.
Qed.

(** [verbose] changes neither the status nor the store of
    [batch_rhou]. *)
Theorem batch_rhou_verbose `{SolverOk} N rho u X0 nsp nel lewis M a X1 T
    verbose verbose' s s' :
  in_int N → st_mem s = st_mem s' →
  same_effect (batch_rhou N rho u X0 nsp nel lewis M a X1 T verbose s)
              (batch_rhou N rho u X0 nsp nel lewis M a X1 T verbose' s').
Proof.
  intros HN Hm. rewrite !(batch_rhou_failfast N) by done.
  apply failfast_same_effect; [|apply batch_rhou_report_same_effect|done].
  intros. by apply batch_rhou_body_verbose.
Qed.
