(* ===== verification/BatchIndep.v ===== *)
(** * BatchIndep: the items of a batch are independent

    The solves of a batch share the tables [lewis], [M] and [a], read their
    own inputs and write their own outputs.  When no item reads a cell that
    an earlier item wrote ([writes_apart]: the output array overlaps no
    input array, or the batch is computed in place, [X1 = X0]), and the
    solver is local ([SolverLocal]: its result is a function of its
    arguments and of the arrays it reads), no item can see what another item
    wrote:

    - an item run in the middle of the batch has the result it has when run
      alone on the caller's store;
    - after a successful batch, each slice of [X1] (and each cell of [T] for
      [batch_rhou]) holds what a single solve of that input on the caller's
      store writes there.

    When the output array overlaps no input array at all ([inputs_apart])
    this holds whatever the order of the items, which is what allows a
    caller to run them in any order, or concurrently. *)

From Corelib Require Import PrimFloat.
From stdpp Require Import gmap pretty.
From S2P Require Import Prelude CInt Memory Exec Solver Loop Ceq CeqFacts.
From S2P Require Import BatchSpec BatchFrame.

(** ** Arrays that do not overlap *)

(** The cells of the inputs of a batch. *)
Definition batch_reads (N : Z) (p T X0 : ptr) (nsp nel : Z)
    (lewis M a : ptr) (c : Z) : Prop :=
  between p N c ∨ between T N c ∨ between X0 (N * nsp) c ∨
  between lewis (nsp * lewis_per_species) c ∨ between M nsp c ∨
  between a (nel * nsp) c.

(** No output cell of [batch_pt] is an input cell. *)
Definition inputs_apart (N : Z) (p T X0 : ptr) (nsp nel : Z)
    (lewis M a X1 : ptr) : Prop :=
  ∀ c, between X1 (N * nsp) c → ¬ batch_reads N p T X0 nsp nel lewis M a c.

(** No output cell of [batch_rhou] is an input cell, and the compositions
    and the temperatures do not overlap. *)
Definition rhou_inputs_apart (N : Z) (rho u X0 : ptr) (nsp nel : Z)
    (lewis M a X1 T : ptr) : Prop :=
  (∀ c, batch_rhou_writes X1 N nsp T c →
        ¬ batch_reads N rho u X0 nsp nel lewis M a c) ∧
  (∀ c, between X1 (N * nsp) c → between T N c → False).

(** The cells item [i] of [batch_pt] reads: its temperature, its pressure,
    its slice of [X0] and the tables.  For [batch_rhou], [p] and [T] are
    the arrays [rho] and [u]. *)
Definition pt_item_reads (p T X0 : ptr) (nsp nel : Z) (lewis M a : ptr)
    (i c : Z) : Prop :=
  c = T + i ∨ c = p + i ∨ solver_reads (X0 + i * nsp) nsp nel lewis M a c.

(** No item of [batch_pt] reads a cell that an earlier item wrote. *)
Definition writes_apart (N : Z) (p T X0 : ptr) (nsp nel : Z)
    (lewis M a X1 : ptr) : Prop :=
  ∀ i j c, 0 ≤ i < j → j < N →
    between (X1 + i * nsp) nsp c → ¬ pt_item_reads p T X0 nsp nel lewis M a j c.

(** No item of [batch_rhou] reads a cell that an earlier item wrote, and
    the compositions and the temperatures do not overlap. *)
Definition rhou_writes_apart (N : Z) (rho u X0 : ptr) (nsp nel : Z)
    (lewis M a X1 T : ptr) : Prop :=
  (∀ i j c, 0 ≤ i < j → j < N →
     rhou_writes (X1 + i * nsp) nsp (T + i) c →
     ¬ pt_item_reads rho u X0 nsp nel lewis M a j c) ∧
  (∀ c, between X1 (N * nsp) c → between T N c → False).

(** The cells item [i] reads are inputs of the batch. *)
Section reads.
Variables (N : Z) (p T X0 : ptr) (nsp nel : Z) (lewis M a : ptr).
Variable i : Z.
Hypothesis i_in : 0 ≤ i < N.

Lemma p_in_reads : batch_reads N p T X0 nsp nel lewis M a (p + i).
Proof. left. unfold between. lia. Qed.

Lemma T_in_reads : batch_reads N p T X0 nsp nel lewis M a (T + i).
Proof. right; left. unfold between. lia. Qed.

Lemma slice_in_reads c :
  solver_reads (X0 + i * nsp) nsp nel lewis M a c →
  batch_reads N p T X0 nsp nel lewis M a c.
Proof.
  unfold batch_reads, solver_reads. intros [Hc|Hc]; [|tauto].
  right; right; left. by eapply between_slice.
Qed.

Lemma item_reads_in_batch c :
  pt_item_reads p T X0 nsp nel lewis M a i c →
  batch_reads N p T X0 nsp nel lewis M a c.
Proof.
  intros [->|[->|Hc]];
    [apply T_in_reads | apply p_in_reads | by apply slice_in_reads].
Qed.

End reads.

(** Outputs that overlap no input are not read by any item. *)
Lemma inputs_apart_writes_apart N p T X0 nsp nel lewis M a X1 :
  inputs_apart N p T X0 nsp nel lewis M a X1 →
  writes_apart N p T X0 nsp nel lewis M a X1.
Proof.
  intros Hap i j c Hi Hj Hw Hr. apply (Hap c).
  - apply (between_slice X1 N nsp i); [lia|done].
  - apply (item_reads_in_batch N _ _ _ _ _ _ _ _ j); [lia|done].
Qed.

Lemma rhou_inputs_apart_writes_apart N rho u X0 nsp nel lewis M a X1 T :
  rhou_inputs_apart N rho u X0 nsp nel lewis M a X1 T →
  rhou_writes_apart N rho u X0 nsp nel lewis M a X1 T.
Proof.
  intros [Hap Hd]. split; [|done]. intros i j c Hi Hj Hw Hr. apply (Hap c).
  - by apply (rhou_writes_in_batch X1 N nsp T i); [lia|].
  - apply (item_reads_in_batch N _ _ _ _ _ _ _ _ j); [lia|done].
Qed.

(** Two runs that read the same value from a cell and then have the same
    result have the same result. *)
Lemma same_result_read W q (k1 k2 : double → exec Z) s1 s2 :
  load (st_mem s1) q = load (st_mem s2) q →
  (∀ v, same_result W (k1 v s1) (k2 v s2)) →
  same_result W ((let* v := read q in k1 v) s1)
                ((let* v := read q in k2 v) s2).
Proof.
  intros Hq Hk. unfold bind, read. rewrite Hq.
  destruct (load (st_mem s2) q); [apply Hk|done].
Qed.

(** ** [batch_pt] *)

Section pt.
Context {S : Solver} `{!SolverOk S} `{!SolverLocal S}.
Variables (N : Z) (p T X0 : ptr) (nsp nel : Z) (lewis M a X1 : ptr).
Variable verbose : Z.
Hypothesis apart : writes_apart N p T X0 nsp nel lewis M a X1.

#[local] Abbreviation item :=
  (batch_pt_item p T X0 nsp nel lewis M a X1 verbose).

(** The items before [j] changed nothing that item [j] reads. *)
Lemma batch_pt_inputs_kept j s sj :
  0 ≤ j < N → all_ok item (seqZ 0 j) s sj →
  agree_on (pt_item_reads p T X0 nsp nel lewis M a j) (st_mem sj) (st_mem s).
Proof.
  intros Hj Hok c Hc.
  apply (all_ok_steps_in _
    (mem_frame_on (λ c, ∃ i, 0 ≤ i < j ∧ between (X1 + i * nsp) nsp c)))
    in Hok as [Hu _].
  - symmetry. apply Hu. intros (i & Hi & Hw).
    by apply (apart i j c); [lia..| |].
  - intros i Hi%elem_of_seqZ.
    eapply steps_in_frame_weaken; [|apply batch_pt_item_frame].
    intros c' Hc'. exists i. split; [lia|done].
Qed.

Lemma batch_pt_cells_kept j s sj :
  0 ≤ j ≤ N → all_ok item (seqZ 0 j) s sj →
  same_cells (st_mem sj) (st_mem s).
Proof.
  intros Hj Hok.
  apply (all_ok_steps_in _ (mem_frame X1 (N * nsp))) in Hok as [_ Hc];
    [done|].
  intros i Hi%elem_of_seqZ. apply batch_pt_item_frame_in. lia.
Qed.

(** Item [j] in the middle of the batch has the result it has alone. *)
Lemma batch_pt_item_independent j s sj :
  0 ≤ j < N → all_ok item (seqZ 0 j) s sj →
  same_result (between (X1 + j * nsp) nsp) (item j sj) (item j s).
Proof.
  intros Hj Hok. unfold batch_pt_item.
  pose proof (batch_pt_inputs_kept j s sj Hj Hok) as Hin.
  apply same_result_read; [apply Hin; by left|].
  intros Tj. apply same_result_read; [apply Hin; right; by left|].
  intros pj. apply solve_pt_local;
    [|apply (batch_pt_cells_kept j); (done || lia)].
  intros c Hc. apply Hin. right; by right.
Qed.

(** C24: when [N] is an [int], the slice offsets fit in an [int], no item
    reads a cell that an earlier item wrote (the output array [X1]
    overlaps no input array, or the batch is computed in place) and the
    solver is local, a successful batch leaves in each slice [j] of [X1]
    what the single solve of input [j], run on the caller's store, writes
    there, and that solve succeeds: the result of an item does not depend
    on the other items. *)
Theorem batch_pt_pointwise j s s' :
  in_int N → slices_fit N nsp → 0 ≤ j < N →
  batch_pt N p T X0 nsp nel lewis M a X1 verbose s = Ret 0 s' →
  ∃ tj, batch_pt_item p T X0 nsp nel lewis M a X1 verbose j s = Ret 0 tj ∧
        agree_on (between (X1 + j * nsp) nsp) (st_mem s') (st_mem tj).
Proof.
  intros HN Hfit Hj. rewrite (batch_pt_run_spec N) by done.
  unfold batch_pt_spec. rewrite (seqZ_split 0 N j), Z.sub_0_r by lia.
  intros (sj & Hpre & Hrest)%failfast_Ret_0%all_ok_app_inv.
  apply all_ok_cons_inv in Hrest as (s1 & Hj1 & Hrest).
  pose proof (batch_pt_item_independent j s sj Hj Hpre) as Hind.
  rewrite Hj1 in Hind.
  destruct (item j s) as [r tj|]; [|done]. destruct Hind as [<- Hag].
  exists tj. split; [done|]. etrans; [|exact Hag]. symmetry.
  eapply (batch_pt_items_keep _ _ _ _ _ _ _ _ _ _ j);
    [|by apply failfast_Ret_0].
  intros i Hi%elem_of_seqZ. lia.
Qed.

End pt.

(** ** [batch_rhou] *)

Section rhou.
Context {S : Solver} `{!SolverOk S} `{!SolverLocal S}.
Variables (N : Z) (rho u X0 : ptr) (nsp nel : Z) (lewis M a X1 T : ptr).
Variable verbose : Z.
Hypothesis apart : rhou_writes_apart N rho u X0 nsp nel lewis M a X1 T.

#[local] Abbreviation item :=
  (batch_rhou_item rho u X0 nsp nel lewis M a X1 T verbose).

Lemma batch_rhou_frame_before j s sj :
  0 ≤ j ≤ N → all_ok item (seqZ 0 j) s sj →
  mem_frame_on (batch_rhou_writes X1 N nsp T) s sj.
Proof.
  intros Hj. apply all_ok_steps_in; [apply _|].
  intros i Hi%elem_of_seqZ. apply batch_rhou_item_frame_in. lia.
Qed.

Lemma batch_rhou_inputs_kept j s sj :
  0 ≤ j < N → all_ok item (seqZ 0 j) s sj →
  agree_on (pt_item_reads rho u X0 nsp nel lewis M a j)
           (st_mem sj) (st_mem s).
Proof.
  intros Hj Hok c Hc.
  apply (all_ok_steps_in _
    (mem_frame_on (λ c, ∃ i, 0 ≤ i < j
                         ∧ rhou_writes (X1 + i * nsp) nsp (T + i) c)))
    in Hok as [Hu _].
  - symmetry. apply Hu. intros (i & Hi & Hw).
    by apply (proj1 apart i j c); [lia..| |].
  - intros i Hi%elem_of_seqZ.
    eapply steps_in_frame_weaken; [|apply batch_rhou_item_frame].
    intros c' Hc'. exists i. split; [lia|done].
Qed.

Lemma batch_rhou_item_independent j s sj :
  0 ≤ j < N → all_ok item (seqZ 0 j) s sj →
  same_result (rhou_writes (X1 + j * nsp) nsp (T + j)) (item j sj) (item j s).
Proof.
  intros Hj Hok. unfold batch_rhou_item.
  pose proof (batch_rhou_inputs_kept j s sj Hj Hok) as Hin.
  apply same_result_read; [apply Hin; right; by left|].
  intros rhoj. apply same_result_read; [apply Hin; by left|].
  intros uj. apply solve_rhou_local.
  - intros c Hc. apply Hin. right; by right.
  - symmetry. eapply batch_rhou_frame_before; [|done]. lia.
Qed.

(** C25: the same for [batch_rhou].  When [N] is an [int], the slice
    offsets fit in an [int], no item reads a cell that an earlier item
    wrote, [X1] and [T] do not overlap each other and the solver is
    local, then after a successful batch slice [j] of [X1] and cell [j]
    of [T] hold what the single solve of input [j], run on the caller's
    store, writes there, and that solve succeeds. *)
Theorem batch_rhou_pointwise j s s' :
  in_int N → slices_fit N nsp → 0 ≤ j < N →
  batch_rhou N rho u X0 nsp nel lewis M a X1 T verbose s = Ret 0 s' →
  ∃ tj,
    batch_rhou_item rho u X0 nsp nel lewis M a X1 T verbose j s = Ret 0 tj ∧
    agree_on (rhou_writes (X1 + j * nsp) nsp (T + j)) (st_mem s') (st_mem tj).
Proof.
  intros HN Hfit Hj. rewrite (batch_rhou_run_spec N) by done.
  unfold batch_rhou_spec. rewrite (seqZ_split 0 N j), Z.sub_0_r by lia.
  intros (sj & Hpre & Hrest)%failfast_Ret_0%all_ok_app_inv.
  apply all_ok_cons_inv in Hrest as (s1 & Hj1 & Hrest).
  pose proof (batch_rhou_item_independent j s sj Hj Hpre) as Hind.
  rewrite Hj1 in Hind.
  destruct (item j s) as [r tj|]; [|done]. destruct Hind as [<- Hag].
  exists tj. split; [done|]. etrans; [|exact Hag]. symmetry.
  eapply (batch_rhou_items_keep N _ _ _ _ _ _ _ _ _ _ _ j);
    [apply (proj2 apart)|done| |by apply failfast_Ret_0].
  intros i Hi%elem_of_seqZ. lia.
Qed.

End rhou.
