(* ===== verification/BatchList.v ===== *)
(** * BatchList: a batch as a function of its inputs

    For a solver that is a function of the contents of its input arrays
    ([PureSolver.lift]), the whole effect of [batch_pt] is a function of the
    caller's store: the answers of the items are computed from the store as
    it was at the call ([pt_answers]), and [batch_pt_ref] folds them into the
    status returned, the numbers written to [X1] and the text printed.

    The theorem [batch_pt_list] states that [batch_pt] returns that status,
    leaves the store with those numbers stored at [X1] and nothing else
    changed, and appends that text to stdout.  It holds when no item reads
    what an earlier item wrote ([writes_apart]); this covers output arrays
    that overlap no input ([inputs_apart]) and also a batch computed in
    place, [X1 = X0].  For a successful batch the numbers written are the
    compositions of all the answers, one after the other. *)

From Corelib Require Import PrimFloat.
From stdpp Require Import gmap pretty.
From S2P Require Import Prelude CInt Memory Exec Solver PureSolver Loop.
From S2P Require Import Ceq CeqFacts.
From S2P Require Import BatchSpec BatchFrame BatchIndep.

(** ** Results as values *)

(** What a call of a batch function did: the status returned, the numbers
    written from the start of the output array on, the text printed. *)
Record batch_result := BatchResult {
  br_status : Z;
  br_written : list double;
  br_text : string
}.

Section pt.
Variable f : pure_solver.
Variables (N : Z) (p T X0 : ptr) (nsp nel : Z) (lewis M a X1 : ptr).
Variable verbose : Z.

#[local] Abbreviation item_reads :=
  (pt_item_reads p T X0 nsp nel lewis M a).

(** The answer of the solver to item [i] of the store [m]. *)
Definition pt_item_answer (m : gmap Z float) (i : Z) : option pt_answer :=
  Ti ← load m (T + i);
  pi ← load m (p + i);
  x0 ← load_array m (X0 + i * nsp) nsp;
  lw ← load_array m lewis (nsp * lewis_per_species);
  mm ← load_array m M nsp;
  aa ← load_array m a (nel * nsp);
  Some (pure_pt f pi Ti x0 nsp nel lw mm aa verbose).

(** The answers to all the items. *)
Definition pt_answers (m : gmap Z float) : option (list pt_answer) :=
  mapM (pt_item_answer m) (seqZ 0 N).

(** The batch on the answers of the items from [i] on: the compositions
    are written one after the other, up to and including that of the first
    answer whose status is not 0, which is reported and returned. *)
Fixpoint batch_pt_ref (i : Z) (answers : list pt_answer) : batch_result :=
  match answers with
  | [] => BatchResult 0 [] ""
  | r :: rest =>
      if decide (pt_status r = 0) then
        let b := batch_pt_ref (i + 1) rest in
        BatchResult (br_status b) (pt_X1 r ++ br_written b)
                    (pt_diag r +:+ br_text b)
      else
        BatchResult (pt_status r) (pt_X1 r)
                    (pt_diag r +:+ format batch_pt_error [i])
  end.

(** ** The reference *)

(** When every answer has status 0, all the compositions are written and
    only the solver prints. *)
Lemma batch_pt_ref_ok i answers :
  Forall (λ r, pt_status r = 0) answers →
  batch_pt_ref i answers
  = BatchResult 0 (concat (pt_X1 <$> answers))
                (foldr (λ r t, pt_diag r +:+ t) "" answers).
Proof.
  intros Hok. revert i. induction Hok as [|r rest Hr _ IH]; intros i; simpl;
    [done|].
  by rewrite decide_True, IH.
Qed.

(** The status is 0 or the status of an answer. *)
Lemma batch_pt_ref_status i answers :
  br_status (batch_pt_ref i answers) = 0
  ∨ ∃ r, r ∈ answers ∧ br_status (batch_pt_ref i answers) = pt_status r.
Proof.
  revert i. induction answers as [|r rest IH]; intros i; simpl; [by left|].
  case_decide; simpl; [|right; exists r; split; [left|done]].
  destruct (IH (i + 1)) as [?|(r' & ? & ?)]; [by left|].
  right. exists r'. split; [by right|done].
Qed.

(** The status is the first status of an answer that is not 0, and 0 when
    there is none. *)
Lemma batch_pt_ref_first i answers :
  br_status (batch_pt_ref i answers)
  = default 0 (head (filter (λ z, z ≠ 0) (pt_status <$> answers))).
Proof.
  revert i. induction answers as [|r rest IH]; intros i; csimpl; [done|].
  case_decide as Hr; simpl.
  - rewrite filter_cons_False by naive_solver. apply IH.
  - by rewrite filter_cons_True.
Qed.

(** The status is 0 only when every answer has status 0. *)
Lemma batch_pt_ref_status_0 i answers :
  br_status (batch_pt_ref i answers) = 0 →
  Forall (λ r, pt_status r = 0) answers.
Proof.
  revert i. induction answers as [|r rest IH]; intros i; simpl; [done|].
  case_decide; simpl; [|done]. intros ?%IH. by constructor.
Qed.

(** The numbers written are the compositions of the first answers. *)
Lemma batch_pt_ref_prefix i answers :
  ∃ k, br_written (batch_pt_ref i answers)
       = concat (pt_X1 <$> take k answers).
Proof.
  revert i. induction answers as [|r rest IH]; intros i; simpl.
  { by exists 0%nat. }
  case_decide; simpl.
  - destruct (IH (i + 1)) as [k Hk]. exists (S k). csimpl. by rewrite Hk.
  - exists 1%nat. csimpl. destruct rest; csimpl; by rewrite app_nil_r.
Qed.

(** No more than [nsp] numbers are written for each answer. *)
Lemma batch_pt_ref_written i answers :
  Forall (λ r, length (pt_X1 r) = Z.to_nat nsp) answers →
  (length (br_written (batch_pt_ref i answers))
   ≤ length answers * Z.to_nat nsp)%nat.
Proof.
  intros Hlen. revert i.
  induction Hlen as [|r rest Hr _ IH]; intros i; simpl; [done|].
  case_decide; simpl; [|lia]. rewrite length_app. specialize (IH (i + 1)). lia.
Qed.

(** The compositions of [n] answers of [nsp] numbers are [n * nsp]
    numbers. *)
Lemma pt_answers_concat_length answers :
  Forall (λ r, length (pt_X1 r) = Z.to_nat nsp) answers →
  length (concat (pt_X1 <$> answers)) = (length answers * Z.to_nat nsp)%nat.
Proof.
  induction 1 as [|r rest Hr _ IH]; csimpl; [done|].
  rewrite length_app, IH, Hr. lia.
Qed.

(** ** One item *)

Section item.
Context `{!PureOk f}.
Implicit Types m : gmap Z float.

#[local] Abbreviation item :=
  (batch_pt_item (H := lift f) p T X0 nsp nel lewis M a X1 verbose).

(** The answer to item [i] depends on the cells the item reads. *)
Lemma pt_item_answer_agree m1 m2 i :
  agree_on (item_reads i) m1 m2 →
  pt_item_answer m1 i = pt_item_answer m2 i.
Proof.
  intros Hag. unfold pt_item_answer.
  rewrite (load_agree _ m1 m2 (T + i) Hag) by (by left).
  rewrite (load_agree _ m1 m2 (p + i) Hag) by (right; by left).
  destruct (reads_agree m1 m2 (X0 + i * nsp) nsp nel lewis M a)
    as (-> & -> & -> & ->); [|done].
  intros c Hc. apply Hag. right; by right.
Qed.

(** The composition of an answer has [nsp] entries. *)
Lemma pt_item_answer_length m i r :
  pt_item_answer m i = Some r → length (pt_X1 r) = Z.to_nat nsp.
Proof.
  unfold pt_item_answer. intros Hr. simplify_option_eq.
  eauto using pure_pt_length, load_array_length.
Qed.

Lemma pt_answers_length m answers :
  pt_answers m = Some answers →
  length answers = Z.to_nat N
  ∧ Forall (λ r, length (pt_X1 r) = Z.to_nat nsp) answers.
Proof.
  intros Hans%mapM_Some. split.
  - apply Forall2_length in Hans. by rewrite length_seqZ in Hans.
  - eapply Forall2_Forall_r; [exact Hans|]. apply Forall_forall.
    intros i _ r. apply pt_item_answer_length.
Qed.

(** The numbers a batch writes fit in an output array of [N] slices. *)
Lemma batch_pt_ref_stored m answers :
  0 ≤ nsp → pt_answers m = Some answers → allocated m X1 (N * nsp) →
  is_Some (store_array m X1 (br_written (batch_pt_ref 0 answers))).
Proof.
  intros Hnsp [Hlen Hall]%pt_answers_length Hal. apply store_array_is_Some.
  revert Hal. apply allocated_weaken. intros c.
  pose proof (batch_pt_ref_written 0 answers Hall). unfold between. nia.
Qed.

(** Item [i] of the batch stores the composition of its answer in slice
    [i], prints the text of the answer and returns its status. *)
Lemma batch_pt_item_run i s r m1 :
  pt_item_answer (st_mem s) i = Some r →
  store_array (st_mem s) (X1 + i * nsp) (pt_X1 r) = Some m1 →
  item i s = Ret (pt_status r) (State m1 (st_out s +:+ pt_diag r)).
Proof.
  unfold pt_item_answer. intros Hr Hst. simplify_option_eq.
  unfold batch_pt_item, pt. simpl.
  erewrite bind_run by (by apply read_run).
  erewrite bind_run by (by apply read_run).
  unfold_lift. by simplify_option_eq.
Qed.

End item.

(** ** The batch *)

Section batch.
Context `{!PureOk f}.
Hypothesis nsp_nonneg : 0 ≤ nsp.
Hypothesis apart : writes_apart N p T X0 nsp nel lewis M a X1.
Implicit Types m : gmap Z float.

#[local] Abbreviation item :=
  (batch_pt_item (H := lift f) p T X0 nsp nel lewis M a X1 verbose).

(** The cells the items from [i] on read. *)
#[local] Abbreviation reads_from i :=
  (λ c, ∃ j, i ≤ j < N ∧ item_reads j c).

(** Storing the composition of item [i] changes nothing that a later item
    reads. *)
Lemma pt_store_keeps_reads m0 m m1 i (l : list double) :
  0 ≤ i → length l = Z.to_nat nsp →
  agree_on (reads_from i) m0 m →
  store_array m (X1 + i * nsp) l = Some m1 →
  agree_on (reads_from (i + 1)) m0 m1.
Proof.
  intros Hi Hlen Hag Hst c (j & Hj & Hc).
  rewrite (Hag c) by (exists j; split; [lia|done]).
  apply (store_array_unchanged_outside _ _ _ _ Hst).
  rewrite Hlen, Z2Nat.id by done. intros Hw.
  by apply (apart i j c); [lia|lia| |].
Qed.

(** The items from [i] on, run on a store in which their inputs are as
    they were at the call. *)
Lemma batch_pt_list_from m0 answers : ∀ i s m',
  0 ≤ i → i + Z.of_nat (length answers) ≤ N →
  Forall2 (λ j r, pt_item_answer m0 j = Some r)
          (seqZ i (Z.of_nat (length answers))) answers →
  agree_on (reads_from i) m0 (st_mem s) →
  store_array (st_mem s) (X1 + i * nsp)
    (br_written (batch_pt_ref i answers)) = Some m' →
  failfast item batch_pt_report (seqZ i (Z.of_nat (length answers))) s
  = Ret (br_status (batch_pt_ref i answers))
        (State m' (st_out s +:+ br_text (batch_pt_ref i answers))).
Proof.
  induction answers as [|r rest IH]; intros i s m' Hi HN Hans Hag.
  { simpl. intros [= <-]. unfold ret. rewrite append_nil_r. by destruct s. }
  cbn [length] in *.
  rewrite Nat2Z.inj_succ, seqZ_cons, Z.pred_succ in * by lia.
  apply Forall2_cons in Hans as [Hr Hans].
  rewrite (pt_item_answer_agree m0 (st_mem s)) in Hr
    by (intros c Hc; apply Hag; exists i; split; [lia|done]).
  pose proof (pt_item_answer_length _ _ _ Hr) as Hlen.
  cbn [batch_pt_ref failfast].
  case_decide as Hst; cbn [br_status br_written br_text].
  - rewrite store_array_app.
    destruct (store_array (st_mem s) _ (pt_X1 r)) as [m1|] eqn:H1; [|done].
    simpl. unfold ptr_add. rewrite Hlen, Z2Nat.id by done.
    replace (X1 + i * nsp + nsp) with (X1 + (i + 1) * nsp) by lia.
    intros Hrest. pose proof (batch_pt_item_run i s r m1 Hr H1) as Hrun.
    rewrite Hst in Hrun. change (Z.succ i) with (i + 1).
    rewrite (bind_run _ _ _ _ _ Hrun), decide_True by done.
    rewrite (IH (i + 1) _ m');
      [simpl; by rewrite append_assoc|lia|lia|done| |done].
    by eapply pt_store_keeps_reads.
  - intros H1. pose proof (batch_pt_item_run i s r m' Hr H1) as Hrun.
    rewrite (bind_run _ _ _ _ _ Hrun), decide_False by done.
    unfold bind. rewrite batch_pt_report_run, format_batch_pt_error.
    simpl. by rewrite append_assoc.
Qed.

End batch.

End pt.

(** The run of a batch on the answers of the solver. *)
Lemma batch_pt_run_list f `{!PureOk f} N p T X0 nsp nel lewis M a X1 verbose
    s answers m' :
  in_int N → slices_fit N nsp → 0 ≤ nsp →
  writes_apart N p T X0 nsp nel lewis M a X1 →
  pt_answers f N p T X0 nsp nel lewis M a verbose (st_mem s)
    = Some answers →
  store_array (st_mem s) X1 (br_written (batch_pt_ref 0 answers))
    = Some m' →
  batch_pt (H := lift f) N p T X0 nsp nel lewis M a X1 verbose s
  = Ret (br_status (batch_pt_ref 0 answers))
        (State m' (st_out s +:+ br_text (batch_pt_ref 0 answers))).
Proof.
  intros HN Hfit Hnsp Hap Hans%mapM_Some Hst.
  rewrite (batch_pt_run_spec N) by done. unfold batch_pt_spec.
  pose proof (Forall2_length _ _ _ Hans) as Hlen.
  rewrite length_seqZ in Hlen.
  destruct (decide (0 ≤ N)) as [HN0|HN0].
  - assert (seqZ 0 N = seqZ 0 (Z.of_nat (length answers))) as Hseq
      by (f_equal; lia).
    rewrite Hseq in Hans |- *.
    apply (batch_pt_list_from f N _ _ _ _ _ _ _ _ _ _ Hnsp Hap (st_mem s));
      try (done || lia).
    by rewrite Z.mul_0_l, Z.add_0_r.
  - rewrite seqZ_nil in * by lia. apply Forall2_nil_inv_l in Hans as ->.
    simpl in *. simplify_eq. unfold ret. rewrite append_nil_r. by destruct s.
Qed.

(** C11: for a solver that is a function of its inputs, [batch_pt] is a
    function of the caller's store.  When no item reads what an earlier
    item writes, the inputs can be read and the output written, the call
    returns the status that [batch_pt_ref] computes from the answers of the
    solver to the items of the store at the call, leaves the store with the
    compositions of [batch_pt_ref] stored from [X1] on and no other cell
    changed, and appends the text of [batch_pt_ref] to stdout. *)
Theorem batch_pt_list f `{!PureOk f} N p T X0 nsp nel lewis M a X1 verbose
    s answers m' :
  in_int N → slices_fit N nsp → 0 ≤ nsp →
  writes_apart N p T X0 nsp nel lewis M a X1 →
  pt_answers f N p T X0 nsp nel lewis M a verbose (st_mem s)
    = Some answers →
  store_array (st_mem s) X1 (br_written (batch_pt_ref 0 answers))
    = Some m' →
  batch_pt (H := lift f) N p T X0 nsp nel lewis M a X1 verbose s
  = Ret (br_status (batch_pt_ref 0 answers))
        (State m' (st_out s +:+ br_text (batch_pt_ref 0 answers))).
Proof. by apply batch_pt_run_list. Qed.

(** C13: a batch is the map of the solver over its inputs.  When [N] is
    an [int], the slice offsets fit in an [int], no item reads a cell
    that an earlier item writes, the solver answers every item of the
    caller's store with status 0 and the output array is allocated,
    [batch_pt] returns 0, the output array then holds the compositions of
    the answers, item after item, and stdout has received the texts of
    the answers in that order. *)
Theorem batch_pt_map f `{!PureOk f} N p T X0 nsp nel lewis M a X1 verbose
    s answers :
  in_int N → slices_fit N nsp → 0 ≤ nsp →
  writes_apart N p T X0 nsp nel lewis M a X1 →
  pt_answers f N p T X0 nsp nel lewis M a verbose (st_mem s)
    = Some answers →
  Forall (λ r, pt_status r = 0) answers →
  allocated (st_mem s) X1 (N * nsp) →
  ∃ s', batch_pt (H := lift f) N p T X0 nsp nel lewis M a X1 verbose s
        = Ret 0 s'
    ∧ load_array (st_mem s') X1 (N * nsp)
      = Some (concat (pt_X1 <$> answers))
    ∧ st_out s' = st_out s +:+ foldr (λ r t, pt_diag r +:+ t) "" answers.
Proof.
  intros HN Hfit Hnsp Hap Hans Hok Hal.
  destruct (batch_pt_ref_stored f N p T X0 nsp nel lewis M a X1 verbose
              (st_mem s) answers) as [m' Hst]; [done..|].
  pose proof (batch_pt_run_list f N p T X0 nsp nel lewis M a X1 verbose
                s answers m' HN Hfit Hnsp Hap Hans Hst) as Hrun.
  rewrite (batch_pt_ref_ok 0 answers Hok) in Hrun, Hst. simpl in *.
  eexists. split; [exact Hrun|]. split; [|done].
  apply pt_answers_length in Hans as [Hlen Hall]; [|done].
  apply load_store_array in Hst.
  rewrite (pt_answers_concat_length nsp answers Hall) in Hst.
  destruct (decide (0 ≤ N)) as [HN0|HN0].
  - by replace (N * nsp) with (Z.of_nat (length answers * Z.to_nat nsp))
      by nia.
  - assert (answers = []) as -> by (apply nil_length_inv; lia).
    apply load_array_empty. nia.
Qed.

(** * [batch_rhou] *)

(** What a call of [batch_rhou] did: as for [batch_pt], and the
    temperatures written from the start of [T] on. *)
Record rhou_batch_result := RhouBatchResult {
  rb_status : Z;
  rb_X1 : list double;
  rb_T : list double;
  rb_text : string
}.

Section rhou.
Variable f : pure_solver.
Variables (N : Z) (rho u X0 : ptr) (nsp nel : Z) (lewis M a X1 T : ptr).
Variable verbose : Z.

#[local] Abbreviation item_reads :=
  (pt_item_reads rho u X0 nsp nel lewis M a).

(** The answer of the solver to item [i] of the store [m]. *)
Definition rhou_item_answer (m : gmap Z float) (i : Z)
  : option rhou_answer :=
  rhoi ← load m (rho + i);
  ui ← load m (u + i);
  x0 ← load_array m (X0 + i * nsp) nsp;
  lw ← load_array m lewis (nsp * lewis_per_species);
  mm ← load_array m M nsp;
  aa ← load_array m a (nel * nsp);
  Some (pure_rhou f rhoi ui x0 nsp nel lw mm aa verbose).

Definition rhou_answers (m : gmap Z float) : option (list rhou_answer) :=
  mapM (rhou_item_answer m) (seqZ 0 N).

(** The batch on the answers of the items from [i] on. *)
Fixpoint batch_rhou_ref (i : Z) (answers : list rhou_answer)
  : rhou_batch_result :=
  match answers with
  | [] => RhouBatchResult 0 [] [] ""
  | r :: rest =>
      if decide (rhou_status r = 0) then
        let b := batch_rhou_ref (i + 1) rest in
        RhouBatchResult (rb_status b) (rhou_X1 r ++ rb_X1 b)
                        (rhou_T r :: rb_T b) (rhou_diag r +:+ rb_text b)
      else
        RhouBatchResult (rhou_status r) (rhou_X1 r) [rhou_T r]
                        (rhou_diag r +:+ format batch_rhou_error [i])
  end.

(** ** The reference *)

Lemma batch_rhou_ref_ok i answers :
  Forall (λ r, rhou_status r = 0) answers →
  batch_rhou_ref i answers
  = RhouBatchResult 0 (concat (rhou_X1 <$> answers)) (rhou_T <$> answers)
                    (foldr (λ r t, rhou_diag r +:+ t) "" answers).
Proof.
  intros Hok. revert i. induction Hok as [|r rest Hr _ IH]; intros i; simpl;
    [done|].
  by rewrite decide_True, IH.
Qed.

Lemma batch_rhou_ref_first i answers :
  rb_status (batch_rhou_ref i answers)
  = default 0 (head (filter (λ z, z ≠ 0) (rhou_status <$> answers))).
Proof.
  revert i. induction answers as [|r rest IH]; intros i; csimpl; [done|].
  case_decide as Hr; simpl.
  - rewrite filter_cons_False by naive_solver. apply IH.
  - by rewrite filter_cons_True.
Qed.

(** No more than [nsp] numbers and one temperature are written for each
    answer. *)
Lemma batch_rhou_ref_written i answers :
  Forall (λ r, length (rhou_X1 r) = Z.to_nat nsp) answers →
  (length (rb_X1 (batch_rhou_ref i answers))
   ≤ length answers * Z.to_nat nsp)%nat
  ∧ (length (rb_T (batch_rhou_ref i answers)) ≤ length answers)%nat.
Proof.
  intros Hlen. revert i.
  induction Hlen as [|r rest Hr _ IH]; intros i; simpl; [done|].
  case_decide; simpl; [|lia]. rewrite length_app. specialize (IH (i + 1)). lia.
Qed.

(** ** One item *)

Section item.
Context `{!PureOk f}.
Implicit Types m : gmap Z float.

#[local] Abbreviation item :=
  (batch_rhou_item (H := lift f) rho u X0 nsp nel lewis M a X1 T verbose).

Lemma rhou_item_answer_agree m1 m2 i :
  agree_on (item_reads i) m1 m2 →
  rhou_item_answer m1 i = rhou_item_answer m2 i.
Proof.
  intros Hag. unfold rhou_item_answer.
  rewrite (load_agree _ m1 m2 (rho + i) Hag) by (right; by left).
  rewrite (load_agree _ m1 m2 (u + i) Hag) by (by left).
  destruct (reads_agree m1 m2 (X0 + i * nsp) nsp nel lewis M a)
    as (-> & -> & -> & ->); [|done].
  intros c Hc. apply Hag. right; by right.
Qed.

Lemma rhou_item_answer_length m i r :
  rhou_item_answer m i = Some r → length (rhou_X1 r) = Z.to_nat nsp.
Proof.
  unfold rhou_item_answer. intros Hr. simplify_option_eq.
  eauto using pure_rhou_length, load_array_length.
Qed.

Lemma rhou_item_answers_length m items answers :
  Forall2 (λ j r, rhou_item_answer m j = Some r) items answers →
  Forall (λ r, length (rhou_X1 r) = Z.to_nat nsp) answers.
Proof.
  intros Hans. eapply Forall2_Forall_r; [exact Hans|]. apply Forall_forall.
  intros i _ r. apply rhou_item_answer_length.
Qed.

Lemma rhou_answers_length m answers :
  rhou_answers m = Some answers →
  length answers = Z.to_nat N
  ∧ Forall (λ r, length (rhou_X1 r) = Z.to_nat nsp) answers.
Proof.
  intros Hans%mapM_Some. split; [|by eapply rhou_item_answers_length].
  apply Forall2_length in Hans. by rewrite length_seqZ in Hans.
Qed.

(** The numbers a batch writes fit in output arrays of [N] slices and [N]
    temperatures. *)
Lemma batch_rhou_ref_stored m answers :
  0 ≤ nsp → rhou_answers m = Some answers →
  allocated m X1 (N * nsp) → allocated m T N →
  ∃ mX m', store_array m X1 (rb_X1 (batch_rhou_ref 0 answers)) = Some mX
           ∧ store_array mX T (rb_T (batch_rhou_ref 0 answers)) = Some m'.
Proof.
  intros Hnsp [Hlen Hall]%rhou_answers_length HX HT.
  destruct (batch_rhou_ref_written 0 answers Hall) as [HwX HwT].
  destruct (proj2 (store_array_is_Some m X1
                     (rb_X1 (batch_rhou_ref 0 answers)))) as [mX HmX].
  { revert HX. apply allocated_weaken. intros c. unfold between. nia. }
  exists mX. apply store_array_same_cells in HmX as Hc. rewrite HmX.
  destruct (proj2 (store_array_is_Some mX T
                     (rb_T (batch_rhou_ref 0 answers)))) as [m' Hm'];
    [|by exists m'].
  apply (same_cells_allocated m); [done|].
  revert HT. apply allocated_weaken. intros c. unfold between. lia.
Qed.

(** Item [i] of the batch stores the composition of its answer in slice
    [i] and its temperature in cell [i], prints the text of the answer and
    returns its status. *)
Lemma batch_rhou_item_run i s r m1 m2 :
  rhou_item_answer (st_mem s) i = Some r →
  store_array (st_mem s) (X1 + i * nsp) (rhou_X1 r) = Some m1 →
  store m1 (T + i) (rhou_T r) = Some m2 →
  item i s = Ret (rhou_status r) (State m2 (st_out s +:+ rhou_diag r)).
Proof.
  unfold rhou_item_answer. intros Hr Hst HT. simplify_option_eq.
  unfold batch_rhou_item, rhou. simpl.
  erewrite bind_run by (by apply read_run).
  erewrite bind_run by (by apply read_run).
  unfold_lift. by simplify_option_eq.
Qed.

End item.

(** ** The batch *)

Section batch.
Context `{!PureOk f}.
Hypothesis nsp_nonneg : 0 ≤ nsp.
Hypothesis apart : rhou_writes_apart N rho u X0 nsp nel lewis M a X1 T.
Implicit Types m : gmap Z float.

#[local] Abbreviation item :=
  (batch_rhou_item (H := lift f) rho u X0 nsp nel lewis M a X1 T verbose).

#[local] Abbreviation reads_from i :=
  (λ c, ∃ j, i ≤ j < N ∧ item_reads j c).

(** What item [i] stores changes nothing that a later item reads. *)
Lemma rhou_store_keeps_reads m0 m m1 m2 i (l : list double) t :
  0 ≤ i → length l = Z.to_nat nsp →
  agree_on (reads_from i) m0 m →
  store_array m (X1 + i * nsp) l = Some m1 → store m1 (T + i) t = Some m2 →
  agree_on (reads_from (i + 1)) m0 m2.
Proof.
  intros Hi Hlen Hag Hst HT c (j & Hj & Hc).
  rewrite (Hag c) by (exists j; split; [lia|done]). trans (m1 !! c).
  - apply (store_array_unchanged_outside _ _ _ _ Hst).
    rewrite Hlen, Z2Nat.id by done. intros Hw.
    by apply (proj1 apart i j c); [lia|lia|left|].
  - apply (store_unchanged_outside _ _ _ _ HT). intros Hw.
    by apply (proj1 apart i j c); [lia|lia|right|].
Qed.

(** The temperature of item [i] is not among the compositions of the later
    items. *)
Lemma rhou_T_not_in_X1 i (n : nat) (w : list double) :
  0 ≤ i → i + Z.of_nat (S n) ≤ N → (length w ≤ n * Z.to_nat nsp)%nat →
  ¬ between (X1 + i * nsp + nsp) (Z.of_nat (length w)) (T + i).
Proof.
  intros Hi HN Hw Hb. apply (proj2 apart (T + i)); unfold between in *; nia.
Qed.

(** The items from [i] on, run on a store in which their inputs are as
    they were at the call. *)
Lemma batch_rhou_list_from m0 answers : ∀ i s mX m',
  0 ≤ i → i + Z.of_nat (length answers) ≤ N →
  Forall2 (λ j r, rhou_item_answer m0 j = Some r)
          (seqZ i (Z.of_nat (length answers))) answers →
  agree_on (reads_from i) m0 (st_mem s) →
  store_array (st_mem s) (X1 + i * nsp)
    (rb_X1 (batch_rhou_ref i answers)) = Some mX →
  store_array mX (T + i) (rb_T (batch_rhou_ref i answers)) = Some m' →
  failfast item batch_rhou_report (seqZ i (Z.of_nat (length answers))) s
  = Ret (rb_status (batch_rhou_ref i answers))
        (State m' (st_out s +:+ rb_text (batch_rhou_ref i answers))).
Proof.
  induction answers as [|r rest IH]; intros i s mX m' Hi HN Hans Hag.
  { simpl. intros [= <-] [= <-]. unfold ret. rewrite append_nil_r.
    by destruct s. }
  cbn [length] in *.
  rewrite Nat2Z.inj_succ, seqZ_cons, Z.pred_succ in * by lia.
  apply Forall2_cons in Hans as [Hr Hans].
  rewrite (rhou_item_answer_agree m0 (st_mem s)) in Hr
    by (intros c Hc; apply Hag; exists i; split; [lia|done]).
  pose proof (rhou_item_answer_length _ _ _ Hr) as Hlen.
  cbn [batch_rhou_ref failfast].
  case_decide as Hst; cbn [rb_status rb_X1 rb_T rb_text].
  - intros HX HT.
    assert (¬ between (X1 + i * nsp + Z.of_nat (length (rhou_X1 r)))
              (Z.of_nat (length (rb_X1 (batch_rhou_ref (i + 1) rest))))
              (T + i)) as Hout.
    { rewrite Hlen, Z2Nat.id by done.
      apply (rhou_T_not_in_X1 i (length rest)); [done|lia|].
      by eapply batch_rhou_ref_written, rhou_item_answers_length. }
    destruct (store_array_interleave _ _ _ _ _ _ _ _ _ Hout HX HT)
      as (m1 & m2 & m3 & H1 & H2 & H3 & H4).
    rewrite Hlen, Z2Nat.id in H3 by done.
    replace (X1 + i * nsp + nsp) with (X1 + (i + 1) * nsp) in H3 by lia.
    replace (T + i + 1) with (T + (i + 1)) in H4 by lia.
    pose proof (batch_rhou_item_run i s r m1 m2 Hr H1 H2) as Hrun.
    rewrite Hst in Hrun. change (Z.succ i) with (i + 1).
    rewrite (bind_run _ _ _ _ _ Hrun), decide_True by done.
    rewrite (IH (i + 1) _ m3 m');
      [simpl; by rewrite append_assoc|lia|lia|done| |done|done].
    by eapply rhou_store_keeps_reads.
  - intros H1 HT. simpl in HT.
    destruct (store mX (T + i) (rhou_T r)) as [m2|] eqn:H2; [|done].
    simplify_eq.
    pose proof (batch_rhou_item_run i s r mX m' Hr H1 H2) as Hrun.
    rewrite (bind_run _ _ _ _ _ Hrun), decide_False by done.
    unfold bind. rewrite batch_rhou_report_run, format_batch_rhou_error.
    simpl. by rewrite append_assoc.
Qed.

End batch.

End rhou.

(** The run of [batch_rhou] on the answers of the solver. *)
Lemma batch_rhou_run_list f `{!PureOk f} N rho u X0 nsp nel lewis M a X1 T
    verbose s answers mX m' :
  in_int N → slices_fit N nsp → 0 ≤ nsp →
  rhou_writes_apart N rho u X0 nsp nel lewis M a X1 T →
  rhou_answers f N rho u X0 nsp nel lewis M a verbose (st_mem s)
    = Some answers →
  store_array (st_mem s) X1 (rb_X1 (batch_rhou_ref 0 answers)) = Some mX →
  store_array mX T (rb_T (batch_rhou_ref 0 answers)) = Some m' →
  batch_rhou (H := lift f) N rho u X0 nsp nel lewis M a X1 T verbose s
  = Ret (rb_status (batch_rhou_ref 0 answers))
        (State m' (st_out s +:+ rb_text (batch_rhou_ref 0 answers))).
Proof.
  intros HN Hfit Hnsp Hap Hans%mapM_Some HX HT.
  rewrite (batch_rhou_run_spec N) by done. unfold batch_rhou_spec.
  pose proof (Forall2_length _ _ _ Hans) as Hlen.
  rewrite length_seqZ in Hlen.
  destruct (decide (0 ≤ N)) as [HN0|HN0].
  - assert (seqZ 0 N = seqZ 0 (Z.of_nat (length answers))) as Hseq
      by (f_equal; lia).
    rewrite Hseq in Hans |- *.
    apply (batch_rhou_list_from f N _ _ _ _ _ _ _ _ _ _ _ Hnsp Hap
             (st_mem s) answers 0 s mX); try (done || lia);
      by rewrite ?Z.mul_0_l, ?Z.add_0_r.
  - rewrite seqZ_nil in * by lia. apply Forall2_nil_inv_l in Hans as ->.
    simpl in *. simplify_eq. unfold ret. rewrite append_nil_r. by destruct s.
Qed.

(** C12: for a solver that is a function of its inputs, [batch_rhou] is a
    function of the caller's store: it returns the status, stores the
    compositions from [X1] on and the temperatures from [T] on, and prints
    the text, that [batch_rhou_ref] computes from the answers of the solver
    to the items of the store at the call. *)
Theorem batch_rhou_list f `{!PureOk f} N rho u X0 nsp nel lewis M a X1 T
    verbose s answers mX m' :
  in_int N → slices_fit N nsp → 0 ≤ nsp →
  rhou_writes_apart N rho u X0 nsp nel lewis M a X1 T →
  rhou_answers f N rho u X0 nsp nel lewis M a verbose (st_mem s)
    = Some answers →
  store_array (st_mem s) X1 (rb_X1 (batch_rhou_ref 0 answers)) = Some mX →
  store_array mX T (rb_T (batch_rhou_ref 0 answers)) = Some m' →
  batch_rhou (H := lift f) N rho u X0 nsp nel lewis M a X1 T verbose s
  = Ret (rb_status (batch_rhou_ref 0 answers))
        (State m' (st_out s +:+ rb_text (batch_rhou_ref 0 answers))).
Proof. by apply batch_rhou_run_list. Qed.
