(* ===== verification/BatchWorkers.v ===== *)
(** * BatchWorkers: the items of a batch run by concurrent workers

    [src/ceq.c] runs the items of a batch one after the other.  The
    specification (section 5) adds that the solves of a batch have no data
    dependencies, so that they are safe to execute concurrently across
    worker threads.  This file states that claim for [batch_pt] and proves
    it for the solvers that are functions of their inputs
    ([PureSolver.lift]).

    A worker takes an item that nobody has taken, reads the inputs of the
    item from the shared store and computes the answer ([Take]); later it
    writes the composition of the answer to the slice of the item in [X1]
    ([Put]).  The events of different workers interleave in any order, and
    there is no lock.  A pool records the store, the items taken and not
    yet written, and the status of the items written.

    The theorems hold when no item reads a cell of the slice that another
    item writes ([items_apart]): the answers are then those computed from
    the store at the call, whatever the interleaving; the workers never
    block before every item is written; every run has at most [2 * N]
    events; and when all is written, the pool holds the status that
    [batch_pt] returns and, in the slices [batch_pt] wrote, the numbers it
    wrote.  For a batch without failure the store is that of [batch_pt].

    The execution by workers is not in the source; it is modelled from the
    specification.  The text printed is left out: its order depends on the
    interleaving. *)

From Corelib Require Import PrimFloat.
From stdpp Require Import gmap relations.
From S2P Require Import Prelude CInt Memory Exec Solver PureSolver Loop.
From S2P Require Import Ceq CeqFacts.
From S2P Require Import BatchSpec BatchFrame BatchIndep BatchList.

(** ** Pools and events *)

Record pool := Pool {
  pool_mem : gmap Z float;        (* the shared store *)
  pool_busy : gmap Z pt_answer;   (* items taken, with the answer computed *)
  pool_done : gmap Z Z            (* items written, with their status *)
}.

Inductive event :=
  | Take (i : Z)    (* a worker reads the inputs of item [i] *)
  | Put (i : Z).    (* the worker of item [i] writes its composition *)

#[export] Instance event_eq_dec : EqDecision event.
Proof. solve_decision. Defined.

(** No item reads a cell of the slice of [X1] that another item writes. *)
Definition items_apart (N : Z) (p T X0 : ptr) (nsp nel : Z)
    (lewis M a X1 : ptr) : Prop :=
  ∀ i j c, 0 ≤ i < N → 0 ≤ j < N → i ≠ j →
    between (X1 + i * nsp) nsp c → ¬ pt_item_reads p T X0 nsp nel lewis M a j c.

Section workers.
Variable f : pure_solver.
Variables (N : Z) (p T X0 : ptr) (nsp nel : Z) (lewis M a X1 : ptr).
Variable verbose : Z.

#[local] Abbreviation answer :=
  (pt_item_answer f p T X0 nsp nel lewis M a verbose).
#[local] Abbreviation item_reads :=
  (pt_item_reads p T X0 nsp nel lewis M a).

(** The pool after an event; [None] when the event cannot happen: an item
    is taken once, and written by the worker that took it; a read or a
    write outside the allocated cells has no result. *)
Definition do_event (e : event) (w : pool) : option pool :=
  match e with
  | Take i =>
      if decide (0 ≤ i < N ∧ pool_busy w !! i = None ∧ pool_done w !! i = None)
      then r ← answer (pool_mem w) i;
           Some (Pool (pool_mem w) (<[i := r]> (pool_busy w)) (pool_done w))
      else None
  | Put i =>
      r ← pool_busy w !! i;
      m' ← store_array (pool_mem w) (X1 + i * nsp) (pt_X1 r);
      Some (Pool m' (delete i (pool_busy w))
                 (<[i := pt_status r]> (pool_done w)))
  end.

(** A run: the events of a schedule, one after the other. *)
Fixpoint run_events (es : list event) (w : pool) : option pool :=
  match es with
  | [] => Some w
  | e :: es' => do_event e w ≫= run_events es'
  end.

Definition worker_step (w w' : pool) : Prop :=
  ∃ e, do_event e w = Some w'.

(** The pool at the call, and the pools in which every item is written. *)
Definition pool_start (m : gmap Z float) : pool := Pool m ∅ ∅.

Definition finished (w : pool) : Prop :=
  Forall (λ i, is_Some (pool_done w !! i)) (seqZ 0 N).

#[export] Instance finished_dec w : Decision (finished w).
Proof. unfold finished. apply _. Defined.

(** The status of the batch: that of the first item, in the order of the
    indices, whose status is not 0. *)
Definition pool_status (w : pool) : Z :=
  default 0 (head (filter (λ z, z ≠ 0)
                          (omap (λ i, pool_done w !! i) (seqZ 0 N)))).

(** The schedule of one worker that runs the items in the order of the
    list. *)
Definition in_order (l : list Z) : list event :=
  l ≫= λ i, [Take i; Put i].

(** ** The invariant *)

(** What holds of every pool reached from the store [m0]: the items taken
    have the answer computed from [m0]; the items written have the status
    of that answer, and their slice holds its composition; no other cell
    has changed, and no cell was allocated or freed. *)
Record pool_inv (m0 : gmap Z float) (w : pool) : Prop := PoolInv {
  inv_busy i r :
    pool_busy w !! i = Some r →
    0 ≤ i < N ∧ pool_done w !! i = None ∧ answer m0 i = Some r;
  inv_done i z :
    pool_done w !! i = Some z →
    0 ≤ i < N ∧ ∃ r, answer m0 i = Some r ∧ z = pt_status r
      ∧ load_array (pool_mem w) (X1 + i * nsp) nsp = Some (pt_X1 r);
  inv_mem c :
    (∀ i, is_Some (pool_done w !! i) → ¬ between (X1 + i * nsp) nsp c) →
    pool_mem w !! c = m0 !! c;
  inv_cells : same_cells m0 (pool_mem w)
}.

Lemma run_events_app es1 es2 w :
  run_events (es1 ++ es2) w = run_events es1 w ≫= run_events es2.
Proof.
  revert w. induction es1 as [|e es1 IH]; intros w; simpl; [done|].
  destruct (do_event e w); simpl; [apply IH|done].
Qed.

(** ** The invariant holds of every pool reached *)

Section invariant.
Context `{!PureOk f}.
Hypothesis nsp_nonneg : 0 ≤ nsp.
Hypothesis apart : items_apart N p T X0 nsp nel lewis M a X1.
Variable m0 : gmap Z float.
Implicit Types (w : pool) (i j c : Z) (e : event) (es : list event).

Lemma pool_start_inv : pool_inv m0 (pool_start m0).
Proof. split; simpl; [by intros i r ?%lookup_empty_Some..|done|done]. Qed.

(** The inputs of an item that is not written are as they were at the
    call. *)
Lemma pool_reads_kept w i :
  pool_inv m0 w → 0 ≤ i < N → pool_done w !! i = None →
  agree_on (item_reads i) (pool_mem w) m0.
Proof.
  intros Hinv Hi Hnot c Hc. apply (inv_mem _ _ Hinv). intros j [z Hj] Hb.
  destruct (inv_done _ _ Hinv j z Hj) as [HjN _].
  apply (apart j i c); [done|done|by intros ->; simplify_eq|done|done].
Qed.

Lemma pool_answer_kept w i :
  pool_inv m0 w → 0 ≤ i < N → pool_done w !! i = None →
  answer (pool_mem w) i = answer m0 i.
Proof. intros. by eapply pt_item_answer_agree, pool_reads_kept. Qed.

(** Taking an item keeps the invariant. *)
Lemma pool_inv_take w i r :
  pool_inv m0 w → 0 ≤ i < N → pool_done w !! i = None →
  answer (pool_mem w) i = Some r →
  pool_inv m0 (Pool (pool_mem w) (<[i := r]> (pool_busy w)) (pool_done w)).
Proof.
  intros Hinv Hi Hnot Hr. rewrite pool_answer_kept in Hr by done.
  split; simpl; [|apply Hinv..].
  intros j r' [[-> ->]|[_ Hj]]%lookup_insert_Some; [done|].
  by apply Hinv.
Qed.

(** Writing an item keeps the invariant. *)
Lemma pool_inv_put w i r m' :
  pool_inv m0 w → pool_busy w !! i = Some r →
  store_array (pool_mem w) (X1 + i * nsp) (pt_X1 r) = Some m' →
  pool_inv m0 (Pool m' (delete i (pool_busy w))
                    (<[i := pt_status r]> (pool_done w))).
Proof.
  intros Hinv Hi Hst. destruct (inv_busy _ _ Hinv i r Hi) as (HiN & Hnot & Hr).
  pose proof (pt_item_answer_length _ _ _ _ _ _ _ _ _ _ _ _ _ Hr) as Hlen.
  pose proof (store_array_unchanged_outside _ _ _ _ Hst) as Hout.
  rewrite Hlen, Z2Nat.id in Hout by done.
  split; simpl.
  - intros j r' [Hne Hj]%lookup_delete_Some.
    rewrite lookup_insert_ne by done. by apply Hinv.
  - intros j z [[-> <-]|[Hne Hj]]%lookup_insert_Some.
    + split; [done|]. exists r. repeat split; [done|].
      apply load_store_array in Hst. by rewrite Hlen, Z2Nat.id in Hst.
    + destruct (inv_done _ _ Hinv j z Hj) as (HjN & r' & Hr' & -> & Hld).
      split; [done|]. exists r'. repeat split; [done|]. rewrite <- Hld.
      apply load_array_agree. intros c Hc. symmetry. apply Hout.
      intros Hi'. by apply (slices_disjoint X1 nsp i j c).
  - intros c Hc. rewrite <- (Hout c).
    + apply (inv_mem _ _ Hinv). intros j [z Hj]. apply Hc.
      destruct (decide (i = j)) as [->|Hne]; [by simplify_eq|].
      rewrite lookup_insert_ne by done. by exists z.
    + apply Hc. rewrite lookup_insert_eq. by eexists.
  - etrans; [apply (inv_cells _ _ Hinv)|by eapply store_array_same_cells].
Qed.

Lemma pool_inv_event e w w' :
  pool_inv m0 w → do_event e w = Some w' → pool_inv m0 w'.
Proof.
  intros Hinv. destruct e as [i|i]; simpl.
  - case_decide as Hi; [|done]. destruct Hi as (Hi & _ & Hnot).
    destruct (answer (pool_mem w) i) as [r|] eqn:Hr; [|done].
    intros [= <-]. by apply pool_inv_take.
  - destruct (pool_busy w !! i) as [r|] eqn:Hi; [|done]. simpl.
    destruct (store_array _ _ _) as [m'|] eqn:Hst; [|done].
    intros [= <-]. by apply pool_inv_put.
Qed.

Lemma pool_inv_run es : ∀ w w',
  pool_inv m0 w → run_events es w = Some w' → pool_inv m0 w'.
Proof.
  induction es as [|e es IH]; intros w w' Hinv; simpl; [by intros [= <-]|].
  destruct (do_event e w) as [w1|] eqn:He; [|done]. simpl.
  apply IH. by eapply pool_inv_event.
Qed.

Lemma pool_inv_rtc w w' :
  pool_inv m0 w → rtc worker_step w w' → pool_inv m0 w'.
Proof. induction 2 as [|? ? ? [e He]]; eauto using pool_inv_event. Qed.

(** ** When every item is written *)

(** The pool then holds, for every item, the status of the answer computed
    from the store at the call, and in its slice the composition of that
    answer. *)
Lemma pool_done_answers w answers :
  pool_inv m0 w → finished w →
  pt_answers f N p T X0 nsp nel lewis M a verbose m0 = Some answers →
  Forall2 (λ j r, pool_done w !! j = Some (pt_status r)
                  ∧ load_array (pool_mem w) (X1 + j * nsp) nsp
                    = Some (pt_X1 r))
          (seqZ 0 N) answers.
Proof.
  intros Hinv Hfin Hans%mapM_Some. unfold finished in Hfin.
  induction Hans as [|j r l rs Hr _ IH]; [done|].
  apply Forall_cons in Hfin as [[z Hz] Hfin]. constructor; [|by apply IH].
  destruct (inv_done _ _ Hinv j z Hz) as (_ & r' & Hr' & -> & Hld).
  simplify_eq. by split.
Qed.

(** The status of the pool is the status of the batch on the answers. *)
Lemma pool_status_ref w answers :
  pool_inv m0 w → finished w →
  pt_answers f N p T X0 nsp nel lewis M a verbose m0 = Some answers →
  pool_status w = br_status (batch_pt_ref 0 answers).
Proof.
  intros Hinv Hfin Hans. rewrite batch_pt_ref_first. unfold pool_status.
  do 3 f_equal.
  pose proof (pool_done_answers w answers Hinv Hfin Hans) as Hall.
  clear Hfin Hans. revert Hall. generalize (seqZ 0 N). intros l Hall.
  induction Hall as [|j r l rs [Hj _] _ IH]; csimpl; [done|].
  by rewrite Hj, IH.
Qed.

(** The output array holds the compositions of the answers, item after
    item. *)
Lemma pool_prefix w answers k :
  pool_inv m0 w → finished w →
  pt_answers f N p T X0 nsp nel lewis M a verbose m0 = Some answers →
  load_array (pool_mem w) X1
    (Z.of_nat (length (concat (pt_X1 <$> take k answers))))
  = Some (concat (pt_X1 <$> take k answers)).
Proof.
  intros Hinv Hfin Hans.
  pose proof (pool_done_answers w answers Hinv Hfin Hans) as Hall.
  destruct (pt_answers_length _ _ _ _ _ _ _ _ _ _ _ _ _ Hans)
    as [Hlen Hnsp].
  rewrite (pt_answers_concat_length nsp) by by apply Forall_take.
  pose proof (load_array_concat (pool_mem w) X1 nsp
                (pt_X1 <$> take k answers) 0) as Hld.
  rewrite length_fmap, Z.mul_0_l, Z.add_0_r in Hld.
  rewrite Nat2Z.inj_mul, Z2Nat.id by done. apply Hld; [done|].
  apply Forall2_fmap_r, Forall2_seqZ_take.
  replace (Z.of_nat (length answers)) with (Z.max 0 N) by lia.
  replace (seqZ 0 (Z.max 0 N)) with (seqZ 0 N)
    by (destruct (decide (0 ≤ N)); [f_equal; lia|by rewrite !seqZ_nil by lia]).
  eapply Forall2_impl; [exact Hall|]. by intros j r [_ ?].
Qed.

(** What the workers left outside the output array is what was there at
    the call. *)
Lemma pool_frame w :
  pool_inv m0 w → unchanged_outside X1 (N * nsp) m0 (pool_mem w).
Proof.
  intros Hinv c Hc. symmetry. apply (inv_mem _ _ Hinv). intros i [z Hi] Hb.
  destruct (inv_done _ _ Hinv i z Hi) as [HiN _].
  by apply Hc, (slice_between X1 N nsp i).
Qed.

(** ** Progress and the length of a run *)

(** The events that have happened. *)
Definition events_done w : nat :=
  2 * size (pool_done w) + size (pool_busy w).

Lemma do_event_count e w w' :
  pool_inv m0 w → do_event e w = Some w' →
  events_done w' = S (events_done w).
Proof.
  intros Hinv. unfold events_done. destruct e as [i|i]; simpl.
  - case_decide as Hi; [|done]. destruct Hi as (_ & Hb & _).
    destruct (answer (pool_mem w) i); [|done]. intros [= <-]. simpl.
    rewrite map_size_insert_None by done. lia.
  - destruct (pool_busy w !! i) as [r|] eqn:Hi; [|done]. simpl.
    destruct (store_array _ _ _); [|done]. intros [= <-]. simpl.
    destruct (inv_busy _ _ Hinv i r Hi) as (_ & Hnot & _).
    rewrite map_size_insert_None by done.
    rewrite <- (insert_delete_id (pool_busy w) i r Hi) at 2.
    rewrite map_size_insert_None by apply lookup_delete_eq. lia.
Qed.

Lemma run_events_count es : ∀ w w',
  pool_inv m0 w → run_events es w = Some w' →
  events_done w' = (length es + events_done w)%nat.
Proof.
  induction es as [|e es IH]; intros w w' Hinv; simpl; [by intros [= <-]|].
  destruct (do_event e w) as [w1|] eqn:He; [|done]. simpl. intros Hrun.
  rewrite (IH w1 w'), (do_event_count e w w1) by eauto using pool_inv_event.
  lia.
Qed.

(** Every item is taken and written once. *)
Lemma pool_inv_bound w :
  pool_inv m0 w → (events_done w ≤ 2 * Z.to_nat N)%nat.
Proof.
  intros Hinv. unfold events_done.
  assert (size (dom (pool_done w) ∪ dom (pool_busy w))
          ≤ size (list_to_set (C := gset Z) (seqZ 0 N)))%nat as Hle.
  { apply subseteq_size. intros i.
    rewrite elem_of_union, !elem_of_dom, elem_of_list_to_set, elem_of_seqZ.
    intros [[z Hi]|[r Hi]];
      [apply (inv_done _ _ Hinv) in Hi|apply (inv_busy _ _ Hinv) in Hi]; lia. }
  rewrite size_union, !size_dom, size_list_to_set, length_seqZ in Hle;
    [lia|apply NoDup_seqZ|].
  intros i [z Hd]%elem_of_dom [r Hb]%elem_of_dom.
  apply (inv_busy _ _ Hinv) in Hb as (_ & Hb & _). by simplify_eq.
Qed.

Lemma finished_count w :
  pool_inv m0 w → finished w → events_done w = (2 * Z.to_nat N)%nat.
Proof.
  intros Hinv Hfin. pose proof (pool_inv_bound w Hinv) as Hle.
  assert (size (list_to_set (C := gset Z) (seqZ 0 N))
          ≤ size (dom (pool_done w)))%nat as Hge.
  { apply subseteq_size. intros i. rewrite elem_of_list_to_set, elem_of_dom.
    unfold finished in Hfin. rewrite Forall_forall in Hfin. apply Hfin. }
  rewrite size_dom, size_list_to_set, length_seqZ in Hge by apply NoDup_seqZ.
  unfold events_done in *. lia.
Qed.

Section allocated.
Hypothesis inputs :
  is_Some (pt_answers f N p T X0 nsp nel lewis M a verbose m0).
Hypothesis output : allocated m0 X1 (N * nsp).

(** While an item is not written, an event can happen: the workers do not
    block one another, and they do not fault. *)
Lemma pool_progress w :
  pool_inv m0 w → ¬ finished w → ∃ e w', do_event e w = Some w'.
Proof.
  intros Hinv (i & Hi%elem_of_seqZ & Hd)%not_Forall_Exists%Exists_exists;
    [|apply _].
  apply eq_None_not_Some in Hd.
  destruct (pool_busy w !! i) as [r|] eqn:Hb.
  - destruct (inv_busy _ _ Hinv i r Hb) as (_ & _ & Hr).
    destruct (store_array_is_Some (pool_mem w) (X1 + i * nsp) (pt_X1 r))
      as [_ [m' Hst]].
    { erewrite pt_item_answer_length, Z2Nat.id by done.
      apply (same_cells_allocated m0); [apply Hinv|].
      revert output. apply allocated_weaken. intros c.
      apply (slice_between X1 N nsp i). lia. }
    exists (Put i). eexists. simpl. by rewrite Hb; simpl; rewrite Hst.
  - destruct inputs as [answers Hans%mapM_Some].
    destruct (Forall2_lookup_l _ _ _ (Z.to_nat i) i Hans) as (r & _ & Hr).
    { apply lookup_seqZ. lia. }
    exists (Take i). eexists. simpl.
    rewrite decide_True, pool_answer_kept, Hr by (done || lia). done.
Qed.

(** Every run can be completed. *)
Lemma pool_completes w :
  pool_inv m0 w → ∃ es w', run_events es w = Some w' ∧ finished w'.
Proof.
  intros Hinv. pose proof (pool_inv_bound w Hinv) as Hle.
  remember (2 * Z.to_nat N - events_done w)%nat as k eqn:Hk.
  revert w Hinv Hle Hk. induction k as [|k IH]; intros w Hinv Hle Hk;
    (destruct (decide (finished w)) as [Hfin|Hnot];
       [by exists [], w|]);
    destruct (pool_progress w Hinv Hnot) as (e & w1 & He);
    pose proof (pool_inv_event e w w1 Hinv He) as Hinv1;
    pose proof (do_event_count e w w1 Hinv He) as Hc;
    pose proof (pool_inv_bound w1 Hinv1) as Hle1; [lia|].
  destruct (IH w1 Hinv1 Hle1 ltac:(lia)) as (es & w' & Hrun & Hfin).
  exists (e :: es), w'. simpl. by rewrite He.
Qed.

End allocated.

(** ** Against the batch of the source *)

(** What the workers left in the part of the output array that the batch
    on the answers writes is what the batch writes there. *)
Lemma pool_written w answers :
  pool_inv m0 w → finished w →
  pt_answers f N p T X0 nsp nel lewis M a verbose m0 = Some answers →
  load_array (pool_mem w) X1
    (Z.of_nat (length (br_written (batch_pt_ref 0 answers))))
  = Some (br_written (batch_pt_ref 0 answers)).
Proof.
  destruct (batch_pt_ref_prefix 0 answers) as [k ->]. apply pool_prefix.
Qed.

(** The output array was allocated at the call. *)
Lemma pool_allocated w answers :
  pool_inv m0 w → finished w →
  pt_answers f N p T X0 nsp nel lewis M a verbose m0 = Some answers →
  allocated m0 X1 (N * nsp).
Proof.
  intros Hinv Hfin Hans.
  pose proof (pool_prefix w answers (length answers) Hinv Hfin Hans) as Hld.
  destruct (pt_answers_length _ _ _ _ _ _ _ _ _ _ _ _ _ Hans)
    as [Hlen Hnsp].
  rewrite take_ge, (pt_answers_concat_length nsp) in Hld by done.
  apply (same_cells_allocated (pool_mem w)); [symmetry; apply Hinv|].
  apply mk_is_Some, load_array_is_Some in Hld. revert Hld.
  apply allocated_weaken. unfold between. nia.
Qed.

End invariant.

End workers.

(** ** Apartness *)

(** Items that are apart from one another do not read what an earlier item
    wrote; arrays whose outputs overlap no input hold items that are
    apart. *)
Lemma items_apart_writes_apart N p T X0 nsp nel lewis M a X1 :
  items_apart N p T X0 nsp nel lewis M a X1 →
  writes_apart N p T X0 nsp nel lewis M a X1.
Proof. intros Hap i j c Hij Hj. apply Hap; lia. Qed.

Lemma inputs_apart_items_apart N p T X0 nsp nel lewis M a X1 :
  inputs_apart N p T X0 nsp nel lewis M a X1 →
  items_apart N p T X0 nsp nel lewis M a X1.
Proof.
  intros Hap i j c Hi Hj _ Hc Hr. apply (Hap c).
  - by apply (between_slice X1 N nsp i).
  - by apply (item_reads_in_batch N p T X0 nsp nel lewis M a j).
Qed.

(** ** The theorems *)

Section theorems.
Context (f : pure_solver) `{!PureOk f}.
Variables (N : Z) (p T X0 : ptr) (nsp nel : Z) (lewis M a X1 : ptr).
Variable verbose : Z.
Hypothesis nsp_nonneg : 0 ≤ nsp.
Hypothesis apart : items_apart N p T X0 nsp nel lewis M a X1.

#[local] Abbreviation run :=
  (run_events f N p T X0 nsp nel lewis M a X1 verbose).
#[local] Abbreviation reached m :=
  (pool_inv f N p T X0 nsp nel lewis M a X1 verbose m).

Lemma run_inv m es w : run es (pool_start m) = Some w → reached m w.
Proof.
  apply pool_inv_run; [done..|]. by apply pool_start_inv.
Qed.

(** C14: the workers against the loop of the source.  When [N] is an
    [int], the slice offsets fit in an [int], [nsp] is not negative, no
    item reads a cell of the slice that another item writes, the workers
    have run through every item in whatever interleaving, and the answers
    of the solver are [answers], then [batch_pt] on the store of the call
    returns the status of the pool; the part of the output array that
    [batch_pt] wrote holds the same numbers in both; and when that status
    is 0 the store the workers left is the store [batch_pt] leaves. *)
Theorem workers_agree_with_batch s answers es w :
  in_int N → slices_fit N nsp →
  pt_answers f N p T X0 nsp nel lewis M a verbose (st_mem s)
    = Some answers →
  run es (pool_start (st_mem s)) = Some w → finished N w →
  ∃ s', batch_pt (H := lift f) N p T X0 nsp nel lewis M a X1 verbose s
        = Ret (pool_status N w) s'
    ∧ agree_on
        (between X1 (Z.of_nat (length (br_written (batch_pt_ref 0 answers)))))
        (pool_mem w) (st_mem s')
    ∧ (pool_status N w = 0 → pool_mem w = st_mem s').
Proof.
  intros HN Hfit Hans Hinv%run_inv Hfin.
  assert (allocated (st_mem s) X1 (N * nsp)) as Hal
    by (by eapply pool_allocated).
  assert (load_array (pool_mem w) X1
            (Z.of_nat (length (br_written (batch_pt_ref 0 answers))))
          = Some (br_written (batch_pt_ref 0 answers))) as Hld
    by (by eapply pool_written).
  destruct (batch_pt_ref_stored f N p T X0 nsp nel lewis M a X1 verbose
              (st_mem s) answers) as [m' Hst]; [done..|].
  erewrite pool_status_ref by done.
  eexists. split; [|split; simpl].
  - apply batch_pt_run_list; eauto using items_apart_writes_apart.
  - eapply load_array_same; [exact Hld|by eapply load_store_array].
  - intros Hok. eapply store_array_unique; [exact Hst|exact Hld|].
    apply batch_pt_ref_status_0 in Hok.
    rewrite (batch_pt_ref_ok _ _ Hok). simpl.
    destruct (pt_answers_length _ _ _ _ _ _ _ _ _ _ _ _ _ Hans)
      as [Hlen Hnsp].
    rewrite (pt_answers_concat_length nsp) by done.
    apply (unchanged_except_weaken (between X1 (N * nsp)));
      [unfold between; nia|by eapply pool_frame].
Qed.

(** The workers do not block one another and do not fault.  When the
    inputs of every item can be read and the output array is allocated,
    then after any run in which some item is not written yet an event can
    happen. *)
Theorem workers_progress m es w :
  is_Some (pt_answers f N p T X0 nsp nel lewis M a verbose m) →
  allocated m X1 (N * nsp) →
  run es (pool_start m) = Some w → ¬ finished N w →
  ∃ e w', do_event f N p T X0 nsp nel lewis M a X1 verbose e w = Some w'.
Proof. intros Hin Hout Hinv%run_inv. by eapply pool_progress. Qed.

(** The length of a run.  Under the same conditions a run has at most
    [2 * N] events, it has written every item exactly when it has
    [2 * N] events, and it is the beginning of a run that writes every
    item. *)
Theorem workers_complete m es w :
  is_Some (pt_answers f N p T X0 nsp nel lewis M a verbose m) →
  allocated m X1 (N * nsp) →
  run es (pool_start m) = Some w →
  (length es ≤ 2 * Z.to_nat N)%nat
  ∧ (finished N w ↔ length es = (2 * Z.to_nat N)%nat)
  ∧ ∃ es' w', run (es ++ es') (pool_start m) = Some w' ∧ finished N w'.
Proof.
  intros Hin Hout Hrun. pose proof (run_inv _ _ _ Hrun) as Hinv.
  assert (events_done w = (length es + events_done (pool_start m))%nat)
    as Hcount
    by (eapply (run_events_count f); [..|exact Hrun];
        eauto using pool_start_inv).
  change (events_done (pool_start m)) with 0%nat in Hcount.
  assert (events_done w ≤ 2 * Z.to_nat N)%nat as Hle
    by (by eapply pool_inv_bound).
  split; [lia|]. split; [split|].
  - intros Hfin.
    assert (events_done w = (2 * Z.to_nat N)%nat)
      by (by eapply finished_count).
    lia.
  - intros Hlen. destruct (decide (finished N w)) as [|Hnot]; [done|].
    edestruct pool_progress as (e & w1 & He); [done..|].
    assert (events_done w1 = S (events_done w)) as Hc
      by (by eapply do_event_count).
    assert (events_done w1 ≤ 2 * Z.to_nat N)%nat
      by (by eapply pool_inv_bound, pool_inv_event).
    lia.
  - edestruct pool_completes as (es' & w' & Hr & Hf); [done..|].
    exists es', w'. by rewrite run_events_app, Hrun.
Qed.

End theorems.
