(* ===== verification/BatchStep.v ===== *)
(** * BatchStep: the loops as transition systems

    The control flow of the [for] loop of [batch_pt] and [batch_rhou], one
    transition per iteration.  A configuration is the loop head with the
    current counter and state ([Running]), the function after a [return]
    ([Done]), or a faulted run ([Crashed]).  [step] is the transition
    relation, [next] its executable form.

    - [step] is deterministic and total on running configurations, and final
      configurations do not move;
    - invariant, by induction on the run: at the loop head the counter is in
      [0 .. N] and the items before it all returned 0;
    - every run reaches a final configuration within [N+1] transitions;
    - the small-step runs and the recursive function [failfast_loop] agree,
      and so do [batch_pt], [batch_rhou] and the runs of their loops. *)

From Corelib Require Import PrimFloat.
From stdpp Require Import gmap relations.
From S2P Require Import Prelude CInt Memory Exec Solver Loop Ceq CeqFacts.

(** ** Configurations *)

Inductive config :=
  | Running (i : Z) (s : state)   (* at the test [i<N] *)
  | Done (r : Z) (s : state)      (* returned [r] *)
  | Crashed (f : fault).          (* a memory access failed *)

#[export] Instance config_inhabited : Inhabited config :=
  populate (Crashed OutOfFuel).

(** Returned or faulted. *)
Definition final (c : config) : Prop :=
  match c with Running _ _ => False | _ => True end.

#[export] Instance final_dec c : Decision (final c).
Proof. destruct c; apply _. Defined.

(** The outcome a final configuration stands for. *)
Definition outcome_of (c : config) : option (outcome Z) :=
  match c with
  | Running _ _ => None
  | Done r s => Some (Ret r s)
  | Crashed f => Some (Fault f)
  end.

Section step.
Variable body : Z → exec Z.
Variable report : Z → exec unit.
Variable N : Z.

(** ** Transitions *)

Inductive step : config → config → Prop :=
  | step_exit i s :
      N ≤ i → step (Running i s) (Done 0 s)
  | step_next i s s1 :
      i < N → body i s = Ret 0 s1 →
      step (Running i s) (Running (int_add i 1) s1)
  | step_fail i s r s1 s2 :
      i < N → body i s = Ret r s1 → r ≠ 0 → report i s1 = Ret () s2 →
      step (Running i s) (Done r s2)
  | step_fault i s f :
      i < N → body i s = Fault f → step (Running i s) (Crashed f)
  | step_report_fault i s r s1 f :
      i < N → body i s = Ret r s1 → r ≠ 0 → report i s1 = Fault f →
      step (Running i s) (Crashed f).

(** One iteration, as a function. *)
Definition next (c : config) : option config :=
  match c with
  | Running i s =>
      if int_lt i N then
        match body i s with
        | Ret r s1 =>
            if int_ne r 0 then
              match report i s1 with
              | Ret _ s2 => Some (Done r s2)
              | Fault f => Some (Crashed f)
              end
            else Some (Running (int_add i 1) s1)
        | Fault f => Some (Crashed f)
        end
      else Some (Done 0 s)
  | _ => None
  end.

(** Iterate [next] at most [n] times. *)
Fixpoint run_steps (n : nat) (c : config) : config :=
  match n with
  | O => c
  | S n' => match next c with Some c' => run_steps n' c' | None => c end
  end.

(** [eventually P c]: every run from [c] reaches a configuration with
    [P]; until then it can always make a transition. *)
Inductive eventually (P : config → Prop) : config → Prop :=
  | eventually_now c : P c → eventually P c
  | eventually_later c :
      (∃ c', step c c') → (∀ c', step c c' → eventually P c') →
      eventually P c.

(** ** [step] and [next] *)

Lemma step_next_Some c c' : step c c' → next c = Some c'.
Proof.
  destruct 1 as [i s Hi|i s s1 Hi Hb|i s r s1 s2 Hi Hb Hr Hp|i s f Hi Hb
                 |i s r s1 f Hi Hb Hr Hp]; simpl; decide_tests; try done;
    rewrite Hb; decide_tests; try done; by rewrite Hp.
Qed.

Lemma next_Some_step c c' : next c = Some c' → step c c'.
Proof.
  destruct c as [i s| |]; simpl; [|done..].
  destruct (int_lt i N) eqn:Hi; reflect_int;
    [|intros [= <-]; by apply step_exit].
  destruct (body i s) as [r s1|f] eqn:Hb;
    [|intros [= <-]; by apply step_fault].
  destruct (int_ne r 0) eqn:Hr; reflect_int;
    [|subst r; intros [= <-]; by apply step_next].
  destruct (report i s1) as [[] s2|f] eqn:Hp; intros [= <-];
    eauto using step.
Qed.

Lemma step_iff_next c c' : step c c' ↔ next c = Some c'.
Proof. split; [apply step_next_Some | apply next_Some_step]. Qed.

(** ** Determinism and progress *)

Lemma step_deterministic c c1 c2 : step c c1 → step c c2 → c1 = c2.
Proof. rewrite !step_iff_next. congruence. Qed.

Lemma next_Running i s : is_Some (next (Running i s)).
Proof.
  simpl. destruct (int_lt i N); [|done].
  destruct (body i s) as [r s1|f]; [|done].
  destruct (int_ne r 0); [|done]. by destruct (report i s1) as [[] ?|?].
Qed.

Lemma next_final c : final c ↔ next c = None.
Proof.
  destruct c as [i s| |]; simpl; [|done..].
  pose proof (next_Running i s) as [c Hc]. simpl in Hc. rewrite Hc.
  naive_solver.
Qed.

Lemma final_stuck c c' : final c → ¬ step c c'.
Proof. rewrite next_final, step_iff_next. congruence. Qed.

(** A run from [c] that has reached a final configuration has reached the
    only one there is. *)
Lemma rtc_final_unique c c1 c2 :
  rtc step c c1 → rtc step c c2 → final c1 → final c2 → c1 = c2.
Proof.
  induction 1 as [c|c c' c1 Hs _ IH]; intros Hc2 Hf1 Hf2.
  - apply rtc_inv in Hc2 as [->|(c'' & Hs & _)]; [done|].
    by destruct (final_stuck _ _ Hf1 Hs).
  - apply rtc_inv in Hc2 as [->|(c'' & Hs' & Hc2)];
      [by destruct (final_stuck _ _ Hf2 Hs)|].
    rewrite (step_deterministic _ _ _ Hs Hs') in IH. by apply IH.
Qed.

Lemma run_steps_rtc n c : rtc step c (run_steps n c).
Proof.
  revert c. induction n as [|n IH]; intros c; simpl; [done|].
  destruct (next c) as [c'|] eqn:Hc; [|done].
  eapply rtc_l; [by apply step_iff_next|]. apply IH.
Qed.

Lemma run_steps_S n c c' :
  next c = Some c' → run_steps (S n) c = run_steps n c'.
Proof. simpl. by intros ->. Qed.

Lemma run_steps_final n c : final c → run_steps n c = c.
Proof. intros Hc%next_final. destruct n; simpl; [done|]. by rewrite Hc. Qed.

(** ** Eventually *)

(** The transitions being deterministic, one transition to a configuration
    from which [P] is reached is enough. *)
Lemma eventually_step P c c' : step c c' → eventually P c' → eventually P c.
Proof.
  intros Hs Hc'. apply eventually_later; [by exists c'|].
  intros c'' Hs'. by rewrite (step_deterministic _ _ _ Hs' Hs).
Qed.

Lemma eventually_weaken (P Q : config → Prop) c :
  (∀ c, P c → Q c) → eventually P c → eventually Q c.
Proof.
  intros HPQ. induction 1 as [c Hc|c Hex _ IH];
    [apply eventually_now; auto | by apply eventually_later].
Qed.

(** What is reached eventually is reached by a run. *)
Lemma eventually_rtc P c : eventually P c → ∃ c', rtc step c c' ∧ P c'.
Proof.
  induction 1 as [c Hc|c [c1 Hs] _ IH]; [by exists c|].
  destruct (IH c1 Hs) as (c' & Hrun & Hc'). exists c'.
  split; [by eapply rtc_l|done].
Qed.

(** A run does not lose what is reached eventually, unless it has passed
    it: [P] holds along the run or is still ahead. *)
Lemma eventually_rtc_final P c c' :
  eventually P c → rtc step c c' → final c' →
  ∃ c1, rtc step c c1 ∧ P c1 ∧ rtc step c1 c'.
Proof.
  intros Hev. revert c'.
  induction Hev as [c Hc|c Hex _ IH]; intros c' Hrun Hf; [by exists c|].
  apply rtc_inv in Hrun as [->|(c1 & Hs & Hrun)].
  - destruct Hex as [c2 Hs]. by destruct (final_stuck _ _ Hf Hs).
  - destruct (IH c1 Hs c' Hrun Hf) as (c2 & ? & ? & ?). exists c2.
    split; [by eapply rtc_l|done].
Qed.

End step.

Arguments step_exit {body report N}.
Arguments step_next {body report N}.
Arguments step_fail {body report N}.
Arguments step_fault {body report N}.
Arguments step_report_fault {body report N}.

(** ** Runs when [N] is an [int] *)

Section runs.
Variable body : Z → exec Z.
Variable report : Z → exec unit.
Variable N : Z.
Hypothesis N_int : in_int N.

#[local] Abbreviation lstep := (step body report N).
#[local] Abbreviation lnext := (next body report N).
#[local] Abbreviation lrun := (run_steps body report N).
#[local] Abbreviation lloop := (failfast_loop body report N).

(** *** The invariant of the loop *)

(** What holds of a configuration reached from the loop head with [i=0] in
    state [s0]: the counter is in range and the items before it returned 0;
    a status returned is 0 after all the items, or that of the first item
    that did not return 0; a fault is that of the first item that
    faulted. *)
Definition loop_inv (s0 : state) (c : config) : Prop :=
  match c with
  | Running i s => 0 ≤ i ≤ Z.max 0 N ∧ all_ok body (seqZ 0 i) s0 s
  | Done r s =>
      if decide (r = 0) then all_ok body (seqZ 0 N) s0 s
      else ∃ i s1 s2, 0 ≤ i < N ∧ all_ok body (seqZ 0 i) s0 s1 ∧
                      body i s1 = Ret r s2 ∧ report i s2 = Ret () s
  | Crashed f =>
      ∃ i s1, 0 ≤ i < N ∧ all_ok body (seqZ 0 i) s0 s1 ∧
        (body i s1 = Fault f ∨
         ∃ r s2, body i s1 = Ret r s2 ∧ r ≠ 0 ∧ report i s2 = Fault f)
  end.

Lemma loop_inv_init s0 : loop_inv s0 (Running 0 s0).
Proof. simpl. split; [lia|]. apply all_ok_nil. Qed.

(** One more successful item. *)
Lemma all_ok_snoc i s0 s s1 :
  0 ≤ i → all_ok body (seqZ 0 i) s0 s → body i s = Ret 0 s1 →
  all_ok body (seqZ 0 (i + 1)) s0 s1.
Proof.
  intros Hi Hok Hb. rewrite seqZ_app by lia. eapply all_ok_app; [done|].
  change (seqZ (0 + i) 1) with [0 + i]. rewrite Z.add_0_l.
  eapply all_ok_cons; [done|apply all_ok_nil].
Qed.

Lemma loop_inv_step s0 c c' : loop_inv s0 c → lstep c c' → loop_inv s0 c'.
Proof.
  destruct 2 as [i s Hi|i s s1 Hi Hb|i s r s1 s2 Hi Hb Hr Hp|i s f Hi Hb
                 |i s r s1 f Hi Hb Hr Hp]; simpl in *; destruct_and?.
  - destruct (decide (0 ≤ N)); [by replace N with i by lia|].
    by rewrite seqZ_nil by lia; replace i with 0 in * by lia.
  - rewrite (int_succ_exact i N) by (done || lia).
    split; [lia|]. by eapply all_ok_snoc.
  - rewrite decide_False by done. exists i, s, s1. repeat split; (done || lia).
  - exists i, s. repeat split; (lia || auto).
  - exists i, s. repeat split; (lia || eauto 10).
Qed.

Lemma reachable_loop_inv s0 c :
  rtc lstep (Running 0 s0) c → loop_inv s0 c.
Proof.
  revert c. apply (rtc_ind_r (loop_inv s0)); [apply loop_inv_init|].
  eauto using loop_inv_step.
Qed.

(** *** Termination *)

(** From the loop head with counter [i], [N - i + 1] transitions reach a
    final configuration. *)
Lemma run_steps_reaches_final n i s :
  0 ≤ i → (Z.to_nat (N - i) ≤ n)%nat → final (lrun (S n) (Running i s)).
Proof.
  revert i s. induction n as [|n IH]; intros i s Hi Hn.
  - simpl. rewrite (proj2 (int_lt_false i N)) by lia. done.
  - destruct (next_Running body report N i s) as [c Hc].
    rewrite (run_steps_S _ _ _ _ _ _ Hc).
    destruct (decide (final c)) as [Hf|Hf]; [by rewrite run_steps_final|].
    apply next_Some_step in Hc. inv Hc; try by destruct Hf.
    apply IH; rewrite (int_succ_exact i N) by (done || lia); lia.
Qed.

(** *** Liveness *)

(** From the loop head, whatever the counter, a [return] or a fault is
    reached. *)
Lemma running_eventually_final n i s :
  0 ≤ i → (Z.to_nat (N - i) ≤ n)%nat →
  eventually body report N final (Running i s).
Proof.
  revert i s. induction n as [|n IH]; intros i s Hi Hn;
    destruct (next_Running body report N i s) as [c Hc];
    apply next_Some_step in Hc;
    (eapply eventually_step; [exact Hc|]);
    (inv Hc; try by apply eventually_now); [lia|].
  apply IH; rewrite (int_succ_exact i N) by (done || lia); lia.
Qed.

(** From every configuration of a run, a [return] or a fault is reached. *)
Lemma reachable_eventually_final s0 c :
  rtc lstep (Running 0 s0) c → eventually body report N final c.
Proof.
  intros Hinv%reachable_loop_inv. destruct c as [i s| |];
    [|by apply eventually_now..].
  destruct Hinv as [Hi _].
  by apply (running_eventually_final (Z.to_nat N)); lia.
Qed.

(** *** Agreement with the recursive function *)

Lemma loop_run_steps fuel i s :
  0 ≤ i → (Z.to_nat (N - i) ≤ fuel)%nat →
  outcome_of (lrun (S fuel) (Running i s)) = Some (lloop fuel i s).
Proof.
  revert i s. induction fuel as [|fuel IH]; intros i s Hi Hfuel.
  - simpl. by rewrite (proj2 (int_lt_false i N)) by lia.
  - destruct (next_Running body report N i s) as [c Hc].
    rewrite (run_steps_S _ _ _ _ _ _ Hc). revert Hc.
    cbn [BatchStep.next failfast_loop].
    destruct (int_lt i N) eqn:HiN; reflect_int;
      [|intros [= <-]; by rewrite run_steps_final].
    unfold bind at 1. destruct (body i s) as [r s1|f];
      [|intros [= <-]; by rewrite run_steps_final].
    destruct (int_ne r 0) eqn:Hr; reflect_int.
    + unfold bind, ret.
      destruct (report i s1) as [[] s2|f]; intros [= <-];
        by rewrite run_steps_final.
    + intros [= <-]. apply IH; rewrite (int_succ_exact i N) by (done || lia);
        lia.
Qed.

Lemma loop_steps fuel i s o :
  0 ≤ i → (Z.to_nat (N - i) ≤ fuel)%nat →
  lloop fuel i s = o ↔
  ∃ c, rtc lstep (Running i s) c ∧ outcome_of c = Some o.
Proof.
  intros Hi Hfuel. pose proof (loop_run_steps fuel i s Hi Hfuel) as Hrun.
  split.
  - intros <-. eexists. split; [apply run_steps_rtc|done].
  - intros (c & Hc & Ho).
    rewrite <- (rtc_final_unique body report N (Running i s) c
      (lrun (S fuel) (Running i s))) in Hrun;
      [congruence|done|apply run_steps_rtc|by destruct c|].
    by apply run_steps_reaches_final.
Qed.

End runs.

(** * The loops of [batch_pt] and [batch_rhou] *)

Section batches.
Context `{!Solver}.
Variables (N : Z) (p T X0 : ptr) (nsp nel : Z) (lewis M a X1 T' : ptr).
Variable verbose : Z.

(** The transitions of the loop of [batch_pt]. *)
Definition batch_pt_step : relation config :=
  step (batch_pt_body p T X0 nsp nel lewis M a X1 verbose) batch_pt_report N.

(** The transitions of the loop of [batch_rhou] ([p], [T] are the arrays
    [rho], [u], and [T'] the temperatures). *)
Definition batch_rhou_step : relation config :=
  step (batch_rhou_body p T X0 nsp nel lewis M a X1 T' verbose)
       batch_rhou_report N.

(** The loop of [batch_pt] is deterministic: a configuration has at
    most one successor. *)
Theorem batch_pt_step_deterministic c c1 c2 :
  batch_pt_step c c1 → batch_pt_step c c2 → c1 = c2.
Proof. apply step_deterministic. Qed.

(** The loop of [batch_pt] never gets stuck: at the loop head there is
    always a transition, and after a [return] or a fault there is none. *)
Theorem batch_pt_step_progress c : final c ↔ ¬ ∃ c', batch_pt_step c c'.
Proof.
  unfold batch_pt_step. split.
  - intros Hf [c' Hs]. by eapply final_stuck.
  - intros Hn. destruct c as [i s| |]; [|done..]. destruct Hn.
    destruct (next_Running (batch_pt_body p T X0 nsp nel lewis M a X1 verbose)
                batch_pt_report N i s) as [c' Hc].
    exists c'. by apply next_Some_step.
Qed.

Hypothesis N_int : in_int N.

(** C34: for [N] an [int], [batch_pt] returns [r] in state [s'] (or
    faults) exactly when the transitions of its loop lead from the loop
    head with [i=0] to the configuration [Done r s'] (or [Crashed f]). *)
Theorem batch_pt_small_step s o :
  batch_pt N p T X0 nsp nel lewis M a X1 verbose s = o ↔
  ∃ c, rtc batch_pt_step (Running 0 s) c ∧ outcome_of c = Some o.
Proof.
  unfold batch_pt. rewrite batch_pt_loop_failfast.
  apply loop_steps; [done|lia|lia].
Qed.

(** The same for [batch_rhou]. *)
Theorem batch_rhou_small_step s o :
  batch_rhou N p T X0 nsp nel lewis M a X1 T' verbose s = o ↔
  ∃ c, rtc batch_rhou_step (Running 0 s) c ∧ outcome_of c = Some o.
Proof.
  unfold batch_rhou. rewrite batch_rhou_loop_failfast.
  apply loop_steps; [done|lia|lia].
Qed.

(** C35: invariant of the loop of [batch_pt]: for [N] an [int], in every
    configuration reached from the loop head with [i=0], the counter is
    between 0 and [N] and the iterations before it all returned 0; a
    returned status is 0 after all [N] iterations or the status of the
    first iteration that did not return 0; a fault is the fault of the
    first iteration that faulted. *)
Theorem batch_pt_loop_invariant s0 c :
  rtc batch_pt_step (Running 0 s0) c →
  loop_inv (batch_pt_body p T X0 nsp nel lewis M a X1 verbose)
           batch_pt_report N s0 c.
Proof. by apply reachable_loop_inv. Qed.

(** C37: the loop of [batch_pt] ends within [N+1] transitions: for [N] an
    [int], from the loop head with [i=0] in any state, the configuration
    after at most [Z.to_nat N + 1] transitions (one per item, and the
    last test of the guard) is a [return] or a fault, whatever the solver
    returns. *)
Theorem batch_pt_steps_bound s :
  ∃ c, final c ∧ rtc batch_pt_step (Running 0 s) c ∧
       c = run_steps (batch_pt_body p T X0 nsp nel lewis M a X1 verbose)
             batch_pt_report N (S (Z.to_nat N)) (Running 0 s).
Proof.
  eexists. split; [|split; [|done]]; [|apply run_steps_rtc].
  apply run_steps_reaches_final; [done|lia|lia].
Qed.

(** C36: liveness of the loop of [batch_pt]: for [N] an [int], from every
    configuration that a run from the loop head with [i=0] reaches, every
    continuation of the run arrives at a [return] or at a fault, and
    before that it is never stuck.  No solver status and no state keeps
    the loop running for ever. *)
Theorem batch_pt_eventually_final s0 c :
  rtc batch_pt_step (Running 0 s0) c →
  eventually (batch_pt_body p T X0 nsp nel lewis M a X1 verbose)
             batch_pt_report N final c.
Proof. by apply reachable_eventually_final. Qed.

(** The same for the loop of [batch_rhou]. *)
Theorem batch_rhou_eventually_final s0 c :
  rtc batch_rhou_step (Running 0 s0) c →
  eventually (batch_rhou_body p T X0 nsp nel lewis M a X1 T' verbose)
             batch_rhou_report N final c.
Proof. by apply reachable_eventually_final. Qed.

End batches.
