(* ===== verification/CSyntax.v ===== *)
(** * CSyntax: the fragment of C in which [src/ceq.c] is written

    The functions of [src/ceq.c] use three types ([int], [double],
    [double*]), integer literals, variables, the operators [+], [*], [<]
    and [!=], indexing [p[i]], calls of the two solvers, assignments,
    [i++], [printf], [if] without [else], [for] and [return].  This file is
    the abstract syntax of that fragment; [CSem] gives it a meaning, [CeqAst]
    writes the five functions of the source in it, and [CeqDeep] proves
    that the definitions of [Ceq] are what these syntax trees mean. *)

From Stdlib Require Import String.
From stdpp Require Import base strings list.
From S2P Require Import Prelude CInt Memory.

(** ** Types and values *)

Inductive ctype :=
  | Tint       (* int *)
  | Tdouble    (* double *)
  | Tptr.      (* double* *)

#[export] Instance ctype_eq_dec : EqDecision ctype.
Proof. solve_decision. Defined.

Inductive value :=
  | Vint (z : Z)
  | Vdouble (d : double)
  | Vptr (p : ptr).

Definition type_of (v : value) : ctype :=
  match v with
  | Vint _ => Tint
  | Vdouble _ => Tdouble
  | Vptr _ => Tptr
  end.

(** ** Expressions *)

Inductive binop :=
  | Oadd    (* + *)
  | Omul    (* * *)
  | Olt     (* < *)
  | One.    (* != *)

#[export] Instance binop_eq_dec : EqDecision binop.
Proof. solve_decision. Defined.

#[local] Set Warnings "-register-all".

Inductive expr :=
  | Econst (z : Z)                          (* an integer literal *)
  | Evar (x : string)                       (* a parameter or a local *)
  | Ebinop (op : binop) (e1 e2 : expr)      (* e1 op e2 *)
  | Eindex (e1 e2 : expr)                   (* e1[e2] *)
  | Ecall (f : string) (args : list expr).  (* f(args) *)

(** ** Statements *)

Inductive stmt :=
  | Sskip
  | Sassign (x : string) (e : expr)               (* x = e; *)
  | Sincr (x : string)                            (* x++ *)
  | Sprintf (fmt : string) (args : list expr)     (* printf(fmt, args); *)
  | Sseq (s1 s2 : stmt)                           (* s1 s2 *)
  | Sif (e : expr) (s : stmt)                     (* if (e){ s } *)
  | Sfor (init : stmt) (cond : expr) (step body : stmt)
                                    (* for (init; cond; step){ body } *)
  | Sreturn (e : expr).                           (* return e; *)

(** ** Functions *)

Record function := Function {
  fn_name : string;
  fn_return : ctype;
  fn_params : list (string * ctype);
  fn_locals : list (string * ctype);
  fn_body : stmt
}.

(** ** Notations

    The syntax trees of [CeqAst] are written with the operators of C. *)

Declare Scope c_scope.
Delimit Scope c_scope with C.
Bind Scope c_scope with expr.
Bind Scope c_scope with stmt.

Coercion Evar : string >-> expr.
Coercion Econst : Z >-> expr.

Notation "e1 + e2" := (Ebinop Oadd e1%C e2%C) : c_scope.
Notation "e1 * e2" := (Ebinop Omul e1%C e2%C) : c_scope.
Notation "e1 < e2" := (Ebinop Olt e1%C e2%C) : c_scope.
Notation "e1 != e2" := (Ebinop One e1%C e2%C) (at level 70) : c_scope.
Notation "e1 .[ e2 ]" := (Eindex e1%C e2%C)
  (at level 1, left associativity, format "e1 .[ e2 ]") : c_scope.
Notation "f @( x , .. , y )" :=
  (Ecall f (@cons expr x%C .. (@cons expr y%C (@nil expr)) ..))
  (at level 1, format "f @( x ,  .. ,  y )") : c_scope.
Notation "x ::= e" := (Sassign x e%C) (at level 80) : c_scope.
Notation "s1 ;; s2" := (Sseq s1%C s2%C)
  (at level 100, s2 at level 200, right associativity) : c_scope.

(** ** Induction on expressions

    The arguments of a call are expressions: the induction hypothesis must
    hold for each of them. *)

Section expr_ind.
Variable P : expr → Prop.
Hypothesis const_case : ∀ z, P (Econst z).
Hypothesis var_case : ∀ x, P (Evar x).
Hypothesis binop_case : ∀ op e1 e2, P e1 → P e2 → P (Ebinop op e1 e2).
Hypothesis index_case : ∀ e1 e2, P e1 → P e2 → P (Eindex e1 e2).
Hypothesis call_case : ∀ f args, Forall P args → P (Ecall f args).

Fixpoint expr_args_ind (e : expr) : P e :=
  match e with
  | Econst z => const_case z
  | Evar x => var_case x
  | Ebinop op e1 e2 =>
      binop_case op e1 e2 (expr_args_ind e1) (expr_args_ind e2)
  | Eindex e1 e2 => index_case e1 e2 (expr_args_ind e1) (expr_args_ind e2)
  | Ecall f args =>
      call_case f args
        ((fix all (l : list expr) : Forall P l :=
            match l with
            | [] => Forall_nil_2 P
            | a :: l' => Forall_cons_2 P a l' (expr_args_ind a) (all l')
            end) args)
  end.

End expr_ind.
