(* ===== verification/CSem.v ===== *)
(** * CSem: the meaning of the C fragment

    An interpreter of the syntax of [CSyntax] in the monad [exec] of
    [Exec]: expressions evaluate to values, statements transform the
    environment of the parameters and locals and may return, and the calls
    of [solve_pt] and [solve_rhou] go to the solver of the class [Solver].

    [p[i]] and [p + i] are the [read] and the [ptr_add] of [Memory] and
    [Exec].  Arithmetic on [int] has two readings ([overflow]): in the
    first a result outside the range of [int] wraps around as in [CInt],
    which is what the usual targets do and what [Ceq] models; in the second
    it is the error [Overflow], which is what ISO C says (the behaviour is
    undefined).  What a C compiler rejects or the C standard leaves
    undefined in a way that [Exec] does not model is an error of its own
    ([cerror]), apart from the faults of [Exec]: a variable that is not
    declared or is read before it is assigned, an operator applied to
    operands of the wrong type, a function that is not known, a function
    that ends without [return], a [printf] whose arguments are not one per
    [%d] of its format, a signed overflow in the second reading.

    The environment of a call holds the parameters and the locals in the
    order of their declarations; a local has no value until it is
    assigned.

    A [for] loop runs at most [fuel] iterations and then faults with
    [OutOfFuel], as the loops of [Ceq] do. *)

From Corelib Require Import PrimFloat.
From Stdlib Require Import Ascii.
From stdpp Require Import gmap.
From S2P Require Import Prelude CInt Memory Exec Solver CSyntax.

(** ** Errors *)

Inductive cerror :=
  | Unbound (x : string)           (* read before assigned *)
  | Undeclared (x : string)        (* assigned, and not declared *)
  | IllTyped                       (* operands or arguments of a wrong type *)
  | UnknownFunction (f : string)
  | NoReturn                       (* the body ended without [return] *)
  | BadFormat                      (* [printf] without an argument per [%d] *)
  | Overflow.                      (* signed overflow, where it is undefined *)

#[export] Instance cerror_eq_dec : EqDecision cerror.
Proof. solve_decision. Defined.

(** Computations that may end in an error. *)
Definition cexec (A : Type) : Type := exec (cerror + A).

Definition cret {A} (a : A) : cexec A := ret (inr a).

Definition cfail {A} (e : cerror) : cexec A := ret (inl e).

Definition cbind {A B} (c : cexec A) (k : A → cexec B) : cexec B :=
  let* r := c in
  match r with
  | inl e => ret (inl e)
  | inr a => k a
  end.

(** A computation of [Exec] has no error. *)
Definition of_exec {A} (c : exec A) : cexec A :=
  let* a := c in ret (inr a).

(** An error or a value that is already known. *)
Definition of_sum {A} (r : cerror + A) : cexec A := ret r.

Notation "'let+' x := c 'in' k" := (cbind c (λ x, k))
  (at level 10, x binder, c at level 100, k at level 200,
   format "'[v' 'let+'  x  :=  c  'in' '/' k ']'") : ceq_scope.

(** ** Environments *)

(** The parameters and the locals of a call, in the order of their
    declarations: each with its declared type, and with its value once it
    has been assigned. *)
Abbreviation env := (list (string * (ctype * option value))) (only parsing).

(** The rvalue [x]. *)
Fixpoint lookup_var (ρ : env) (x : string) : cerror + value :=
  match ρ with
  | [] => inl (Undeclared x)
  | (y, (t, ov)) :: ρ' =>
      if decide (y = x) then
        match ov with
        | Some v => inr v
        | None => inl (Unbound x)
        end
      else lookup_var ρ' x
  end.

(** [x = v;]: [x] must be declared with the type of [v]. *)
Fixpoint assign (ρ : env) (x : string) (v : value) : cerror + env :=
  match ρ with
  | [] => inl (Undeclared x)
  | (y, (t, ov)) :: ρ' =>
      if decide (y = x) then
        if decide (type_of v = t) then inr ((y, (t, Some v)) :: ρ')
        else inl IllTyped
      else
        match assign ρ' x v with
        | inr ρ'' => inr ((y, (t, ov)) :: ρ'')
        | inl e => inl e
        end
  end.

(** The parameters bound to the arguments of a call, which must have the
    declared types. *)
Fixpoint bind_params (params : list (string * ctype)) (vs : list value)
  : option env :=
  match params, vs with
  | [], [] => Some []
  | (x, t) :: params', v :: vs' =>
      if decide (type_of v = t)
      then cons (x, (t, Some v)) <$> bind_params params' vs'
      else None
  | _, _ => None
  end.

(** The locals at the start of a call: declared, without a value. *)
Definition declare (locals : list (string * ctype)) : env :=
  (λ d, (d.1, (d.2, None))) <$> locals.

(** ** Operators *)

Definition of_bool (b : bool) : value := Vint (if b then 1 else 0).

(** What an arithmetic operation on [int]s does when the mathematical
    result is not an [int]. *)
Inductive overflow :=
  | Wraps                          (* two's complement, as in [CInt] *)
  | Undefined.                     (* ISO C: the program has no meaning *)

#[export] Instance overflow_eq_dec : EqDecision overflow.
Proof. solve_decision. Defined.

Definition fits (z : Z) : bool := bool_decide (in_int z).

(** The value of an operation with the mathematical result [exact], which
    [CInt] computes as [wrapped]. *)
Definition arith (m : overflow) (exact wrapped : Z) : cerror + value :=
  match m with
  | Wraps => inr (Vint wrapped)
  | Undefined => if fits exact then inr (Vint exact) else inl Overflow
  end.

Definition eval_binop (m : overflow) (op : binop) (v1 v2 : value)
  : cerror + value :=
  match op, v1, v2 with
  | Oadd, Vint a, Vint b => arith m (a + b) (int_add a b)
  | Oadd, Vptr p, Vint i => inr (Vptr (ptr_add p i))
  | Omul, Vint a, Vint b => arith m (a * b) (int_mul a b)
  | Olt, Vint a, Vint b => inr (of_bool (int_lt a b))
  | One, Vint a, Vint b => inr (of_bool (int_ne a b))
  | _, _, _ => inl IllTyped
  end.

(** The integers of a list of values, for [printf] with [%d]. *)
Definition ints (vs : list value) : option (list Z) :=
  mapM (λ v, if v is Vint z then Some z else None) vs.

(** The number of [%d] directives of a format: the number of arguments
    that [printf] expects after it. *)
Fixpoint conversions (fmt : string) : nat :=
  match fmt with
  | EmptyString => 0%nat
  | String "%"%char (String "d"%char rest) => S (conversions rest)
  | String _ rest => conversions rest
  end.

(** ** The solvers *)

Section semantics.
Context `{!Solver}.
Variable mode : overflow.

(** The functions declared in [pt.h] and [rhou.h], with the types of their
    parameters. *)
Definition call_extern (f : string) (vs : list value) : cexec value :=
  if decide (f = "solve_pt") then
    match vs with
    | [Vdouble p; Vdouble T; Vptr X0; Vint nsp; Vint nel; Vptr lewis;
       Vptr M; Vptr a; Vptr X1; Vint verbose] =>
        let* r := solve_pt p T X0 nsp nel lewis M a X1 verbose in
        cret (Vint r)
    | _ => cfail IllTyped
    end
  else if decide (f = "solve_rhou") then
    match vs with
    | [Vdouble rho; Vdouble u; Vptr X0; Vint nsp; Vint nel; Vptr lewis;
       Vptr M; Vptr a; Vptr X1; Vptr T; Vint verbose] =>
        let* r := solve_rhou rho u X0 nsp nel lewis M a X1 T verbose in
        cret (Vint r)
    | _ => cfail IllTyped
    end
  else cfail (UnknownFunction f).

(** ** Expressions *)

Fixpoint eval_expr (e : expr) (ρ : env) : cexec value :=
  match e with
  | Econst z => cret (Vint z)
  | Evar x => of_sum (lookup_var ρ x)
  | Ebinop op e1 e2 =>
      let+ v1 := eval_expr e1 ρ in
      let+ v2 := eval_expr e2 ρ in
      of_sum (eval_binop mode op v1 v2)
  | Eindex e1 e2 =>
      let+ v1 := eval_expr e1 ρ in
      let+ v2 := eval_expr e2 ρ in
      match v1, v2 with
      | Vptr p, Vint i => let* d := read (ptr_add p i) in cret (Vdouble d)
      | _, _ => cfail IllTyped
      end
  | Ecall f args =>
      let+ vs :=
        (fix eval_args (l : list expr) : cexec (list value) :=
           match l with
           | [] => cret []
           | a :: l' =>
               let+ v := eval_expr a ρ in
               let+ vs := eval_args l' in
               cret (v :: vs)
           end) args in
      call_extern f vs
  end.

(** The arguments of a call, from left to right. *)
Fixpoint eval_exprs (l : list expr) (ρ : env) : cexec (list value) :=
  match l with
  | [] => cret []
  | a :: l' =>
      let+ v := eval_expr a ρ in
      let+ vs := eval_exprs l' ρ in
      cret (v :: vs)
  end.

(** ** Statements *)

(** What a statement leaves: the environment, and the value returned when
    it executed a [return]. *)
Abbreviation result := (env * option value)%type (only parsing).

(** [for (...; cond; step){ body }] after its initialisation: the
    condition, then at most [n] times the body, the step and the condition
    again. *)
Fixpoint run_loop (cond : env → cexec value)
    (step body : env → cexec result) (n : nat) (ρ : env) : cexec result :=
  let+ v := cond ρ in
  match v with
  | Vint z =>
      if decide (z = 0) then cret (ρ, None)
      else
        match n with
        | O => fail OutOfFuel
        | S n' =>
            let+ r := body ρ in
            match r.2 with
            | Some _ => cret r
            | None => let+ r' := step r.1 in run_loop cond step body n' r'.1
            end
        end
  | _ => cfail IllTyped
  end.

Section statements.
Variable fuel : nat.

Fixpoint exec_stmt (s : stmt) (ρ : env) : cexec result :=
  match s with
  | Sskip => cret (ρ, None)
  | Sassign x e =>
      let+ v := eval_expr e ρ in
      let+ ρ' := of_sum (assign ρ x v) in
      cret (ρ', None)
  | Sincr x =>
      let+ v := eval_expr (Ebinop Oadd (Evar x) (Econst 1)) ρ in
      let+ ρ' := of_sum (assign ρ x v) in
      cret (ρ', None)
  | Sprintf fmt args =>
      let+ vs := eval_exprs args ρ in
      match ints vs with
      | Some zs =>
          if decide (length zs = conversions fmt)
          then printf fmt zs;; cret (ρ, None)
          else cfail BadFormat
      | None => cfail IllTyped
      end
  | Sseq s1 s2 =>
      let+ r := exec_stmt s1 ρ in
      match r.2 with
      | Some _ => cret r
      | None => exec_stmt s2 r.1
      end
  | Sif e s1 =>
      let+ v := eval_expr e ρ in
      match v with
      | Vint z => if decide (z = 0) then cret (ρ, None) else exec_stmt s1 ρ
      | _ => cfail IllTyped
      end
  | Sfor init cond step body =>
      let+ r := exec_stmt init ρ in
      run_loop (eval_expr cond) (exec_stmt step) (exec_stmt body) fuel r.1
  | Sreturn e =>
      let+ v := eval_expr e ρ in
      cret (ρ, Some v)
  end.

End statements.

(** ** Calls *)

(** The end of a call: the body must have returned a value of the return
    type. *)
Definition return_value (fn : function) (r : result) : cexec value :=
  match r.2 with
  | Some v =>
      if decide (type_of v = fn_return fn) then cret v else cfail IllTyped
  | None => cfail NoReturn
  end.

(** A call of [fn] with the arguments [vs]: the body is run from the
    environment of the parameters and the locals. *)
Definition run_function (fuel : nat) (fn : function) (vs : list value)
  : cexec value :=
  match bind_params (fn_params fn) vs with
  | None => cfail IllTyped
  | Some ρ =>
      let+ r := exec_stmt fuel (fn_body fn) (ρ ++ declare (fn_locals fn)) in
      return_value fn r
  end.

(** What follows a statement [s1] in [s1 s2] at the end of a body. *)
Definition finish (fuel : nat) (fn : function) (s2 : stmt) (r : result)
  : cexec value :=
  let+ r' := match r.2 with
             | Some _ => cret r
             | None => exec_stmt fuel s2 r.1
             end in
  return_value fn r'.

(** An [int] returned by a computation of [Exec], as the value of a
    call. *)
Definition returns_int (c : exec Z) : cexec value :=
  let* r := c in cret (Vint r).

Lemma returns_int_bind {A} (c : exec A) (k : A → exec Z) s :
  returns_int (let* x := c in k x) s
  = match c s with
    | Ret x s' => returns_int (k x) s'
    | Fault f => Fault f
    end.
Proof. unfold returns_int, bind. by destruct (c s). Qed.

(** ** Arithmetic in the two readings *)

Lemma fits_true z : in_int z → fits z = true.
Proof. apply bool_decide_eq_true_2. Qed.

Lemma fits_false z : ¬ in_int z → fits z = false.
Proof. apply bool_decide_eq_false_2. Qed.

(** Where the result is an [int] the two readings give it. *)
Lemma arith_fits m z : in_int z → arith m z z = inr (Vint z).
Proof. intros Hz. destruct m; simpl; [done|by rewrite fits_true]. Qed.

(** Where it is not, the second reading is the error. *)
Lemma arith_overflow z w : ¬ in_int z → arith Undefined z w = inl Overflow.
Proof. intros Hz. simpl. by rewrite fits_false. Qed.

(** * Running a computation whose first part is known *)

Section cbind.
Context {A B : Type}.
Implicit Types (c : cexec A) (k : A → cexec B).

Lemma cbind_ret c k s a s' :
  c s = Ret (inr a) s' → cbind c k s = k a s'.
Proof. unfold cbind, bind. by intros ->. Qed.

Lemma cbind_error c k s e s' :
  c s = Ret (inl e) s' → cbind c k s = Ret (inl e) s'.
Proof. unfold cbind, bind. by intros ->. Qed.

Lemma cbind_fault c k s f :
  c s = Fault f → cbind c k s = Fault f.
Proof. unfold cbind, bind. by intros ->. Qed.

End cbind.

(** The arguments of a call are evaluated from left to right. *)
Lemma eval_call f args ρ :
  eval_expr (Ecall f args) ρ
  = let+ vs := eval_exprs args ρ in call_extern f vs.
Proof. simpl. f_equal. by induction args as [|e args ->]. Qed.

Lemma cbind_assoc {A B C} (c : cexec A) (f : A → cexec B)
    (g : B → cexec C) s :
  cbind (cbind c f) g s = cbind c (λ a, cbind (f a) g) s.
Proof. unfold cbind, bind. by destruct (c s) as [[]|]. Qed.

(** A call of a function whose body is a loop followed by a statement. *)
Lemma run_function_for fuel fn vs init cond step body rest ρ ρ1 s s1 :
  fn_body fn = Sseq (Sfor init cond step body) rest →
  bind_params (fn_params fn) vs = Some ρ →
  exec_stmt fuel init (ρ ++ declare (fn_locals fn)) s
  = Ret (inr (ρ1, None)) s1 →
  run_function fuel fn vs s
  = cbind (run_loop (eval_expr cond) (exec_stmt fuel step)
             (exec_stmt fuel body) fuel ρ1)
          (finish fuel fn rest) s1.
Proof.
  intros Hbody Hparams Hinit. unfold run_function.
  rewrite Hbody, Hparams. cbn [exec_stmt].
  by rewrite !cbind_assoc, (cbind_ret _ _ _ _ _ Hinit).
Qed.

(** ** One turn of a loop *)

Section loop.
Variables (cond : env → cexec value) (step body : env → cexec result).
Implicit Types (ρ : env) (n : nat) (z : Z).

(** The condition is 0: the loop ends. *)
Lemma run_loop_exit n ρ s s1 :
  cond ρ s = Ret (inr (Vint 0)) s1 →
  run_loop cond step body n ρ s = Ret (inr (ρ, None)) s1.
Proof. intros Hc. destruct n; simpl; by rewrite (cbind_ret _ _ _ _ _ Hc). Qed.

(** The condition holds and no iteration is left. *)
Lemma run_loop_fuel ρ s s1 z :
  cond ρ s = Ret (inr (Vint z)) s1 → z ≠ 0 →
  run_loop cond step body 0 ρ s = Fault OutOfFuel.
Proof.
  intros Hc Hz. simpl. by rewrite (cbind_ret _ _ _ _ _ Hc), decide_False.
Qed.

(** The body faults. *)
Lemma run_loop_fault n ρ s s1 z f :
  cond ρ s = Ret (inr (Vint z)) s1 → z ≠ 0 →
  body ρ s1 = Fault f →
  run_loop cond step body (S n) ρ s = Fault f.
Proof.
  intros Hc Hz Hb. simpl.
  by rewrite (cbind_ret _ _ _ _ _ Hc), decide_False, (cbind_fault _ _ _ _ Hb).
Qed.

(** The body executes a [return]. *)
Lemma run_loop_return n ρ s s1 z ρ1 v s2 :
  cond ρ s = Ret (inr (Vint z)) s1 → z ≠ 0 →
  body ρ s1 = Ret (inr (ρ1, Some v)) s2 →
  run_loop cond step body (S n) ρ s = Ret (inr (ρ1, Some v)) s2.
Proof.
  intros Hc Hz Hb. simpl.
  by rewrite (cbind_ret _ _ _ _ _ Hc), decide_False, (cbind_ret _ _ _ _ _ Hb).
Qed.

(** The body ends, and the step is executed: the loop goes on. *)
Lemma run_loop_next n ρ s s1 z ρ1 s2 ρ2 o s3 :
  cond ρ s = Ret (inr (Vint z)) s1 → z ≠ 0 →
  body ρ s1 = Ret (inr (ρ1, None)) s2 →
  step ρ1 s2 = Ret (inr (ρ2, o)) s3 →
  run_loop cond step body (S n) ρ s = run_loop cond step body n ρ2 s3.
Proof.
  intros Hc Hz Hb Hs. simpl.
  rewrite (cbind_ret _ _ _ _ _ Hc), decide_False, (cbind_ret _ _ _ _ _ Hb)
    by done.
  simpl. by rewrite (cbind_ret _ _ _ _ _ Hs).
Qed.

End loop.

End semantics.
