(* ===== verification/CRelate.v ===== *)
(** * CRelate: two runs of a function of the C fragment, side by side

    The interpreter of [CSem] has two parameters that are a matter of the
    model: the reading of signed overflow and the bound on the iterations
    of a loop.  Changing either changes a run only by letting it stop
    where the other goes on (with the error [Overflow], with the fault
    [OutOfFuel]).  This file holds what the two comparisons share: the
    relation [unless] between a run that may stop in an excused way and
    the run it otherwise equals, and the proof that it goes through
    expressions, statements and calls once it holds of the operators and
    of the loops.  [COverflow] and [CFuel] instantiate it. *)

From stdpp Require Import gmap.
From S2P Require Import Prelude CInt Memory Exec Solver CSyntax CSem.

(** ** Outcomes *)

(** How a run stopped, when it did not end with a result. *)
Definition ending {A} (o : outcome (cerror + A)) : option (cerror + fault) :=
  match o with
  | Ret (inl e) _ => Some (inl e)
  | Ret (inr _) _ => None
  | Fault f => Some (inr f)
  end.

Section unless.
Variable excused : cerror + fault → bool.

(** The run stopped in an excused way. *)
Definition stops {A} (o : outcome (cerror + A)) : bool :=
  match ending o with
  | Some x => excused x
  | None => false
  end.

(** [o1] stopped in an excused way, or is [o2]. *)
Definition unless {A} (o1 o2 : outcome (cerror + A)) : Prop :=
  stops o1 = false → o1 = o2.

Lemma unless_refl {A} (o : outcome (cerror + A)) : unless o o.
Proof. by intros _. Qed.

Lemma unless_stops {A} (o1 o2 : outcome (cerror + A)) :
  stops o1 = true → unless o1 o2.
Proof. unfold unless. by intros ->. Qed.

Lemma cbind_unless {A B} (c1 c2 : cexec A) (k1 k2 : A → cexec B) s :
  unless (c1 s) (c2 s) →
  (∀ a s', unless (k1 a s') (k2 a s')) →
  unless (cbind c1 k1 s) (cbind c2 k2 s).
Proof.
  unfold unless, cbind, bind. intros Hc Hk.
  destruct (c1 s) as [[e|a] s1|f]; intros Ho;
    rewrite <- Hc by done; by auto.
Qed.

(** The same continuation after both. *)
Lemma cbind_unless_l {A B} (c1 c2 : cexec A) (k : A → cexec B) s :
  unless (c1 s) (c2 s) → unless (cbind c1 k s) (cbind c2 k s).
Proof. intros. apply cbind_unless; [done|]. intros. apply unless_refl. Qed.

(** The same computation before both. *)
Lemma cbind_unless_r {A B} (c : cexec A) (k1 k2 : A → cexec B) s :
  (∀ a s', unless (k1 a s') (k2 a s')) →
  unless (cbind c k1 s) (cbind c k2 s).
Proof. apply cbind_unless, unless_refl. Qed.

(** ** Loops with the same bound *)

Lemma run_loop_unless cond1 cond2 step1 step2 body1 body2 n :
  (∀ ρ s, unless (cond1 ρ s) (cond2 ρ s)) →
  (∀ ρ s, unless (step1 ρ s) (step2 ρ s)) →
  (∀ ρ s, unless (body1 ρ s) (body2 ρ s)) →
  ∀ ρ s, unless (run_loop cond1 step1 body1 n ρ s)
                (run_loop cond2 step2 body2 n ρ s).
Proof.
  intros Hcond Hstep Hbody.
  induction n as [|n IH]; intros ρ s; simpl;
    (apply cbind_unless; [done|]); intros [z| |] s1;
    try apply unless_refl; case_decide; try apply unless_refl.
  apply cbind_unless; [done|]. intros [ρ1 [v|]] s2; [apply unless_refl|].
  simpl. apply cbind_unless; [done|]. intros r s3. apply IH.
Qed.

(** ** Two interpreters *)

Section interpreters.
Context `{!Solver}.
Variables (m1 m2 : overflow) (fuel1 fuel2 : nat).

(** The operators and the loops of the first are, unless it stops, those
    of the second. *)
Hypothesis binop_unless : ∀ op v1 v2 s,
  unless (of_sum (eval_binop m1 op v1 v2) s)
         (of_sum (eval_binop m2 op v1 v2) s).

Hypothesis loop_unless : ∀ cond1 cond2 step1 step2 body1 body2,
  (∀ ρ s, unless (cond1 ρ s) (cond2 ρ s)) →
  (∀ ρ s, unless (step1 ρ s) (step2 ρ s)) →
  (∀ ρ s, unless (body1 ρ s) (body2 ρ s)) →
  ∀ ρ s, unless (run_loop cond1 step1 body1 fuel1 ρ s)
                (run_loop cond2 step2 body2 fuel2 ρ s).

Lemma eval_expr_unless e : ∀ ρ s,
  unless (eval_expr m1 e ρ s) (eval_expr m2 e ρ s).
Proof.
  induction e as [z|x|op e1 e2 IH1 IH2|e1 e2 IH1 IH2|f args IH]
    using expr_args_ind; intros ρ s; try apply unless_refl.
  - simpl. apply cbind_unless; [done|]. intros v1 s1.
    apply cbind_unless; [done|]. intros v2 s2. apply binop_unless.
  - simpl. apply cbind_unless; [done|]. intros v1 s1.
    by apply cbind_unless_l.
  - rewrite !eval_call. apply cbind_unless_l. revert s.
    induction IH as [|a args Ha _ IHargs]; intros s; [apply unless_refl|].
    simpl. apply cbind_unless; [done|]. intros v s1.
    by apply cbind_unless_l.
Qed.

Lemma eval_exprs_unless l : ∀ ρ s,
  unless (eval_exprs m1 l ρ s) (eval_exprs m2 l ρ s).
Proof.
  induction l as [|a l IH]; intros ρ s; [apply unless_refl|]. simpl.
  apply cbind_unless; [apply eval_expr_unless|]. intros v s1.
  by apply cbind_unless_l.
Qed.

Lemma exec_stmt_unless st : ∀ ρ s,
  unless (exec_stmt m1 fuel1 st ρ s) (exec_stmt m2 fuel2 st ρ s).
Proof.
  induction st as [|x e|x|fmt args|s1 IH1 s2 IH2|e s1 IH1
                  |init IHi cond step IHs body IHb|e];
    intros ρ s; cbn [exec_stmt]; try apply unless_refl;
    try (by apply cbind_unless_l, eval_expr_unless).
  - by apply cbind_unless_l, eval_exprs_unless.
  - apply cbind_unless; [done|]. intros [ρ1 [v|]] s1'; [apply unless_refl|].
    apply IH2.
  - apply cbind_unless; [apply eval_expr_unless|]. intros [z| |] s1';
      try apply unless_refl. case_decide; [apply unless_refl|done].
  - apply cbind_unless; [done|]. intros r s1.
    apply loop_unless; [apply eval_expr_unless|done..].
Qed.

Lemma run_function_unless fn vs s :
  unless (run_function m1 fuel1 fn vs s) (run_function m2 fuel2 fn vs s).
Proof.
  unfold run_function. destruct (bind_params _ _); [|apply unless_refl].
  apply cbind_unless_l, exec_stmt_unless.
Qed.

End interpreters.

End unless.
