(* ===== verification/COverflow.v ===== *)
(** * COverflow: the two readings of signed overflow

    ISO C gives no meaning to a program that overflows an [int]; the usual
    targets wrap around, and that is what [Ceq] models.  This file relates
    the two readings of [CSem]: a run that has a meaning in ISO C (it does
    not end in [Overflow]) is, step for step, the run of the wrapping
    reading.  What is proved of the wrapping reading therefore holds of
    every run that ISO C defines, for every program of the fragment. *)

From stdpp Require Import gmap.
From S2P Require Import Prelude CInt Memory Exec Solver CSyntax CSem CRelate.

(** ** Outcomes *)

(** The ending that the comparison excuses. *)
Definition is_overflow (x : cerror + fault) : bool :=
  bool_decide (x = inl Overflow).

(** [o1], the outcome in the reading of ISO C, is an overflow or is [o2],
    the outcome in the wrapping reading. *)
Abbreviation refines := (unless is_overflow).

Section refines.
Context `{!Solver}.

(** ** Operators *)

Lemma arith_refines z s :
  refines (of_sum (arith Undefined z (wrap z)) s)
          (of_sum (arith Wraps z (wrap z)) s).
Proof.
  unfold unless, of_sum, ret. simpl. unfold fits.
  case_bool_decide; [by rewrite wrap_id|done].
Qed.

Lemma eval_binop_refines op v1 v2 s :
  refines (of_sum (eval_binop Undefined op v1 v2) s)
          (of_sum (eval_binop Wraps op v1 v2) s).
Proof.
  destruct op, v1, v2; try apply unless_refl; apply arith_refines.
Qed.

(** ** Calls *)

(** A call that does not end in a signed overflow in the reading of ISO
    C has the same outcome (value, store, text printed, fault or error) in
    the wrapping reading, for every function of the fragment, all
    arguments, every solver and store. *)
Lemma run_function_refines fuel fn vs s :
  refines (run_function Undefined fuel fn vs s)
          (run_function Wraps fuel fn vs s).
Proof.
  apply run_function_unless; [apply eval_binop_refines|].
  intros. by apply run_loop_unless.
Qed.

End refines.
