(* ===== verification/CFuel.v ===== *)
(** * CFuel: the bound on the iterations is a device of the model

    A [for] loop of the interpreter of [CSem] runs at most [fuel]
    iterations and then stops with the fault [OutOfFuel]; the source has no
    such bound.  This file shows that the bound has no other effect: a run
    that does not stop with [OutOfFuel] is the run with any larger bound,
    for every program of the fragment.  The outcomes proved of the
    functions of the source with a bound that suffices are therefore their
    outcomes with every larger bound, and the meaning of the source. *)

From stdpp Require Import gmap.
From S2P Require Import Prelude CInt Memory Exec Solver CSyntax CSem CRelate.

(** The ending that the comparison excuses. *)
Definition is_out_of_fuel (x : cerror + fault) : bool :=
  bool_decide (x = inr OutOfFuel).

(** [o1], the outcome with the smaller bound, is [OutOfFuel] or is [o2],
    the outcome with the larger one. *)
Abbreviation within := (unless is_out_of_fuel).

Lemma out_of_fuel_stops {A} (o : outcome (cerror + A)) :
  stops is_out_of_fuel o = false ↔ o ≠ Fault OutOfFuel.
Proof. by destruct o as [[]|[]]. Qed.

Section fuel.
Context `{!Solver}.

(** A loop with more iterations allowed. *)
Lemma run_loop_more_fuel cond1 cond2 step1 step2 body1 body2 n :
  (∀ ρ s, within (cond1 ρ s) (cond2 ρ s)) →
  (∀ ρ s, within (step1 ρ s) (step2 ρ s)) →
  (∀ ρ s, within (body1 ρ s) (body2 ρ s)) →
  ∀ n' ρ s, (n ≤ n')%nat →
    within (run_loop cond1 step1 body1 n ρ s)
           (run_loop cond2 step2 body2 n' ρ s).
Proof.
  intros Hcond Hstep Hbody.
  induction n as [|n IH]; intros [|n'] ρ s Hn; try lia; simpl;
    (apply cbind_unless; [done|]); intros [z| |] s1;
    try apply unless_refl; case_decide; try apply unless_refl;
    try (by apply unless_stops).
  apply cbind_unless; [done|]. intros [ρ1 [v|]] s2; [apply unless_refl|].
  simpl. apply cbind_unless; [done|]. intros r s3. apply IH. lia.
Qed.

Lemma run_function_within m fuel fuel' fn vs s :
  (fuel ≤ fuel')%nat →
  within (run_function m fuel fn vs s) (run_function m fuel' fn vs s).
Proof.
  intros Hfuel. apply run_function_unless.
  - intros. apply unless_refl.
  - intros. by apply run_loop_more_fuel.
Qed.

(** More iterations allowed change nothing of a run that did not need
    them: for every function of the fragment, all arguments, every
    solver, store and reading of overflow, a call that does not stop at
    the bound [fuel] has the same outcome with every larger bound. *)
Theorem run_function_more_fuel m fuel fuel' fn vs s :
  (fuel ≤ fuel')%nat →
  run_function m fuel fn vs s ≠ Fault OutOfFuel →
  run_function m fuel' fn vs s = run_function m fuel fn vs s.
Proof.
  intros Hfuel Hrun. symmetry. apply run_function_within; [done|].
  by apply out_of_fuel_stops.
Qed.

End fuel.
