(* ===== verification/CTyping.v ===== *)
(** * CTyping: what a compiler checks of the C fragment

    A static check of the functions written in the syntax of [CSyntax],
    and the proof that it is sound for the interpreter of [CSem]: a
    function that passes the check, called with arguments of the types of
    its parameters, never ends in one of the errors that stand for what a
    compiler rejects or warns of.

    The check is the one a C compiler makes of this fragment, without the
    implicit conversions of C (the source uses none):
    - every variable is declared, and read only where it has been assigned
      on every path ([type_expr], with the list of the variables that are
      assigned);
    - operators, indexing, the calls of the solvers, assignments and
      [return] are used at their types, and [printf] has one argument of
      type [int] per [%d] of its format ([type_binop], [extern_sig],
      [check_stmt]);
    - the body ends in a [return] on every path ([returns]).

    What remains possible at run time is what the check cannot see: a
    fault of the memory model, the bound on the iterations, and, in the
    reading of ISO C, a signed overflow.  On expressions the check is
    exact ([type_expr_exact]); on statements it is conservative, as a
    compiler is: a variable assigned in one branch of an [if] does not
    count as assigned after it. *)

From stdpp Require Import gmap.
From S2P Require Import Prelude CInt Memory Exec Solver CSyntax CSem.

(** ** The check *)

(** The declarations in scope, in the order of the environment of a call:
    the parameters, then the locals. *)
Abbreviation decls := (list (string * ctype)) (only parsing).

(** The declared type of [x]; the first declaration counts, as in
    [lookup_var]. *)
Fixpoint type_var (Γ : decls) (x : string) : option ctype :=
  match Γ with
  | [] => None
  | (y, t) :: Γ' => if decide (y = x) then Some t else type_var Γ' x
  end.

(** [int + int], [int * int], [int < int], [int != int] and
    [double* + int]. *)
Definition type_binop (op : binop) (t1 t2 : ctype) : option ctype :=
  match op, t1, t2 with
  | Oadd, Tptr, Tint => Some Tptr
  | _, Tint, Tint => Some Tint
  | _, _, _ => None
  end.

(** The prototypes of [pt.h] and [rhou.h], as the calls of the source use
    them. *)
Definition extern_sig (f : string) : option (list ctype * ctype) :=
  if decide (f = "solve_pt") then
    Some ([Tdouble; Tdouble; Tptr; Tint; Tint; Tptr; Tptr; Tptr; Tptr; Tint],
          Tint)
  else if decide (f = "solve_rhou") then
    Some ([Tdouble; Tdouble; Tptr; Tint; Tint; Tptr; Tptr; Tptr; Tptr; Tptr;
           Tint], Tint)
  else None.

Section check.
Variable Γ : decls.
Implicit Types (A : list string) (e : expr) (s : stmt) (t : ctype).

(** The type of an expression in which the variables of [A] have been
    assigned. *)
Fixpoint type_expr (A : list string) (e : expr) : option ctype :=
  match e with
  | Econst _ => Some Tint
  | Evar x => if decide (x ∈ A) then type_var Γ x else None
  | Ebinop op e1 e2 =>
      t1 ← type_expr A e1; t2 ← type_expr A e2; type_binop op t1 t2
  | Eindex e1 e2 =>
      t1 ← type_expr A e1; t2 ← type_expr A e2;
      if decide (t1 = Tptr ∧ t2 = Tint) then Some Tdouble else None
  | Ecall f args =>
      ts ← mapM (type_expr A) args;
      sig ← extern_sig f;
      if decide (ts = sig.1) then Some sig.2 else None
  end.

(** [x = e;] where [x] is declared with the type of [e]. *)
Definition check_assign (A : list string) (x : string) (e : expr)
  : option (list string) :=
  t ← type_expr A e; t' ← type_var Γ x;
  if decide (t = t') then Some (x :: A) else None.

(** What may stand in the head of a [for]: an assignment, an increment or
    nothing. *)
Definition expression_stmt (s : stmt) : bool :=
  match s with
  | Sskip | Sassign _ _ | Sincr _ => true
  | _ => false
  end.

Variable rty : ctype.

(** The variables that are assigned when the statement [s], started with
    those of [A] assigned, has ended without [return]; no result when [s]
    is not well typed.  What only one branch or only the body of a loop
    assigns is not assigned afterwards. *)
Fixpoint check_stmt (A : list string) (s : stmt) : option (list string) :=
  match s with
  | Sskip => Some A
  | Sassign x e => check_assign A x e
  | Sincr x => check_assign A x (Ebinop Oadd (Evar x) (Econst 1))
  | Sprintf fmt args =>
      ts ← mapM (type_expr A) args;
      if decide (Forall (λ t, t = Tint) ts ∧ length ts = conversions fmt)
      then Some A else None
  | Sseq s1 s2 => A1 ← check_stmt A s1; check_stmt A1 s2
  | Sif e s1 =>
      t ← type_expr A e;
      if decide (t = Tint) then check_stmt A s1 ≫= λ _, Some A else None
  | Sfor init cond step body =>
      A0 ← check_stmt A init;
      t ← type_expr A0 cond;
      if decide (t = Tint ∧ expression_stmt init ∧ expression_stmt step) then
        A1 ← check_stmt A0 body; check_stmt A1 step ≫= λ _, Some A0
      else None
  | Sreturn e =>
      t ← type_expr A e; if decide (t = rty) then Some A else None
  end.

End check.

(** Every path through [s] ends in a [return]. *)
Fixpoint returns (s : stmt) : bool :=
  match s with
  | Sreturn _ => true
  | Sseq s1 s2 => returns s1 || returns s2
  | _ => false
  end.

(** The check of a function: its body is well typed in the scope of its
    parameters and locals, with the parameters assigned, and returns. *)
Definition check_function (fn : function) : bool :=
  match check_stmt (fn_params fn ++ fn_locals fn) (fn_return fn)
          (fn_params fn).*1 (fn_body fn) with
  | Some _ => returns (fn_body fn)
  | None => false
  end.

(** The arguments [vs] have the types of the parameters of [fn]. *)
Definition well_typed_args (fn : function) (vs : list value) : Prop :=
  Forall2 (λ v d, type_of v = d.2) vs (fn_params fn).

#[export] Instance well_typed_args_dec fn vs :
  Decision (well_typed_args fn vs).
Proof. unfold well_typed_args. apply _. Defined.

(** ** Environments that agree with the declarations *)

(** A slot of the environment holds the declaration [d], and its value,
    when it has one, is of the declared type. *)
Definition slot_typed (d : string * ctype)
    (b : string * (ctype * option value)) : Prop :=
  b.1 = d.1 ∧ b.2.1 = d.2 ∧ ∀ v, b.2.2 = Some v → type_of v = d.2.

Definition typed_env (Γ : decls) (ρ : env) : Prop := Forall2 slot_typed Γ ρ.

(** [x] can be read. *)
Definition assigned (ρ : env) (x : string) : Prop :=
  ∃ v, lookup_var ρ x = inr v.

(** The environment never loses a value. *)
Definition extends (ρ ρ' : env) : Prop := ∀ x, assigned ρ x → assigned ρ' x.

#[export] Instance extends_preorder : PreOrder extends.
Proof. split; [by intros ρ x|]. intros ρ1 ρ2 ρ3 H1 H2 x Hx. auto. Qed.

Section environments.
Implicit Types (Γ : decls) (ρ : env) (x : string) (v : value).

Lemma lookup_var_typed Γ ρ x v :
  typed_env Γ ρ → lookup_var ρ x = inr v → type_var Γ x = Some (type_of v).
Proof.
  induction 1 as [|[y t] [y' [t' ov]] Γ ρ (? & ? & Hv) _ IH];
    simplify_eq/=; [done|].
  case_decide; [|done]. destruct ov; intros; simplify_eq. f_equal.
  symmetry. eauto.
Qed.

Lemma assign_typed Γ ρ x v :
  typed_env Γ ρ → type_var Γ x = Some (type_of v) →
  ∃ ρ', assign ρ x v = inr ρ' ∧ typed_env Γ ρ' ∧ lookup_var ρ' x = inr v
        ∧ extends ρ ρ'.
Proof.
  induction 1 as [|[y t] [y' [t' ov]] Γ ρ (? & ? & Hv) Hρ IH];
    simplify_eq/=; [done|]. intros Hx.
  case_decide as Hy; simplify_eq.
  - rewrite decide_True by done. eexists. split; [done|].
    split_and!; [constructor; [by split_and!; [..|intros ? [= <-]]|done]| |].
    + simpl. by rewrite decide_True.
    + intros z. unfold assigned. simpl. case_decide; eauto.
  - destruct (IH Hx) as (ρ' & -> & Hρ' & Hl & Hext). eexists.
    split; [done|]. split_and!; [by constructor| |].
    + simpl. by rewrite decide_False.
    + intros z. unfold assigned. simpl. case_decide; [done|apply Hext].
Qed.

(** The locals at the start of a call. *)
Lemma declare_typed Γ : typed_env Γ (declare Γ).
Proof. unfold declare. induction Γ as [|[x t] Γ IH]; by constructor. Qed.

(** The parameters bound to arguments of their types. *)
Lemma bind_params_typed Γ vs ρ1 :
  Forall2 (λ v d, type_of v = d.2) vs Γ →
  ∃ ρ, bind_params Γ vs = Some ρ ∧ typed_env Γ ρ
       ∧ ∀ x, x ∈ Γ.*1 → assigned (ρ ++ ρ1) x.
Proof.
  induction 1 as [|v [y t] vs Γ Hv _ (ρ & Hρ & Hty & Hass)]; simpl in *.
  { exists []. split_and!; [done|constructor|]. by intros x ?%elem_of_nil. }
  rewrite decide_True, Hρ by done. eexists. split; [done|].
  split; [constructor; [split_and!; simpl; congruence|done]|].
  intros x [->|Hx]%elem_of_cons; unfold assigned; simpl; case_decide;
    try done; [by eexists..|by apply Hass].
Qed.

End environments.

(** ** Soundness *)

Section soundness.
Context `{!Solver}.
Variable mode : overflow.

(** An outcome that the check allows: a result with the property [P], a
    fault of [Exec], or a signed overflow in the reading of ISO C. *)
Definition safe {A} (P : A → Prop) (o : outcome (cerror + A)) : Prop :=
  match o with
  | Ret (inr a) _ => P a
  | Ret (inl e) _ => mode = Undefined ∧ e = Overflow
  | Fault _ => True
  end.

Lemma safe_bind {A B} (P : A → Prop) (Q : B → Prop) (c : cexec A)
    (k : A → cexec B) s :
  safe P (c s) → (∀ a s', P a → safe Q (k a s')) → safe Q (cbind c k s).
Proof. unfold cbind, bind. destruct (c s) as [[e|a] s'|]; simpl; auto. Qed.

Lemma safe_impl {A} (P Q : A → Prop) (o : outcome (cerror + A)) :
  safe P o → (∀ a, P a → Q a) → safe Q o.
Proof. destruct o as [[]|]; simpl; auto. Qed.

(** A computation of [Exec] followed by a result. *)
Lemma safe_exec {A B} (Q : B → Prop) (c : exec A) (f : A → B) s :
  (∀ a, Q (f a)) → safe Q ((let* a := c in cret (f a)) s).
Proof. intros HQ. unfold safe, bind, cret, ret. by destruct (c s). Qed.

(** *** Operators and calls *)

Lemma arith_safe z w s :
  safe (λ v, type_of v = Tint) (of_sum (arith mode z w) s).
Proof.
  unfold safe, of_sum, ret, arith. destruct mode; [done|].
  by destruct (fits z).
Qed.

Lemma eval_binop_safe op v1 v2 t s :
  type_binop op (type_of v1) (type_of v2) = Some t →
  safe (λ v, type_of v = t) (of_sum (eval_binop mode op v1 v2) s).
Proof.
  destruct op, v1, v2; intros; simplify_eq/=;
    first [done|apply (arith_safe _ _ s)].
Qed.

Lemma call_extern_safe f vs sig s :
  extern_sig f = Some sig → type_of <$> vs = sig.1 →
  safe (λ v, type_of v = sig.2) (call_extern f vs s).
Proof.
  unfold extern_sig, call_extern. intros Hsig Hvs.
  repeat case_decide; simplify_eq/=;
    do 12 (try destruct vs as [|[] vs]; simplify_eq/=);
    by apply (safe_exec _ _ Vint).
Qed.

(** *** Expressions *)

Section expressions.
Variables (Γ : decls) (A : list string).

(** The environment holds the declarations [Γ], and the variables of [A]
    have values. *)
Definition env_ok (ρ : env) : Prop :=
  typed_env Γ ρ ∧ ∀ x, x ∈ A → assigned ρ x.

Definition expr_safe (e : expr) : Prop :=
  ∀ t ρ s, type_expr Γ A e = Some t → env_ok ρ →
    safe (λ v, type_of v = t) (eval_expr mode e ρ s).

Lemma eval_exprs_safe args ts ρ s :
  Forall expr_safe args → mapM (type_expr Γ A) args = Some ts → env_ok ρ →
  safe (λ vs, type_of <$> vs = ts) (eval_exprs mode args ρ s).
Proof.
  intros Hargs Hts Hρ. apply mapM_Some in Hts. revert s.
  induction Hts as [|a t args ts Ha _ IH]; intros s; [done|].
  apply Forall_cons in Hargs as [Hsafe Hargs]. simpl.
  eapply safe_bind; [by apply Hsafe|]. intros v s1 Hv.
  eapply safe_bind; [by apply IH|]. intros vs s2 Hvs. simpl in *.
  by subst.
Qed.

Lemma eval_expr_safe e : expr_safe e.
Proof.
  induction e as [z|x|op e1 e2 IH1 IH2|e1 e2 IH1 IH2|f args IH]
    using expr_args_ind; intros t ρ s Ht [Hty Hass]; simpl in Ht.
  - by simplify_eq.
  - case_decide as Hx; [|done]. destruct (Hass x Hx) as [v Hv].
    unfold eval_expr, of_sum. rewrite Hv. simpl.
    apply (lookup_var_typed Γ) in Hv; congruence.
  - destruct (type_expr Γ A e1) as [t1|] eqn:H1; [|done].
    destruct (type_expr Γ A e2) as [t2|] eqn:H2; [|done]. simpl in *.
    eapply safe_bind; [by apply IH1|]. intros v1 s1 <-.
    eapply safe_bind; [by apply IH2|]. intros v2 s2 <-.
    by apply eval_binop_safe.
  - destruct (type_expr Γ A e1) as [t1|] eqn:H1; [|done].
    destruct (type_expr Γ A e2) as [t2|] eqn:H2; [|done]. simpl in *.
    case_decide as Hts; [|done]. destruct Hts as [-> ->]. simplify_eq.
    eapply safe_bind; [by apply IH1|]. intros [| |p] s1 ?; try done.
    eapply safe_bind; [by apply IH2|]. intros [i| |] s2 ?; try done.
    by apply (safe_exec _ _ Vdouble).
  - destruct (mapM _ args) as [ts|] eqn:Hts; [|done].
    destruct (extern_sig f) as [sig|] eqn:Hsig; [|done]. simpl in Ht.
    case_decide; simplify_eq. rewrite eval_call.
    eapply safe_bind; [by apply eval_exprs_safe|]. intros vs s1 Hvs.
    by apply call_extern_safe.
Qed.

Lemma eval_expr_typed e t ρ s :
  type_expr Γ A e = Some t → env_ok ρ →
  safe (λ v, type_of v = t) (eval_expr mode e ρ s).
Proof. apply eval_expr_safe. Qed.

Lemma eval_exprs_typed args ts ρ s :
  mapM (type_expr Γ A) args = Some ts → env_ok ρ →
  safe (λ vs, type_of <$> vs = ts) (eval_exprs mode args ρ s).
Proof.
  apply eval_exprs_safe, Forall_forall. intros. apply eval_expr_safe.
Qed.

End expressions.

(** *** The check of expressions is exact

    An expression that evaluates to a value in an environment that holds
    the declarations has the type of that value, when the variables that
    have values count as assigned: the check rejects an expression only
    when its evaluation cannot succeed. *)

Lemma cbind_Ret {A B} (c : cexec A) (k : A → cexec B) s b s' :
  cbind c k s = Ret (inr b) s' ↔
  ∃ a s1, c s = Ret (inr a) s1 ∧ k a s1 = Ret (inr b) s'.
Proof.
  unfold cbind, bind. destruct (c s) as [[e|a] s1|]; [naive_solver| |].
  - split; [by exists a, s1|]. by intros (? & ? & [= <- <-] & ?).
  - naive_solver.
Qed.

Lemma eval_binop_typed op v1 v2 v :
  eval_binop mode op v1 v2 = inr v →
  type_binop op (type_of v1) (type_of v2) = Some (type_of v).
Proof.
  destruct op, v1, v2; simpl; try done; try (by intros [= <-]);
    unfold arith; destruct mode; try case_match; by intros [= <-].
Qed.

Lemma call_extern_typed f vs v s s' :
  call_extern f vs s = Ret (inr v) s' →
  ∃ sig, extern_sig f = Some sig ∧ type_of <$> vs = sig.1
         ∧ type_of v = sig.2.
Proof.
  unfold extern_sig, call_extern, cfail, cret, bind, ret.
  repeat case_decide; [| |done];
    do 12 (try destruct vs as [|[] vs]; try done);
    case_match; intros; simplify_eq; by eexists.
Qed.

Section exact.
Variables (Γ : decls) (A : list string) (ρ : env).
Hypothesis env_typed : typed_env Γ ρ.
Hypothesis env_assigned : ∀ x, assigned ρ x → x ∈ A.

Definition expr_exact (e : expr) : Prop :=
  ∀ s v s', eval_expr mode e ρ s = Ret (inr v) s' →
    type_expr Γ A e = Some (type_of v).

Lemma eval_exprs_exact args s vs s' :
  Forall expr_exact args → eval_exprs mode args ρ s = Ret (inr vs) s' →
  mapM (type_expr Γ A) args = Some (type_of <$> vs).
Proof.
  intros Hargs. revert s vs.
  induction Hargs as [|a args Ha _ IH]; intros s vs; simpl.
  { by intros [= <- <-]. }
  intros (v & s1 & Hv & (vs' & s2 & Hvs & [= <- <-])%cbind_Ret)%cbind_Ret.
  by rewrite (Ha _ _ _ Hv), (IH _ _ Hvs).
Qed.

Lemma type_expr_exact e : expr_exact e.
Proof using env_typed env_assigned.
  induction e as [z|x|op e1 e2 IH1 IH2|e1 e2 IH1 IH2|f args IH]
    using expr_args_ind; intros s v s'.
  - by intros [= <- <-].
  - unfold eval_expr, of_sum, ret. intros [= Hv <-]. simpl.
    rewrite decide_True by (apply env_assigned; by exists v).
    by apply (lookup_var_typed Γ ρ).
  - simpl. intros (v1 & s1 & H1 & (v2 & s2 & H2 & Hop)%cbind_Ret)%cbind_Ret.
    rewrite (IH1 _ _ _ H1), (IH2 _ _ _ H2). simpl.
    apply eval_binop_typed. unfold of_sum, ret in Hop. congruence.
  - simpl. intros (v1 & s1 & H1 & (v2 & s2 & H2 & Hrd)%cbind_Ret)%cbind_Ret.
    rewrite (IH1 _ _ _ H1), (IH2 _ _ _ H2). simpl.
    destruct v1, v2; try done. rewrite decide_True by done.
    unfold bind, cret, ret in Hrd. destruct (read _ _); by simplify_eq.
  - rewrite eval_call. intros (vs & s1 & Hvs & Hcall)%cbind_Ret. simpl.
    rewrite (eval_exprs_exact _ _ _ _ IH Hvs). simpl.
    apply call_extern_typed in Hcall as (sig & -> & Hsig & Hv). simpl.
    rewrite decide_True by done. by rewrite Hv.
Qed.

End exact.

(** *** Statements *)

Section statements.
Variables (Γ : decls) (rty : ctype) (fuel : nat).

(** What a statement started in [ρ] may leave: an environment that agrees
    with the declarations and has lost no value, and either a returned
    value of the return type or the variables of [A'] assigned. *)
Definition result_ok (ρ : env) (A' : list string)
    (r : env * option value) : Prop :=
  typed_env Γ r.1 ∧ extends ρ r.1
  ∧ match r.2 with
    | Some v => type_of v = rty
    | None => ∀ x, x ∈ A' → assigned r.1 x
    end.

Definition stmt_safe (s : stmt) : Prop :=
  ∀ A A' ρ st, check_stmt Γ rty A s = Some A' → env_ok Γ A ρ →
    safe (result_ok ρ A') (exec_stmt mode fuel s ρ st).

(** Nothing has changed. *)
Lemma result_ok_same A ρ : env_ok Γ A ρ → result_ok ρ A (ρ, None).
Proof. by intros [Hty Hass]. Qed.

(** The result of a later part is a result of the whole, with the
    variables assigned that the part assigns or that were assigned at the
    start. *)
Lemma result_ok_weaken ρ ρ' A A' r :
  extends ρ ρ' → result_ok ρ' A r →
  (∀ x, x ∈ A' → x ∈ A ∨ assigned ρ x) →
  result_ok ρ A' r.
Proof.
  intros Hext (Hty & Hext' & Hr) HA.
  assert (extends ρ r.1) as Hext'' by (by etrans).
  split_and!; [done..|]. destruct r.2; [done|].
  intros x [?|?]%HA; auto.
Qed.

Lemma exec_assign_safe A A' x e ρ st :
  check_assign Γ A x e = Some A' → env_ok Γ A ρ →
  safe (λ r, result_ok ρ A' r ∧ r.2 = None)
    (cbind (eval_expr mode e ρ)
       (λ v, let+ ρ' := of_sum (assign ρ x v) in cret (ρ', None)) st).
Proof.
  unfold check_assign. intros Hc Hρ. pose proof Hρ as [Hty Hass].
  destruct (type_expr Γ A e) as [t|] eqn:He; [|done].
  destruct (type_var Γ x) as [t'|] eqn:Hx; [|done]. simpl in Hc.
  case_decide; simplify_eq.
  eapply safe_bind; [by eapply eval_expr_typed|]. intros v s1 <-.
  destruct (assign_typed Γ ρ x v Hty Hx) as (ρ' & Hρ' & Hty' & Hl & Hext).
  unfold cbind, of_sum, bind, ret. rewrite Hρ'. simpl.
  split; [|done]. split_and!; [done..|].
  intros y [->|Hy]%elem_of_cons; [by eexists|auto].
Qed.

(** The statements of the head of a [for] do not return. *)
Lemma exec_expression_safe s A A' ρ st :
  expression_stmt s → check_stmt Γ rty A s = Some A' → env_ok Γ A ρ →
  safe (λ r, result_ok ρ A' r ∧ r.2 = None) (exec_stmt mode fuel s ρ st).
Proof.
  destruct s; try done; intros _ Hc Hρ; [|by eapply exec_assign_safe..].
  simplify_eq/=. split; [by apply result_ok_same|done].
Qed.

(** The loop, for a condition, a step and a body that are safe wherever
    the variables [A0] assigned at its head are assigned. *)
Lemma run_loop_safe A0 A1 cond step body n :
  type_expr Γ A0 cond = Some Tint →
  (∀ ρ st, env_ok Γ A0 ρ →
     safe (result_ok ρ A1) (exec_stmt mode fuel body ρ st)) →
  (∀ ρ st, env_ok Γ A1 ρ →
     safe (result_ok ρ []) (exec_stmt mode fuel step ρ st)) →
  ∀ ρ st, env_ok Γ A0 ρ →
    safe (result_ok ρ A0)
      (run_loop (eval_expr mode cond) (exec_stmt mode fuel step)
         (exec_stmt mode fuel body) n ρ st).
Proof.
  intros Hcond Hbody Hstep.
  induction n as [|n IH]; intros ρ st Hρ; simpl;
    (eapply safe_bind; [by eapply eval_expr_typed|]);
    intros [z| |] s1 ?; try done; case_decide; try done;
    try (by apply result_ok_same).
  eapply safe_bind; [by apply Hbody|].
  intros [ρ1 [v|]] s2 (Hty1 & Hext1 & Hr1); [done|]. simpl in *.
  eapply safe_bind; [by apply Hstep|].
  intros [ρ2 o] s3 (Hty2 & Hext2 & _). simpl in *.
  assert (extends ρ ρ2) as Hext by (by etrans).
  eapply safe_impl; [apply IH|].
  - split; [done|]. intros x Hx. by apply Hext, Hρ.
  - intros r Hr. eapply result_ok_weaken; eauto.
Qed.

(** [printf] with arguments of type [int]. *)
Lemma ints_typed vs :
  Forall (λ t, t = Tint) (type_of <$> vs) →
  ∃ zs, ints vs = Some zs ∧ length zs = length vs.
Proof.
  intros Hint%Forall_fmap. unfold ints.
  assert (is_Some (mapM (λ v, if v is Vint z then Some z else None) vs))
    as [zs Hzs].
  { apply mapM_is_Some. eapply Forall_impl; [done|].
    by intros [] ?; simpl in *. }
  exists zs. split; [done|]. symmetry. by eapply length_mapM.
Qed.

(** One lemma per statement: the statement is safe when its parts are. *)
Lemma skip_safe : stmt_safe Sskip.
Proof. intros A A' ρ st [= <-] Hρ. by apply result_ok_same. Qed.

Lemma assign_safe x e : stmt_safe (Sassign x e).
Proof.
  intros A A' ρ st Hc Hρ.
  eapply safe_impl; [by eapply exec_assign_safe|]. by intros r [].
Qed.

Lemma incr_safe x : stmt_safe (Sincr x).
Proof.
  intros A A' ρ st Hc Hρ.
  eapply safe_impl; [by eapply exec_assign_safe|]. by intros r [].
Qed.

Lemma printf_safe fmt args : stmt_safe (Sprintf fmt args).
Proof.
  intros A A' ρ st Hc Hρ. simpl in Hc.
  destruct (mapM _ args) as [ts|] eqn:Hts; [|done]. simpl in Hc.
  case_decide as Hint; simplify_eq. destruct Hint as [Hint Hlen].
  cbn [exec_stmt].
  eapply safe_bind; [by eapply eval_exprs_typed|]. intros vs s1 <-.
  destruct (ints_typed vs Hint) as (zs & -> & Hzs).
  rewrite length_fmap, <- Hzs in Hlen. rewrite decide_True by done.
  unfold bind, printf, emit, cret, ret. simpl. by apply result_ok_same.
Qed.

Lemma seq_safe s1 s2 : stmt_safe s1 → stmt_safe s2 → stmt_safe (Sseq s1 s2).
Proof.
  intros IH1 IH2 A A' ρ st Hc Hρ. simpl in Hc.
  destruct (check_stmt Γ rty A s1) as [A1|] eqn:H1; [|done]. simpl in Hc.
  cbn [exec_stmt]. eapply safe_bind; [by eapply IH1|].
  intros [ρ1 [v|]] s1' (Hty1 & Hext1 & Hr1); [done|]. simpl in *.
  eapply safe_impl; [by eapply IH2|]. intros r Hr.
  eapply result_ok_weaken; eauto.
Qed.

Lemma if_safe e s1 : stmt_safe s1 → stmt_safe (Sif e s1).
Proof.
  intros IH1 A A' ρ st Hc Hρ. simpl in Hc.
  destruct (type_expr Γ A e) as [t|] eqn:He; [|done]. simpl in Hc.
  case_decide; [|done]. subst t.
  destruct (check_stmt Γ rty A s1) as [A1|] eqn:H1; [|done].
  simplify_eq/=. eapply safe_bind; [by eapply eval_expr_typed|].
  intros [z| |] s1' ?; try done. case_decide; [by apply result_ok_same|].
  eapply safe_impl; [by eapply IH1|]. intros r Hr.
  eapply result_ok_weaken; [done|exact Hr|]. intros x Hx. right.
  by apply Hρ.
Qed.

Lemma for_safe init cond step body :
  stmt_safe step → stmt_safe body → stmt_safe (Sfor init cond step body).
Proof.
  intros IHs IHb A A' ρ st Hc Hρ. simpl in Hc.
  destruct (check_stmt Γ rty A init) as [A0|] eqn:H0; [|done]. simpl in Hc.
  destruct (type_expr Γ A0 cond) as [t|] eqn:Hcond; [|done]. simpl in Hc.
  case_decide as Hhead; [|done]. destruct Hhead as (-> & Hinit & _).
  destruct (check_stmt Γ rty A0 body) as [A1|] eqn:Hb; [|done]. simpl in Hc.
  destruct (check_stmt Γ rty A1 step) as [A2|] eqn:Hs; [|done].
  simplify_eq/=. eapply safe_bind; [by eapply exec_expression_safe|].
  intros [ρ0 o] s0 [(Hty0 & Hext0 & Hr0) Ho]. simpl in *. subst o.
  eapply safe_impl.
  { eapply (run_loop_safe A' A1); [done| | |by split].
    - intros. by eapply IHb.
    - intros ρ' st' Hρ'. eapply safe_impl; [by eapply IHs|].
      intros r Hr. eapply result_ok_weaken; [done|exact Hr|].
      by intros x ?%elem_of_nil. }
  intros r Hr. eapply result_ok_weaken; eauto.
Qed.

Lemma return_safe e : stmt_safe (Sreturn e).
Proof.
  intros A A' ρ st Hc Hρ. simpl in Hc.
  destruct (type_expr Γ A e) as [t|] eqn:He; [|done]. simpl in Hc.
  case_decide; simplify_eq. cbn [exec_stmt].
  eapply safe_bind; [by eapply eval_expr_typed|]. intros v s1 <-.
  by split_and!; [apply Hρ|..].
Qed.

Lemma exec_stmt_safe s : stmt_safe s.
Proof.
  induction s;
    eauto using skip_safe, assign_safe, incr_safe, printf_safe, seq_safe,
      if_safe, for_safe, return_safe.
Qed.

(** A statement that returns on every path returns. *)
Lemma exec_stmt_returns s : ∀ ρ st r st',
  returns s → exec_stmt mode fuel s ρ st = Ret (inr r) st' → is_Some r.2.
Proof.
  induction s as [| | | |s1 IH1 s2 IH2| | |e]; try done;
    intros ρ st r st' Hs; cbn [exec_stmt]; unfold cbind, bind, cret, ret.
  - destruct (exec_stmt mode fuel s1 ρ st) as [[?|[ρ1 [v|]]] s1'|] eqn:H1;
      intros; simplify_eq/=; [by eexists|].
    apply orb_prop_elim in Hs as [Hs|Hs]; [|by eauto].
    by destruct (IH1 _ _ _ _ Hs H1).
  - destruct (eval_expr mode e ρ st) as [[?|v] s1|]; intros; simplify_eq/=.
    by eexists.
Qed.

End statements.

(** *** Functions *)

Lemma safe_and {A} (P Q : A → Prop) (o : outcome (cerror + A)) :
  safe P o → (∀ a s, o = Ret (inr a) s → Q a) → safe (λ a, P a ∧ Q a) o.
Proof. destruct o as [[]|]; simpl; eauto. Qed.

(** The environment at the start of a call. *)
Lemma initial_env_ok fn vs :
  well_typed_args fn vs →
  ∃ ρ, bind_params (fn_params fn) vs = Some ρ
       ∧ env_ok (fn_params fn ++ fn_locals fn) (fn_params fn).*1
           (ρ ++ declare (fn_locals fn)).
Proof.
  intros Hvs.
  destruct (bind_params_typed _ _ (declare (fn_locals fn)) Hvs)
    as (ρ & Hρ & Hty & Hass).
  exists ρ. split; [done|]. split; [|done].
  apply Forall2_app; [done|apply declare_typed].
Qed.

(** Well-typed functions do not go wrong: a call of a function that passes
    the check, with arguments of the types of its parameters, ends with a
    value of its return type, with a fault of [Exec], or, in the reading
    of ISO C, with a signed overflow. *)
Theorem check_function_sound fuel fn vs st :
  check_function fn → well_typed_args fn vs →
  safe (λ v, type_of v = fn_return fn) (run_function mode fuel fn vs st).
Proof.
  unfold check_function, run_function. intros Hfn Hvs.
  destruct (check_stmt _ _ _ _) as [A'|] eqn:Hc; [|done].
  destruct (initial_env_ok fn vs Hvs) as (ρ & -> & Hρ).
  eapply safe_bind.
  { apply safe_and; [by eapply exec_stmt_safe|].
    intros r s'. by apply exec_stmt_returns. }
  intros [ρ' o] s' [(_ & _ & Hr) [v Hv]]. unfold return_value.
  simpl in *. subst o. by rewrite decide_True.
Qed.

End soundness.
