(* ===== verification/CeqAst.v ===== *)
(** * CeqAst: the functions of [src/ceq.c] as syntax trees

    The five functions of the source, written in the syntax of [CSyntax]
    declaration by declaration and statement by statement: the parameters
    and the locals with their types, in the order of the source, and the
    body.  The comments of the source are left out, and [printf] keeps its
    format string.  [Ceq] holds the same functions as definitions in the
    monad [exec]; [CeqDeep] proves that the two agree. *)

From Stdlib Require Import Ascii.
From stdpp Require Import base strings list.
From S2P Require Import Prelude CInt Memory Exec Ceq CeqFacts CSyntax.

#[local] Open Scope c_scope.

(** ** [pt] and [rhou] *)

(** [int pt(double p,double T,double* X0,int nsp,int nel,double* lewis,
            double* M,double* a,double* X1, int verbose)] *)
Definition pt_fn : function := {|
  fn_name := "pt";
  fn_return := Tint;
  fn_params :=
    [("p", Tdouble); ("T", Tdouble); ("X0", Tptr); ("nsp", Tint);
     ("nel", Tint); ("lewis", Tptr); ("M", Tptr); ("a", Tptr); ("X1", Tptr);
     ("verbose", Tint)];
  fn_locals := [];
  fn_body :=
    Sreturn ("solve_pt" @("p", "T", "X0", "nsp", "nel", "lewis", "M", "a",
                          "X1", "verbose"))
|}.

(** [int rhou(double rho,double u,double* X0,int nsp,int nel,double* lewis,
              double* M,double* a, double* X1, double* T, int verbose)] *)
Definition rhou_fn : function := {|
  fn_name := "rhou";
  fn_return := Tint;
  fn_params :=
    [("rho", Tdouble); ("u", Tdouble); ("X0", Tptr); ("nsp", Tint);
     ("nel", Tint); ("lewis", Tptr); ("M", Tptr); ("a", Tptr); ("X1", Tptr);
     ("T", Tptr); ("verbose", Tint)];
  fn_locals := [];
  fn_body :=
    Sreturn ("solve_rhou" @("rho", "u", "X0", "nsp", "nel", "lewis", "M",
                            "a", "X1", "T", "verbose"))
|}.

(** ** [batch_pt] *)

(** The body of the loop up to the call:
      Ti = T[i];
      pi = p[i];
      X0i = X0 + i*nsp;
      X1i = X1 + i*nsp;
      result = solve_pt(pi, Ti, X0i, nsp, nel, lewis, M, a, X1i, verbose); *)
Definition batch_pt_solve : stmt :=
  "Ti" ::= "T".["i"];;
  "pi" ::= "p".["i"];;
  "X0i" ::= "X0" + "i" * "nsp";;
  "X1i" ::= "X1" + "i" * "nsp";;
  "result" ::= "solve_pt" @("pi", "Ti", "X0i", "nsp", "nel", "lewis", "M",
                            "a", "X1i", "verbose").

(** [if (result!=0){ printf("Error in batch_pt @ position: %d", i);
                     return result; }] *)
Definition batch_pt_check : stmt :=
  Sif ("result" != 0)
    (Sprintf batch_pt_error ["i" : expr];;
     Sreturn "result").

(** [int batch_pt(int N, double* p,double* T,double* X0,int nsp,int nel,
                  double* lewis,double* M,double* a, double* X1,
                  int verbose)] with the locals
    [double pi, Ti, *X0i, *X1i; int i,result;] *)
Definition batch_pt_fn : function := {|
  fn_name := "batch_pt";
  fn_return := Tint;
  fn_params :=
    [("N", Tint); ("p", Tptr); ("T", Tptr); ("X0", Tptr); ("nsp", Tint);
     ("nel", Tint); ("lewis", Tptr); ("M", Tptr); ("a", Tptr); ("X1", Tptr);
     ("verbose", Tint)];
  fn_locals :=
    [("pi", Tdouble); ("Ti", Tdouble); ("X0i", Tptr); ("X1i", Tptr);
     ("i", Tint); ("result", Tint)];
  fn_body :=
    Sfor ("i" ::= 0) ("i" < "N") (Sincr "i")
      (batch_pt_solve;; batch_pt_check);;
    Sreturn 0
|}.

(** ** [batch_rhou] *)

(** The body of the loop up to the call:
      rhoi = rho[i];
      ui = u[i];
      X0i = X0 + i*nsp;
      X1i = X1 + i*nsp;
      Ti = T + i;
      result = solve_rhou(rhoi, ui, X0i,nsp,nel, lewis, M, a, X1i, Ti,
                          verbose); *)
Definition batch_rhou_solve : stmt :=
  "rhoi" ::= "rho".["i"];;
  "ui" ::= "u".["i"];;
  "X0i" ::= "X0" + "i" * "nsp";;
  "X1i" ::= "X1" + "i" * "nsp";;
  "Ti" ::= "T" + "i";;
  "result" ::= "solve_rhou" @("rhoi", "ui", "X0i", "nsp", "nel", "lewis",
                              "M", "a", "X1i", "Ti", "verbose").

(** [if (result!=0){ printf("Error in batch_rhou @ position: %d", i);
                     return result; }] *)
Definition batch_rhou_check : stmt :=
  Sif ("result" != 0)
    (Sprintf batch_rhou_error ["i" : expr];;
     Sreturn "result").

(** [int batch_rhou(int N, double* rho,double* u,double* X0,int nsp,
                    int nel,double* lewis,double* M, double* a, double* X1,
                    double* T, int verbose)] with the locals
    [double rhoi, ui, *X0i, *X1i, *Ti; int i,result;] *)
Definition batch_rhou_fn : function := {|
  fn_name := "batch_rhou";
  fn_return := Tint;
  fn_params :=
    [("N", Tint); ("rho", Tptr); ("u", Tptr); ("X0", Tptr); ("nsp", Tint);
     ("nel", Tint); ("lewis", Tptr); ("M", Tptr); ("a", Tptr); ("X1", Tptr);
     ("T", Tptr); ("verbose", Tint)];
  fn_locals :=
    [("rhoi", Tdouble); ("ui", Tdouble); ("X0i", Tptr); ("X1i", Tptr);
     ("Ti", Tptr); ("i", Tint); ("result", Tint)];
  fn_body :=
    Sfor ("i" ::= 0) ("i" < "N") (Sincr "i")
      (batch_rhou_solve;; batch_rhou_check);;
    Sreturn 0
|}.

(** ** [main] *)

(** [int main(){ printf("Called main in ceq.c!\n"); return 0; }] *)
Definition main_fn : function := {|
  fn_name := "main";
  fn_return := Tint;
  fn_params := [];
  fn_locals := [];
  fn_body := Sprintf main_message [];; Sreturn 0
|}.

(** ** The translation unit *)

Definition ceq_functions : list function :=
  [pt_fn; rhou_fn; batch_pt_fn; batch_rhou_fn; main_fn].
