(* ===== verification/CeqDeep.v ===== *)
(** * CeqDeep: the definitions of [Ceq] are the meaning of the source

    [CeqAst] holds the functions of [src/ceq.c] as syntax trees, [CSem]
    the meaning of such trees, and [Ceq] the same functions written by hand
    in the monad [exec].  This file proves that they agree: a call of the
    syntax tree of a function, with arguments of the declared types, has
    the outcome of the definition of [Ceq] on every store, for every
    solver, faults included, and never ends in an error of [CSem]: no
    local is read before it is assigned, and every operator and call is
    applied at its types.  In the reading of ISO C, in which a signed
    overflow has no meaning, the same holds of a batch whose slice offsets
    fit in an [int]: its arithmetic does not overflow.

    The theorems on [batch_pt], [batch_rhou], [pt], [rhou] and [main] of
    the other files are thereby theorems about the syntax trees. *)

From Corelib Require Import PrimFloat.
From stdpp Require Import gmap.
From S2P Require Import Prelude CInt Memory Exec Solver Loop BatchSpec.
From S2P Require Import Ceq CeqFacts.
From S2P Require Import CSyntax CSem COverflow CTyping CeqAst.

(** Evaluation of the interpreter on a syntax tree, up to the accesses to
    the store, the solvers and the text printed. *)
Ltac crun :=
  cbv -[load ptr_add int_mul int_add int_lt int_ne st_mem st_out solve_pt
        solve_rhou format String.append pretty.pretty arith Z.add Z.mul].

(** The same, with the equations [H] used wherever evaluation stops at
    their left-hand sides. *)
Tactic Notation "crun" "with" constr(H1) constr(H2) constr(H3) :=
  repeat (progress (crun; rewrite ?H1, ?H2, ?H3 by done)).

(** ** The arithmetic of a batch in the two readings *)

(** What the reading [m] asks of a batch of [N] items of [nsp] species:
    nothing where arithmetic wraps; where overflow is undefined, that [N]
    is an [int] and the offset of the last slice fits in an [int]. *)
Definition batch_defined (m : overflow) (N nsp : Z) : Prop :=
  match m with
  | Wraps => True
  | Undefined => in_int N ∧ slices_fit N nsp
  end.

(** What is known of the counter at the head of the loop. *)
Definition counter_ok (m : overflow) (i : Z) : Prop :=
  match m with
  | Wraps => True
  | Undefined => 0 ≤ i
  end.

Section arith.
Implicit Types (m : overflow) (N nsp i : Z).

Lemma counter_succ_ok m N nsp i :
  batch_defined m N nsp → counter_ok m i → int_lt i N = true →
  counter_ok m (int_add i 1).
Proof.
  destruct m; [done|]. intros [HN _] Hi Hlt. simpl in *. reflect_int.
  rewrite (int_succ_exact i N) by done. lia.
Qed.

(** [i++] does not overflow. *)
Lemma succ_defined m N nsp i :
  batch_defined m N nsp → counter_ok m i → int_lt i N = true →
  arith m (i + 1) (int_add i 1) = inr (Vint (int_add i 1)).
Proof.
  destruct m; [done|]. intros [HN _] Hi Hlt. simpl in Hi. reflect_int.
  rewrite (int_succ_exact i N) by done. apply arith_fits. int_lia.
Qed.

(** [i*nsp] does not overflow. *)
Lemma offset_defined m N nsp i :
  batch_defined m N nsp → counter_ok m i → int_lt i N = true →
  arith m (i * nsp) (int_mul i nsp) = inr (Vint (int_mul i nsp)).
Proof.
  destruct m; [done|]. intros [HN Hfit] Hi Hlt. simpl in Hi. reflect_int.
  pose proof (int_mul_in_int i nsp) as Hin.
  rewrite (slices_fit_exact N) in * by done. by apply arith_fits.
Qed.

End arith.

Section deep.
Context `{!Solver}.

(** ** [pt], [rhou] and [main] *)

Section single.
Variables (p T : double) (X0 : ptr) (nsp nel : Z) (lewis M a X1 T' : ptr).
Variable verbose : Z.
Variable mode : overflow.
Variable fuel : nat.

Definition pt_args : list value :=
  [Vdouble p; Vdouble T; Vptr X0; Vint nsp; Vint nel; Vptr lewis; Vptr M;
   Vptr a; Vptr X1; Vint verbose].

Definition rhou_args : list value :=
  [Vdouble p; Vdouble T; Vptr X0; Vint nsp; Vint nel; Vptr lewis; Vptr M;
   Vptr a; Vptr X1; Vptr T'; Vint verbose].

Lemma pt_fn_run s :
  run_function mode fuel pt_fn pt_args s
  = returns_int (pt p T X0 nsp nel lewis M a X1 verbose) s.
Proof. crun. by destruct (solve_pt _ _ _ _ _ _ _ _ _ _ s). Qed.

Lemma rhou_fn_run s :
  run_function mode fuel rhou_fn rhou_args s
  = returns_int (rhou p T X0 nsp nel lewis M a X1 T' verbose) s.
Proof. crun. by destruct (solve_rhou _ _ _ _ _ _ _ _ _ _ _ s). Qed.

Lemma main_fn_run s :
  run_function mode fuel main_fn [] s = returns_int main s.
Proof. reflexivity. Qed.

End single.

(** ** A loop of the source against the fail-fast loop

    The two loops of the source have one shape.  For a family of
    environments [E l i], with the counter at [i] and the other locals
    given by [l], in which the condition is [i<N], the step is [i++], and
    the body is the body of a fail-fast loop followed by the test of its
    result, the loop of [CSem] followed by [return 0] is the fail-fast loop
    of [Loop].  The step and the body need only behave so at a counter
    that satisfies [inv] and the condition of the loop, where [inv] is kept
    by [i++]: this is where the reading of ISO C learns that [i++] and
    [i*nsp] do not overflow. *)

Section agreement.
Variable mode : overflow.
Variable fuel : nat.
Variable fn : function.
Variables (cond : expr) (step stmts : stmt).
Variable L : Type.
Variable E : L → Z → list (string * (ctype * option value)).
Variables (body : Z → exec Z) (report : Z → exec unit) (N : Z).
Variable inv : Z → Prop.
Hypothesis fn_int : fn_return fn = Tint.
Hypothesis inv_step : ∀ i, inv i → int_lt i N = true → inv (int_add i 1).
Hypothesis cond_run : ∀ l i s,
  eval_expr mode cond (E l i) s = Ret (inr (of_bool (int_lt i N))) s.
Hypothesis step_run : ∀ l i s, inv i → int_lt i N = true →
  exec_stmt mode fuel step (E l i) s
  = Ret (inr (E l (int_add i 1), None)) s.
Hypothesis stmts_run : ∀ l i s, inv i → int_lt i N = true →
  match body i s with
  | Ret r s' =>
      ∃ l', exec_stmt mode fuel stmts (E l i) s
            = if int_ne r 0
              then match report i s' with
                   | Ret _ s'' => Ret (inr (E l' i, Some (Vint r))) s''
                   | Fault f => Fault f
                   end
              else Ret (inr (E l' i, None)) s'
  | Fault f => exec_stmt mode fuel stmts (E l i) s = Fault f
  end.

Lemma loop_agrees n : ∀ l i s, inv i →
  cbind (run_loop (eval_expr mode cond) (exec_stmt mode fuel step)
           (exec_stmt mode fuel stmts) n (E l i))
        (finish mode fuel fn (Sreturn 0)) s
  = returns_int (failfast_loop body report N n i) s.
Proof.
  induction n as [|n IH]; intros l i s Hi;
    pose proof (cond_run l i s) as Hc;
    cbn [failfast_loop]; destruct (int_lt i N) eqn:Hlt;
    try (by erewrite cbind_ret by (by eapply run_loop_exit);
         unfold finish, return_value; simpl; rewrite fn_int);
    [by erewrite cbind_fault by (by eapply run_loop_fuel)|].
  rewrite returns_int_bind. pose proof (stmts_run l i s Hi Hlt) as Hb.
  destruct (body i s) as [r s'|f];
    [|by erewrite cbind_fault by (by eapply run_loop_fault)].
  destruct Hb as (l' & Hb). destruct (int_ne r 0) eqn:Hr.
  - rewrite returns_int_bind. destruct (report i s') as [[] s''|f];
      [erewrite cbind_ret by (by eapply run_loop_return);
       unfold finish, return_value; simpl; by rewrite fn_int
      |by erewrite cbind_fault by (by eapply run_loop_fault)].
  - rewrite <- (IH l' (int_add i 1) s') by auto. unfold cbind, bind.
    by rewrite (run_loop_next _ _ _ n _ _ _ _ _ _ _ _ _ Hc ltac:(done) Hb
                  (step_run l' i s' Hi Hlt)).
Qed.

(** A call of a function whose body is such a loop and [return 0]. *)
Lemma call_agrees vs init ρ l i s :
  fn_body fn = Sseq (Sfor init cond step stmts) (Sreturn 0) →
  bind_params (fn_params fn) vs = Some ρ →
  exec_stmt mode fuel init (ρ ++ declare (fn_locals fn)) s
  = Ret (inr (E l i, None)) s →
  inv i →
  run_function mode fuel fn vs s
  = returns_int (failfast_loop body report N fuel i) s.
Proof.
  intros. rewrite <- (loop_agrees fuel l) by done. by eapply run_function_for.
Qed.

End agreement.

(** ** [batch_pt] *)

Section batch_pt.
Variables (N : Z) (p T X0 : ptr) (nsp nel : Z) (lewis M a X1 : ptr).
Variable verbose : Z.
Variable mode : overflow.
Variable fuel : nat.
Hypothesis batch_ok : batch_defined mode N nsp.

Definition batch_pt_args : list value :=
  [Vint N; Vptr p; Vptr T; Vptr X0; Vint nsp; Vint nel; Vptr lewis; Vptr M;
   Vptr a; Vptr X1; Vint verbose].

(** The locals of [batch_pt] other than the counter: [pi], [Ti], [X0i],
    [X1i] and [result]. *)
Record batch_pt_locals := PtLocals {
  pt_pi : option value;
  pt_Ti : option value;
  pt_X0i : option value;
  pt_X1i : option value;
  pt_result : option value
}.

(** The environment of a call of [batch_pt] inside the loop: the
    parameters, the counter [i], and whatever the other locals hold. *)
Definition batch_pt_env (l : batch_pt_locals) (i : Z)
  : list (string * (ctype * option value)) :=
  [("N", (Tint, Some (Vint N))); ("p", (Tptr, Some (Vptr p)));
   ("T", (Tptr, Some (Vptr T))); ("X0", (Tptr, Some (Vptr X0)));
   ("nsp", (Tint, Some (Vint nsp))); ("nel", (Tint, Some (Vint nel)));
   ("lewis", (Tptr, Some (Vptr lewis))); ("M", (Tptr, Some (Vptr M)));
   ("a", (Tptr, Some (Vptr a))); ("X1", (Tptr, Some (Vptr X1)));
   ("verbose", (Tint, Some (Vint verbose)));
   ("pi", (Tdouble, pt_pi l)); ("Ti", (Tdouble, pt_Ti l));
   ("X0i", (Tptr, pt_X0i l)); ("X1i", (Tptr, pt_X1i l));
   ("i", (Tint, Some (Vint i))); ("result", (Tint, pt_result l))].

Lemma batch_pt_step_run l i s :
  counter_ok mode i → int_lt i N = true →
  exec_stmt mode fuel (Sincr "i") (batch_pt_env l i) s
  = Ret (inr (batch_pt_env l (int_add i 1), None)) s.
Proof using batch_ok.
  intros Hi Hlt. crun. by rewrite (succ_defined mode N nsp).
Qed.

(** The body of the loop: the statements up to the call are
    [batch_pt_body], and the test of [result] reports and returns, or
    leaves the body. *)
Lemma batch_pt_stmts_run l i s :
  counter_ok mode i → int_lt i N = true →
  match batch_pt_body p T X0 nsp nel lewis M a X1 verbose i s with
  | Ret r s' =>
      ∃ l', exec_stmt mode fuel (batch_pt_solve;; batch_pt_check)
              (batch_pt_env l i) s
            = if int_ne r 0
              then match batch_pt_report i s' with
                   | Ret _ s'' =>
                       Ret (inr (batch_pt_env l' i, Some (Vint r))) s''
                   | Fault f => Fault f
                   end
              else Ret (inr (batch_pt_env l' i, None)) s'
  | Fault f =>
      exec_stmt mode fuel (batch_pt_solve;; batch_pt_check)
        (batch_pt_env l i) s
      = Fault f
  end.
Proof using batch_ok.
  intros Hi Hlt. pose proof (offset_defined mode N nsp i) as Ho.
  unfold batch_pt_body, bind, read.
  destruct (load (st_mem s) (ptr_add T i)) as [vT|] eqn:HT;
    [|crun; by rewrite HT].
  destruct (load (st_mem s) (ptr_add p i)) as [vp|] eqn:Hp;
    [|crun; by rewrite HT, Hp].
  destruct (solve_pt _ _ _ _ _ _ _ _ _ _ s) as [r s'|f] eqn:Hs;
    [|crun with HT Hp Ho; by rewrite Hs].
  eexists (PtLocals _ _ _ _ _). crun with HT Hp Ho. rewrite Hs.
  by destruct (int_ne r 0).
Qed.

(** The call, with any number of iterations allowed. *)
Lemma batch_pt_fn_run s :
  run_function mode fuel batch_pt_fn batch_pt_args s
  = returns_int
      (batch_pt_loop N p T X0 nsp nel lewis M a X1 verbose fuel 0) s.
Proof using batch_ok.
  apply (call_agrees mode fuel batch_pt_fn ("i" < "N")%C (Sincr "i")
           (batch_pt_solve;; batch_pt_check)%C _ batch_pt_env
           (batch_pt_body p T X0 nsp nel lewis M a X1 verbose)
           batch_pt_report N (counter_ok mode)
           eq_refl (λ i, counter_succ_ok mode N nsp i batch_ok)
           (λ _ _ _, eq_refl) batch_pt_step_run
           batch_pt_stmts_run batch_pt_args ("i" ::= 0)%C _
           (PtLocals None None None None None) 0 s eq_refl eq_refl eq_refl).
  by destruct mode.
Qed.

(** The slice offset of an item does not fit in an [int]: in the reading
    of ISO C the statements of the body end in the error, once [T[i]] and
    [p[i]] are read. *)
Lemma batch_pt_solve_overflow l i s :
  mode = Undefined → ¬ in_int (i * nsp) →
  is_Some (load (st_mem s) (ptr_add T i)) →
  is_Some (load (st_mem s) (ptr_add p i)) →
  exec_stmt mode fuel batch_pt_solve (batch_pt_env l i) s
  = Ret (inl Overflow) s.
Proof.
  intros Hm Hfit [vT HT] [vp Hp]. crun.
  by rewrite HT, Hp, Hm, (arith_overflow _ _ Hfit).
Qed.

(** The call, with as many iterations allowed as the batch has items. *)
Lemma batch_pt_fn_agrees s :
  in_int N → (Z.to_nat N ≤ fuel)%nat →
  run_function mode fuel batch_pt_fn batch_pt_args s
  = returns_int (batch_pt N p T X0 nsp nel lewis M a X1 verbose) s.
Proof using batch_ok.
  intros HN Hfuel. rewrite batch_pt_fn_run. unfold returns_int, bind.
  by rewrite (batch_pt_fuel N p T X0 nsp nel lewis M a X1 verbose fuel).
Qed.

End batch_pt.

(** ** [batch_rhou] *)

Section batch_rhou.
Variables (N : Z) (rho u X0 : ptr) (nsp nel : Z) (lewis M a X1 T : ptr).
Variable verbose : Z.
Variable mode : overflow.
Variable fuel : nat.
Hypothesis batch_ok : batch_defined mode N nsp.

Definition batch_rhou_args : list value :=
  [Vint N; Vptr rho; Vptr u; Vptr X0; Vint nsp; Vint nel; Vptr lewis;
   Vptr M; Vptr a; Vptr X1; Vptr T; Vint verbose].

(** The locals of [batch_rhou] other than the counter. *)
Record batch_rhou_locals := RhouLocals {
  rh_rhoi : option value;
  rh_ui : option value;
  rh_X0i : option value;
  rh_X1i : option value;
  rh_Ti : option value;
  rh_result : option value
}.

Definition batch_rhou_env (l : batch_rhou_locals) (i : Z)
  : list (string * (ctype * option value)) :=
  [("N", (Tint, Some (Vint N))); ("rho", (Tptr, Some (Vptr rho)));
   ("u", (Tptr, Some (Vptr u))); ("X0", (Tptr, Some (Vptr X0)));
   ("nsp", (Tint, Some (Vint nsp))); ("nel", (Tint, Some (Vint nel)));
   ("lewis", (Tptr, Some (Vptr lewis))); ("M", (Tptr, Some (Vptr M)));
   ("a", (Tptr, Some (Vptr a))); ("X1", (Tptr, Some (Vptr X1)));
   ("T", (Tptr, Some (Vptr T))); ("verbose", (Tint, Some (Vint verbose)));
   ("rhoi", (Tdouble, rh_rhoi l)); ("ui", (Tdouble, rh_ui l));
   ("X0i", (Tptr, rh_X0i l)); ("X1i", (Tptr, rh_X1i l));
   ("Ti", (Tptr, rh_Ti l)); ("i", (Tint, Some (Vint i)));
   ("result", (Tint, rh_result l))].

Lemma batch_rhou_step_run l i s :
  counter_ok mode i → int_lt i N = true →
  exec_stmt mode fuel (Sincr "i") (batch_rhou_env l i) s
  = Ret (inr (batch_rhou_env l (int_add i 1), None)) s.
Proof using batch_ok.
  intros Hi Hlt. crun. by rewrite (succ_defined mode N nsp).
Qed.

Lemma batch_rhou_stmts_run l i s :
  counter_ok mode i → int_lt i N = true →
  match batch_rhou_body rho u X0 nsp nel lewis M a X1 T verbose i s with
  | Ret r s' =>
      ∃ l', exec_stmt mode fuel (batch_rhou_solve;; batch_rhou_check)
              (batch_rhou_env l i) s
            = if int_ne r 0
              then match batch_rhou_report i s' with
                   | Ret _ s'' =>
                       Ret (inr (batch_rhou_env l' i, Some (Vint r))) s''
                   | Fault f => Fault f
                   end
              else Ret (inr (batch_rhou_env l' i, None)) s'
  | Fault f =>
      exec_stmt mode fuel (batch_rhou_solve;; batch_rhou_check)
        (batch_rhou_env l i) s
      = Fault f
  end.
Proof using batch_ok.
  intros Hi Hlt. pose proof (offset_defined mode N nsp i) as Ho.
  unfold batch_rhou_body, bind, read.
  destruct (load (st_mem s) (ptr_add rho i)) as [vr|] eqn:Hr;
    [|crun; by rewrite Hr].
  destruct (load (st_mem s) (ptr_add u i)) as [vu|] eqn:Hu;
    [|crun; by rewrite Hr, Hu].
  destruct (solve_rhou _ _ _ _ _ _ _ _ _ _ _ s) as [r s'|f] eqn:Hs;
    [|crun with Hr Hu Ho; by rewrite Hs].
  eexists (RhouLocals _ _ _ _ _ _). crun with Hr Hu Ho. rewrite Hs.
  by destruct (int_ne r 0).
Qed.

Lemma batch_rhou_fn_run s :
  run_function mode fuel batch_rhou_fn batch_rhou_args s
  = returns_int
      (batch_rhou_loop N rho u X0 nsp nel lewis M a X1 T verbose fuel 0) s.
Proof using batch_ok.
  apply (call_agrees mode fuel batch_rhou_fn ("i" < "N")%C (Sincr "i")
           (batch_rhou_solve;; batch_rhou_check)%C _ batch_rhou_env
           (batch_rhou_body rho u X0 nsp nel lewis M a X1 T verbose)
           batch_rhou_report N (counter_ok mode)
           eq_refl (λ i, counter_succ_ok mode N nsp i batch_ok)
           (λ _ _ _, eq_refl) batch_rhou_step_run
           batch_rhou_stmts_run batch_rhou_args ("i" ::= 0)%C _
           (RhouLocals None None None None None None) 0 s eq_refl eq_refl
           eq_refl).
  by destruct mode.
Qed.

Lemma batch_rhou_fn_agrees s :
  in_int N → (Z.to_nat N ≤ fuel)%nat →
  run_function mode fuel batch_rhou_fn batch_rhou_args s
  = returns_int (batch_rhou N rho u X0 nsp nel lewis M a X1 T verbose) s.
Proof using batch_ok.
  intros HN Hfuel. rewrite batch_rhou_fn_run. unfold returns_int, bind.
  by rewrite (batch_rhou_fuel N rho u X0 nsp nel lewis M a X1 T verbose
                fuel).
Qed.

End batch_rhou.

(** ** The theorems *)

(** A call in the reading [m] that ends in a value of type [int], in a
    fault of [Exec] or, where overflow is undefined, in a signed overflow:
    not in another error of [CSem]. *)
Definition ends_well (m : overflow) (o : outcome (cerror + value)) : Prop :=
  match o with
  | Ret (inr v) _ => type_of v = Tint
  | Ret (inl e) _ => m = Undefined ∧ e = Overflow
  | Fault _ => True
  end.

(** The five functions pass the check of [CTyping], and return [int]. *)
Lemma ceq_functions_checked :
  Forall (λ fn, check_function fn ∧ fn_return fn = Tint) ceq_functions.
Proof. unfold ceq_functions. by repeat (constructor; [by vm_compute|]). Qed.

(** C15: the syntax tree of [batch_pt] and the definition [batch_pt] of
    [Ceq] agree.  For every [int] [N], every solver, every store and every
    bound on the iterations of at least [N], the call of the function of
    the source with the arguments [N, p, T, X0, nsp, nel, lewis, M, a, X1,
    verbose] returns the [int] that [batch_pt] returns, in the same state,
    or faults as [batch_pt] does; it does not end in an error of the
    interpreter. *)
Theorem batch_pt_fn_correct N p T X0 nsp nel lewis M a X1 verbose fuel s :
  in_int N → (Z.to_nat N ≤ fuel)%nat →
  run_function Wraps fuel batch_pt_fn
    (batch_pt_args N p T X0 nsp nel lewis M a X1 verbose) s
  = returns_int (batch_pt N p T X0 nsp nel lewis M a X1 verbose) s.
Proof. by apply (batch_pt_fn_agrees _ _ _ _ _ _ _ _ _ _ _ Wraps _ I). Qed.

(** C16: the syntax tree of [batch_rhou] and the definition [batch_rhou] of
    [Ceq] agree, in the same sense. *)
Theorem batch_rhou_fn_correct N rho u X0 nsp nel lewis M a X1 T verbose
    fuel s :
  in_int N → (Z.to_nat N ≤ fuel)%nat →
  run_function Wraps fuel batch_rhou_fn
    (batch_rhou_args N rho u X0 nsp nel lewis M a X1 T verbose) s
  = returns_int (batch_rhou N rho u X0 nsp nel lewis M a X1 T verbose) s.
Proof. by apply (batch_rhou_fn_agrees _ _ _ _ _ _ _ _ _ _ _ _ Wraps _ I). Qed.

(** C17: a batch that fits has a meaning in ISO C.  In the reading in which
    a signed overflow is an error, when [N] is an [int] and the offset
    [(N-1)*nsp] of the last slice fits in an [int], the calls of the syntax
    trees of [batch_pt] and [batch_rhou] still have the outcomes of
    [batch_pt] and [batch_rhou]: neither [i++] nor [i*nsp] overflows in any
    iteration, for any solver and any store. *)
Theorem batch_fn_defined N p T X0 nsp nel lewis M a X1 T' verbose fuel s :
  in_int N → slices_fit N nsp → (Z.to_nat N ≤ fuel)%nat →
  run_function Undefined fuel batch_pt_fn
    (batch_pt_args N p T X0 nsp nel lewis M a X1 verbose) s
  = returns_int (batch_pt N p T X0 nsp nel lewis M a X1 verbose) s
  ∧ run_function Undefined fuel batch_rhou_fn
      (batch_rhou_args N p T X0 nsp nel lewis M a X1 T' verbose) s
    = returns_int (batch_rhou N p T X0 nsp nel lewis M a X1 T' verbose) s.
Proof.
  intros HN Hfit Hfuel.
  split; [by apply batch_pt_fn_agrees|by apply batch_rhou_fn_agrees].
Qed.

(** C39: beyond that bound the source has no meaning in ISO C.  At an index
    [i] whose offset [i*nsp] is not an [int], the statements of the body of
    [batch_pt] (the reads of [T[i]] and [p[i]], then [X0i = X0 + i*nsp])
    end in the error of a signed overflow, on every store in which the two
    cells can be read; the solver is not called. *)
Theorem batch_pt_fn_overflow N p T X0 nsp nel lewis M a X1 verbose fuel l i
    s :
  ¬ in_int (i * nsp) →
  is_Some (load (st_mem s) (ptr_add T i)) →
  is_Some (load (st_mem s) (ptr_add p i)) →
  exec_stmt Undefined fuel batch_pt_solve
    (batch_pt_env N p T X0 nsp nel lewis M a X1 verbose l i) s
  = Ret (inl Overflow) s.
Proof. intros. by apply batch_pt_solve_overflow. Qed.

(** C19: the definitions [pt], [rhou] and [main] of the model are what the
    source means: the syntax trees of [pt] and [rhou] (one [return] of the
    call of the solver with the parameters in the order of the source) and
    of [main] (the [printf] of its line, [return 0]), run by the
    interpreter, have the outcomes of [pt], [rhou] and [main] of [Ceq], on
    every store, for every solver, in both readings of signed overflow and
    for every bound on the iterations. *)
Theorem single_fn_correct p T X0 nsp nel lewis M a X1 T' verbose m fuel s :
  run_function m fuel pt_fn (pt_args p T X0 nsp nel lewis M a X1 verbose) s
  = returns_int (pt p T X0 nsp nel lewis M a X1 verbose) s
  ∧ run_function m fuel rhou_fn
      (rhou_args p T X0 nsp nel lewis M a X1 T' verbose) s
    = returns_int (rhou p T X0 nsp nel lewis M a X1 T' verbose) s
  ∧ run_function m fuel main_fn [] s = returns_int main s.
Proof. split_and!; [apply pt_fn_run|apply rhou_fn_run|done]. Qed.

(** The syntax tree of [main] prints the line "Called main in ceq.c!"
    followed by a newline on stdout, returns 0 and leaves the store as it
    is. *)
Theorem main_fn_correct m fuel s :
  run_function m fuel main_fn [] s
  = Ret (inr (Vint 0)) (State (st_mem s) (st_out s +:+ main_message)).
Proof. reflexivity. Qed.

(** C18: no function of the source goes wrong.  A call of any of the five
    functions with arguments of the types of its parameters, on any store,
    with any solver, any bound on the iterations and in both readings of
    signed overflow, ends with a value of type [int], with a fault of
    [Exec] (an access outside the allocated cells, the bound on the
    iterations) or, in the reading of ISO C, with a signed overflow: never
    with a variable that is not declared or is read before it is assigned,
    an operator or a call at a wrong type, an unknown function, or a body
    that ends without [return]. *)
Theorem ceq_functions_safe m fn vs fuel s :
  fn ∈ ceq_functions → well_typed_args fn vs →
  ends_well m (run_function m fuel fn vs s).
Proof.
  intros Hfn Hvs.
  destruct (proj1 (Forall_forall _ _) ceq_functions_checked fn Hfn)
    as [Hc Hret].
  pose proof (check_function_sound m fuel fn vs s Hc Hvs) as Hsafe.
  by rewrite Hret in Hsafe.
Qed.

End deep.
