(* ===== verification/Report.v ===== *)
(** * Report: reading the failing index back from the diagnostic text

    When a solve fails, [batch_pt] and [batch_rhou] print

      Error in batch_pt @ position: <i>

    with the index in decimal ([printf] with [%d]).  The caller that captures
    stdout learns the failing input from this text only.  This file defines
    the reader of that text, a decimal parser and the removal of the fixed
    part of the message, and proves the round trip: the index printed is the
    index read, for every [int] and in fact every integer, and a message of
    one function is not read as a message of the other. *)

From Stdlib Require Import Ascii.
From stdpp Require Import pretty.
From S2P Require Import Prelude CInt Memory Exec Solver Loop Ceq CeqFacts.

(** ** Decimal numbers *)

(** The value of a decimal digit: its code less the code of the digit
    zero, as in the C idiom [c - '0']. *)
Definition digit_of (c : ascii) : option N :=
  let code := N_of_ascii c in
  if decide (48 ≤ code < 58)%N then Some (code - 48)%N else None.

(** The number whose leading digits have the value [acc] and whose other
    digits are [s]. *)
Fixpoint parse_digits (s : string) (acc : N) : option N :=
  match s with
  | EmptyString => Some acc
  | String c s' =>
      match digit_of c with
      | Some d => parse_digits s' (acc * 10 + d)%N
      | None => None
      end
  end.

(** A non-empty string of digits. *)
Definition parse_N (s : string) : option N :=
  match s with
  | EmptyString => None
  | _ => parse_digits s 0
  end.

(** An optional minus sign and a non-empty string of digits. *)
Definition parse_Z (s : string) : option Z :=
  match s with
  | String "-" s' => (λ n, - Z.of_N n) <$> parse_N s'
  | _ => Z.of_N <$> parse_N s
  end.

(** ** The message *)

(** [s] without its initial segment [p], when it has it. *)
Fixpoint strip_prefix (p s : string) : option string :=
  match p, s with
  | EmptyString, _ => Some s
  | String c p', String c' s' =>
      if decide (c = c') then strip_prefix p' s' else None
  | String _ _, EmptyString => None
  end.

(** The index that a message with the fixed part [p] reports. *)
Definition parse_report (p t : string) : option Z :=
  strip_prefix p t ≫= parse_Z.

(** The readers of the messages of the two functions. *)
Definition batch_pt_position : string → option Z :=
  parse_report "Error in batch_pt @ position: ".

Definition batch_rhou_position : string → option Z :=
  parse_report "Error in batch_rhou @ position: ".

(** ** Digits *)

Section digits.
Implicit Types (x acc : N) (s : string).

Lemma digit_of_pretty x : (x < 10)%N → digit_of (pretty_N_char x) = Some x.
Proof.
  intros Hx.
  assert (x = 0 ∨ x = 1 ∨ x = 2 ∨ x = 3 ∨ x = 4 ∨ x = 5 ∨ x = 6 ∨ x = 7
          ∨ x = 8 ∨ x = 9)%N by lia.
  naive_solver.
Qed.

(** Reading the digits of [x] in front of [s] leaves [s] to be read with
    the value [x]. *)
Lemma parse_digits_pretty x s :
  parse_digits (pretty_N_go x s) 0 = parse_digits s x.
Proof.
  revert s. induction (N.lt_wf_0 x) as [x _ IH]; intros s.
  destruct (decide (x = 0)%N) as [->|Hx]; [by rewrite pretty_N_go_0|].
  rewrite pretty_N_go_step by lia. rewrite IH by (apply N.div_lt; lia).
  simpl.
  rewrite digit_of_pretty by (apply N.mod_lt; lia). f_equal.
  pose proof (N.div_mod x 10). lia.
Qed.

(** The digits of a positive number are not the empty string. *)
Lemma pretty_N_go_nonempty x s : s ≠ "" → pretty_N_go x s ≠ "".
Proof.
  revert s. induction (N.lt_wf_0 x) as [x _ IH]; intros s Hs.
  destruct (decide (x = 0)%N) as [->|Hx]; [by rewrite pretty_N_go_0|].
  rewrite pretty_N_go_step by lia. apply IH; [apply N.div_lt; lia|done].
Qed.

Lemma pretty_N_nonempty x : pretty x ≠ "".
Proof.
  unfold pretty, pretty_N. case_decide; [done|].
  rewrite pretty_N_go_step by lia. by apply pretty_N_go_nonempty.
Qed.

Lemma pretty_N_no_dash x s : pretty x ≠ String "-" s.
Proof.
  unfold pretty, pretty_N. case_decide; [done|].
  by apply (pretty_N_go_ne_dash x "" s).
Qed.

Lemma parse_pretty_N x : parse_N (pretty x) = Some x.
Proof.
  pose proof (pretty_N_nonempty x) as Hne. unfold parse_N.
  destruct (pretty x) as [|c s] eqn:Hp; [done|]. rewrite <- Hp.
  unfold pretty, pretty_N. case_decide; [by subst|].
  apply parse_digits_pretty.
Qed.

End digits.

(** ** Integers *)

Lemma parse_pretty_pos (x : positive) : parse_Z (pretty x) = Some (Z.pos x).
Proof.
  pose proof (pretty_N_no_dash (N.pos x)) as Hd. unfold parse_Z.
  change (pretty x) with (pretty (N.pos x)) in *.
  destruct (pretty (N.pos x)) as [|c s] eqn:Hp;
    [by destruct (pretty_N_nonempty (N.pos x))|].
  destruct (decide (c = "-"%char)) as [->|Hc]; [by destruct (Hd s)|].
  rewrite <- Hp, parse_pretty_N. clear Hp Hd.
  destruct c as [b0 b1 b2 b3 b4 b5 b6 b7]; simpl.
  repeat case_match; simplify_eq; done.
Qed.

Lemma parse_pretty_Z (z : Z) : parse_Z (pretty z) = Some z.
Proof.
  destruct z as [|x|x]; [done|apply parse_pretty_pos|].
  change (pretty (Z.neg x)) with (String "-" (pretty (N.pos x))).
  unfold parse_Z. by rewrite parse_pretty_N.
Qed.

(** ** The message *)

Lemma strip_prefix_app p s : strip_prefix p (p +:+ s) = Some s.
Proof.
  induction p as [|c p IH]; [by destruct s|].
  rewrite append_cons. simpl. by rewrite decide_True.
Qed.

Lemma parse_report_pretty p i : parse_report p (p +:+ pretty i) = Some i.
Proof.
  unfold parse_report. rewrite strip_prefix_app. apply parse_pretty_Z.
Qed.

(** ** The round trip *)

(** A message of one function is not read as a message of the other. *)
Lemma batch_positions_apart i :
  batch_pt_position (format batch_rhou_error [i]) = None
  ∧ batch_rhou_position (format batch_pt_error [i]) = None.
Proof. by rewrite format_batch_pt_error, format_batch_rhou_error. Qed.

(** C29: the index that [batch_pt] reports on an empty output is the index
    that [batch_pt_position] reads back from the output: [%d] followed by
    the decimal parser is the identity, for negative indices too. *)
Theorem batch_pt_report_roundtrip i m :
  ∃ s', batch_pt_report i (State m "") = Ret () s'
        ∧ batch_pt_position (st_out s') = Some i.
Proof.
  eexists. split; [apply batch_pt_report_run|].
  apply (parse_report_pretty "Error in batch_pt @ position: ").
Qed.

(** The same round trip for the message of [batch_rhou]. *)
Theorem batch_rhou_report_roundtrip i m :
  ∃ s', batch_rhou_report i (State m "") = Ret () s'
        ∧ batch_rhou_position (st_out s') = Some i.
Proof.
  eexists. split; [apply batch_rhou_report_run|].
  apply (parse_report_pretty "Error in batch_rhou @ position: ").
Qed.
