(* ===== verification/Status.v ===== *)
(** * Status: the ways a solve ends, and their codes

    The solvers return an [int]: 0 on success, and a code other than 0 for
    each of the four kinds of failure that the specification tells apart
    (sections 6 and 7): the iteration cap was reached, the reduced system
    is singular, a temperature is outside the ranges of the polynomials,
    the input is inconsistent.  The specification leaves the numbers to the
    implementation and asks only that the kinds can be told apart; the
    assignment is therefore a class, [StatusCodes], with the requirements
    as laws, and [kind_of] reads the kind back from a status.

    The sources of the solvers (pt.c, rhou.c) are not under [src/]; the
    definitions of this file follow the specification. *)

From stdpp Require Import finite.
From S2P Require Import Prelude CInt.

(** ** The kinds of failure *)

Inductive failure :=
  | ConvergenceFailure      (* an iteration cap was reached *)
  | SingularSystem          (* the reduced linear system is degenerate *)
  | OutOfRangeTemperature   (* a temperature outside all polynomial ranges *)
  | InconsistentInput.      (* composition not normalised, or impossible *)

#[export] Instance failure_eq_dec : EqDecision failure.
Proof. solve_decision. Defined.

#[export, refine] Instance failure_finite : Finite failure :=
  {| enum := [ConvergenceFailure; SingularSystem; OutOfRangeTemperature;
              InconsistentInput] |}.
Proof.
  - by apply (bool_decide_unpack _).
  - intros []; by apply (bool_decide_unpack _).
Defined.

(** How a solve ended: [None] is success. *)
Abbreviation verdict := (option failure) (only parsing).

(** ** Status codes *)

(** An assignment of codes to the kinds of failure: different kinds have
    different codes, none is the code 0 of success, and all are [int]s. *)
Class StatusCodes := {
  status_code : failure → Z;
  status_code_inj :: Inj (=) (=) status_code;
  status_code_nonzero e : status_code e ≠ 0;
  status_code_int e : in_int (status_code e)
}.

Section codes.
Context `{StatusCodes}.
Implicit Types (v : verdict) (e : failure) (z : Z).

(** The status returned for a verdict. *)
Definition status_of v : Z := from_option status_code 0 v.

(** The verdict that a status stands for; [None] for a number that is the
    code of nothing. *)
Definition kind_of z : option verdict :=
  if decide (z = 0) then Some None
  else Some <$> head (filter (λ e, status_code e = z) (enum failure)).

Lemma status_of_int v : in_int (status_of v).
Proof. destruct v; simpl; [apply status_code_int|done]. Qed.

Lemma status_of_0 v : status_of v = 0 ↔ v = None.
Proof.
  destruct v as [e|]; simpl; [|done].
  split; [by intros ?%status_code_nonzero|done].
Qed.

(** The kind is read back from the status. *)
Lemma kind_of_status v : kind_of (status_of v) = Some v.
Proof.
  unfold kind_of. destruct v as [e|]; simpl; [|done].
  rewrite decide_False by apply status_code_nonzero.
  rewrite (list_filter_iff _ (λ e', e' = e))
    by (intros e'; split; [apply (inj _)|by intros ->]).
  by destruct e.
Qed.

(** A status that stands for a verdict is the status of that verdict. *)
Lemma kind_of_Some z v : kind_of z = Some v → status_of v = z.
Proof.
  unfold kind_of. case_decide as Hz; [by intros [= <-]|].
  destruct (head _) as [e|] eqn:He; [|done]. intros [= <-].
  apply head_Some_elem_of, list_elem_of_filter in He as [He _]. done.
Qed.

#[export] Instance status_of_inj : Inj (=) (=) status_of.
Proof.
  intros v1 v2 Hv. apply (inj Some).
  by rewrite <- (kind_of_status v1), <- (kind_of_status v2), Hv.
Qed.

(** A status is the status of a verdict exactly when it is 0 or a code. *)
Lemma kind_of_is_Some z :
  is_Some (kind_of z) ↔ z = 0 ∨ ∃ e, status_code e = z.
Proof.
  split.
  - intros [[e|] <-%kind_of_Some]; [right; by exists e|by left].
  - intros [->|[e <-]]; [by exists None|].
    exists (Some e). apply (kind_of_status (Some e)).
Qed.

End codes.

(** ** An assignment *)

(** The codes 1 to 4, in the order of the taxonomy. *)
Definition default_code (e : failure) : Z :=
  match e with
  | ConvergenceFailure => 1
  | SingularSystem => 2
  | OutOfRangeTemperature => 3
  | InconsistentInput => 4
  end.

#[export, refine] Instance default_codes : StatusCodes :=
  {| status_code := default_code |}.
Proof.
  - by intros [] [].
  - by intros [].
  - intros []; unfold in_int, INT_MIN, INT_MAX; simpl; lia.
Defined.
