(* ===== verification/Thermo.v ===== *)
(** * Thermo: the table of polynomial coefficients

    The array [lewis] that every entry point of [src/ceq.c] hands to the
    solver holds, for each species, three temperature ranges (low, mid, high)
    of nine polynomial coefficients each: [nsp*3*9] doubles, as the doc
    comments of the source say.  The evaluator of standard-state properties
    (specification, section 4.1) selects the range that contains the
    temperature and evaluates the polynomial of that range; a temperature
    outside all ranges is rejected.

    The comments give the size of the table and the specification the
    numbers of ranges and coefficients; neither gives the order of the
    cells.  This file assumes one (species-major, then range, then
    coefficient: [coefficient_offset]), proves that with it the
    coefficients of every species lie inside
    the table and in cells of their own, relates the table as a list to the
    cells of the store it was read from, and defines the selection of the
    range.  The polynomials themselves (the specification names them only as
    the standard recurrence) are a parameter.

    The comparisons of the selection are those of IEEE binary64, with
    their specification in [FloatAxioms]: the ranges partition the
    temperatures from [T_min] to [T_max], a boundary belongs to the range
    above it, and a temperature that is not a number has no range.

    The source of the evaluator is not under [src/]; the definitions follow
    the specification and the array shapes of the doc comments of
    [src/ceq.c]. *)

From Corelib Require Import PrimFloat SpecFloat FloatOps FloatAxioms.
From stdpp Require Import gmap.
From S2P Require Import Prelude CInt Memory Exec Solver Status.

(** ** Layout *)

Inductive range := Low | Mid | High.

#[export] Instance range_eq_dec : EqDecision range.
Proof. solve_decision. Defined.

Definition range_index (r : range) : Z :=
  match r with Low => 0 | Mid => 1 | High => 2 end.

Definition ranges_per_species : Z := 3.
Definition coefficients_per_range : Z := 9.

(** The place in the table of coefficient [k] of range [r] of species
    [s], in the order that this model assumes: the coefficients of a range
    are consecutive, and so are the ranges of a species. *)
Definition coefficient_offset (s : Z) (r : range) (k : Z) : Z :=
  (s * ranges_per_species + range_index r) * coefficients_per_range + k.

(** The nine coefficients of range [r] of species [s]. *)
Definition coefficients {A} (table : list A) (s : Z) (r : range) : list A :=
  take (Z.to_nat coefficients_per_range)
       (drop (Z.to_nat (coefficient_offset s r 0)) table).

(** ** Ranges *)

(** The temperatures that bound the three ranges: [Low] is
    [T_min .. T_low), [Mid] is [T_low .. T_high), [High] is
    [T_high .. T_max]. *)
Record range_bounds := RangeBounds {
  T_min : double;
  T_low : double;
  T_high : double;
  T_max : double
}.

(** The range that contains [T]; none below [T_min], above [T_max], or for
    a temperature that is not a number. *)
Definition select_range (b : range_bounds) (T : double) : option range :=
  if (T <? T_min b)%float then None
  else if (T <? T_low b)%float then Some Low
  else if (T <? T_high b)%float then Some Mid
  else if (T <=? T_max b)%float then Some High
  else None.

(** ** Evaluation *)

(** The standard-state properties of a species. *)
Inductive property := Gibbs | Enthalpy | Entropy | HeatCapacity.

(** The value of a property at a temperature from nine coefficients. *)
Class Polynomials := polynomial : property → list double → double → double.

(** A property of species [s] at temperature [T]: the polynomial of the
    range that contains [T]. *)
Definition evaluate `{Polynomials} (b : range_bounds) (table : list double)
    (q : property) (s : Z) (T : double) : failure + double :=
  match select_range b T with
  | None => inl OutOfRangeTemperature
  | Some r => inr (polynomial q (coefficients table s r) T)
  end.

(** The values of a property at the boundary between two adjoining ranges
    differ by at most [tol]: continuity of well-formed data, which the
    evaluator can verify and does not enforce. *)
Definition continuous_at `{Polynomials} (tol : double) (table : list double)
    (q : property) (s : Z) (r1 r2 : range) (T : double) : bool :=
  (abs (polynomial q (coefficients table s r1) T
        - polynomial q (coefficients table s r2) T) <=? tol)%float.

Definition continuous `{Polynomials} (tol : double) (b : range_bounds)
    (table : list double) (nsp : Z) : bool :=
  forallb (λ s,
    forallb (λ q, continuous_at tol table q s Low Mid (T_low b)
                  && continuous_at tol table q s Mid High (T_high b))
            [Gibbs; Enthalpy; Entropy; HeatCapacity])
    (seqZ 0 nsp).

(** The bounds are in order: [T_min < T_low < T_high <= T_max]. *)
Definition ordered (b : range_bounds) : bool :=
  (T_min b <? T_low b)%float && (T_low b <? T_high b)%float
  && (T_high b <=? T_max b)%float.

(** [T] lies between [T_min] and [T_max]. *)
Definition in_range (b : range_bounds) (T : double) : bool :=
  (T_min b <=? T)%float && (T <=? T_max b)%float.

(** ** The order of the doubles

    The comparisons of binary64 as [SpecFloat] specifies them: a total
    preorder on the doubles that are numbers. *)

Section order.
Implicit Types (x y z : double) (f : spec_float) (c : comparison).

Lemma SFcompare_antisym f1 f2 :
  SFcompare f2 f1 = CompOpp <$> SFcompare f1 f2.
Proof.
  destruct f1 as [s1|s1| |s1 m1 e1], f2 as [s2|s2| |s2 m2 e2]; simpl;
    try done; try (by destruct s1); try (by destruct s2);
    try (by destruct s1, s2).
  rewrite (Z.compare_antisym e1 e2).
  destruct s1, s2, (e1 ?= e2)%Z; simpl; try done;
    by rewrite !Pos.compare_cont_antisym.
Qed.

(** Two numbers compare. *)
Lemma SFcompare_None f1 f2 :
  SFcompare f1 f2 = None ↔ f1 = S754_nan ∨ f2 = S754_nan.
Proof. destruct f1, f2; simpl; naive_solver. Qed.

(** Not above, and not above again, is not above; and equal only when
    both are. *)
Lemma SFcompare_trans f1 f2 f3 c12 c23 :
  SFcompare f1 f2 = Some c12 → SFcompare f2 f3 = Some c23 →
  c12 ≠ Gt → c23 ≠ Gt →
  ∃ c13, SFcompare f1 f3 = Some c13 ∧ c13 ≠ Gt
         ∧ (c13 = Eq → c12 = Eq ∧ c23 = Eq).
Proof.
  destruct f1 as [s1|s1| |s1 m1 e1], f2 as [s2|s2| |s2 m2 e2],
    f3 as [s3|s3| |s3 m3 e3]; simpl; try done;
    try destruct s1; try destruct s2; try destruct s3;
    intros; simplify_eq; try (by eexists);
    rewrite ?Pos.compare_cont_spec in *; unfold Pos.switch_Eq in *;
    destruct (Z.compare_spec e1 e2), (Z.compare_spec e2 e3),
      (Z.compare_spec e1 e3); try lia; simplify_eq; try (by eexists);
    destruct (Pos.compare_spec m1 m2), (Pos.compare_spec m2 m3),
      (Pos.compare_spec m1 m3); try lia; simplify_eq/=; by eexists.
Qed.

Lemma leb_not_ltb x y : (x <=? y)%float = true → (y <? x)%float = false.
Proof.
  rewrite FloatAxioms.leb_spec, FloatAxioms.ltb_spec. unfold SFleb, SFltb.
  rewrite (SFcompare_antisym (Prim2SF x)).
  by destruct (SFcompare _ _) as [[]|].
Qed.

Lemma ltb_leb x y : (x <? y)%float = true → (x <=? y)%float = true.
Proof.
  rewrite FloatAxioms.leb_spec, FloatAxioms.ltb_spec. unfold SFleb, SFltb.
  by destruct (SFcompare _ _) as [[]|].
Qed.

Lemma ltb_not_ltb x y : (x <? y)%float = true → (y <? x)%float = false.
Proof. intros. by apply leb_not_ltb, ltb_leb. Qed.

Lemma ltb_irrefl x : (x <? x)%float = false.
Proof.
  destruct (x <? x)%float eqn:Hx; [|done]. by rewrite <- Hx, ltb_not_ltb.
Qed.

Lemma leb_trans x y z :
  (x <=? y)%float = true → (y <=? z)%float = true → (x <=? z)%float = true.
Proof.
  rewrite !FloatAxioms.leb_spec. unfold SFleb.
  destruct (SFcompare (Prim2SF x) _) as [c12|] eqn:H12; [|done].
  destruct (SFcompare (Prim2SF y) _) as [c23|] eqn:H23; [|done].
  intros ? ?.
  destruct (SFcompare_trans _ _ _ _ _ H12 H23) as (c13 & -> & ? & _);
    [by destruct c12|by destruct c23|]. by destruct c13.
Qed.

Lemma ltb_leb_trans x y z :
  (x <? y)%float = true → (y <=? z)%float = true → (x <? z)%float = true.
Proof.
  rewrite FloatAxioms.leb_spec, !FloatAxioms.ltb_spec. unfold SFleb, SFltb.
  destruct (SFcompare (Prim2SF x) _) as [c12|] eqn:H12; [|done].
  destruct (SFcompare (Prim2SF y) _) as [c23|] eqn:H23; [|done].
  intros ? ?.
  destruct (SFcompare_trans _ _ _ _ _ H12 H23) as (c13 & -> & ? & Heq);
    [by destruct c12|by destruct c23|].
  destruct c12, c23, c13; try done; by destruct Heq.
Qed.

Lemma leb_ltb_trans x y z :
  (x <=? y)%float = true → (y <? z)%float = true → (x <? z)%float = true.
Proof.
  rewrite FloatAxioms.leb_spec, !FloatAxioms.ltb_spec. unfold SFleb, SFltb.
  destruct (SFcompare (Prim2SF x) _) as [c12|] eqn:H12; [|done].
  destruct (SFcompare (Prim2SF y) _) as [c23|] eqn:H23; [|done].
  intros ? ?.
  destruct (SFcompare_trans _ _ _ _ _ H12 H23) as (c13 & -> & ? & Heq);
    [by destruct c12|by destruct c23|].
  destruct c12, c23, c13; try done; by destruct Heq.
Qed.

(** A comparison with something that is not a number fails. *)
Lemma is_nan_spec x : is_nan x = true ↔ Prim2SF x = S754_nan.
Proof.
  unfold is_nan. rewrite FloatAxioms.eqb_spec, negb_true_iff. unfold SFeqb.
  destruct (Prim2SF x) as [[]|[]| |[] m e]; simpl;
    rewrite ?Z.compare_refl, ?Pos.compare_cont_refl; naive_solver.
Qed.

Lemma ltb_nan x y : is_nan x = true → (x <? y)%float = false.
Proof.
  rewrite is_nan_spec, FloatAxioms.ltb_spec. unfold SFltb. by intros ->.
Qed.

Lemma leb_nan x y : is_nan x = true → (x <=? y)%float = false.
Proof.
  rewrite is_nan_spec, FloatAxioms.leb_spec. unfold SFleb. by intros ->.
Qed.

Lemma leb_is_number x y :
  (x <=? y)%float = true → is_nan x = false ∧ is_nan y = false.
Proof.
  rewrite FloatAxioms.leb_spec. unfold SFleb.
  destruct (SFcompare _ _) eqn:Hc; [|done]. intros _.
  split; apply not_true_is_false; rewrite is_nan_spec; intros Hn;
    rewrite Hn in Hc; [done|by destruct (Prim2SF x)].
Qed.

(** Two numbers are in order one way or the other. *)
Lemma leb_total x y :
  is_nan x = false → is_nan y = false → (x <=? y)%float = false →
  (y <? x)%float = true.
Proof.
  intros Hx%not_true_iff_false Hy%not_true_iff_false.
  rewrite is_nan_spec in Hx, Hy.
  rewrite FloatAxioms.leb_spec, FloatAxioms.ltb_spec.
  unfold SFleb, SFltb. rewrite (SFcompare_antisym (Prim2SF x)).
  destruct (SFcompare _ _) as [[]|] eqn:Hc; try done.
  apply SFcompare_None in Hc. naive_solver.
Qed.

End order.

(** ** The layout is that of the source *)

Lemma lewis_per_species_layout :
  lewis_per_species = ranges_per_species * coefficients_per_range.
Proof. reflexivity. Qed.

Lemma range_index_bounds r : 0 ≤ range_index r < ranges_per_species.
Proof. destruct r; unfold ranges_per_species; simpl; lia. Qed.

#[export] Instance range_index_inj : Inj (=) (=) range_index.
Proof. by intros [] []. Qed.

Section layout.
Variable nsp : Z.
Implicit Types (s k : Z) (r : range).

(** A coefficient of a species of the table is an element of the table. *)
Lemma coefficient_offset_bounds s r k :
  0 ≤ s < nsp → 0 ≤ k < coefficients_per_range →
  0 ≤ coefficient_offset s r k < nsp * lewis_per_species.
Proof.
  pose proof (range_index_bounds r).
  unfold coefficient_offset, lewis_per_species, ranges_per_species,
    coefficients_per_range in *. nia.
Qed.

(** Different coefficients are different elements. *)
Lemma coefficient_offset_inj s r k s' r' k' :
  0 ≤ k < coefficients_per_range → 0 ≤ k' < coefficients_per_range →
  coefficient_offset s r k = coefficient_offset s' r' k' →
  s = s' ∧ r = r' ∧ k = k'.
Proof.
  pose proof (range_index_bounds r). pose proof (range_index_bounds r').
  unfold coefficient_offset, ranges_per_species, coefficients_per_range in *.
  intros Hk Hk' Heq.
  assert (s = s') as <- by nia.
  assert (range_index r = range_index r') as <-%(inj _) by nia.
  repeat split. lia.
Qed.

(** The cell of a coefficient is a cell of the table that the entry points
    hand to the solver. *)
Lemma coefficient_cell lewis s r k :
  0 ≤ s < nsp → 0 ≤ k < coefficients_per_range →
  between lewis (nsp * lewis_per_species) (lewis + coefficient_offset s r k).
Proof.
  intros Hs Hk. pose proof (coefficient_offset_bounds s r k Hs Hk).
  unfold between. lia.
Qed.

(** There are nine coefficients. *)
Lemma coefficients_length {A} (table : list A) s r :
  0 ≤ s < nsp → length table = Z.to_nat (nsp * lewis_per_species) →
  length (coefficients table s r) = Z.to_nat coefficients_per_range.
Proof.
  intros Hs Hlen. unfold coefficients. rewrite length_take, length_drop, Hlen.
  pose proof (coefficient_offset_bounds s r 0 Hs).
  pose proof (range_index_bounds r).
  unfold coefficient_offset, lewis_per_species, ranges_per_species,
    coefficients_per_range in *. nia.
Qed.

(** Coefficient [k] is the element of the table at its offset. *)
Lemma coefficients_lookup {A} (table : list A) s r k :
  0 ≤ s → 0 ≤ k < coefficients_per_range →
  coefficients table s r !! Z.to_nat k
  = table !! Z.to_nat (coefficient_offset s r k).
Proof.
  intros Hs Hk. pose proof (range_index_bounds r). unfold coefficients.
  rewrite lookup_take_lt, lookup_drop by lia. f_equal.
  unfold coefficient_offset, ranges_per_species, coefficients_per_range in *.
  nia.
Qed.

(** The coefficients of a table that was read from the store are the
    contents of their cells. *)
Lemma coefficients_load (m : gmap Z float) lewis table s r k :
  load_array m lewis (nsp * lewis_per_species) = Some table →
  0 ≤ s < nsp → 0 ≤ k < coefficients_per_range →
  coefficients table s r !! Z.to_nat k
  = load m (lewis + coefficient_offset s r k).
Proof.
  intros Hload Hs Hk. rewrite coefficients_lookup by lia.
  pose proof (coefficient_offset_bounds s r k Hs Hk) as Hoff.
  rewrite <- (load_array_lookup _ _ _ _ _ Hload) by lia.
  unfold load. f_equal. lia.
Qed.

End layout.

(** ** Selection *)

Section selection.
Context `{Polynomials}.
Variable b : range_bounds.

Lemma select_range_None T :
  select_range b T = None ↔
  (T <? T_min b)%float = true
  ∨ ((T <? T_low b)%float = false ∧ (T <? T_high b)%float = false
     ∧ (T <=? T_max b)%float = false).
Proof. unfold select_range. repeat case_match; naive_solver. Qed.

(** A temperature outside the ranges is rejected, for every property and
    species, whatever the table holds. *)
Lemma evaluate_out_of_range table q s T :
  select_range b T = None ↔
  evaluate b table q s T = inl OutOfRangeTemperature.
Proof. unfold evaluate. by destruct (select_range b T). Qed.

(** The ranges cover the temperatures from [T_min] to [T_max]. *)
Lemma select_range_total T : in_range b T → is_Some (select_range b T).
Proof.
  unfold in_range, select_range. intros [Hmin Hmax]%andb_prop_elim.
  apply Is_true_eq_true in Hmin, Hmax. apply leb_not_ltb in Hmin.
  rewrite Hmin, Hmax. by repeat case_match.
Qed.

(** A temperature that is not a number has no range. *)
Lemma select_range_nan T : is_nan T = true → select_range b T = None.
Proof.
  intros HT. unfold select_range. by rewrite !ltb_nan, leb_nan.
Qed.

Section ordered.
Hypothesis bounds_ordered : ordered b.

Lemma ordered_bounds :
  (T_min b <? T_low b)%float = true ∧ (T_low b <? T_high b)%float = true
  ∧ (T_high b <=? T_max b)%float = true.
Proof.
  pose proof bounds_ordered as Hb. unfold ordered in Hb.
  apply andb_prop_elim in Hb as [[Hmin Hlow]%andb_prop_elim Hmax].
  by split_and!; apply Is_true_eq_true.
Qed.

(** A boundary belongs to the range above it. *)
Lemma select_range_boundaries :
  select_range b (T_min b) = Some Low
  ∧ select_range b (T_low b) = Some Mid
  ∧ select_range b (T_high b) = Some High.
Proof.
  destruct ordered_bounds as (Hmin & Hlow & Hmax). unfold select_range.
  rewrite !ltb_irrefl, Hmin, Hlow, Hmax, (ltb_not_ltb _ _ Hmin),
    (ltb_not_ltb _ _ Hlow).
  by rewrite (ltb_not_ltb (T_min b) (T_high b))
    by eauto using ltb_leb_trans, ltb_leb.
Qed.

(** The temperatures that have a range are those from [T_min] to
    [T_max]: outside of them, and for what is not a number, the selection
    fails. *)
Lemma select_range_is_Some T : is_Some (select_range b T) ↔ in_range b T.
Proof.
  split; [|apply select_range_total].
  destruct ordered_bounds as (Hmin & Hlow & Hmax).
  destruct (is_nan T) eqn:HT; [by rewrite select_range_nan; [intros []|]|].
  destruct (leb_is_number _ _ Hmax) as [_ Hmax'].
  destruct (leb_is_number _ _ (ltb_leb _ _ Hmin)) as [Hmin' _].
  unfold select_range, in_range.
  destruct (T <? T_min b)%float eqn:H1; [by intros []|].
  destruct (T_min b <=? T)%float eqn:H2;
    [|by rewrite (leb_total _ _ Hmin' HT H2) in H1].
  destruct (T <=? T_max b)%float eqn:H3; [done|].
  apply leb_total in H3; [|done..].
  assert ((T_high b <? T)%float = true) as H4
    by eauto using leb_ltb_trans.
  assert ((T_low b <? T)%float = true) as H5
    by eauto using ltb_leb_trans, ltb_leb.
  rewrite (ltb_not_ltb _ _ H4), (ltb_not_ltb _ _ H5). by intros [].
Qed.

(** Continuity at the boundaries (specification, section 8): for a table
    that passes the check [continuous], the value of a property at a
    boundary temperature, which the evaluator takes from the range above,
    differs from the value of the range below by at most the tolerance. *)
Lemma evaluate_continuous tol table nsp q s :
  continuous tol b table nsp → 0 ≤ s < nsp →
  evaluate b table q s (T_low b)
  = inr (polynomial q (coefficients table s Mid) (T_low b))
  ∧ continuous_at tol table q s Low Mid (T_low b)
  ∧ evaluate b table q s (T_high b)
    = inr (polynomial q (coefficients table s High) (T_high b))
  ∧ continuous_at tol table q s Mid High (T_high b).
Proof.
  intros Hc Hs. destruct select_range_boundaries as (_ & Hlow & Hhigh).
  unfold evaluate. rewrite Hlow, Hhigh.
  unfold continuous in Hc. rewrite forallb_True, Forall_forall in Hc.
  specialize (Hc s). rewrite elem_of_seqZ, forallb_True, Forall_forall in Hc.
  assert (q ∈ [Gibbs; Enthalpy; Entropy; HeatCapacity]) as Hq
    by (destruct q; set_solver).
  apply (Hc ltac:(lia)) in Hq. by apply andb_prop_elim in Hq as [? ?].
Qed.

End ordered.

(** The evaluator fails in no other way. *)
Lemma evaluate_failure table q s T e :
  evaluate b table q s T = inl e → e = OutOfRangeTemperature.
Proof. unfold evaluate. destruct (select_range b T); naive_solver. Qed.

(** The value depends on the nine coefficients of the selected range
    only. *)
Lemma evaluate_local table table' q s T r :
  select_range b T = Some r →
  coefficients table s r = coefficients table' s r →
  evaluate b table q s T = evaluate b table' q s T.
Proof. unfold evaluate. by intros -> ->. Qed.

End selection.
