(* ===== verification/Newton.v ===== *)
(** * Newton: the control of the two solvers

    The solvers behind [solve_pt] and [solve_rhou] are iterations
    (specification, sections 4.2 to 4.4):

    - the pressure-temperature solve repeats a Newton step on the reduced
      system until the residual is below the tolerance and the active set
      of species did not change in the last step; each step is damped by
      one factor for the whole correction, and the set of active species is
      updated after it; the iteration is capped;
    - the density-energy solve searches the temperature at which the
      pressure-temperature solve gives the target internal energy, with a
      Newton step on the temperature, and is capped as well; a failure of
      an inner solve ends it at once.

    This file models the control of these iterations: the policy, the state
    of an iteration, the damping factor, the update of the active set, the
    convergence tests, the caps, the four kinds of failure and the trace for
    the diagnostic sink.  The numerical content of a step (the assembly and
    elimination of the reduced system, the residuals, the thermodynamic
    functions of a mixture) is the parameter [Kernel].

    [newton] packs the two solves as a [pure_solver]; [newton_ok] proves
    [PureOk] for it, so that the contract [SolverOk] and the locality
    [SolverLocal] that the theorems on [batch_pt] and [batch_rhou] assume
    hold for every solver of this form, whatever its kernel.

    The sources of the solvers are not under [src/]; the definitions follow
    the specification. *)

From Corelib Require Import PrimFloat.
From stdpp Require Import gmap.
From S2P Require Import Prelude CInt Memory Exec Solver PureSolver Status.
From S2P Require Import Thermo.

(** ** Policy, problem and iteration state *)

(** The policy values shared by both solvers (section 4.4).  The trace sink
    is the diagnostic text of the answer, selected by [verbose]. *)
Record policy := Policy {
  tolerance : double;         (* residual cutoff *)
  max_inner_iter : nat;       (* cap of the pressure-temperature iteration *)
  max_outer_iter : nat;       (* cap of the temperature search *)
  damping_cap : double;       (* bound on the change of ln n per step *)
  trace_threshold : double    (* mole fraction below which a species rests *)
}.

(** What a pressure-temperature solve is given. *)
Record problem := Problem {
  pr_p : double;
  pr_T : double;
  pr_X0 : list double;
  pr_nsp : Z;
  pr_nel : Z;
  pr_table : list double;
  pr_M : list double;
  pr_a : list double
}.

(** The state of an iteration: created per solve, discarded on return. *)
Record iter_state := IterState {
  it_n : list double;         (* mole numbers *)
  it_pi : list double;        (* element potentials *)
  it_active : list bool;      (* the active-species set *)
  it_count : nat;             (* steps taken *)
  it_residual : double        (* the largest relative residual *)
}.

(** The correction a Newton step computes. *)
Record correction := Correction {
  d_ln_n : list double;       (* change of ln n, per species *)
  d_pi : list double          (* change of the element potentials *)
}.

(** ** The numerical kernel *)

Class Kernel := {
  (* the elemental abundances of the initial composition can be met with
     the given species *)
  possible : problem → bool;
  (* the state the iteration starts from *)
  initial_state : problem → iter_state;
  (* the reduced system of a state, assembled and solved by elimination;
     [None] on a zero or near-zero pivot *)
  reduced_solve : problem → iter_state → option correction;
  (* the state after a correction scaled by the damping factor, with its
     residual *)
  advance : problem → double → correction → iter_state → iter_state;
  (* a resting species would be thermodynamically favourable again *)
  favourable : problem → iter_state → nat → bool;
  (* what the diagnostic sink receives for a step *)
  trace_line : iter_state → string;
  (* the temperature the search starts from *)
  initial_temperature : double → double → list double → double;
  (* specific internal energy and heat capacity at constant volume of a
     mixture at a temperature *)
  internal_energy : list double → list double → double → list double → double;
  cv_mix : list double → list double → double → list double → double
}.

(** The kernel keeps one mole number per species. *)
Class KernelOk `{Kernel} : Prop := {
  initial_state_length pr :
    length (it_n (initial_state pr)) = length (pr_X0 pr);
  advance_length pr lam d st :
    length (it_n (advance pr lam d st)) = length (it_n st)
}.

(** ** Compositions *)

Definition total (n : list double) : double := foldr add 0%float n.

(** Mole fractions from mole numbers: [X_s = n_s / sum n]. *)
Definition fractions (n : list double) : list double :=
  (λ x, x / total n)%float <$> n.

(** A composition is non-negative and sums to 1 within [tol]. *)
Definition normalised (tol : double) (X : list double) : bool :=
  forallb (λ x, 0 <=? x)%float X && (abs (total X - 1) <=? tol)%float.

(** Mean molar mass of a mixture. *)
Definition mean_molar_mass (X M : list double) : double :=
  total (zip_with mul X M).

(** The universal gas constant, 8.31446261815324 J/(mol K), as the nearest
    double. *)
Definition gas_constant : double := 0x1.0a1013e8990bep+3%float.

(** The pressure of an ideal gas: [p = rho R T / M]. *)
Definition trial_pressure (rho T : double) (X M : list double) : double :=
  (rho * gas_constant * T / mean_molar_mass X M)%float.

(** ** One step of the pressure-temperature iteration *)

Definition min_float (x y : double) : double :=
  if (x <? y)%float then x else y.

(** The damping factor: 1 when no active species changes by more than the
    cap, else the least of the factors [cap / |d|] that the active species
    over the cap need. *)
Definition damping_factor (cap : double) (active : list bool)
    (dln : list double) : double :=
  foldr (λ ad lam,
           if (ad.1 : bool) && (cap <? abs ad.2)%float
           then min_float lam (cap / abs ad.2)%float else lam)
        1%float (zip active dln).

Section solver.
Context `{Kernel}.
Variable bounds : range_bounds.
Variable pol : policy.

(** The active set after a step: an active species whose mole fraction
    fell below the trace threshold rests, a resting species that would be
    favourable again is reactivated. *)
Definition next_active (pr : problem) (st : iter_state) : list bool :=
  imap (λ s (act : bool),
          if act
          then negb (default 0 (fractions (it_n st) !! s)
                     <? trace_threshold pol)%float
          else favourable pr st s)
       (it_active st).

(** A Newton step: the correction of the reduced system, damped, applied,
    and followed by the update of the active set. *)
Definition pt_step (pr : problem) (st : iter_state) : failure + iter_state :=
  match reduced_solve pr st with
  | None => inl SingularSystem
  | Some d =>
      let lam := damping_factor (damping_cap pol) (it_active st) (d_ln_n d) in
      let st1 := advance pr lam d st in
      inr {| it_n := it_n st1; it_pi := it_pi st1;
             it_active := next_active pr st1;
             it_count := S (it_count st);
             it_residual := it_residual st1 |}
  end.

(** The residual is below the tolerance. *)
Definition converged (st : iter_state) : bool :=
  (it_residual st <? tolerance pol)%float.

(** A step left the active set as it was. *)
Definition stable (st st' : iter_state) : bool :=
  bool_decide (it_active st' = it_active st).

(** The input of a solve is consistent: the initial composition is
    non-negative and normalised, and its abundances are possible. *)
Definition consistent (pr : problem) : bool :=
  normalised (tolerance pol) (pr_X0 pr) && possible pr.

(** ** The pressure-temperature solve *)

(** The result of an iteration: how it ended, the last state, and the
    trace of the steps taken. *)
Record pt_run := PtRun {
  run_verdict : verdict;
  run_state : iter_state;
  run_trace : string
}.

(** At most [fuel] steps from [st]. *)
Fixpoint pt_iterate (pr : problem) (fuel : nat) (st : iter_state) : pt_run :=
  match fuel with
  | O => PtRun (Some ConvergenceFailure) st ""
  | S fuel' =>
      match pt_step pr st with
      | inl e => PtRun (Some e) st ""
      | inr st' =>
          if converged st' && stable st st'
          then PtRun None st' (trace_line st')
          else
            let r := pt_iterate pr fuel' st' in
            PtRun (run_verdict r) (run_state r)
                  (trace_line st' +:+ run_trace r)
      end
  end.

(** The solve: the input is checked, the temperature must lie in a range
    of the polynomials, and the iteration runs under its cap.  The
    composition returned is that of the last state; for an input that was
    rejected it is the input. *)
Definition pt_solve (pr : problem) : verdict * list double * string :=
  if negb (consistent pr) then (Some InconsistentInput, pr_X0 pr, "")
  else if select_range bounds (pr_T pr) is None
  then (Some OutOfRangeTemperature, pr_X0 pr, "")
  else
    let r := pt_iterate pr (max_inner_iter pol) (initial_state pr) in
    (run_verdict r, fractions (it_n (run_state r)), run_trace r).

(** What the specification gives as the reason of each way a solve ends
    (sections 4.2 and 7): an input that is rejected is inconsistent; a
    temperature is out of range when the input is consistent and no range
    of the polynomials contains it; the iteration of an accepted input
    succeeds in a state whose residual is below the tolerance, fails to
    converge when it has taken every step its cap allows, and meets a
    singular system in the state it stopped in. *)
Definition accepted (pr : problem) : Prop :=
  consistent pr = true ∧ is_Some (select_range bounds (pr_T pr)).

Definition last_state (pr : problem) : iter_state :=
  run_state (pt_iterate pr (max_inner_iter pol) (initial_state pr)).

Definition reason (pr : problem) (v : verdict) : Prop :=
  match v with
  | None => accepted pr ∧ converged (last_state pr) = true
  | Some InconsistentInput => consistent pr = false
  | Some OutOfRangeTemperature =>
      consistent pr = true ∧ select_range bounds (pr_T pr) = None
  | Some ConvergenceFailure =>
      accepted pr
      ∧ it_count (last_state pr)
        = (it_count (initial_state pr) + max_inner_iter pol)%nat
  | Some SingularSystem =>
      accepted pr ∧ reduced_solve pr (last_state pr) = None
  end.

(** ** The density-energy solve *)

Section rhou.
Variables (rho u : double) (nsp nel : Z) (table M a : list double).

(** The result of a search: how it ended, the temperature and composition
    reached, the trace of the inner solves. *)
Record rhou_run := RhouRun {
  outer_verdict : verdict;
  outer_T : double;
  outer_X : list double;
  outer_trace : string
}.

(** At most [fuel] trial temperatures from [T] with composition [X]. *)
Fixpoint rhou_iterate (fuel : nat) (T : double) (X : list double)
  : rhou_run :=
  match fuel with
  | O => RhouRun (Some ConvergenceFailure) T X ""
  | S fuel' =>
      let pr := Problem (trial_pressure rho T X M) T X nsp nel table M a in
      match pt_solve pr with
      | (Some e, _, tr) => RhouRun (Some e) T X tr
      | (None, X', tr) =>
          let r := (internal_energy table M T X' - u)%float in
          if (abs r / abs u <? tolerance pol)%float
          then RhouRun None T X' tr
          else
            let T' := (T - r / cv_mix table M T X')%float in
            let o := rhou_iterate fuel' T' X' in
            RhouRun (outer_verdict o) (outer_T o) (outer_X o)
                    (tr +:+ outer_trace o)
      end
  end.

Definition rhou_solve (X0 : list double) : rhou_run :=
  rhou_iterate (max_outer_iter pol) (initial_temperature rho u X0) X0.

End rhou.

(** ** The two solves as functions of the arrays *)

Context `{StatusCodes}.

Definition traced (verbose : Z) (t : string) : string :=
  if verbose =? 0 then "" else t.

Definition newton_pt (p T : double) (X0 : list double) (nsp nel : Z)
    (lewis M a : list double) (verbose : Z) : pt_answer :=
  let '(v, X1, tr) := pt_solve (Problem p T X0 nsp nel lewis M a) in
  {| pt_status := status_of v; pt_X1 := X1; pt_diag := traced verbose tr |}.

Definition newton_rhou (rho u : double) (X0 : list double) (nsp nel : Z)
    (lewis M a : list double) (verbose : Z) : rhou_answer :=
  let o := rhou_solve rho u nsp nel lewis M a X0 in
  {| rhou_status := status_of (outer_verdict o);
     rhou_X1 := outer_X o;
     rhou_T := outer_T o;
     rhou_diag := traced verbose (outer_trace o) |}.

Definition newton : pure_solver :=
  {| pure_pt := newton_pt; pure_rhou := newton_rhou |}.

End solver.

(** ** Damping *)

Section damping.
Implicit Types (active : list bool) (dln : list double).

(** No damping when no active species changes by more than the cap. *)
Lemma damping_factor_none cap active dln :
  Forall (λ ad, (ad.1 : bool) && (cap <? abs ad.2)%float = false)
         (zip active dln) →
  damping_factor cap active dln = 1%float.
Proof.
  unfold damping_factor. induction 1 as [|ad l Had _ IH]; simpl; [done|].
  by rewrite Had.
Qed.

(** The changes of the resting species do not enter the factor. *)
Lemma damping_factor_active cap active dln dln' :
  Forall2 (λ ad ad', ad.1 = ad'.1 ∧ (ad.1 = true → ad.2 = ad'.2))
          (zip active dln) (zip active dln') →
  damping_factor cap active dln = damping_factor cap active dln'.
Proof.
  unfold damping_factor.
  induction 1 as [|[a d] [a' d'] l l' [Ha Hd] _ IH]; simpl in *; [done|].
  subst a'. rewrite IH. destruct a; [by rewrite Hd|done].
Qed.

End damping.

(** ** The pressure-temperature iteration *)

Section iteration.
Context `{Kernel}.
Variable bounds : range_bounds.
Variable pol : policy.
Implicit Types (pr : problem) (st : iter_state) (fuel : nat).

Lemma pt_step_inr pr st st' :
  pt_step pol pr st = inr st' →
  ∃ d, reduced_solve pr st = Some d ∧ it_count st' = S (it_count st)
       ∧ it_n st' = it_n (advance pr
           (damping_factor (damping_cap pol) (it_active st) (d_ln_n d)) d st).
Proof.
  unfold pt_step. destruct (reduced_solve pr st) as [d|]; [|done].
  intros [= <-]. by exists d.
Qed.

(** A step fails in one way only: the reduced system is singular. *)
Lemma pt_step_inl pr st e :
  pt_step pol pr st = inl e ↔ e = SingularSystem ∧ reduced_solve pr st = None.
Proof.
  unfold pt_step. destruct (reduced_solve pr st); naive_solver.
Qed.

(** The iteration never takes more steps than its cap allows. *)
Lemma pt_iterate_count pr fuel st :
  (it_count st ≤ it_count (run_state (pt_iterate pol pr fuel st))
               ≤ it_count st + fuel)%nat.
Proof.
  revert st. induction fuel as [|fuel IH]; intros st; simpl; [lia|].
  destruct (pt_step pol pr st) as [e|st'] eqn:Hstep; simpl; [lia|].
  apply pt_step_inr in Hstep as (d & _ & Hc & _).
  destruct (converged pol st' && stable st st'); simpl; [lia|].
  specialize (IH st'). lia.
Qed.

(** An iteration that succeeds ends in a state whose residual is below the
    tolerance, reached by a step that left the active set as it was. *)
Lemma pt_iterate_success pr fuel st :
  run_verdict (pt_iterate pol pr fuel st) = None →
  converged pol (run_state (pt_iterate pol pr fuel st)) = true
  ∧ ∃ st0, pt_step pol pr st0 = inr (run_state (pt_iterate pol pr fuel st))
           ∧ stable st0 (run_state (pt_iterate pol pr fuel st)) = true.
Proof.
  revert st. induction fuel as [|fuel IH]; intros st; simpl; [done|].
  destruct (pt_step pol pr st) as [e|st'] eqn:Hstep; simpl; [done|].
  destruct (converged pol st' && stable st st') eqn:Hc; simpl; [|apply IH].
  apply andb_true_iff in Hc as [? ?]. eauto.
Qed.

(** An iteration that fails has reached its cap, or met a singular
    system in its last state. *)
Lemma pt_iterate_failure pr fuel st e :
  run_verdict (pt_iterate pol pr fuel st) = Some e →
  (e = ConvergenceFailure
   ∧ it_count (run_state (pt_iterate pol pr fuel st))
     = (it_count st + fuel)%nat)
  ∨ (e = SingularSystem
     ∧ reduced_solve pr (run_state (pt_iterate pol pr fuel st)) = None).
Proof.
  revert st. induction fuel as [|fuel IH]; intros st; simpl.
  { intros [= <-]. left. split; [done|lia]. }
  destruct (pt_step pol pr st) as [e'|st'] eqn:Hstep; simpl.
  { intros [= <-]. right. by apply pt_step_inl. }
  apply pt_step_inr in Hstep as (d & _ & Hcount & _).
  destruct (converged pol st' && stable st st'); simpl; [done|].
  intros [[-> Hc]|?]%IH; [left|by right]. split; [done|lia].
Qed.

(** The cap matters only when it is reached: an iteration that ended for
    another reason ends in the same way under every larger cap. *)
Lemma pt_iterate_more_fuel pr fuel k st :
  run_verdict (pt_iterate pol pr fuel st) ≠ Some ConvergenceFailure →
  pt_iterate pol pr (fuel + k) st = pt_iterate pol pr fuel st.
Proof.
  revert st. induction fuel as [|fuel IH]; intros st; simpl; [done|].
  destruct (pt_step pol pr st) as [e'|st'] eqn:Hstep; simpl; [done|].
  destruct (converged pol st' && stable st st'); simpl; [done|].
  by intros ->%IH.
Qed.

Section lengths.
Context `{!KernelOk}.

Lemma pt_step_length pr st st' :
  pt_step pol pr st = inr st' → length (it_n st') = length (it_n st).
Proof.
  intros (d & _ & _ & ->)%pt_step_inr. apply advance_length.
Qed.

Lemma pt_iterate_length pr fuel st :
  length (it_n (run_state (pt_iterate pol pr fuel st))) = length (it_n st).
Proof.
  revert st. induction fuel as [|fuel IH]; intros st; simpl; [done|].
  destruct (pt_step pol pr st) as [e'|st'] eqn:Hstep; simpl; [done|].
  apply pt_step_length in Hstep.
  destruct (converged pol st' && stable st st'); simpl; [done|].
  by rewrite IH.
Qed.

End lengths.

(** ** The pressure-temperature solve *)

(** How a solve ends: the four kinds of failure, each for its reason. *)
Lemma pt_solve_verdict pr v X1 tr :
  pt_solve bounds pol pr = (v, X1, tr) →
  match v with
  | None =>
      consistent pol pr = true ∧ is_Some (select_range bounds (pr_T pr))
  | Some InconsistentInput => consistent pol pr = false
  | Some OutOfRangeTemperature =>
      consistent pol pr = true ∧ select_range bounds (pr_T pr) = None
  | Some ConvergenceFailure | Some SingularSystem =>
      consistent pol pr = true ∧ is_Some (select_range bounds (pr_T pr))
  end.
Proof.
  unfold pt_solve. destruct (consistent pol pr); simpl; [|by intros [= <- _ _]].
  destruct (select_range bounds (pr_T pr)) as [r|] eqn:Hr;
    [|by intros [= <- _ _]].
  intros [= <- _ _].
  destruct (run_verdict _) as [e|] eqn:Hv; [|by eauto].
  apply pt_iterate_failure in Hv as [[-> _]|[-> _]]; eauto.
Qed.

(** Every solve ends for the reason of its verdict. *)
Lemma pt_solve_reason pr :
  reason bounds pol pr (pt_solve bounds pol pr).1.1.
Proof.
  unfold pt_solve, reason, accepted, last_state.
  destruct (consistent pol pr); simpl; [|done].
  destruct (select_range bounds (pr_T pr)) as [r|] eqn:Hr; simpl; [|done].
  destruct (run_verdict _) as [e|] eqn:Hv.
  - apply pt_iterate_failure in Hv as [[-> ?]|[-> ?]]; eauto.
  - apply pt_iterate_success in Hv as [? _]. eauto.
Qed.

(** A solve that succeeds returns the mole fractions of a state whose
    residual is below the tolerance. *)
Lemma pt_solve_success pr X1 tr :
  pt_solve bounds pol pr = (None, X1, tr) →
  ∃ st, converged pol st = true ∧ X1 = fractions (it_n st)
        ∧ (it_count st
           ≤ it_count (initial_state pr) + max_inner_iter pol)%nat.
Proof.
  unfold pt_solve. destruct (consistent pol pr); simpl; [|done].
  destruct (select_range bounds (pr_T pr)); [|done].
  intros [= Hv <- _]. eexists. split; [by apply pt_iterate_success|].
  split; [done|]. apply pt_iterate_count.
Qed.

(** The composition returned has one entry per species. *)
Lemma pt_solve_length `{!KernelOk} pr :
  length (pt_solve bounds pol pr).1.2 = length (pr_X0 pr).
Proof.
  unfold pt_solve. destruct (consistent pol pr); simpl; [|done].
  destruct (select_range bounds (pr_T pr)); simpl; [|done].
  unfold fractions.
  by rewrite length_fmap, pt_iterate_length, initial_state_length.
Qed.

(** ** The density-energy solve *)

Section rhou.
Variables (rho u : double) (nsp nel : Z) (table M a : list double).
Implicit Types (T : double) (X : list double).

#[local] Abbreviation trial T X :=
  (Problem (trial_pressure rho T X M) T X nsp nel table M a).
#[local] Abbreviation search :=
  (rhou_iterate bounds pol rho u nsp nel table M a).

(** A failure of an inner solve ends the search at once, with the kind of
    that failure, at the temperature and composition of the trial. *)
Lemma rhou_inner_failure fuel T X e X' tr :
  pt_solve bounds pol (trial T X) = (Some e, X', tr) →
  search (S fuel) T X = RhouRun (Some e) T X tr.
Proof. simpl. by intros ->. Qed.

(** A search that succeeds ends with an inner solve that succeeded and
    returned the composition of the result. *)
Lemma rhou_success fuel T X :
  outer_verdict (search fuel T X) = None →
  ∃ X0 tr, pt_solve bounds pol (trial (outer_T (search fuel T X)) X0)
           = (None, outer_X (search fuel T X), tr).
Proof.
  revert T X. induction fuel as [|fuel IH]; intros T X; simpl; [done|].
  destruct (pt_solve bounds pol (trial T X)) as [[[e|] X'] tr] eqn:Hs;
    simpl; [done|].
  case_match; simpl; [by eauto|]. apply IH.
Qed.

(** The composition of the result has the length of the initial one. *)
Lemma rhou_iterate_length `{!KernelOk} fuel T X :
  length (outer_X (search fuel T X)) = length X.
Proof.
  revert T X. induction fuel as [|fuel IH]; intros T X; simpl; [done|].
  pose proof (pt_solve_length (trial T X)) as Hlen.
  destruct (pt_solve bounds pol (trial T X)) as [[[e|] X'] tr]; simpl in *;
    [done|].
  case_match; simpl; [done|]. by rewrite IH.
Qed.

End rhou.

(** ** The contract of the solver interface *)

Section contract.
Context `{!KernelOk} `{StatusCodes}.

(** The status of a solve stands for how it ended. *)
Lemma newton_pt_status p T X0 nsp nel lewis M a verbose :
  kind_of (pt_status (newton_pt bounds pol p T X0 nsp nel lewis M a verbose))
  = Some (pt_solve bounds pol (Problem p T X0 nsp nel lewis M a)).1.1.
Proof.
  unfold newton_pt. destruct (pt_solve _ _ _) as [[v X1] tr]. simpl.
  apply kind_of_status.
Qed.

Lemma newton_rhou_status rho u X0 nsp nel lewis M a verbose :
  kind_of (rhou_status
             (newton_rhou bounds pol rho u X0 nsp nel lewis M a verbose))
  = Some (outer_verdict
            (rhou_solve bounds pol rho u nsp nel lewis M a X0)).
Proof. apply kind_of_status. Qed.

(** The solver built from the iterations satisfies what the interface asks
    of a function on the arrays. *)
#[export] Instance newton_ok : PureOk (newton bounds pol).
Proof.
  split; simpl; unfold newton_pt, newton_rhou.
  - intros. destruct (pt_solve _ _ _) as [[v X1] tr]. apply status_of_int.
  - intros p T X0 nsp nel lewis M a verbose <-.
    pose proof (pt_solve_length (Problem p T X0 nsp nel lewis M a)) as Hlen.
    by destruct (pt_solve _ _ _) as [[v X1] tr].
  - intros. by destruct (pt_solve _ _ _) as [[v X1] tr].
  - intros. apply status_of_int.
  - intros rho u X0 nsp nel lewis M a verbose <-. simpl.
    by apply rhou_iterate_length.
  - done.
Qed.

End contract.

End iteration.
