(* ===== verification/BatchNewton.v ===== *)
(** * BatchNewton: the batch functions on the solvers of the specification

    [Newton] builds the two solvers from their iterations, for every
    numerical kernel; [PureSolver.lift] puts them behind the interface that
    [src/ceq.c] calls.  This file composes the two with the batch functions
    of [Ceq]:

    - the contract and the locality that the batch theorems assume of a
      solver hold for these solvers, so every theorem on [batch_pt] and
      [batch_rhou] applies to them without assumption;
    - the status a batch returns stands for the way the first failing item
      failed, and that failure has its reason in the inputs or in the
      iteration of that item: the four kinds of failure of the
      specification are still told apart after the batch;
    - the table of coefficients that each item of a batch works on is the
      table of the caller, coefficient by coefficient. *)

From Corelib Require Import PrimFloat.
From stdpp Require Import gmap.
From S2P Require Import Prelude CInt Memory Exec Solver PureSolver Loop.
From S2P Require Import Ceq CeqFacts.
From S2P Require Import BatchSpec BatchFrame BatchIndep BatchList.
From S2P Require Import Status Thermo Newton.

(** ** The first failure *)

(** The verdict of a fail-fast run over items with these verdicts. *)
Fixpoint first_failure (vs : list verdict) : verdict :=
  match vs with
  | [] => None
  | None :: vs' => first_failure vs'
  | Some e :: _ => Some e
  end.

Lemma first_failure_None vs : first_failure vs = None ↔ Forall (.= None) vs.
Proof.
  induction vs as [|[e|] vs IH]; simpl.
  - by split; [constructor|].
  - split; [done|]. by intros [[=] _]%Forall_cons.
  - rewrite IH. split; [by constructor|]. by intros [_ ?]%Forall_cons.
Qed.

Lemma first_failure_Some vs e :
  first_failure vs = Some e ↔
  ∃ pre post, vs = pre ++ Some e :: post ∧ Forall (.= None) pre.
Proof.
  induction vs as [|[e'|] vs IH]; simpl.
  - split; [done|]. by intros ([|??] & ? & ? & _).
  - split.
    + intros [= ->]. by exists [], vs.
    + intros ([|? pre] & post & [= Heq] & Hpre); simplify_eq/=; [done|].
      by apply Forall_cons in Hpre as [[=] _].
  - rewrite IH. split.
    + intros (pre & post & -> & Hpre). exists (None :: pre), post.
      split; [done|by constructor].
    + intros ([|? pre] & post & [= Heq] & Hpre); simplify_eq/=.
      apply Forall_cons in Hpre as [_ Hpre]. by exists pre, post.
Qed.

(** The first failure among the verdicts of a list of items is the
    verdict of an item before which every item succeeded. *)
Lemma first_failure_fmap {A} (f : A → verdict) (l : list A) :
  match first_failure (f <$> l) with
  | None => Forall (λ x, f x = None) l
  | Some e =>
      ∃ i x, l !! i = Some x ∧ f x = Some e
             ∧ Forall (λ y, f y = None) (take i l)
  end.
Proof.
  induction l as [|x l IH]; csimpl; [done|].
  destruct (f x) as [e|] eqn:Hx; [by exists 0%nat, x|].
  destruct (first_failure (f <$> l)) as [e|]; [|by constructor].
  destruct IH as (i & y & ? & ? & ?). exists (S i), y.
  split_and!; [done..|by constructor].
Qed.

(** The first status that is not 0 is the status of the first failure. *)
Lemma first_failure_status `{StatusCodes} vs :
  default 0 (head (filter (λ z, z ≠ 0) (status_of <$> vs)))
  = status_of (first_failure vs).
Proof.
  induction vs as [|[e|] vs IH]; csimpl; [done| |].
  - by rewrite filter_cons_True by apply status_code_nonzero.
  - by rewrite filter_cons_False by naive_solver.
Qed.

(** ** The items of a batch as problems *)

Section problems.
Context `{Kernel} `{StatusCodes}.
Variables (bounds : range_bounds) (pol : policy).
Variables (N : Z) (p T X0 : ptr) (nsp nel : Z) (lewis M a X1 : ptr).
Variable verbose : Z.
Implicit Types (m : gmap Z float) (i : Z) (pr : problem).

(** The problem that item [i] of the store [m] poses. *)
Definition item_problem m i : option problem :=
  Ti ← load m (T + i);
  pi ← load m (p + i);
  x0 ← load_array m (X0 + i * nsp) nsp;
  lw ← load_array m lewis (nsp * lewis_per_species);
  mm ← load_array m M nsp;
  aa ← load_array m a (nel * nsp);
  Some (Problem pi Ti x0 nsp nel lw mm aa).

(** The problems of a batch. *)
Definition batch_problems m : option (list problem) :=
  mapM (item_problem m) (seqZ 0 N).

(** The answer of the solver to a problem. *)
Definition answer_of pr : pt_answer :=
  newton_pt bounds pol (pr_p pr) (pr_T pr) (pr_X0 pr) (pr_nsp pr)
    (pr_nel pr) (pr_table pr) (pr_M pr) (pr_a pr) verbose.

(** How the solve of a problem ends. *)
Definition verdict_of pr : verdict := (pt_solve bounds pol pr).1.1.

Lemma answer_of_status pr :
  pt_status (answer_of pr) = status_of (verdict_of pr).
Proof.
  unfold answer_of, verdict_of, newton_pt. destruct pr; simpl.
  by destruct (pt_solve _ _ _) as [[v X] tr].
Qed.

Lemma pt_item_answer_problem m i :
  pt_item_answer (newton bounds pol) p T X0 nsp nel lewis M a verbose m i
  = answer_of <$> item_problem m i.
Proof.
  unfold pt_item_answer, item_problem.
  repeat (match goal with |- context [?o ≫= _] => destruct o end; simpl;
          [|done]). done.
Qed.

(** The problems of a batch are those of its items, in order. *)
Lemma batch_problems_lookup m problems (i : nat) pr :
  batch_problems m = Some problems → problems !! i = Some pr →
  item_problem m (Z.of_nat i) = Some pr.
Proof.
  unfold batch_problems. rewrite mapM_Some. intros Hpr Hi.
  destruct (Forall2_lookup_r _ _ _ _ _ Hpr Hi) as (j & Hj & Hitem).
  apply lookup_seqZ in Hj as [-> _]. by rewrite Z.add_0_l in Hitem.
Qed.

Lemma pt_answers_problems m problems :
  batch_problems m = Some problems →
  pt_answers (newton bounds pol) N p T X0 nsp nel lewis M a verbose m
  = Some (answer_of <$> problems).
Proof.
  unfold batch_problems, pt_answers. rewrite !mapM_Some.
  intros Hpr. apply Forall2_fmap_r. eapply Forall2_impl; [exact Hpr|].
  intros i pr Hi. simpl. by rewrite pt_item_answer_problem, Hi.
Qed.

(** The table of every problem of the batch is the table of the caller:
    each coefficient of each species is the content of its cell of
    [lewis]. *)
Lemma item_problem_table m i pr s r k :
  item_problem m i = Some pr →
  0 ≤ s < nsp → 0 ≤ k < coefficients_per_range →
  coefficients (pr_table pr) s r !! Z.to_nat k
  = load m (lewis + coefficient_offset s r k).
Proof.
  unfold item_problem. intros Hpr Hs Hk. simplify_option_eq.
  by eapply coefficients_load.
Qed.

(** The same for [batch_rhou]: [p] and [T] are the arrays [rho] and [u];
    the problem of an item is posed by the same cells. *)
Definition rhou_answer_of pr : rhou_answer :=
  newton_rhou bounds pol (pr_p pr) (pr_T pr) (pr_X0 pr) (pr_nsp pr)
    (pr_nel pr) (pr_table pr) (pr_M pr) (pr_a pr) verbose.

Definition rhou_verdict_of pr : verdict :=
  outer_verdict (rhou_solve bounds pol (pr_p pr) (pr_T pr) (pr_nsp pr)
                   (pr_nel pr) (pr_table pr) (pr_M pr) (pr_a pr) (pr_X0 pr)).

Lemma rhou_answer_of_status pr :
  rhou_status (rhou_answer_of pr) = status_of (rhou_verdict_of pr).
Proof. done. Qed.

(** The density is read before the energy; the problem is the same. *)
Definition item_rhou_problem m i : option problem :=
  rhoi ← load m (p + i);
  ui ← load m (T + i);
  x0 ← load_array m (X0 + i * nsp) nsp;
  lw ← load_array m lewis (nsp * lewis_per_species);
  mm ← load_array m M nsp;
  aa ← load_array m a (nel * nsp);
  Some (Problem rhoi ui x0 nsp nel lw mm aa).

Definition batch_rhou_problems m : option (list problem) :=
  mapM (item_rhou_problem m) (seqZ 0 N).

Lemma rhou_item_answer_problem m i :
  rhou_item_answer (newton bounds pol) p T X0 nsp nel lewis M a verbose m i
  = rhou_answer_of <$> item_rhou_problem m i.
Proof.
  unfold rhou_item_answer, item_rhou_problem.
  repeat (match goal with |- context [?o ≫= _] => destruct o end; simpl;
          [|done]). done.
Qed.

Lemma rhou_answers_problems m problems :
  batch_rhou_problems m = Some problems →
  rhou_answers (newton bounds pol) N p T X0 nsp nel lewis M a verbose m
  = Some (rhou_answer_of <$> problems).
Proof.
  unfold batch_rhou_problems, rhou_answers. rewrite !mapM_Some.
  intros Hpr. apply Forall2_fmap_r. eapply Forall2_impl; [exact Hpr|].
  intros i pr Hi. simpl. by rewrite rhou_item_answer_problem, Hi.
Qed.

End problems.

(** ** The batch *)

Section batch.
Context `{Kernel} `{!KernelOk} `{StatusCodes}.
Variables (bounds : range_bounds) (pol : policy).

(** The solvers of the specification satisfy the contract of the
    interface, and are local. *)
#[export] Instance newton_solver_ok : SolverOk (lift (newton bounds pol)).
Proof. apply lift_ok, _. Qed.

#[export] Instance newton_solver_local :
  SolverLocal (lift (newton bounds pol)).
Proof. apply lift_local, _. Qed.

(** The run of a batch on the problems of its items. *)
Lemma batch_pt_newton_run N p T X0 nsp nel lewis M a X1 verbose s problems :
  in_int N → slices_fit N nsp → 0 ≤ nsp →
  writes_apart N p T X0 nsp nel lewis M a X1 →
  batch_problems N p T X0 nsp nel lewis M a (st_mem s) = Some problems →
  allocated (st_mem s) X1 (N * nsp) →
  ∃ r s',
    batch_pt (H := lift (newton bounds pol)) N p T X0 nsp nel lewis M a X1
      verbose s = Ret r s'
    ∧ kind_of r
      = Some (first_failure (verdict_of bounds pol <$> problems)).
Proof.
  intros HN Hfit Hnsp Hap Hpr Hal.
  apply (pt_answers_problems bounds pol _ _ _ _ _ _ _ _ _ verbose) in Hpr.
  destruct (batch_pt_ref_stored _ N p T X0 nsp nel lewis M a X1 verbose
              (st_mem s) _ Hnsp Hpr Hal) as [m' Hst].
  pose proof (batch_pt_run_list _ N p T X0 nsp nel lewis M a X1 verbose s
                _ m' HN Hfit Hnsp Hap Hpr Hst) as Hrun.
  eexists _, _. split; [exact Hrun|].
  rewrite batch_pt_ref_first, <- list_fmap_compose.
  rewrite (list_fmap_ext _ (status_of ∘ verdict_of bounds pol) problems)
    by (intros; apply answer_of_status).
  rewrite list_fmap_compose, first_failure_status. apply kind_of_status.
Qed.

(** The same for [batch_rhou]. *)
Lemma batch_rhou_newton_run N rho u X0 nsp nel lewis M a X1 T verbose s
    problems :
  in_int N → slices_fit N nsp → 0 ≤ nsp →
  rhou_writes_apart N rho u X0 nsp nel lewis M a X1 T →
  batch_rhou_problems N rho u X0 nsp nel lewis M a (st_mem s)
    = Some problems →
  allocated (st_mem s) X1 (N * nsp) → allocated (st_mem s) T N →
  ∃ r s',
    batch_rhou (H := lift (newton bounds pol)) N rho u X0 nsp nel lewis M a
      X1 T verbose s = Ret r s'
    ∧ kind_of r
      = Some (first_failure (rhou_verdict_of bounds pol <$> problems)).
Proof.
  intros HN Hfit Hnsp Hap Hpr HX HT.
  apply (rhou_answers_problems bounds pol _ _ _ _ _ _ _ _ _ verbose) in Hpr.
  destruct (batch_rhou_ref_stored _ N rho u X0 nsp nel lewis M a X1 T
              verbose (st_mem s) _ Hnsp Hpr HX HT) as (mX & m' & HmX & Hm').
  pose proof (batch_rhou_run_list _ N rho u X0 nsp nel lewis M a X1 T
                verbose s _ mX m' HN Hfit Hnsp Hap Hpr HmX Hm') as Hrun.
  eexists _, _. split; [exact Hrun|].
  rewrite batch_rhou_ref_first, <- list_fmap_compose.
  rewrite (list_fmap_ext _ (status_of ∘ rhou_verdict_of bounds pol) problems)
    by done.
  rewrite list_fmap_compose, first_failure_status. apply kind_of_status.
Qed.

End batch.

(** C28: a batch on the solver of the specification returns (when [N] and
    the slice offsets are [int]s, the arrays of the items can be read, the
    output array is allocated and no item reads what an earlier item
    writes), and its status tells how and why the batch ended.  It is 0
    when every item was accepted (consistent composition, temperature in
    a range of the polynomials) and its iteration converged.  Else it is
    the code of the failure of the first item that did not, before which
    every item converged, and this failure has its reason in that item:
    an inconsistent composition, a temperature [T[i]] in no range, an
    iteration that took every step of its cap, or a singular system in
    the state the iteration stopped in.  The kinds are told apart after
    the batch as they are after a single solve. *)
Theorem batch_pt_newton_verdict `{Kernel} `{!KernelOk} `{StatusCodes}
    bounds pol N p T X0 nsp nel lewis M a X1 verbose s problems :
  in_int N → slices_fit N nsp → 0 ≤ nsp →
  writes_apart N p T X0 nsp nel lewis M a X1 →
  batch_problems N p T X0 nsp nel lewis M a (st_mem s) = Some problems →
  allocated (st_mem s) X1 (N * nsp) →
  ∃ r s',
    batch_pt (H := lift (newton bounds pol)) N p T X0 nsp nel lewis M a X1
      verbose s = Ret r s'
    ∧ ((r = 0 ∧ Forall (λ pr, reason bounds pol pr None) problems)
       ∨ ∃ (i : nat) pr e,
           item_problem p T X0 nsp nel lewis M a (st_mem s) (Z.of_nat i)
           = Some pr
           ∧ Forall (λ pr', reason bounds pol pr' None) (take i problems)
           ∧ reason bounds pol pr (Some e)
           ∧ r = status_code e ∧ kind_of r = Some (Some e)).
Proof.
  intros HN Hfit Hnsp Hap Hpr Hal.
  destruct (batch_pt_newton_run bounds pol N p T X0 nsp nel lewis M a X1
              verbose s problems) as (r & s' & Hrun & Hkind); [done..|].
  exists r, s'. split; [done|].
  pose proof (first_failure_fmap (verdict_of bounds pol) problems) as Hff.
  pose proof (kind_of_Some _ _ Hkind) as Hr.
  destruct (first_failure _) as [e|]; [right|left].
  - destruct Hff as (i & pr & Hi & He & Hpre). exists i, pr, e.
    split_and!; [by eapply batch_problems_lookup| |
      by rewrite <- He; apply pt_solve_reason|done..].
    eapply Forall_impl; [exact Hpre|]. intros pr' <-. apply pt_solve_reason.
  - split; [done|]. eapply Forall_impl; [exact Hff|].
    intros pr' <-. apply pt_solve_reason.
Qed.

(** The same for [batch_rhou]: the status stands for the way the search of
    the first failing item failed, which is the way of its failing inner
    solve when one failed. *)
Theorem batch_rhou_newton_verdict `{Kernel} `{!KernelOk} `{StatusCodes}
    bounds pol N rho u X0 nsp nel lewis M a X1 T verbose s problems :
  in_int N → slices_fit N nsp → 0 ≤ nsp →
  rhou_writes_apart N rho u X0 nsp nel lewis M a X1 T →
  batch_rhou_problems N rho u X0 nsp nel lewis M a (st_mem s)
    = Some problems →
  allocated (st_mem s) X1 (N * nsp) → allocated (st_mem s) T N →
  ∃ r s',
    batch_rhou (H := lift (newton bounds pol)) N rho u X0 nsp nel lewis M a
      X1 T verbose s = Ret r s'
    ∧ kind_of r
      = Some (first_failure (rhou_verdict_of bounds pol <$> problems)).
Proof. by apply batch_rhou_newton_run. Qed.
