(* ===== verification/Linear.v ===== *)
(** * Linear: numbers and vectors of the reduced system

    The Newton step of the pressure-temperature solve assembles and solves
    a dense linear system.  This file holds what [Elimination] and [Balance]
    share: the class [Number] of the arithmetic a solver computes with,
    vectors as lists, sums and scalar products.

    The solvers compute in [double]; an instance of [Number] for it is in
    [DemoBalance].  Rounding is not modelled: what the theorems say of the
    result of a computation is said for arithmetic that is exact, that is,
    for the instances of [Number] that satisfy [Exact] (the laws of a field
    and an exact test for zero), such as the rationals. *)

From Stdlib Require Import Field.
From S2P Require Import Prelude.

Declare Scope num_scope.
Delimit Scope num_scope with K.

(** ** Numbers *)

Class Number (K : Type) := {
  num_zero : K;
  num_one : K;
  num_add : K → K → K;
  num_sub : K → K → K;
  num_mul : K → K → K;
  num_div : K → K → K;
  num_opp : K → K;
  (* zero or too close to zero to divide by *)
  negligible : K → bool
}.

Notation "0" := num_zero : num_scope.
Notation "1" := num_one : num_scope.
Infix "+" := num_add : num_scope.
Infix "-" := num_sub : num_scope.
Infix "*" := num_mul : num_scope.
Infix "/" := num_div : num_scope.
Notation "- x" := (num_opp x) : num_scope.

Definition num_inv `{Number K} (x : K) : K := (1 / x)%K.

(** Exact arithmetic: the laws of a field, and [negligible] is the test
    for zero. *)
Class Exact (K : Type) `{Number K} : Prop := {
  exact_field :
    field_theory 0%K 1%K num_add num_mul num_sub num_opp num_div num_inv eq;
  negligible_zero x : negligible x = true ↔ x = 0%K
}.

(** ** Lists combined element by element *)

(** What holds of the elements of [zip_with f l k] holds of the pairs of
    elements of [l] and [k]. *)
Lemma Forall_zip_with_Forall2 {A B C} (f : A → B → C) (P : C → Prop)
    (Q : A → Prop) (R : A → B → Prop) l k :
  (∀ x y, Q x → P (f x y) → R x y) →
  length l = length k → Forall Q l → Forall P (zip_with f l k) →
  Forall2 R l k.
Proof.
  intros HR. revert k.
  induction l as [|x l IH]; intros [|y k] Hlen HQ HP; simplify_eq/=;
    constructor; apply Forall_cons in HQ as [], HP as []; auto.
Qed.

Lemma Forall2_Forall_zip_with {A B C} (f : A → B → C) (P : C → Prop)
    (Q : A → Prop) (R : A → B → Prop) l k :
  (∀ x y, Q x → R x y → P (f x y)) →
  Forall Q l → Forall2 R l k → Forall P (zip_with f l k).
Proof.
  intros HP HQ HR. induction HR as [|x y l k Hxy _ IH]; [done|].
  apply Forall_cons in HQ as []. simpl. constructor; auto.
Qed.

(** ** Vectors *)

Section vectors.
Context `{Number K}.
Local Open Scope num_scope.

Definition vsum (v : list K) : K := foldr num_add 0 v.

(** The scalar product. *)
Definition dot (u v : list K) : K := vsum (zip_with num_mul u v).

Definition scale (c : K) (v : list K) : list K := num_mul c <$> v.

Definition vadd (u v : list K) : list K := zip_with num_add u v.

Definition vsub (u v : list K) : list K := zip_with num_sub u v.

Definition zeros (n : nat) : list K := replicate n 0.

(** [v] with the components that are not selected set to zero. *)
Definition mask (sel : list bool) (v : list K) : list K :=
  zip_with (λ (on : bool) x, if on then x else 0) sel v.

(** [u] is zero wherever [sel] does not select. *)
Definition vanishes (sel : list bool) (u : list K) : Prop :=
  Forall2 (λ (on : bool) x, on = false → x = 0) sel u.

Lemma mask_length sel v :
  length sel = length v → length (mask sel v) = length v.
Proof. intros Hl. unfold mask. rewrite length_zip_with. lia. Qed.

Lemma scale_length c v : length (scale c v) = length v.
Proof. apply length_fmap. Qed.

Lemma vsub_length u v : length u = length v → length (vsub u v) = length u.
Proof. intros Hl. unfold vsub. rewrite length_zip_with. lia. Qed.

Lemma vadd_length u v : length u = length v → length (vadd u v) = length u.
Proof. intros Hl. unfold vadd. rewrite length_zip_with. lia. Qed.

Lemma zeros_length n : length (zeros n) = n.
Proof. apply length_replicate. Qed.

Lemma dot_cons a u b v : dot (a :: u) (b :: v) = a * b + dot u v.
Proof. reflexivity. Qed.

End vectors.

(** ** Sums and products in exact arithmetic *)

Section exact.
Context `{Exact K}.
Local Open Scope num_scope.
Implicit Types (c x : K) (u v w : list K).

Add Field exact_field_tactics : exact_field.

Lemma one_not_zero : (1 : K) ≠ 0.
Proof. apply (F_1_neq_0 exact_field). Qed.

Lemma not_negligible x : negligible x = false ↔ x ≠ 0.
Proof. rewrite <- negligible_zero. by destruct (negligible x). Qed.

Lemma dot_nil_r u : dot u [] = 0.
Proof. by destruct u. Qed.

Lemma dot_zeros_r u n : dot u (zeros n) = 0.
Proof.
  revert n. induction u as [|a u IH]; intros [|n]; try done.
  unfold zeros. simpl. fold (zeros n). rewrite dot_cons, IH. ring.
Qed.

Lemma dot_comm u v : dot u v = dot v u.
Proof.
  revert v. induction u as [|a u IH]; intros [|b v]; try done.
  rewrite !dot_cons, IH. ring.
Qed.

Lemma dot_scale_l c u v : dot (scale c u) v = c * dot u v.
Proof.
  revert v. induction u as [|a u IH]; intros [|b v]; simpl;
    try (unfold dot; simpl; ring).
  rewrite !dot_cons, IH. ring.
Qed.

Lemma dot_vsub_l u v w :
  length u = length v → dot (vsub u v) w = dot u w - dot v w.
Proof.
  revert v w. induction u as [|a u IH]; intros [|b v] [|c w] Hl;
    simplify_eq/=; try (unfold dot; simpl; ring).
  rewrite !dot_cons, IH by done. ring.
Qed.

Lemma dot_zeros_l n v : dot (zeros n) v = 0.
Proof. by rewrite dot_comm, dot_zeros_r. Qed.

Lemma dot_app u1 u2 v1 v2 :
  length u1 = length v1 →
  dot (u1 ++ u2) (v1 ++ v2) = dot u1 v1 + dot u2 v2.
Proof.
  revert v1. induction u1 as [|a u1 IH]; intros [|b v1] Hl; simplify_eq/=.
  - unfold dot at 2. simpl. ring.
  - rewrite !dot_cons, IH by done. ring.
Qed.

Lemma dot_singleton a b : dot [a] [b] = a * b.
Proof. unfold dot. simpl. ring. Qed.

(** A constant added to every component. *)
Lemma dot_shift c u v :
  length u = length v → dot u (num_add c <$> v) = c * vsum u + dot u v.
Proof.
  revert v. induction u as [|a u IH]; intros [|b v] Hl; simplify_eq/=.
  - unfold dot. simpl. ring.
  - rewrite !dot_cons, IH by done. ring.
Qed.

(** Masking does not change the product with a vector that vanishes where
    the mask does. *)
Lemma dot_mask sel u v :
  vanishes sel u → dot u (mask sel v) = dot u v.
Proof.
  intros Hu. revert v. induction Hu as [|on a sel u Ha _ IH]; intros [|b v];
    try done.
  unfold mask. simpl. fold (mask sel v). rewrite !dot_cons, IH.
  destruct on; [done|]. rewrite Ha by done. ring.
Qed.

Lemma vanishes_mask sel v : length sel = length v → vanishes sel (mask sel v).
Proof.
  revert v. induction sel as [|on sel IH]; intros [|b v] Hl; simplify_eq/=;
    constructor; [by destruct on|by apply IH].
Qed.

Lemma vanishes_mul sel u v :
  length u = length v → vanishes sel v → vanishes sel (zip_with num_mul u v).
Proof.
  intros Hl Hv. revert u Hl.
  induction Hv as [|on b sel v Hb _ IH]; intros [|a u] Hl; simplify_eq/=;
    constructor; [|by apply IH].
  intros Hon. rewrite Hb by done. ring.
Qed.

Lemma vsum_zeros n : vsum (zeros n : list K) = 0.
Proof.
  induction n as [|n IH]; [done|]. change (0 + vsum (zeros n) = (0 : K)).
  rewrite IH. ring.
Qed.

Lemma zip_with_mul_zeros n v :
  length v = n → zip_with num_mul (zeros n) v = zeros n.
Proof.
  revert v. induction n as [|n IH]; intros [|b v] Hl; simplify_eq/=; [done|].
  unfold zeros in *. simpl. f_equal; [ring|by apply IH].
Qed.

Lemma dot_vadd_l u v w :
  length u = length v → dot (vadd u v) w = dot u w + dot v w.
Proof.
  revert v w. induction u as [|a u IH]; intros [|b v] [|c w] Hl;
    simplify_eq/=; try (unfold dot; simpl; ring).
  rewrite !dot_cons, IH by done. ring.
Qed.

End exact.
