(* ===== verification/Elimination.v ===== *)
(** * Elimination: the direct solution of the reduced system

    Specification, section 4.2: the reduced system is dense, has one
    equation and one unknown per element and one for the total number of
    moles, and is solved by direct elimination in each iteration; a zero or
    near-zero pivot is the failure [SingularSystem].

    [solve] eliminates the unknowns from the first to the last.  For an
    unknown it takes as pivot the first remaining equation whose
    coefficient of the unknown is not [negligible], subtracts multiples of
    it from the other equations, solves these for the unknowns that
    follow, and substitutes back.  It fails when no equation can serve as
    pivot.

    In exact arithmetic ([Exact]) a system of [n] equations in [n] unknowns
    either has exactly one solution, and [solve] returns it, or is
    singular (its homogeneous system has a solution other than zero), and
    [solve] fails.  The source of the solver is not under [src/]; the
    definitions follow the specification. *)

From Stdlib Require Import Field.
From S2P Require Import Prelude Linear.

Local Open Scope num_scope.

(** ** Systems *)

(** An equation [coeffs . x = rhs]. *)
Record equation (K : Type) := Equation {
  coeffs : list K;
  rhs : K
}.
Arguments Equation {K} coeffs rhs.
Arguments coeffs {K} e.
Arguments rhs {K} e.

Section elimination.
Context `{Number K}.
Implicit Types (e p : equation K) (sys rest : list (equation K)).
Implicit Types (x y : list K) (n : nat).

Definition satisfies (x : list K) (e : equation K) : Prop :=
  dot (coeffs e) x = rhs e.

(** The equation with the right-hand side zero. *)
Definition homogeneous (e : equation K) : equation K := Equation (coeffs e) 0.

(** [n] equations in [n] unknowns. *)
Definition square (n : nat) (sys : list (equation K)) : Prop :=
  length sys = n ∧ Forall (λ e, length (coeffs e) = n) sys.

#[export] Instance square_dec n sys : Decision (square n sys).
Proof. unfold square. apply _. Defined.

(** The equation can serve as pivot for its first unknown. *)
Definition usable (e : equation K) : bool :=
  match coeffs e with
  | c :: _ => negb (negligible c)
  | [] => false
  end.

(** The first usable equation, and the others in their order. *)
Fixpoint find_pivot (sys : list (equation K))
  : option (equation K * list (equation K)) :=
  match sys with
  | [] => None
  | e :: sys' =>
      if usable e then Some (e, sys')
      else prod_map id (cons e) <$> find_pivot sys'
  end.

(** [e] with its first unknown eliminated by the pivot [p]. *)
Definition reduce (p e : equation K) : equation K :=
  match coeffs p, coeffs e with
  | c :: row, c' :: row' =>
      let f := c' / c in
      Equation (vsub row' (scale f row)) (rhs e - f * rhs p)
  | _, _ => e
  end.

(** The first unknown from the pivot, once the others are known. *)
Definition back_substitute (p : equation K) (xs : list K) : option K :=
  match coeffs p with
  | c :: row => Some ((rhs p - dot row xs) / c)
  | [] => None
  end.

(** Direct elimination for [n] unknowns. *)
Fixpoint solve (n : nat) (sys : list (equation K)) : option (list K) :=
  match n with
  | O => Some []
  | S n' =>
      '(p, rest) ← find_pivot sys;
      xs ← solve n' (reduce p <$> rest);
      x0 ← back_substitute p xs;
      Some (x0 :: xs)
  end.

(** ** What holds in any arithmetic *)

Lemma solve_S n sys :
  solve (S n) sys
  = '(p, rest) ← find_pivot sys;
    xs ← solve n (reduce p <$> rest);
    x0 ← back_substitute p xs;
    Some (x0 :: xs).
Proof. reflexivity. Qed.

Lemma find_pivot_Some sys p rest :
  find_pivot sys = Some (p, rest) → usable p = true ∧ sys ≡ₚ p :: rest.
Proof.
  revert p rest. induction sys as [|e sys IH]; intros p rest; [done|]. simpl.
  destruct (usable e) eqn:He; [by intros [= <- <-]|].
  destruct (find_pivot sys) as [[p' rest']|]; [|done]. intros [= <- <-].
  destruct (IH _ _ eq_refl) as [Hp Hperm]. split; [done|].
  rewrite Hperm. apply Permutation_swap.
Qed.

Lemma find_pivot_None sys :
  find_pivot sys = None → Forall (λ e, usable e = false) sys.
Proof.
  induction sys as [|e sys IH]; [done|]. simpl.
  destruct (usable e) eqn:He; [done|].
  destruct (find_pivot sys) as [[]|]; [done|]. auto.
Qed.

(** A successful elimination, taken apart. *)
Lemma solve_S_Some n sys x :
  solve (S n) sys = Some x →
  ∃ p rest xs v,
    find_pivot sys = Some (p, rest)
    ∧ solve n (reduce p <$> rest) = Some xs
    ∧ back_substitute p xs = Some v ∧ x = v :: xs.
Proof.
  rewrite solve_S. intros Hx.
  destruct (find_pivot sys) as [[p rest]|]; [|done]. simpl in Hx.
  destruct (solve n _) as [xs|] eqn:Hxs; [|done]. simpl in Hx.
  destruct (back_substitute p xs) as [v|] eqn:Hv; [|done].
  simplify_eq/=. by exists p, rest, xs, v.
Qed.

(** The solution has one component per unknown. *)
Lemma solve_length n : ∀ sys x, solve n sys = Some x → length x = n.
Proof.
  induction n as [|n IH]; intros sys x Hx; [by simplify_eq/=|].
  apply solve_S_Some in Hx as (p & rest & xs & v & _ & Hxs & _ & ->).
  simpl. f_equal. eauto.
Qed.

Lemma reduce_length p e n :
  length (coeffs p) = S n → length (coeffs e) = S n →
  length (coeffs (reduce p e)) = n.
Proof.
  unfold reduce. destruct (coeffs p) as [|c row], (coeffs e) as [|c' row'];
    try done.
  intros [= Hp] [= He]. simpl. rewrite vsub_length, He; [done|].
  by rewrite scale_length, Hp, He.
Qed.

(** The pivot of a square system: it is usable, the system is the pivot
    and the other equations, and the system left after the elimination of
    the first unknown is square again. *)
Lemma square_pivot n sys p rest :
  square (S n) sys → find_pivot sys = Some (p, rest) →
  usable p = true ∧ sys ≡ₚ p :: rest ∧ length (coeffs p) = S n
  ∧ Forall (λ e, length (coeffs e) = S n) rest
  ∧ square n (reduce p <$> rest).
Proof.
  intros [Hlen Hrows] Hp. apply find_pivot_Some in Hp as [Hp Hperm].
  rewrite Hperm in Hlen, Hrows. apply Forall_cons in Hrows as [Hlp Hrest].
  do 4 (split; [done|]). split; [rewrite length_fmap; simpl in Hlen; lia|].
  rewrite Forall_fmap. eapply Forall_impl; [done|].
  intros e He. by apply reduce_length.
Qed.

End elimination.

(** ** Exact arithmetic *)

Section exact.
Context `{Exact K}.
Implicit Types (e p : equation K) (sys rest : list (equation K)).
Implicit Types (x y : list K) (n : nat).

Add Field elimination_field_tactics : exact_field.

(** A system whose homogeneous system has a solution other than zero. *)
Definition singular (n : nat) (sys : list (equation K)) : Prop :=
  ∃ y, length y = n ∧ y ≠ zeros n ∧ Forall (satisfies y) (homogeneous <$> sys).

(** The coefficient of the first unknown of a usable equation is not
    zero. *)
Lemma usable_coeffs p :
  usable p = true → ∃ c row, coeffs p = c :: row ∧ c ≠ 0.
Proof.
  unfold usable. destruct (coeffs p) as [|c row]; [done|].
  rewrite negb_true_iff, not_negligible. eauto.
Qed.

Lemma unusable_coeffs e n :
  usable e = false → length (coeffs e) = S n →
  ∃ row, coeffs e = 0 :: row ∧ length row = n.
Proof.
  unfold usable. destruct (coeffs e) as [|c row]; [done|].
  rewrite negb_false_iff, negligible_zero. intros -> [= Hrow]. eauto.
Qed.

(** Where the pivot holds, an equation holds exactly when the reduced one
    holds of the unknowns that follow. *)
Lemma reduce_satisfies p e v xs n :
  usable p = true →
  length (coeffs p) = S n → length (coeffs e) = S n → length xs = n →
  satisfies (v :: xs) p →
  satisfies (v :: xs) e ↔ satisfies xs (reduce p e).
Proof.
  intros (c & row & Hp & Hc)%usable_coeffs. unfold satisfies, reduce.
  rewrite Hp. destruct (coeffs e) as [|c' row']; [done|].
  intros [= Hrow] [= Hrow'] Hxs. simpl. rewrite !dot_cons.
  rewrite dot_vsub_l, dot_scale_l by (rewrite scale_length; congruence).
  intros <-. split; [intros <-; by field|]. intros Heq.
  transitivity (dot row' xs - c' / c * dot row xs
                + c' / c * (c * v + dot row xs)); [by field|].
  rewrite Heq. ring.
Qed.

(** The value that back substitution gives to the first unknown is the
    one value with which the pivot holds. *)
Lemma back_substitute_satisfies p xs w :
  usable p = true →
  satisfies (w :: xs) p ↔ back_substitute p xs = Some w.
Proof.
  intros (c & row & Hp & Hc)%usable_coeffs.
  unfold satisfies, back_substitute. rewrite Hp, dot_cons. split.
  - intros <-. f_equal. by field.
  - intros [= <-]. by field.
Qed.

Lemma back_substitute_usable p xs :
  usable p = true → is_Some (back_substitute p xs).
Proof.
  intros (c & row & Hp & _)%usable_coeffs. unfold back_substitute.
  rewrite Hp. eauto.
Qed.

(** The reduced equations of a square system hold of [xs] exactly when
    the equations hold of [v :: xs], where the pivot holds. *)
Lemma reduce_system p rest v xs n :
  usable p = true → length (coeffs p) = S n → length xs = n →
  Forall (λ e, length (coeffs e) = S n) rest →
  satisfies (v :: xs) p →
  Forall (satisfies (v :: xs)) rest
  ↔ Forall (satisfies xs) (reduce p <$> rest).
Proof.
  intros Hp Hlen Hxs Hrest Hsat. rewrite Forall_fmap.
  induction Hrest as [|e rest He _ IH]; [done|].
  rewrite !Forall_cons, IH. simpl.
  by rewrite (reduce_satisfies p e v xs n).
Qed.

(** What [solve] returns is a solution. *)
Lemma solve_sound n : ∀ sys x,
  square n sys → solve n sys = Some x → Forall (satisfies x) sys.
Proof.
  induction n as [|n IH]; intros sys x Hsq Hx.
  { destruct Hsq as [Hnil%nil_length_inv _]. by subst. }
  apply solve_S_Some in Hx as (p & rest & xs & v & Hpiv & Hxs & Hv & ->).
  destruct (square_pivot n sys p rest Hsq Hpiv)
    as (Hp & Hperm & Hlen & Hrows & Hsq').
  rewrite Hperm. apply back_substitute_satisfies in Hv; [|done].
  apply Forall_cons. split; [done|].
  apply (reduce_system p rest v xs n); eauto using solve_length.
Qed.

(** It is the only one. *)
Lemma solve_unique n : ∀ sys x y,
  square n sys → solve n sys = Some x →
  length y = n → Forall (satisfies y) sys → y = x.
Proof.
  induction n as [|n IH]; intros sys x y Hsq Hx Hy Hsat.
  { apply nil_length_inv in Hy. by simplify_eq/=. }
  apply solve_S_Some in Hx as (p & rest & xs & v & Hpiv & Hxs & Hv & ->).
  destruct (square_pivot n sys p rest Hsq Hpiv)
    as (Hp & Hperm & Hlen & Hrows & Hsq').
  rewrite Hperm in Hsat. apply Forall_cons in Hsat as [Hsat_p Hsat].
  destruct y as [|w ys]; simplify_eq/=.
  assert (ys = xs) as ->.
  { apply (IH (reduce p <$> rest)); [done..|].
    by apply (reduce_system p rest w ys (length ys)). }
  f_equal. apply back_substitute_satisfies in Hsat_p; [|done]. congruence.
Qed.

(** ** Failure *)

(** The reduced homogeneous equation is the homogeneous reduced
    equation. *)
Lemma reduce_homogeneous p e xs :
  satisfies xs (reduce (homogeneous p) (homogeneous e))
  ↔ satisfies xs (homogeneous (reduce p e)).
Proof.
  unfold satisfies, reduce, homogeneous.
  destruct p as [[|c row] r], e as [[|c' row'] r']; simpl; try done.
  by replace (0 - c' / c * 0) with (0 : K) by ring.
Qed.

Lemma cons_not_zeros v ys n : ys ≠ zeros n → v :: ys ≠ zeros (S n).
Proof. intros Hys [= _ ?]. done. Qed.

(** No equation can serve as pivot: the first unknown is free. *)
Lemma no_pivot_singular n sys :
  square (S n) sys → Forall (λ e, usable e = false) sys →
  singular (S n) sys.
Proof.
  intros [_ Hrows] Hun. exists (1 :: zeros n).
  split; [simpl; by rewrite zeros_length|].
  split; [intros [= Hone]; by apply one_not_zero in Hone|].
  rewrite Forall_fmap.
  eapply Forall_impl; [apply Forall_and; split; [exact Hun|exact Hrows]|].
  intros e [He Hlen]. destruct (unusable_coeffs e n He Hlen) as (row & Hc & _).
  unfold satisfies. simpl. rewrite Hc, dot_cons, dot_zeros_r. ring.
Qed.

(** The equations left after an elimination are singular: so is the
    system. *)
Lemma pivot_singular n sys p rest :
  square (S n) sys → find_pivot sys = Some (p, rest) →
  singular n (reduce p <$> rest) → singular (S n) sys.
Proof.
  intros Hsq Hpiv (ys & Hys & Hnz & Hsat).
  destruct (square_pivot n sys p rest Hsq Hpiv)
    as (Hp & Hperm & Hlen & Hrows & _).
  destruct (back_substitute_usable (homogeneous p) ys Hp) as [v Hv].
  apply back_substitute_satisfies in Hv; [|done].
  exists (v :: ys). split; [simpl; by rewrite Hys|].
  split; [by apply cons_not_zeros|].
  rewrite Hperm, fmap_cons. apply Forall_cons. split; [done|].
  apply (reduce_system (homogeneous p) (homogeneous <$> rest) v ys n);
    [done..|by rewrite Forall_fmap| |]; [done|].
  rewrite <- list_fmap_compose, Forall_fmap.
  rewrite <- list_fmap_compose, Forall_fmap in Hsat.
  eapply Forall_impl; [exact Hsat|]. intros e. apply reduce_homogeneous.
Qed.

(** When [solve] fails the system is singular. *)
Lemma solve_fails n : ∀ sys,
  square n sys → solve n sys = None → singular n sys.
Proof.
  induction n as [|n IH]; intros sys Hsq Hx; simpl in Hx; [done|].
  destruct (find_pivot sys) as [[p rest]|] eqn:Hpiv;
    [|by apply no_pivot_singular, find_pivot_None].
  simpl in Hx.
  destruct (square_pivot n sys p rest Hsq Hpiv) as (Hp & _ & _ & _ & Hsq').
  destruct (solve n _) as [xs|] eqn:Hxs;
    [|by eapply pivot_singular; eauto].
  simpl in Hx.
  destruct (back_substitute_usable p xs Hp) as [v Hv].
  by rewrite Hv in Hx.
Qed.

(** The sum of a solution and a solution of the homogeneous system is a
    solution. *)
Lemma satisfies_vadd x y e :
  length x = length y → length (coeffs e) = length x →
  satisfies x e → satisfies y (homogeneous e) → satisfies (vadd x y) e.
Proof.
  unfold satisfies. simpl. intros Hl He Hx Hy.
  rewrite dot_comm, dot_vadd_l, !(dot_comm _ (coeffs e)), Hx, Hy by done.
  ring.
Qed.

Lemma vadd_cancel x : ∀ y n,
  length x = n → length y = n → vadd x y = x → y = zeros n.
Proof.
  induction x as [|a x IH]; intros [|b y] [|n] Hx Hy Heq; try done.
  injection Hx as Hx. injection Hy as Hy. injection Heq as Hab Heq.
  change (zeros (S n)) with (0 :: zeros n). f_equal; [|by eapply IH].
  transitivity (a + b - a); [ring|]. rewrite Hab. ring.
Qed.

(** When [solve] succeeds the system is not singular. *)
Lemma solve_regular n sys x :
  square n sys → solve n sys = Some x → ¬ singular n sys.
Proof.
  intros Hsq Hx (y & Hy & Hnz & Hsat). apply Hnz.
  pose proof (solve_length n sys x Hx) as Hlen.
  apply (vadd_cancel x); [done..|].
  apply (solve_unique n sys); [done..|by rewrite vadd_length; congruence|].
  pose proof (solve_sound n sys x Hsq Hx) as Hsol. destruct Hsq as [_ Hrows].
  rewrite Forall_fmap in Hsat.
  eapply Forall_impl;
    [apply Forall_and; split; [exact Hrows|];
     apply Forall_and; split; [exact Hsol|exact Hsat]|].
  intros e (He & Hxe & Hye). apply satisfies_vadd; by try congruence.
Qed.

(** ** An equation without coefficients

    An equation whose coefficients are all zero never serves as pivot and
    stays as it is under the eliminations: the elimination fails. *)

Lemma zero_row_unusable e n : coeffs e = zeros (S n) → usable e = false.
Proof.
  unfold usable. intros ->. simpl. apply negb_false_iff.
  by apply negligible_zero.
Qed.

Lemma vsub_zeros_scale c row :
  c ≠ 0 → vsub (zeros (length row)) (scale (0 / c) row) = zeros (length row).
Proof.
  intros Hc. induction row as [|a row IH]; [done|].
  unfold vsub, scale, zeros in *. simpl. f_equal; [by field|done].
Qed.

Lemma reduce_zero_row p e n :
  usable p = true → length (coeffs p) = S n → coeffs e = zeros (S n) →
  coeffs (reduce p e) = zeros n.
Proof.
  intros (c & row & Hp & Hc)%usable_coeffs. unfold reduce.
  rewrite Hp. intros [= <-] ->. simpl. by apply vsub_zeros_scale.
Qed.

Lemma solve_zero_row n : ∀ sys e,
  square (S n) sys → e ∈ sys → coeffs e = zeros (S n) →
  solve (S n) sys = None.
Proof.
  induction n as [|n IH]; intros sys e Hsq He Hzero;
    rewrite solve_S; destruct (find_pivot sys) as [[p rest]|] eqn:Hpiv;
    try done; cbn [mbind option_bind];
    destruct (square_pivot _ sys p rest Hsq Hpiv)
      as (Hp & Hperm & Hlen & _ & Hsq');
    rewrite Hperm in He; apply elem_of_cons in He as [->|He];
    try (by rewrite (zero_row_unusable _ _ Hzero) in Hp).
  - destruct Hsq' as [Hnil%nil_length_inv _].
    apply fmap_nil_inv in Hnil as ->. by apply elem_of_nil in He.
  - rewrite (IH (reduce p <$> rest) (reduce p e)); [done|done| |].
    + by apply list_elem_of_fmap_2.
    + by apply reduce_zero_row.
Qed.

(** Direct elimination solves the reduced system or reports that it is
    singular.  In exact arithmetic, for [n] equations in [n] unknowns:
    when [solve] returns [x], every equation holds of [x] and [x] is the
    only such vector; when [solve] fails, the homogeneous system has a
    solution other than zero, so that the system has no solution or more
    than one. *)
Theorem elimination_correct n sys :
  square n sys →
  match solve n sys with
  | Some x =>
      Forall (satisfies x) sys
      ∧ ∀ y, length y = n → Forall (satisfies y) sys → y = x
  | None => singular n sys
  end.
Proof.
  intros Hsq. destruct (solve n sys) as [x|] eqn:Hx.
  - split; [by apply (solve_sound n)|]. intros y. by apply solve_unique.
  - by apply solve_fails.
Qed.

(** The failure of the elimination is the singularity of the system:
    in exact arithmetic [solve] finds no pivot exactly when the homogeneous
    system has a solution other than zero. *)
Theorem elimination_fails_iff n sys :
  square n sys → solve n sys = None ↔ singular n sys.
Proof.
  intros Hsq. split; [by apply solve_fails|]. intros Hsing.
  destruct (solve n sys) as [x|] eqn:Hx; [|done].
  by destruct (solve_regular n sys x).
Qed.

End exact.

(** Outside this file [solve] is used through its lemmas. *)
#[global] Arguments solve : simpl never.
