(* ===== verification/Balance.v ===== *)
(** * Balance: the Newton step of the pressure-temperature solve

    Specification, section 4.2 (ElementBalanceSystem).  At a composition
    estimate [n] with total [ntot], the chemical potentials [mu_s / RT] of
    the species and the conserved abundances [b_e], the Newton step looks
    for corrections [d_s] of [ln n_s] (active species), [delta] of
    [ln ntot] and for element potentials [pi_e] such that the linearised
    residuals vanish:

    - stationarity of each active species [s]:
      [mu_s + d_s - delta - sum_e a[e,s] * pi_e = 0];
    - conservation of each element [e]:
      [sum_s a[e,s] * n_s - b_e + sum_s a[e,s] * n_s * d_s = 0], the second
      sum over the active species;
    - the total: [sum_s n_s - ntot + sum_s n_s * d_s - ntot * delta = 0].

    The corrections of the species are eliminated analytically: with
    [d_s = delta + sum_e a[e,s] * pi_e - mu_s] the conservation equations
    and the total become [nel + 1] equations in the [pi_e] and [delta], the
    reduced system, which [Elimination.solve] solves.  A species that is
    not active is excluded from the system and its correction is zero.

    [newton_step] assembles the reduced system, solves it and substitutes
    back.  In exact arithmetic its result satisfies the linearised
    equations, and it fails exactly when the reduced system is singular;
    an element that occurs in no species makes it fail.

    The source of the solver is not under [src/]; the definitions follow
    the specification. *)

From Stdlib Require Import Field.
From S2P Require Import Prelude Linear Elimination.

Local Open Scope num_scope.

(** ** The data of a step *)

Record balance (K : Type) := Balance {
  bal_a : list (list K);      (* composition matrix: a row per element *)
  bal_b : list K;             (* conserved abundance of each element *)
  bal_n : list K;             (* mole number of each species *)
  bal_total : K;              (* total number of moles *)
  bal_mu : list K;            (* chemical potential mu_s / RT of each species *)
  bal_active : list bool      (* the active-species set *)
}.
Arguments Balance {K}.
Arguments bal_a {K}.
Arguments bal_b {K}.
Arguments bal_n {K}.
Arguments bal_total {K}.
Arguments bal_mu {K}.
Arguments bal_active {K}.

(** What a step computes. *)
Record balance_step (K : Type) := BalanceStep {
  bs_species : list K;        (* correction of ln n_s, per species *)
  bs_total : K;               (* correction of ln ntot *)
  bs_potentials : list K      (* the element potentials *)
}.
Arguments BalanceStep {K}.
Arguments bs_species {K}.
Arguments bs_total {K}.
Arguments bs_potentials {K}.

Section balance.
Context `{Number K}.
Implicit Types (bal : balance K) (st : balance_step K).
Implicit Types (w row mu : list K) (a : list (list K)).

(** The species are [nsp], the elements [nel]; the arrays have these
    sizes. *)
Definition well_formed (bal : balance K) : Prop :=
  Forall (λ row, length row = length (bal_n bal)) (bal_a bal)
  ∧ length (bal_b bal) = length (bal_a bal)
  ∧ length (bal_mu bal) = length (bal_n bal)
  ∧ length (bal_active bal) = length (bal_n bal).

#[export] Instance well_formed_dec bal : Decision (well_formed bal).
Proof. unfold well_formed. apply _. Defined.

(** The mole numbers of the active species; a species at rest has no
    weight in the system. *)
Definition weights (bal : balance K) : list K :=
  mask (bal_active bal) (bal_n bal).

(** [a[e,s] * w_s], per species. *)
Definition weigh (w row : list K) : list K := zip_with num_mul row w.

(** [sum_e a[e,s] * pi_e], per species. *)
Fixpoint potentials (nsp : nat) (a : list (list K)) (pi : list K) : list K :=
  match a, pi with
  | row :: a', p :: pi' => vadd (scale p row) (potentials nsp a' pi')
  | _, _ => zeros nsp
  end.

(** The conserved abundances of a composition: [b_e = sum_s a[e,s] * n_s]. *)
Definition abundances (a : list (list K)) (n0 : list K) : list K :=
  (λ row, dot row n0) <$> a.

(** ** The reduced system *)

(** The equation of the element with the row [row] and the abundance [b]:
    the coefficient of [pi_i] is [sum_s a[e,s] * a[i,s] * w_s], that of
    [delta] is [sum_s a[e,s] * w_s]. *)
Definition element_equation (bal : balance K) (row : list K) (b : K)
  : equation K :=
  let u := weigh (weights bal) row in
  Equation ((dot u <$> bal_a bal) ++ [vsum u])
           (b - dot row (bal_n bal) + dot u (bal_mu bal)).

(** The equation of the total: the coefficient of [pi_i] is
    [sum_s a[i,s] * w_s], that of [delta] is [sum_s w_s - ntot]. *)
Definition total_equation (bal : balance K) : equation K :=
  let w := weights bal in
  Equation ((dot w <$> bal_a bal) ++ [vsum w - bal_total bal])
           (bal_total bal - vsum (bal_n bal) + dot w (bal_mu bal)).

Definition reduced_system (bal : balance K) : list (equation K) :=
  zip_with (element_equation bal) (bal_a bal) (bal_b bal)
  ++ [total_equation bal].

(** ** The step *)

(** The corrections of the species from the solution of the reduced
    system: [d_s = delta + sum_e a[e,s] * pi_e - mu_s] for an active
    species, zero for a species at rest. *)
Definition species_corrections (bal : balance K) (pi : list K) (delta : K)
  : list K :=
  mask (bal_active bal)
    (num_add delta
       <$> vsub (potentials (length (bal_n bal)) (bal_a bal) pi)
             (bal_mu bal)).

Definition newton_step (bal : balance K) : option (balance_step K) :=
  let nel := length (bal_a bal) in
  x ← solve (S nel) (reduced_system bal);
  delta ← x !! nel;
  let pi := take nel x in
  Some (BalanceStep (species_corrections bal pi delta) delta pi).

(** ** The arrays of the caller

    The composition matrix is the array [a] of the entry points of
    [src/ceq.c], of the shape [nel,nsp] that the doc comments give. *)

(** The [nel] rows of [nsp] entries of an array stored row by row.  The
    doc comments of [src/ceq.c] give the composition matrix as [a] of
    shape [nel,nsp]; that the array is stored row by row is an assumption
    of this model, which the source neither states nor relies on. *)
Fixpoint rows (nel nsp : nat) (flat : list K) : list (list K) :=
  match nel with
  | O => []
  | S nel' => take nsp flat :: rows nel' nsp (drop nsp flat)
  end.

(** The data of a step from the arrays: the abundances to conserve are
    those of the initial composition [X0]. *)
Definition balance_of_arrays (nel nsp : nat) (flat X0 n : list K)
    (total : K) (mu : list K) (active : list bool) : balance K :=
  let m := rows nel nsp flat in
  {| bal_a := m; bal_b := abundances m X0; bal_n := n; bal_total := total;
     bal_mu := mu; bal_active := active |}.

(** The arrays have the sizes that [nel] and [nsp] give them. *)
Definition arrays_sized (nel nsp : nat) (flat n mu : list K)
    (active : list bool) : Prop :=
  length flat = (nel * nsp)%nat ∧ length n = nsp ∧ length mu = nsp
  ∧ length active = nsp.

#[export] Instance arrays_sized_dec nel nsp flat n mu active :
  Decision (arrays_sized nel nsp flat n mu active).
Proof. unfold arrays_sized. apply _. Defined.

(** ** The linearised equations *)

Definition linearised (bal : balance K) (st : balance_step K) : Prop :=
  let w := weights bal in
  let t := potentials (length (bal_n bal)) (bal_a bal) (bs_potentials st) in
  length (bs_species st) = length (bal_n bal)
  ∧ length (bs_potentials st) = length (bal_a bal)
  (* stationarity of the active species *)
  ∧ (∀ s m p d,
       bal_active bal !! s = Some true → bal_mu bal !! s = Some m →
       t !! s = Some p → bs_species st !! s = Some d →
       m + d - bs_total st - p = 0)
  (* no correction of a species at rest *)
  ∧ (∀ s d,
       bal_active bal !! s = Some false → bs_species st !! s = Some d →
       d = 0)
  (* conservation of the elements *)
  ∧ Forall2 (λ row b,
       dot row (bal_n bal) - b + dot (weigh w row) (bs_species st) = 0)
      (bal_a bal) (bal_b bal)
  (* the total *)
  ∧ vsum (bal_n bal) - bal_total bal + dot w (bs_species st)
    - bal_total bal * bs_total st = 0.

(** ** Equilibrium *)

(** The composition of [bal] is an equilibrium with the element potentials
    [pi]: every active species is stationary
    ([mu_s = sum_e a[e,s] * pi_e]), every element is conserved
    ([sum_s a[e,s] * n_s = b_e]), and the total is the sum of the mole
    numbers. *)
Definition equilibrium (bal : balance K) (pi : list K) : Prop :=
  length pi = length (bal_a bal)
  ∧ (∀ s m p,
       bal_active bal !! s = Some true → bal_mu bal !! s = Some m →
       potentials (length (bal_n bal)) (bal_a bal) pi !! s = Some p →
       m - p = 0)
  ∧ Forall2 (λ row b, dot row (bal_n bal) - b = 0) (bal_a bal) (bal_b bal)
  ∧ vsum (bal_n bal) - bal_total bal = 0.

(** The step that corrects nothing. *)
Definition rest_step (bal : balance K) (pi : list K) : balance_step K :=
  BalanceStep (zeros (length (bal_n bal))) 0 pi.

(** ** Sizes *)

Lemma potentials_length nsp a pi :
  Forall (λ row, length row = nsp) a → length (potentials nsp a pi) = nsp.
Proof.
  intros Ha. revert pi. induction Ha as [|row a Hrow _ IH]; intros [|p pi];
    simpl; try apply zeros_length.
  rewrite vadd_length; rewrite scale_length; [done|by rewrite IH].
Qed.

Lemma weights_length bal :
  well_formed bal → length (weights bal) = length (bal_n bal).
Proof. intros (_ & _ & _ & Hact). by apply mask_length. Qed.

Lemma reduced_system_square bal :
  well_formed bal → square (S (length (bal_a bal))) (reduced_system bal).
Proof.
  intros (Ha & Hb & _). unfold reduced_system. split.
  - rewrite length_app, length_zip_with. simpl. lia.
  - apply Forall_app. split.
    + apply (Forall_zip_with_fst _ (λ _, True)); [by apply Forall_true|].
      apply Forall_true. intros b row _. simpl.
      rewrite length_app, length_fmap. simpl. lia.
    + apply Forall_singleton. simpl.
      rewrite length_app, length_fmap. simpl. lia.
Qed.

Lemma weigh_length w row :
  length row = length w → length (weigh w row) = length w.
Proof. intros Hl. unfold weigh. rewrite length_zip_with. lia. Qed.

Lemma species_corrections_length bal pi delta :
  well_formed bal →
  length (species_corrections bal pi delta) = length (bal_n bal).
Proof.
  intros (Ha & _ & Hmu & Hact). unfold species_corrections.
  rewrite mask_length; rewrite length_fmap, vsub_length;
    rewrite ?potentials_length; done.
Qed.

(** A solution of the reduced system is the potentials followed by the
    correction of the total. *)
Lemma solution_split (x : list K) nel delta :
  length x = S nel → x !! nel = Some delta → x = take nel x ++ [delta].
Proof.
  intros Hlen Hd. rewrite <- (take_drop nel x) at 1. f_equal.
  apply list_eq. intros [|i].
  - by rewrite lookup_drop, Nat.add_0_r.
  - rewrite lookup_drop. simpl. apply lookup_ge_None_2. lia.
Qed.

Lemma newton_step_Some bal st :
  newton_step bal = Some st →
  ∃ pi delta,
    st = BalanceStep (species_corrections bal pi delta) delta pi
    ∧ length pi = length (bal_a bal)
    ∧ solve (S (length (bal_a bal))) (reduced_system bal)
      = Some (pi ++ [delta]).
Proof.
  unfold newton_step. intros Hst.
  destruct (solve _ _) as [x|] eqn:Hx; [|done]. simpl in Hst.
  destruct (x !! _) as [delta|] eqn:Hdelta; [|done]. simplify_eq/=.
  pose proof (solve_length _ _ _ Hx) as Hlen.
  exists (take (length (bal_a bal)) x), delta.
  split; [done|]. split; [rewrite length_take; lia|].
  by rewrite <- solution_split.
Qed.

Lemma newton_step_None bal :
  newton_step bal = None →
  solve (S (length (bal_a bal))) (reduced_system bal) = None.
Proof.
  unfold newton_step. destruct (solve _ _) as [x|] eqn:Hx; [|done].
  simpl. pose proof (solve_length _ _ _ Hx) as Hlen.
  destruct (lookup_lt_is_Some_2 x (length (bal_a bal))) as [d ->]; [lia|].
  done.
Qed.

Lemma rows_length nel nsp (flat : list K) :
  length (rows nel nsp flat) = nel.
Proof. revert flat. induction nel as [|nel IH]; intros; simpl; auto. Qed.

Lemma rows_row_length nel nsp (flat : list K) :
  (nel * nsp ≤ length flat)%nat →
  Forall (λ row, length row = nsp) (rows nel nsp flat).
Proof.
  revert flat. induction nel as [|nel IH]; intros flat Hlen; simpl; [done|].
  constructor; [rewrite length_take; lia|].
  apply IH. rewrite length_drop. lia.
Qed.

(** The array is its rows one after the other. *)
Lemma rows_concat nel nsp (flat : list K) :
  length flat = (nel * nsp)%nat → concat (rows nel nsp flat) = flat.
Proof.
  revert flat. induction nel as [|nel IH]; intros flat Hlen; simpl.
  - by destruct flat.
  - rewrite IH, take_drop; [done|]. rewrite length_drop. lia.
Qed.

(** Row [e] is the cells [e*nsp .. (e+1)*nsp) of the array. *)
Lemma rows_lookup nel nsp (flat : list K) (e : nat) :
  (e < nel)%nat →
  rows nel nsp flat !! e = Some (take nsp (drop (e * nsp) flat)).
Proof.
  revert flat e. induction nel as [|nel IH]; intros flat [|e] He; try lia.
  - done.
  - simpl. by rewrite IH, drop_drop by lia.
Qed.

Lemma arrays_well_formed nel nsp flat X0 n total mu active :
  arrays_sized nel nsp flat n mu active →
  well_formed (balance_of_arrays nel nsp flat X0 n total mu active).
Proof.
  intros (Ha & Hn & Hmu & Hact). unfold well_formed. simpl.
  rewrite Hn. split; [apply rows_row_length; lia|].
  unfold abundances. by rewrite length_fmap.
Qed.

(** The step has a correction per species and a potential per element. *)
Lemma newton_step_lengths bal st :
  well_formed bal → newton_step bal = Some st →
  length (bs_species st) = length (bal_n bal)
  ∧ length (bs_potentials st) = length (bal_a bal).
Proof.
  intros Hwf (pi & delta & -> & Hpi & _)%newton_step_Some.
  split; [by apply species_corrections_length|done].
Qed.

End balance.

(** ** Exact arithmetic *)

Section exact.
Context `{Exact K}.
Implicit Types (bal : balance K) (st : balance_step K).
Implicit Types (u w row mu pi : list K) (a : list (list K)).

Add Field balance_field_tactics : exact_field.

(** [sum_s u_s * (sum_e a[e,s] * pi_e) = sum_e (sum_s u_s * a[e,s]) * pi_e] *)
Lemma dot_potentials u a : ∀ pi,
  Forall (λ row, length row = length u) a → length pi = length a →
  dot u (potentials (length u) a pi) = dot (dot u <$> a) pi.
Proof.
  induction a as [|row a IH]; intros [|p pi] Ha Hpi; simplify_eq/=.
  { apply dot_zeros_r. }
  apply Forall_cons in Ha as [Hrow Ha].
  rewrite dot_cons, <- IH by done.
  rewrite (dot_comm u), dot_vadd_l, dot_scale_l, !(dot_comm _ u).
  - ring.
  - by rewrite scale_length, potentials_length.
Qed.

Lemma weigh_vanishes bal row :
  well_formed bal → length row = length (bal_n bal) →
  vanishes (bal_active bal) (weigh (weights bal) row).
Proof.
  intros Hwf Hrow. apply vanishes_mul.
  - by rewrite weights_length.
  - apply vanishes_mask. by destruct Hwf as (_ & _ & _ & ->).
Qed.

(** The product of a vector that vanishes on the species at rest with the
    corrections of the species. *)
Lemma dot_species_corrections bal u pi delta :
  well_formed bal → length pi = length (bal_a bal) →
  length u = length (bal_n bal) → vanishes (bal_active bal) u →
  dot u (species_corrections bal pi delta)
  = delta * vsum u + dot (dot u <$> bal_a bal) pi - dot u (bal_mu bal).
Proof.
  intros (Ha & _ & Hmu & _) Hpi Hu Hvan. unfold species_corrections.
  pose proof (potentials_length _ _ pi Ha) as Ht.
  rewrite dot_mask, dot_shift by (by rewrite ?vsub_length; congruence).
  rewrite (dot_comm u), dot_vsub_l by congruence.
  rewrite (dot_comm _ u), (dot_comm _ u). rewrite <- Hu in Ha |- *.
  rewrite dot_potentials by done. ring.
Qed.

(** The equation of an element of the reduced system is its conservation
    equation. *)
Lemma element_equation_holds bal row b pi delta :
  well_formed bal → length pi = length (bal_a bal) →
  length row = length (bal_n bal) →
  satisfies (pi ++ [delta]) (element_equation bal row b)
  ↔ dot row (bal_n bal) - b
    + dot (weigh (weights bal) row) (species_corrections bal pi delta) = 0.
Proof.
  intros Hwf Hpi Hrow. unfold satisfies. simpl.
  rewrite dot_app, dot_singleton by (by rewrite length_fmap).
  rewrite dot_species_corrections; try done.
  - set (u := weigh (weights bal) row). split; intros Heq.
    + transitivity (dot row (bal_n bal) - b - dot u (bal_mu bal)
                    + (dot (dot u <$> bal_a bal) pi + vsum u * delta));
        [ring|]. rewrite Heq. ring.
    + transitivity
        (dot row (bal_n bal) - b
         + (delta * vsum u + dot (dot u <$> bal_a bal) pi
            - dot u (bal_mu bal))
         + (b - dot row (bal_n bal) + dot u (bal_mu bal))); [ring|].
      rewrite Heq. ring.
  - rewrite weigh_length; by rewrite weights_length.
  - by apply weigh_vanishes.
Qed.

Lemma total_equation_holds bal pi delta :
  well_formed bal → length pi = length (bal_a bal) →
  satisfies (pi ++ [delta]) (total_equation bal)
  ↔ vsum (bal_n bal) - bal_total bal
    + dot (weights bal) (species_corrections bal pi delta)
    - bal_total bal * delta = 0.
Proof.
  intros Hwf Hpi. unfold satisfies. simpl.
  rewrite dot_app, dot_singleton by (by rewrite length_fmap).
  rewrite dot_species_corrections; try done.
  - set (w := weights bal). split; intros Heq.
    + transitivity (vsum (bal_n bal) - bal_total bal - dot w (bal_mu bal)
                    + (dot (dot w <$> bal_a bal) pi
                       + (vsum w - bal_total bal) * delta));
        [ring|]. rewrite Heq. ring.
    + transitivity
        (vsum (bal_n bal) - bal_total bal
         + (delta * vsum w + dot (dot w <$> bal_a bal) pi
            - dot w (bal_mu bal))
         - bal_total bal * delta
         + (bal_total bal - vsum (bal_n bal) + dot w (bal_mu bal)));
        [ring|]. rewrite Heq. ring.
  - by apply weights_length.
  - apply vanishes_mask. by destruct Hwf as (_ & _ & _ & ->).
Qed.

Lemma species_corrections_lookup bal pi delta (s : nat) (on : bool) m p :
  bal_active bal !! s = Some on → bal_mu bal !! s = Some m →
  potentials (length (bal_n bal)) (bal_a bal) pi !! s = Some p →
  species_corrections bal pi delta !! s
  = Some (if on then delta + (p - m) else 0).
Proof.
  intros Hon Hm Hp. unfold species_corrections, mask, vsub.
  by rewrite lookup_zip_with, Hon, list_lookup_fmap, lookup_zip_with, Hp, Hm.
Qed.

(** A solution of the reduced system gives a solution of the linearised
    equations. *)
Lemma reduced_linearised bal pi delta :
  well_formed bal → length pi = length (bal_a bal) →
  Forall (satisfies (pi ++ [delta])) (reduced_system bal) →
  linearised bal
    (BalanceStep (species_corrections bal pi delta) delta pi).
Proof.
  intros Hwf Hpi [Hel Htot]%Forall_app.
  apply (proj1 (Forall_singleton _ _)) in Htot.
  split; [by apply species_corrections_length|]. split; [done|].
  cbn [bs_species bs_total bs_potentials]. repeat split.
  - intros s m p d Hon Hm Hp.
    rewrite (species_corrections_lookup bal pi delta s true m p) by done.
    intros [= <-]. ring.
  - intros s d Hon Hd.
    destruct (lookup_lt_is_Some_2 (bal_mu bal) s) as [m Hm].
    { destruct Hwf as (_ & _ & -> & <-). by eapply lookup_lt_Some. }
    destruct (lookup_lt_is_Some_2
                (potentials (length (bal_n bal)) (bal_a bal) pi) s)
      as [p Hp].
    { destruct Hwf as (Ha & _ & _ & Hact).
      rewrite potentials_length, <- Hact by done. by eapply lookup_lt_Some. }
    rewrite (species_corrections_lookup bal pi delta s false m p) in Hd
      by done. by injection Hd.
  - pose proof Hwf as (Ha & Hb & _).
    eapply Forall_zip_with_Forall2; [|done|exact Ha|exact Hel].
    intros row b Hrow. by apply element_equation_holds.
  - by apply total_equation_holds.
Qed.

(** The linearised equations determine the corrections of the species
    from the potentials and the correction of the total. *)
Lemma linearised_species bal st :
  well_formed bal → linearised bal st →
  bs_species st
  = species_corrections bal (bs_potentials st) (bs_total st).
Proof.
  intros Hwf (Hd & Hpi & Hon & Hoff & _).
  pose proof Hwf as (Ha & _ & Hmu & Hact).
  apply list_eq. intros s.
  destruct (bal_active bal !! s) as [on|] eqn:Hs.
  - pose proof (lookup_lt_Some _ _ _ Hs) as Hlt.
    destruct (lookup_lt_is_Some_2 (bal_mu bal) s) as [m Hm]; [lia|].
    destruct (lookup_lt_is_Some_2 (bs_species st) s) as [d Hds]; [lia|].
    destruct (lookup_lt_is_Some_2
                (potentials (length (bal_n bal)) (bal_a bal)
                   (bs_potentials st)) s) as [p Hp].
    { rewrite potentials_length by done. lia. }
    rewrite (species_corrections_lookup _ _ _ s on m p), Hds by done.
    f_equal. destruct on.
    + specialize (Hon s m p d Hs Hm Hp Hds).
      transitivity (m + d - bs_total st - p + (bs_total st + (p - m)));
        [ring|]. rewrite Hon. ring.
    + by apply (Hoff s).
  - apply lookup_ge_None in Hs.
    rewrite !(proj2 (lookup_ge_None _ _)); [done|..].
    + rewrite species_corrections_length by done. lia.
    + lia.
Qed.

(** A solution of the linearised equations gives a solution of the reduced
    system. *)
Lemma linearised_reduced bal st :
  well_formed bal → linearised bal st →
  Forall (satisfies (bs_potentials st ++ [bs_total st])) (reduced_system bal).
Proof.
  intros Hwf Hlin. pose proof (linearised_species bal st Hwf Hlin) as Hd.
  destruct Hlin as (_ & Hpi & _ & _ & Hel & Htot). rewrite Hd in Hel, Htot.
  pose proof Hwf as (Ha & _). apply Forall_app. split.
  - eapply Forall2_Forall_zip_with; [|exact Ha|exact Hel].
    intros row b Hrow. by apply element_equation_holds.
  - apply Forall_singleton. by apply total_equation_holds.
Qed.

(** ** The step *)

(** The step is a solution of the linearised equations. *)
Lemma newton_step_linearised bal st :
  well_formed bal → newton_step bal = Some st → linearised bal st.
Proof.
  intros Hwf (pi & delta & -> & Hpi & Hx)%newton_step_Some.
  apply reduced_linearised; [done..|].
  eapply solve_sound; [|done]. by apply reduced_system_square.
Qed.

(** It is the only one. *)
Lemma newton_step_unique bal st st' :
  well_formed bal → newton_step bal = Some st → linearised bal st' →
  st' = st.
Proof.
  intros Hwf (pi & delta & -> & Hpi & Hx)%newton_step_Some Hlin.
  pose proof (linearised_species bal st' Hwf Hlin) as Hd.
  pose proof (linearised_reduced bal st' Hwf Hlin) as Hsat.
  destruct Hlin as (_ & Hpi' & _).
  apply (solve_unique _ _ _ _ (reduced_system_square bal Hwf) Hx) in Hsat;
    [|rewrite length_app; simpl; lia].
  apply app_inj_1 in Hsat as [Hp [= Hdelta]]; [|congruence].
  destruct st' as [d' delta' pi']. simpl in *. by subst.
Qed.

(** An element that occurs in no species: its equation of the reduced
    system has no coefficient. *)
Lemma element_equation_zeros bal b :
  well_formed bal →
  coeffs (element_equation bal (zeros (length (bal_n bal))) b)
  = zeros (S (length (bal_a bal))).
Proof.
  intros Hwf. unfold element_equation, weigh. simpl.
  rewrite zip_with_mul_zeros by (by apply weights_length).
  rewrite vsum_zeros. unfold zeros at 2. rewrite replicate_S_end. f_equal.
  induction (bal_a bal) as [|row a IH]; [done|].
  by rewrite fmap_cons, dot_zeros_l, IH.
Qed.

Lemma newton_step_spec bal :
  well_formed bal →
  match newton_step bal with
  | Some st => linearised bal st ∧ ∀ st', linearised bal st' → st' = st
  | None => singular (S (length (bal_a bal))) (reduced_system bal)
  end.
Proof.
  intros Hwf. destruct (newton_step bal) as [st|] eqn:Hst.
  - split; [by apply newton_step_linearised|].
    intros st'. by apply newton_step_unique.
  - apply solve_fails; [by apply reduced_system_square|].
    by apply newton_step_None.
Qed.

Lemma zero_row_singular bal (e : nat) :
  well_formed bal →
  bal_a bal !! e = Some (zeros (length (bal_n bal))) →
  newton_step bal = None.
Proof.
  intros Hwf He. pose proof Hwf as (_ & Hb & _).
  destruct (lookup_lt_is_Some_2 (bal_b bal) e) as [b Hbe].
  { rewrite Hb. by eapply lookup_lt_Some. }
  unfold newton_step.
  rewrite (solve_zero_row _ _
             (element_equation bal (zeros (length (bal_n bal))) b));
    [done|by apply reduced_system_square| |by apply element_equation_zeros].
  unfold reduced_system. apply elem_of_app. left.
  apply (list_elem_of_lookup_2 _ e). by rewrite lookup_zip_with, He, Hbe.
Qed.

(** A part of an array that holds zeros. *)
Lemma take_drop_zeros (l : list K) (i n : nat) :
  (i + n ≤ length l)%nat →
  (∀ j, (j < n)%nat → l !! (i + j)%nat = Some 0) →
  take n (drop i l) = zeros n.
Proof.
  intros Hlen Hz. apply list_eq. intros j. unfold zeros.
  destruct (decide (j < n)%nat) as [Hj|Hj].
  - rewrite lookup_take_lt, lookup_drop, Hz by done.
    symmetry. by apply lookup_replicate_2.
  - rewrite lookup_take_ge by lia. symmetry.
    apply lookup_ge_None_2. rewrite length_replicate. lia.
Qed.

(** ** The step at an equilibrium *)

(** At an equilibrium nothing is to be corrected, and only there. *)
Lemma equilibrium_linearised bal pi :
  well_formed bal → equilibrium bal pi ↔ linearised bal (rest_step bal pi).
Proof.
  intros [Ha _]. unfold equilibrium, linearised, rest_step. simpl.
  rewrite zeros_length, dot_zeros_r. split.
  - intros (Hpi & Hst & Hel & Htot). split_and!; [done..| | | |].
    + intros s m p d Hs Hm Hp [-> _]%lookup_replicate.
      etrans; [|exact (Hst s m p Hs Hm Hp)]. ring.
    + by intros s d _ [-> _]%lookup_replicate.
    + eapply Forall2_impl; [done|]. intros row b Hb. simpl in *.
      rewrite dot_zeros_r. etrans; [|exact Hb]. ring.
    + etrans; [|exact Htot]. ring.
  - intros (_ & Hpi & Hst & _ & Hel & Htot). split_and!; [done| | |].
    + intros s m p Hs Hm Hp. etrans; [|apply (Hst s m p 0 Hs Hm Hp)]; [ring|].
      apply (lookup_replicate_2 (length (bal_n bal))).
      apply lookup_lt_Some in Hp. by rewrite potentials_length in Hp.
    + eapply Forall2_impl; [done|]. intros row b Hb. simpl in *.
      rewrite dot_zeros_r in Hb. etrans; [|exact Hb]. ring.
    + etrans; [|exact Htot]. ring.
Qed.

Lemma newton_step_rest bal st :
  well_formed bal → newton_step bal = Some st →
  bs_species st = zeros (length (bal_n bal)) ∧ bs_total st = 0
  ↔ equilibrium bal (bs_potentials st).
Proof.
  intros Hwf Hst. rewrite equilibrium_linearised by done. split.
  - intros [Hd Hdelta]. destruct st as [d delta pi]. simpl in *. subst.
    by apply newton_step_linearised.
  - intros Hlin. by rewrite <- (newton_step_unique _ _ _ Hwf Hst Hlin).
Qed.

(** The Newton step of the pressure-temperature solve, on the arrays
    of the caller.  In exact arithmetic, for a composition matrix [a]
    stored row by row with the shape [nel,nsp] and arrays of [nsp] mole
    numbers, potentials and activity flags: when [newton_step] returns a
    step, the step satisfies the linearised equations (stationarity of
    every active species, conservation of every element, the total) with
    no correction of the species at rest, and it is the only step that
    does; when [newton_step] fails, the reduced system is singular. *)
Theorem newton_step_correct nel nsp flat X0 n total mu active :
  arrays_sized nel nsp flat n mu active →
  let bal := balance_of_arrays nel nsp flat X0 n total mu active in
  match newton_step bal with
  | Some st => linearised bal st ∧ ∀ st', linearised bal st' → st' = st
  | None => singular (S nel) (reduced_system bal)
  end.
Proof.
  intros Hsized bal.
  pose proof (newton_step_spec bal (arrays_well_formed _ _ _ _ _ _ _ _ Hsized))
    as Hspec.
  destruct (newton_step bal); [done|]. simpl in Hspec.
  by rewrite rows_length in Hspec.
Qed.

(** Failure injection (specification, section 8).  When the row of an
    element [e] of the composition matrix, the cells
    [a[e*nsp .. (e+1)*nsp)] of the caller's array, holds only zeros (the
    element occurs in no species), the Newton step fails in exact
    arithmetic, whatever the composition to conserve: the reduced system
    is singular, and no correction is returned. *)
Theorem zero_row_fails nel nsp flat X0 n total mu active (e : nat) :
  arrays_sized nel nsp flat n mu active → (e < nel)%nat →
  (∀ s, (s < nsp)%nat → flat !! (e * nsp + s)%nat = Some 0) →
  newton_step (balance_of_arrays nel nsp flat X0 n total mu active) = None.
Proof.
  intros Hsized He Hzero. pose proof Hsized as (Ha & Hn & _).
  apply (zero_row_singular _ e); [by apply arrays_well_formed|]. simpl.
  rewrite rows_lookup, Hn by done. f_equal.
  apply take_drop_zeros; [nia|done].
Qed.

(** The Newton step rests exactly at an equilibrium.  In exact
    arithmetic, on the arrays of the caller (the composition matrix [a]
    stored row by row with the shape [nel,nsp], the abundances to conserve
    those of the initial composition [X0]): the step that [newton_step]
    returns corrects nothing (no species, and not the total) if and only
    if the composition it was computed at is an equilibrium with the
    element potentials of the step, that is, every active species is
    stationary, [sum_s a[e,s] * n_s = sum_s a[e,s] * X0_s] for every
    element [e], and the total is the sum of the mole numbers. *)
Theorem newton_step_rests nel nsp flat X0 n total mu active st :
  arrays_sized nel nsp flat n mu active →
  let bal := balance_of_arrays nel nsp flat X0 n total mu active in
  newton_step bal = Some st →
  bs_species st = zeros nsp ∧ bs_total st = 0
  ↔ equilibrium bal (bs_potentials st).
Proof.
  intros Hsized bal Hst. pose proof Hsized as (_ & Hn & _).
  rewrite <- newton_step_rest by (by apply arrays_well_formed || done).
  simpl. by rewrite Hn.
Qed.

End exact.
