(* ===== verification/BalanceKernel.v ===== *)
(** * BalanceKernel: the Newton step in double precision

    The solvers compute in [double].  This file instantiates the numbers of
    [Linear] with the doubles, builds the data of the reduced system from
    a [problem] and an iteration state of [Newton], and gives the Newton
    step of [Balance] the form of the operation [reduced_solve] of a
    [Newton.Kernel]: for a kernel that solves its reduced system in this
    way, a step of the iteration fails with [SingularSystem] exactly when
    the elimination finds no pivot.

    The composition matrix [a] is stored row by row, [nel] rows of [nsp]
    entries ([Balance.rows]), as the doc comments of [src/ceq.c] give its
    shape ([nel,nsp]).  The chemical potentials of the species come from
    the ThermoEvaluator and a logarithm; they are a parameter here.

    Rounding is not modelled: what [Balance] proves of the step holds of
    exact arithmetic, and of the doubles only the sizes of the results are
    proved. *)

From Corelib Require Import PrimFloat.
From S2P Require Import Prelude Memory Status Thermo Newton.
From S2P Require Import Linear Elimination Balance.

(** ** The doubles as numbers *)

(** A pivot is negligible when its magnitude does not exceed [eps]; a
    NaN is negligible. *)
Definition double_number (eps : double) : Number double := {|
  num_zero := 0%float;
  num_one := 1%float;
  num_add := PrimFloat.add;
  num_sub := PrimFloat.sub;
  num_mul := PrimFloat.mul;
  num_div := PrimFloat.div;
  num_opp := PrimFloat.opp;
  negligible x := negb (eps <? abs x)%float
|}.

(** ** The reduced system of a state of the iteration *)

Section kernel.
Variable eps : double.
Variable chemical_potentials : problem → iter_state → list double.
Implicit Types (pr : problem) (st : iter_state).

#[local] Instance kernel_number : Number double := double_number eps.

(** The step is taken at the mole numbers of the state, with their sum as
    the total; the abundances to conserve are those of the initial
    composition. *)
Definition balance_of pr st : balance double :=
  balance_of_arrays (Z.to_nat (pr_nel pr)) (Z.to_nat (pr_nsp pr)) (pr_a pr)
    (pr_X0 pr) (it_n st) (total (it_n st)) (chemical_potentials pr st)
    (it_active st).

Definition balance_reduced_solve pr st : option correction :=
  (λ s, {| d_ln_n := bs_species s; d_pi := bs_potentials s |})
    <$> newton_step (balance_of pr st).

(** The arrays of a problem and a state have the sizes of the problem. *)
Definition sized pr st : Prop :=
  arrays_sized (Z.to_nat (pr_nel pr)) (Z.to_nat (pr_nsp pr)) (pr_a pr)
    (it_n st) (chemical_potentials pr st) (it_active st).

Lemma balance_of_well_formed pr st :
  sized pr st → well_formed (balance_of pr st).
Proof. apply arrays_well_formed. Qed.

(** The correction has a component per species and a potential per
    element. *)
Lemma balance_reduced_solve_lengths pr st d :
  sized pr st → balance_reduced_solve pr st = Some d →
  length (d_ln_n d) = length (it_n st)
  ∧ length (d_pi d) = Z.to_nat (pr_nel pr).
Proof.
  intros Hsized. unfold balance_reduced_solve.
  destruct (newton_step _) as [s|] eqn:Hs; [|done]. intros [= <-]. simpl.
  apply newton_step_lengths in Hs as [Hd Hpi];
    [|by apply balance_of_well_formed].
  split; [done|]. rewrite Hpi. apply rows_length.
Qed.

(** ** Kernels that solve their reduced system by elimination *)

Section with_kernel.
Context `{Kernel}.
Variable pol : policy.
Hypothesis kernel_solves : ∀ pr st,
  reduced_solve pr st = balance_reduced_solve pr st.

(** A step of the iteration fails, and then with [SingularSystem], exactly
    when the elimination of its reduced system finds no pivot. *)
Lemma pt_step_singular pr st :
  (∃ e, pt_step pol pr st = inl e)
  ↔ pt_step pol pr st = inl SingularSystem
    ∧ solve (S (Z.to_nat (pr_nel pr))) (reduced_system (balance_of pr st))
      = None.
Proof.
  split; [|naive_solver]. intros [e He].
  apply pt_step_inl in He as [-> Hnone]. split; [by apply pt_step_inl|].
  rewrite kernel_solves in Hnone. unfold balance_reduced_solve in Hnone.
  apply fmap_None, newton_step_None in Hnone. simpl in Hnone.
  by rewrite rows_length in Hnone.
Qed.

End with_kernel.

End kernel.
