(* ===== verification/Demo.v ===== *)
(** * Demo: the development on a concrete store

    A store with the arrays of a batch of two items over two species and one
    element, laid out one after the other:

      p / rho  at 0   (2 cells)      M      at 62  (2 cells)
      T / u    at 2   (2 cells)      a      at 64  (2 cells)
      X0       at 4   (4 cells)      X1     at 66  (4 cells)
      lewis    at 8   (54 cells)     T out  at 70  (2 cells)

    and the solver [demo_solver] of [PureSolver], which copies the
    composition and fails on a non-positive temperature (status 3) or density
    (status 4).  The functions of [Ceq] are run on it by evaluation, and
    every theorem of the development that has hypotheses is applied to it. *)

From Corelib Require Import PrimFloat.
From stdpp Require Import gmap pretty.
From S2P Require Import Prelude CInt Memory Exec Solver PureSolver Loop.
From S2P Require Import Ceq CeqFacts.
From S2P Require Import Report BatchSpec BatchFrame BatchIndep BatchList.
From S2P Require Import BatchStep.

#[local] Existing Instance demo_solver.

(** ** The store *)

(** The cells [p, p+1, ...] holding [vs]. *)
Definition cells (p : ptr) (vs : list double) : gmap Z float := map_seqZ p vs.

Definition demo_p : ptr := 0.
Definition demo_T : ptr := 2.
Definition demo_X0 : ptr := 4.
Definition demo_lewis : ptr := 8.
Definition demo_M : ptr := 62.
Definition demo_a : ptr := 64.
Definition demo_X1 : ptr := 66.
Definition demo_Tout : ptr := 70.

(** The store, with the second pressure (or density) and the second
    temperature (or energy) left open. *)
Definition demo_mem (p1 T1 : double) : gmap Z float :=
  cells demo_p [101325%float; p1] ∪ cells demo_T [300%float; T1] ∪
  cells demo_X0 [0.5; 0.5; 0.25; 0.75]%float ∪
  cells demo_lewis (replicate 54 1%float) ∪
  cells demo_M [2; 32]%float ∪ cells demo_a [2; 2]%float ∪
  cells demo_X1 (replicate 4 0%float) ∪ cells demo_Tout [0; 0]%float.

(** A batch whose two items succeed, and one whose second item fails. *)
Definition demo_good : state := State (demo_mem 101325 400) "".
Definition demo_bad : state := State (demo_mem (-5) (-1)) "".

(** The first composition is in place, the second is not. *)
Definition demo_half (m : gmap Z float) : gmap Z float :=
  cells demo_X1 [0.5; 0.5]%float ∪ m.

(** Both compositions are in place. *)
Definition demo_full (m : gmap Z float) : gmap Z float :=
  cells demo_X1 [0.5; 0.5; 0.25; 0.75]%float ∪ m.

(** The same for [batch_rhou], which also stores the temperatures. *)
Definition demo_half_rhou (m : gmap Z float) : gmap Z float :=
  cells demo_Tout [300]%float ∪ demo_half m.

Definition demo_full_rhou (T1 : double) (m : gmap Z float) : gmap Z float :=
  cells demo_Tout [300%float; T1] ∪ demo_full m.

(** The two functions on the demo arrays. *)
Definition demo_batch_pt (N verbose : Z) : exec Z :=
  batch_pt N demo_p demo_T demo_X0 2 1 demo_lewis demo_M demo_a demo_X1
           verbose.

Definition demo_batch_rhou (N verbose : Z) : exec Z :=
  batch_rhou N demo_p demo_T demo_X0 2 1 demo_lewis demo_M demo_a demo_X1
             demo_Tout verbose.

Definition demo_pt_item : Z → exec Z :=
  batch_pt_item demo_p demo_T demo_X0 2 1 demo_lewis demo_M demo_a demo_X1 0.

Definition demo_rhou_item : Z → exec Z :=
  batch_rhou_item demo_p demo_T demo_X0 2 1 demo_lewis demo_M demo_a demo_X1
                  demo_Tout 0.

(** The transitions of the loop of [batch_pt] on the demo arrays. *)
Definition demo_pt_step : relation config :=
  batch_pt_step 2 demo_p demo_T demo_X0 2 1 demo_lewis demo_M demo_a demo_X1
    0.

(** Close a goal on bounds of machine integers, or a goal on a run by
    evaluation. *)
Ltac bounds := unfold slices_fit, in_int, INT_MIN, INT_MAX, int_modulus; lia.
Ltac run := vm_compute; reflexivity.

(** ** Runs *)

(** Both items succeed: status 0, nothing printed, both compositions
    written. *)
Example demo_batch_pt_good :
  demo_batch_pt 2 0 demo_good
  = Ret 0 (State (demo_full (st_mem demo_good)) "").
Proof. run. Qed.

(** The second item fails: its status is returned and its index is
    reported, without a newline. *)
Example demo_batch_pt_bad :
  demo_batch_pt 2 0 demo_bad
  = Ret 3 (State (demo_full (st_mem demo_bad))
             "Error in batch_pt @ position: 1").
Proof. run. Qed.

(** With [verbose] set, the solver's own text comes first. *)
Example demo_batch_pt_bad_verbose :
  demo_batch_pt 2 1 demo_bad
  = Ret 3 (State (demo_full (st_mem demo_bad))
             "pt;pt;Error in batch_pt @ position: 1").
Proof. run. Qed.

(** The temperature is read before the pressure. *)
Example demo_batch_pt_unallocated :
  demo_batch_pt 2 0 (State ∅ "") = Fault (InvalidRead demo_T).
Proof. run. Qed.

(** A batch that is longer than its arrays runs into the neighbouring
    arrays, and faults where it leaves the store. *)
Example demo_batch_pt_too_long :
  demo_batch_pt 4 0 demo_good = Fault (InvalidWrite 72).
Proof. run. Qed.

Example demo_batch_rhou_good :
  demo_batch_rhou 2 0 demo_good
  = Ret 0 (State (demo_full_rhou 400 (st_mem demo_good)) "").
Proof. run. Qed.

Example demo_batch_rhou_bad :
  demo_batch_rhou 2 0 demo_bad
  = Ret 4 (State (demo_full_rhou (-1) (st_mem demo_bad))
             "Error in batch_rhou @ position: 1").
Proof. run. Qed.

(** A failing batch of one item and the direct call return the same
    status and store; only the batch prints. *)
Example demo_batch_of_one_reports :
  demo_batch_pt 1 0 (State (<[demo_T := (-1)%float]> (st_mem demo_good)) "")
  = Ret 3 (State (cells demo_X1 [0.5; 0.5]%float
                    ∪ <[demo_T := (-1)%float]> (st_mem demo_good))
             "Error in batch_pt @ position: 0") ∧
  pt 101325 (-1) demo_X0 2 1 demo_lewis demo_M demo_a demo_X1 0
     (State (<[demo_T := (-1)%float]> (st_mem demo_good)) "")
  = Ret 3 (State (cells demo_X1 [0.5; 0.5]%float
                    ∪ <[demo_T := (-1)%float]> (st_mem demo_good)) "").
Proof. split; run. Qed.

(** The second part of a split batch reports the index relative to its own
    arrays: 0 where the whole batch reports 1. *)
Example demo_batch_pt_second_part :
  batch_pt 1 (demo_p + 1) (demo_T + 1) (demo_X0 + 1 * 2) 2 1 demo_lewis
    demo_M demo_a (demo_X1 + 1 * 2) 0
    (State (demo_half (st_mem demo_bad)) "")
  = Ret 3 (State (demo_full (st_mem demo_bad))
             "Error in batch_pt @ position: 0").
Proof. run. Qed.

(** The state between the two items. *)
Example demo_pt_item_0 :
  demo_pt_item 0 demo_good
  = Ret 0 (State (demo_half (st_mem demo_good)) "").
Proof. run. Qed.

Example demo_rhou_item_0 :
  demo_rhou_item 0 demo_good
  = Ret 0 (State (demo_half_rhou (st_mem demo_good)) "").
Proof. run. Qed.

(** The first item of the failing batch succeeds. *)
Example demo_pt_first_ok :
  all_ok demo_pt_item (seqZ 0 (0 + 1)) demo_bad
         (State (demo_half (st_mem demo_bad)) "").
Proof. eapply all_ok_cons; [|apply all_ok_nil]. run. Qed.

Example demo_rhou_first_ok :
  all_ok demo_rhou_item (seqZ 0 (0 + 1)) demo_bad
         (State (demo_half_rhou (st_mem demo_bad)) "").
Proof. eapply all_ok_cons; [|apply all_ok_nil]. run. Qed.

(** The transitions of the failing batch: one iteration, then the failing
    one. *)
Example demo_pt_step_fail :
  demo_pt_step (Running 1 (State (demo_half (st_mem demo_bad)) ""))
    (Done 3 (State (demo_full (st_mem demo_bad))
               "Error in batch_pt @ position: 1")).
Proof. apply next_Some_step. run. Qed.

Example demo_pt_steps :
  rtc demo_pt_step (Running 0 demo_bad)
    (Done 3 (State (demo_full (st_mem demo_bad))
               "Error in batch_pt @ position: 1")).
Proof.
  eapply rtc_l; [apply next_Some_step; run|]. apply rtc_once.
  apply demo_pt_step_fail.
Qed.

(** ** The theorems of [Ceq] and [BatchSpec] on the demo store *)

Lemma batch_pt_nothing_witness :
  0 ≤ 0 ∧ demo_batch_pt 0 0 demo_bad = Ret 0 demo_bad.
Proof.
  split; [lia|].
  apply (batch_pt_nothing 0 demo_p demo_T demo_X0 2 1 demo_lewis demo_M
           demo_a demo_X1 0). lia.
Defined.

Lemma batch_rhou_nothing_witness :
  -1 ≤ 0 ∧ demo_batch_rhou (-1) 0 demo_bad = Ret 0 demo_bad.
Proof.
  split; [lia|].
  apply (batch_rhou_nothing (-1) demo_p demo_T demo_X0 2 1 demo_lewis demo_M
           demo_a demo_X1 demo_Tout 0). lia.
Defined.

Lemma batch_pt_fuel_witness :
  in_int 2 ∧
  batch_pt_loop 2 demo_p demo_T demo_X0 2 1 demo_lewis demo_M demo_a demo_X1
    0 5 0 demo_bad
  = demo_batch_pt 2 0 demo_bad.
Proof.
  split; [bounds|].
  apply (batch_pt_fuel 2 demo_p demo_T demo_X0 2 1 demo_lewis demo_M demo_a
           demo_X1 0 5); [bounds|simpl; lia].
Defined.

Lemma batch_rhou_fuel_witness :
  in_int 2 ∧
  batch_rhou_loop 2 demo_p demo_T demo_X0 2 1 demo_lewis demo_M demo_a
    demo_X1 demo_Tout 0 5 0 demo_bad
  = demo_batch_rhou 2 0 demo_bad.
Proof.
  split; [bounds|].
  apply (batch_rhou_fuel 2 demo_p demo_T demo_X0 2 1 demo_lewis demo_M
           demo_a demo_X1 demo_Tout 0 5); [bounds|simpl; lia].
Defined.

Lemma batch_pt_refines_spec_witness :
  in_int 2 ∧ slices_fit 2 2 ∧
  demo_batch_pt 2 0 demo_bad
  = batch_pt_spec 2 demo_p demo_T demo_X0 2 1 demo_lewis demo_M demo_a
      demo_X1 0 demo_bad.
Proof.
  split; [bounds|]. split; [bounds|].
  apply (batch_pt_refines_spec 2 demo_p demo_T demo_X0 2 1 demo_lewis demo_M
           demo_a demo_X1 0); bounds.
Defined.

Lemma batch_rhou_refines_spec_witness :
  in_int 2 ∧ slices_fit 2 2 ∧
  demo_batch_rhou 2 0 demo_bad
  = batch_rhou_spec 2 demo_p demo_T demo_X0 2 1 demo_lewis demo_M demo_a
      demo_X1 demo_Tout 0 demo_bad.
Proof.
  split; [bounds|]. split; [bounds|].
  apply (batch_rhou_refines_spec 2 demo_p demo_T demo_X0 2 1 demo_lewis
           demo_M demo_a demo_X1 demo_Tout 0); bounds.
Defined.

Lemma batch_pt_success_witness :
  in_int 2 ∧ slices_fit 2 2 ∧
  all_ok demo_pt_item (seqZ 0 2) demo_good
         (State (demo_full (st_mem demo_good)) "").
Proof.
  split; [bounds|]. split; [bounds|].
  apply (batch_pt_success 2 demo_p demo_T demo_X0 2 1 demo_lewis demo_M
           demo_a demo_X1 0); [bounds..|run].
Defined.

Lemma batch_rhou_success_witness :
  in_int 2 ∧ slices_fit 2 2 ∧
  all_ok demo_rhou_item (seqZ 0 2) demo_good
         (State (demo_full_rhou 400 (st_mem demo_good)) "").
Proof.
  split; [bounds|]. split; [bounds|].
  apply (batch_rhou_success 2 demo_p demo_T demo_X0 2 1 demo_lewis demo_M
           demo_a demo_X1 demo_Tout 0); [bounds..|run].
Defined.

Lemma batch_pt_first_failure_witness :
  3 ≠ 0 ∧
  ∃ i s1 s2,
    0 ≤ i < 2 ∧ all_ok demo_pt_item (seqZ 0 i) demo_bad s1 ∧
    demo_pt_item i s1 = Ret 3 s2 ∧
    State (demo_full (st_mem demo_bad)) "Error in batch_pt @ position: 1"
    = State (st_mem s2)
        (st_out s2 +:+ "Error in batch_pt @ position: " +:+ pretty i).
Proof.
  split; [done|].
  apply (batch_pt_first_failure 2 demo_p demo_T demo_X0 2 1 demo_lewis
           demo_M demo_a demo_X1 0); [bounds|bounds|done|run].
Defined.

Lemma batch_rhou_first_failure_witness :
  4 ≠ 0 ∧
  ∃ i s1 s2,
    0 ≤ i < 2 ∧ all_ok demo_rhou_item (seqZ 0 i) demo_bad s1 ∧
    demo_rhou_item i s1 = Ret 4 s2 ∧
    State (demo_full_rhou (-1) (st_mem demo_bad))
          "Error in batch_rhou @ position: 1"
    = State (st_mem s2)
        (st_out s2 +:+ "Error in batch_rhou @ position: " +:+ pretty i).
Proof.
  split; [done|].
  apply (batch_rhou_first_failure 2 demo_p demo_T demo_X0 2 1 demo_lewis
           demo_M demo_a demo_X1 demo_Tout 0); [bounds|bounds|done|run].
Defined.

Lemma batch_pt_single_witness :
  load (st_mem demo_bad) demo_T = Some 300%float ∧
  same_effect (demo_batch_pt 1 0 demo_bad)
    (pt 101325 300 demo_X0 2 1 demo_lewis demo_M demo_a demo_X1 0 demo_bad).
Proof.
  split; [run|].
  apply (batch_pt_single demo_p demo_T demo_X0 2 1 demo_lewis demo_M demo_a
           demo_X1 0); run.
Defined.

Lemma batch_rhou_single_witness :
  load (st_mem demo_bad) demo_p = Some 101325%float ∧
  same_effect (demo_batch_rhou 1 0 demo_bad)
    (rhou 101325 300 demo_X0 2 1 demo_lewis demo_M demo_a demo_X1 demo_Tout 0
          demo_bad).
Proof.
  split; [run|].
  apply (batch_rhou_single demo_p demo_T demo_X0 2 1 demo_lewis demo_M
           demo_a demo_X1 demo_Tout 0); run.
Defined.

Lemma batch_pt_body_overflow_witness :
  INT_MAX < 32768 * 65536 ≤ INT_MAX + int_modulus ∧
  batch_pt_body demo_p demo_T demo_X0 65536 1 demo_lewis demo_M demo_a
    demo_X1 0 32768
  = batch_pt_item demo_p demo_T (demo_X0 - int_modulus) 65536 1 demo_lewis
      demo_M demo_a (demo_X1 - int_modulus) 0 32768.
Proof.
  split; [bounds|].
  apply (batch_pt_body_overflow demo_p demo_T demo_X0 65536 1 demo_lewis
           demo_M demo_a demo_X1 0 32768). bounds.
Defined.

Lemma batch_rhou_body_overflow_witness :
  INT_MAX < 32768 * 65536 ≤ INT_MAX + int_modulus ∧
  batch_rhou_body demo_p demo_T demo_X0 65536 1 demo_lewis demo_M demo_a
    demo_X1 demo_Tout 0 32768
  = batch_rhou_item demo_p demo_T (demo_X0 - int_modulus) 65536 1 demo_lewis
      demo_M demo_a (demo_X1 - int_modulus) demo_Tout 0 32768.
Proof.
  split; [bounds|].
  apply (batch_rhou_body_overflow demo_p demo_T demo_X0 65536 1 demo_lewis
           demo_M demo_a demo_X1 demo_Tout 0 32768). bounds.
Defined.

Lemma batch_pt_split_witness :
  0 ≤ 1 ∧ in_int (1 + 1) ∧ slices_fit (1 + 1) 2 ∧
  same_effect
    (demo_batch_pt (1 + 1) 0 demo_bad)
    ((let* r := demo_batch_pt 1 0 in
      if decide (r = 0)
      then batch_pt 1 (demo_p + 1) (demo_T + 1) (demo_X0 + 1 * 2) 2 1
             demo_lewis demo_M demo_a (demo_X1 + 1 * 2) 0
      else ret r) demo_bad).
Proof.
  split; [lia|]. split; [bounds|]. split; [bounds|].
  apply (batch_pt_split 1 1 demo_p demo_T demo_X0 2 1 demo_lewis demo_M
           demo_a demo_X1 0); (lia || bounds).
Defined.

Lemma batch_rhou_split_witness :
  0 ≤ 1 ∧ in_int (1 + 1) ∧ slices_fit (1 + 1) 2 ∧
  same_effect
    (demo_batch_rhou (1 + 1) 0 demo_bad)
    ((let* r := demo_batch_rhou 1 0 in
      if decide (r = 0)
      then batch_rhou 1 (demo_p + 1) (demo_T + 1) (demo_X0 + 1 * 2) 2 1
             demo_lewis demo_M demo_a (demo_X1 + 1 * 2) (demo_Tout + 1) 0
      else ret r) demo_bad).
Proof.
  split; [lia|]. split; [bounds|]. split; [bounds|].
  apply (batch_rhou_split 1 1 demo_p demo_T demo_X0 2 1 demo_lewis demo_M
           demo_a demo_X1 demo_Tout 0); (lia || bounds).
Defined.

(** ** The theorems of [BatchFrame] on the demo store *)

Lemma batch_pt_terminates_witness :
  in_int 2 ∧ demo_batch_pt 2 0 demo_bad ≠ Fault OutOfFuel.
Proof.
  split; [bounds|].
  apply (batch_pt_terminates 2 demo_p demo_T demo_X0 2 1 demo_lewis demo_M
           demo_a demo_X1 0). bounds.
Defined.

Lemma batch_rhou_terminates_witness :
  in_int 2 ∧ demo_batch_rhou 2 0 demo_bad ≠ Fault OutOfFuel.
Proof.
  split; [bounds|].
  apply (batch_rhou_terminates 2 demo_p demo_T demo_X0 2 1 demo_lewis demo_M
           demo_a demo_X1 demo_Tout 0). bounds.
Defined.

Lemma batch_pt_out_witness :
  SolverOk demo_solver ∧
  out_extends demo_bad
    (State (demo_full (st_mem demo_bad)) "Error in batch_pt @ position: 1").
Proof.
  split; [apply _|].
  apply (batch_pt_out 2 demo_p demo_T demo_X0 2 1 demo_lewis demo_M demo_a
           demo_X1 0 demo_bad 3). run.
Defined.

Lemma batch_rhou_out_witness :
  SolverOk demo_solver ∧
  out_extends demo_bad
    (State (demo_full_rhou (-1) (st_mem demo_bad))
           "Error in batch_rhou @ position: 1").
Proof.
  split; [apply _|].
  apply (batch_rhou_out 2 demo_p demo_T demo_X0 2 1 demo_lewis demo_M demo_a
           demo_X1 demo_Tout 0 demo_bad 4). run.
Defined.

Lemma batch_pt_frame_witness :
  in_int 2 ∧ slices_fit 2 2 ∧
  mem_frame demo_X1 (2 * 2) demo_good
    (State (demo_full (st_mem demo_good)) "").
Proof.
  split; [bounds|]. split; [bounds|].
  apply (batch_pt_frame 2 demo_p demo_T demo_X0 2 1 demo_lewis demo_M demo_a
           demo_X1 0 ltac:(bounds) ltac:(bounds) demo_good 0). run.
Defined.

Lemma batch_rhou_frame_witness :
  in_int 2 ∧ slices_fit 2 2 ∧
  mem_frame_on (batch_rhou_writes demo_X1 2 2 demo_Tout) demo_good
    (State (demo_full_rhou 400 (st_mem demo_good)) "").
Proof.
  split; [bounds|]. split; [bounds|].
  apply (batch_rhou_frame 2 demo_p demo_T demo_X0 2 1 demo_lewis demo_M
           demo_a demo_X1 demo_Tout 0 ltac:(bounds) ltac:(bounds)
           demo_good 0). run.
Defined.

Lemma batch_pt_outputs_kept_witness :
  0 ≤ 0 < 2 ∧
  agree_on (between (demo_X1 + 0 * 2) 2)
    (demo_half (st_mem demo_bad)) (demo_full (st_mem demo_bad)).
Proof.
  split; [lia|].
  apply (batch_pt_outputs_kept 2 demo_p demo_T demo_X0 2 1 demo_lewis demo_M
           demo_a demo_X1 0 ltac:(bounds) ltac:(bounds) 0 demo_bad
           (State (demo_half (st_mem demo_bad)) "") 3
           (State (demo_full (st_mem demo_bad))
                  "Error in batch_pt @ position: 1"));
    [lia|apply demo_pt_first_ok|run].
Defined.

Lemma batch_rhou_outputs_kept_witness :
  0 ≤ 0 < 2 ∧
  agree_on (rhou_writes (demo_X1 + 0 * 2) 2 (demo_Tout + 0))
    (demo_half_rhou (st_mem demo_bad))
    (demo_full_rhou (-1) (st_mem demo_bad)).
Proof.
  split; [lia|].
  apply (batch_rhou_outputs_kept 2 demo_p demo_T demo_X0 2 1 demo_lewis
           demo_M demo_a demo_X1 demo_Tout 0 ltac:(bounds) ltac:(bounds) 0
           demo_bad (State (demo_half_rhou (st_mem demo_bad)) "") 4
           (State (demo_full_rhou (-1) (st_mem demo_bad))
                  "Error in batch_rhou @ position: 1")); [|lia| |run].
  - unfold between, demo_X1, demo_Tout. lia.
  - apply demo_rhou_first_ok.
Defined.

Lemma batch_pt_safe_witness :
  batch_allocated (st_mem demo_bad) 2 demo_p demo_T demo_X0 2 1 demo_lewis
    demo_M demo_a demo_X1 ∧
  ∃ r s', demo_batch_pt 2 1 demo_bad = Ret r s'.
Proof.
  assert (batch_allocated (st_mem demo_bad) 2 demo_p demo_T demo_X0 2 1
            demo_lewis demo_M demo_a demo_X1) as Ha
    by (apply (bool_decide_unpack _); run).
  split; [done|].
  apply (batch_pt_safe 2 demo_p demo_T demo_X0 2 1 demo_lewis demo_M demo_a
           demo_X1 1 ltac:(bounds) ltac:(bounds) demo_bad Ha).
Defined.

Lemma batch_rhou_safe_witness :
  batch_rhou_allocated (st_mem demo_bad) 2 demo_p demo_T demo_X0 2 1
    demo_lewis demo_M demo_a demo_X1 demo_Tout ∧
  ∃ r s', demo_batch_rhou 2 1 demo_bad = Ret r s'.
Proof.
  assert (batch_rhou_allocated (st_mem demo_bad) 2 demo_p demo_T demo_X0 2 1
            demo_lewis demo_M demo_a demo_X1 demo_Tout) as Ha
    by (apply (bool_decide_unpack _); run).
  split; [done|].
  apply (batch_rhou_safe 2 demo_p demo_T demo_X0 2 1 demo_lewis demo_M
           demo_a demo_X1 demo_Tout 1 ltac:(bounds) ltac:(bounds) demo_bad
           Ha).
Defined.

Lemma batch_pt_verbose_witness :
  in_int 2 ∧
  same_effect (demo_batch_pt 2 0 demo_bad) (demo_batch_pt 2 1 demo_bad).
Proof.
  split; [bounds|].
  apply (batch_pt_verbose 2 demo_p demo_T demo_X0 2 1 demo_lewis demo_M
           demo_a demo_X1 0 1 demo_bad demo_bad); [bounds|done].
Defined.

Lemma batch_rhou_verbose_witness :
  in_int 2 ∧
  same_effect (demo_batch_rhou 2 0 demo_bad) (demo_batch_rhou 2 1 demo_bad).
Proof.
  split; [bounds|].
  apply (batch_rhou_verbose 2 demo_p demo_T demo_X0 2 1 demo_lewis demo_M
           demo_a demo_X1 demo_Tout 0 1 demo_bad demo_bad); [bounds|done].
Defined.

(** ** The theorems of [BatchIndep] on the demo store *)

(** The arrays of the demo store do not overlap. *)
Example demo_inputs_apart :
  inputs_apart 2 demo_p demo_T demo_X0 2 1 demo_lewis demo_M demo_a demo_X1.
Proof.
  unfold inputs_apart, batch_reads, between, lewis_per_species, demo_p,
    demo_T, demo_X0, demo_lewis, demo_M, demo_a, demo_X1. intros c. lia.
Qed.

Example demo_rhou_inputs_apart :
  rhou_inputs_apart 2 demo_p demo_T demo_X0 2 1 demo_lewis demo_M demo_a
    demo_X1 demo_Tout.
Proof.
  unfold rhou_inputs_apart, batch_rhou_writes, batch_reads, between,
    lewis_per_species, demo_p, demo_T, demo_X0, demo_lewis, demo_M, demo_a,
    demo_X1, demo_Tout. split; intros c; lia.
Qed.

Example demo_writes_apart :
  writes_apart 2 demo_p demo_T demo_X0 2 1 demo_lewis demo_M demo_a demo_X1.
Proof. apply inputs_apart_writes_apart, demo_inputs_apart. Qed.

(** A batch computed in place: the output array is the input array. *)
Example demo_in_place_apart :
  writes_apart 2 demo_p demo_T demo_X0 2 1 demo_lewis demo_M demo_a demo_X0.
Proof.
  unfold writes_apart, pt_item_reads, solver_reads, between,
    lewis_per_species, demo_p, demo_T, demo_X0, demo_lewis, demo_M, demo_a.
  intros i j c. nia.
Qed.

Example demo_rhou_writes_apart :
  rhou_writes_apart 2 demo_p demo_T demo_X0 2 1 demo_lewis demo_M demo_a
    demo_X1 demo_Tout.
Proof. apply rhou_inputs_apart_writes_apart, demo_rhou_inputs_apart. Qed.

Lemma batch_pt_pointwise_witness :
  writes_apart 2 demo_p demo_T demo_X0 2 1 demo_lewis demo_M demo_a demo_X1 ∧
  ∃ tj, demo_pt_item 1 demo_good = Ret 0 tj ∧
        agree_on (between (demo_X1 + 1 * 2) 2)
          (demo_full (st_mem demo_good)) (st_mem tj).
Proof.
  split; [apply demo_writes_apart|].
  apply (batch_pt_pointwise 2 demo_p demo_T demo_X0 2 1 demo_lewis demo_M
           demo_a demo_X1 0 demo_writes_apart 1 demo_good
           (State (demo_full (st_mem demo_good)) ""));
    [bounds|bounds|lia|run].
Defined.

Lemma batch_rhou_pointwise_witness :
  rhou_writes_apart 2 demo_p demo_T demo_X0 2 1 demo_lewis demo_M demo_a
    demo_X1 demo_Tout ∧
  ∃ tj, demo_rhou_item 1 demo_good = Ret 0 tj ∧
        agree_on (rhou_writes (demo_X1 + 1 * 2) 2 (demo_Tout + 1))
          (demo_full_rhou 400 (st_mem demo_good)) (st_mem tj).
Proof.
  split; [apply demo_rhou_writes_apart|].
  apply (batch_rhou_pointwise 2 demo_p demo_T demo_X0 2 1 demo_lewis demo_M
           demo_a demo_X1 demo_Tout 0 demo_rhou_writes_apart 1 demo_good
           (State (demo_full_rhou 400 (st_mem demo_good)) ""));
    [bounds|bounds|lia|run].
Defined.

(** ** The theorems of [BatchStep] on the demo store *)

Lemma batch_pt_step_deterministic_witness :
  demo_pt_step (Running 1 (State (demo_half (st_mem demo_bad)) ""))
    (Done 3 (State (demo_full (st_mem demo_bad))
               "Error in batch_pt @ position: 1")) ∧
  Done 3 (State (demo_full (st_mem demo_bad))
            "Error in batch_pt @ position: 1")
  = Done 3 (State (demo_full (st_mem demo_bad))
              "Error in batch_pt @ position: 1").
Proof.
  split; [apply demo_pt_step_fail|].
  apply (batch_pt_step_deterministic 2 demo_p demo_T demo_X0 2 1 demo_lewis
           demo_M demo_a demo_X1 0
           (Running 1 (State (demo_half (st_mem demo_bad)) "")));
    apply demo_pt_step_fail.
Defined.

Lemma batch_pt_small_step_witness :
  in_int 2 ∧
  ∃ c, rtc demo_pt_step (Running 0 demo_bad) c ∧
       outcome_of c
       = Some (Ret 3 (State (demo_full (st_mem demo_bad))
                        "Error in batch_pt @ position: 1")).
Proof.
  split; [bounds|].
  apply (batch_pt_small_step 2 demo_p demo_T demo_X0 2 1 demo_lewis demo_M
           demo_a demo_X1 0); [bounds|run].
Defined.

Lemma batch_rhou_small_step_witness :
  in_int 2 ∧
  ∃ c, rtc (batch_rhou_step 2 demo_p demo_T demo_X0 2 1 demo_lewis demo_M
              demo_a demo_X1 demo_Tout 0) (Running 0 demo_bad) c ∧
       outcome_of c
       = Some (Ret 4 (State (demo_full_rhou (-1) (st_mem demo_bad))
                        "Error in batch_rhou @ position: 1")).
Proof.
  split; [bounds|].
  apply (batch_rhou_small_step 2 demo_p demo_T demo_X0 2 1 demo_lewis demo_M
           demo_a demo_X1 demo_Tout 0); [bounds|run].
Defined.

Lemma batch_pt_loop_invariant_witness :
  in_int 2 ∧
  loop_inv (batch_pt_body demo_p demo_T demo_X0 2 1 demo_lewis demo_M demo_a
              demo_X1 0) batch_pt_report 2 demo_bad
    (Done 3 (State (demo_full (st_mem demo_bad))
               "Error in batch_pt @ position: 1")).
Proof.
  split; [bounds|].
  apply (batch_pt_loop_invariant 2 demo_p demo_T demo_X0 2 1 demo_lewis
           demo_M demo_a demo_X1 0); [bounds|apply demo_pt_steps].
Defined.

Lemma batch_pt_steps_bound_witness :
  in_int 2 ∧
  ∃ c, final c ∧ rtc demo_pt_step (Running 0 demo_bad) c ∧
       c = run_steps (batch_pt_body demo_p demo_T demo_X0 2 1 demo_lewis
                        demo_M demo_a demo_X1 0)
             batch_pt_report 2 (S (Z.to_nat 2)) (Running 0 demo_bad).
Proof.
  split; [bounds|].
  apply (batch_pt_steps_bound 2 demo_p demo_T demo_X0 2 1 demo_lewis demo_M
           demo_a demo_X1 0). bounds.
Defined.

Lemma batch_pt_eventually_final_witness :
  in_int 2 ∧
  eventually (batch_pt_body demo_p demo_T demo_X0 2 1 demo_lewis demo_M
                demo_a demo_X1 0) batch_pt_report 2 final
    (Running 1 (State (demo_half (st_mem demo_bad)) "")).
Proof.
  split; [bounds|].
  apply (batch_pt_eventually_final 2 demo_p demo_T demo_X0 2 1 demo_lewis
           demo_M demo_a demo_X1 0 ltac:(bounds) demo_bad).
  apply rtc_once, next_Some_step. run.
Defined.

(** ** The status and the report *)

Lemma batch_pt_status_witness :
  demo_batch_pt 2 0 demo_bad
  = Ret 3 (State (demo_full (st_mem demo_bad))
             "Error in batch_pt @ position: 1") ∧
  in_int 3 ∧
  (3 = 0 ∨
   ∃ i Ti pi s1 s2,
     i < 2
     ∧ load (st_mem s1) (ptr_add demo_T i) = Some Ti
     ∧ load (st_mem s1) (ptr_add demo_p i) = Some pi
     ∧ solve_pt pi Ti (ptr_add demo_X0 (int_mul i 2)) 2 1 demo_lewis
         demo_M demo_a (ptr_add demo_X1 (int_mul i 2)) 0 s1 = Ret 3 s2
     ∧ State (demo_full (st_mem demo_bad))
             "Error in batch_pt @ position: 1"
       = State (st_mem s2)
           (st_out s2 +:+ "Error in batch_pt @ position: " +:+ pretty i)).
Proof.
  split; [run|].
  apply (batch_pt_status 2 demo_p demo_T demo_X0 2 1 demo_lewis demo_M
           demo_a demo_X1 0 demo_bad 3
           (State (demo_full (st_mem demo_bad))
              "Error in batch_pt @ position: 1")). run.
Defined.

Lemma batch_rhou_status_witness :
  demo_batch_rhou 2 0 demo_bad
  = Ret 4 (State (demo_full_rhou (-1) (st_mem demo_bad))
             "Error in batch_rhou @ position: 1") ∧
  in_int 4 ∧
  (4 = 0 ∨
   ∃ i rhoi ui s1 s2,
     i < 2
     ∧ load (st_mem s1) (ptr_add demo_p i) = Some rhoi
     ∧ load (st_mem s1) (ptr_add demo_T i) = Some ui
     ∧ solve_rhou rhoi ui (ptr_add demo_X0 (int_mul i 2)) 2 1 demo_lewis
         demo_M demo_a (ptr_add demo_X1 (int_mul i 2))
         (ptr_add demo_Tout i) 0 s1 = Ret 4 s2
     ∧ State (demo_full_rhou (-1) (st_mem demo_bad))
             "Error in batch_rhou @ position: 1"
       = State (st_mem s2)
           (st_out s2 +:+ "Error in batch_rhou @ position: "
            +:+ pretty i)).
Proof.
  split; [run|].
  apply (batch_rhou_status 2 demo_p demo_T demo_X0 2 1 demo_lewis demo_M
           demo_a demo_X1 demo_Tout 0 demo_bad 4
           (State (demo_full_rhou (-1) (st_mem demo_bad))
              "Error in batch_rhou @ position: 1")). run.
Defined.

(** The text of the failing batch, read back. *)
Example demo_report_read :
  batch_pt_position "Error in batch_pt @ position: 1" = Some 1
  ∧ batch_rhou_position "Error in batch_pt @ position: 1" = None
  ∧ batch_pt_position "Error in batch_pt @ position: -7" = Some (-7)
  ∧ batch_pt_position "Error in batch_pt @ position: " = None
  ∧ batch_pt_position "Error in batch_pt @ position: 1x" = None.
Proof. by vm_compute. Qed.

(** ** The batch as a function of its inputs *)

(** The answers of the demo solver to the two items, for a failing second
    item. *)
Definition demo_answers_bad : list pt_answer :=
  [PtAnswer 0 [0.5; 0.5]%float ""; PtAnswer 3 [0.25; 0.75]%float ""].

Definition demo_answers_good : list pt_answer :=
  [PtAnswer 0 [0.5; 0.5]%float ""; PtAnswer 0 [0.25; 0.75]%float ""].

Lemma batch_pt_list_witness :
  writes_apart 2 demo_p demo_T demo_X0 2 1 demo_lewis demo_M demo_a demo_X1 ∧
  demo_batch_pt 2 0 demo_bad
  = Ret (br_status (batch_pt_ref 0 demo_answers_bad))
      (State (demo_full (st_mem demo_bad))
         (st_out demo_bad +:+ br_text (batch_pt_ref 0 demo_answers_bad))).
Proof.
  split; [apply demo_writes_apart|].
  apply (batch_pt_list demo_pure 2 demo_p demo_T demo_X0 2 1 demo_lewis
           demo_M demo_a demo_X1 0 demo_bad demo_answers_bad
           (demo_full (st_mem demo_bad)));
    [bounds|bounds|lia|apply demo_writes_apart|run|run].
Defined.

Lemma batch_pt_map_witness :
  writes_apart 2 demo_p demo_T demo_X0 2 1 demo_lewis demo_M demo_a demo_X0 ∧
  ∃ s', batch_pt 2 demo_p demo_T demo_X0 2 1 demo_lewis demo_M demo_a
          demo_X0 0 demo_good = Ret 0 s'
    ∧ load_array (st_mem s') demo_X0 (2 * 2)
      = Some (concat (pt_X1 <$> demo_answers_good))
    ∧ st_out s'
      = st_out demo_good
        +:+ foldr (λ r t, pt_diag r +:+ t) "" demo_answers_good.
Proof.
  split; [apply demo_in_place_apart|].
  apply (batch_pt_map demo_pure 2 demo_p demo_T demo_X0 2 1 demo_lewis
           demo_M demo_a demo_X0 0 demo_good demo_answers_good);
    [bounds|bounds|lia|apply demo_in_place_apart|run|
     |apply (bool_decide_unpack _); run].
  repeat constructor.
Defined.

Definition demo_rhou_answers_bad : list rhou_answer :=
  [RhouAnswer 0 [0.5; 0.5]%float 300 "";
   RhouAnswer 4 [0.25; 0.75]%float (-1) ""].

Lemma batch_rhou_list_witness :
  rhou_writes_apart 2 demo_p demo_T demo_X0 2 1 demo_lewis demo_M demo_a
    demo_X1 demo_Tout ∧
  demo_batch_rhou 2 0 demo_bad
  = Ret (rb_status (batch_rhou_ref 0 demo_rhou_answers_bad))
      (State (demo_full_rhou (-1) (st_mem demo_bad))
         (st_out demo_bad
          +:+ rb_text (batch_rhou_ref 0 demo_rhou_answers_bad))).
Proof.
  split; [apply demo_rhou_writes_apart|].
  apply (batch_rhou_list demo_pure 2 demo_p demo_T demo_X0 2 1 demo_lewis
           demo_M demo_a demo_X1 demo_Tout 0 demo_bad demo_rhou_answers_bad
           (demo_full (st_mem demo_bad))
           (demo_full_rhou (-1) (st_mem demo_bad)));
    [bounds|bounds|lia|apply demo_rhou_writes_apart|run|run|run].
Defined.

(** When the output array overlaps the temperatures, an item reads what an
    earlier item wrote, and the batch is no longer the function of the
    caller's store that [batch_pt_ref] computes: here the first item
    overwrites the temperature of the second with 0.5, so the second
    succeeds, although its temperature at the call was negative. *)
Example demo_overlap :
  pt_answers demo_pure 2 demo_p demo_T demo_X0 2 1 demo_lewis demo_M demo_a
    0 (st_mem demo_bad) = Some demo_answers_bad
  ∧ br_status (batch_pt_ref 0 demo_answers_bad) = 3
  ∧ ∃ s', batch_pt 2 demo_p demo_T demo_X0 2 1 demo_lewis demo_M demo_a
            demo_T 0 demo_bad = Ret 0 s'.
Proof. split; [run|]. split; [done|]. eexists. run. Qed.
