(* ===== verification/DemoDeep.v ===== *)
(** * DemoDeep: the syntax trees of the source run on the demo store

    The functions of [CeqAst] are run by the interpreter of [CSem] on the
    stores of [Demo], with the solver of [Demo]; the outcomes are those of
    the runs of [Demo].  Calls that a C compiler rejects end in an error;
    a batch whose slice offsets do not fit in an [int] ends in a signed
    overflow in the reading of ISO C, and hands the solver a slice before
    the array in the wrapping reading.  The theorems of [CeqDeep] with
    hypotheses are applied to these calls. *)

From Corelib Require Import PrimFloat.
From stdpp Require Import gmap.
From S2P Require Import Prelude CInt Memory Exec Solver PureSolver Loop.
From S2P Require Import Ceq CeqFacts.
From S2P Require Import CSyntax CSem COverflow CTyping CeqAst CeqDeep.
From S2P Require Import BatchSpec Demo.

#[local] Existing Instance demo_solver.

(** The arguments of the batch functions on the demo arrays. *)
Definition demo_pt_args (N verbose : Z) : list value :=
  batch_pt_args N demo_p demo_T demo_X0 2 1 demo_lewis demo_M demo_a demo_X1
    verbose.

Definition demo_rhou_args (N verbose : Z) : list value :=
  batch_rhou_args N demo_p demo_T demo_X0 2 1 demo_lewis demo_M demo_a
    demo_X1 demo_Tout verbose.

(** ** Runs *)

Example demo_fn_batch_pt_good :
  run_function Wraps 2 batch_pt_fn (demo_pt_args 2 0) demo_good
  = Ret (inr (Vint 0)) (State (demo_full (st_mem demo_good)) "").
Proof. run. Qed.

Example demo_fn_batch_pt_bad :
  run_function Wraps 2 batch_pt_fn (demo_pt_args 2 1) demo_bad
  = Ret (inr (Vint 3))
        (State (demo_full (st_mem demo_bad))
           "pt;pt;Error in batch_pt @ position: 1").
Proof. run. Qed.

(** The temperature is read before the pressure. *)
Example demo_fn_batch_pt_unallocated :
  run_function Wraps 2 batch_pt_fn (demo_pt_args 2 0) (State ∅ "")
  = Fault (InvalidRead demo_T).
Proof. run. Qed.

Example demo_fn_batch_rhou_bad :
  run_function Wraps 2 batch_rhou_fn (demo_rhou_args 2 0) demo_bad
  = Ret (inr (Vint 4))
        (State (demo_full_rhou (-1) (st_mem demo_bad))
           "Error in batch_rhou @ position: 1").
Proof. run. Qed.

(** With fewer iterations allowed than the batch has items, the run ends
    with the fault of the bound. *)
Example demo_fn_out_of_fuel :
  run_function Wraps 1 batch_pt_fn (demo_pt_args 2 0) demo_good
  = Fault OutOfFuel.
Proof. run. Qed.

(** One argument too few, or an [int] where a pointer is declared: the
    call is not well typed. *)
Example demo_fn_ill_typed :
  run_function Wraps 2 batch_pt_fn [Vint 2] demo_good
  = Ret (inl IllTyped) demo_good
  ∧ run_function Wraps 2 main_fn [Vint 2] demo_good
    = Ret (inl IllTyped) demo_good
  ∧ run_function Wraps 2 pt_fn
      (pt_args 101325 300 demo_X0 2 1 demo_lewis demo_M demo_a demo_X1 0)
      demo_good
    = Ret (inr (Vint 0)) (State (demo_half (st_mem demo_good)) "").
Proof. repeat split; run. Qed.

(** A function that reads a local before it is assigned, one that assigns
    a [double] to an [int], one that ends without [return], and one whose
    [printf] has no argument for its [%d]. *)
Definition demo_unassigned : function :=
  Function "f" Tint [] [("i", Tint)] (Sreturn "i").

Definition demo_mistyped : function :=
  Function "g" Tint [("p", Tptr)] [("i", Tint)]
    ("i" ::= "p".[0];; Sreturn "i")%C.

Definition demo_no_return : function :=
  Function "h" Tint [] [("i", Tint)] ("i" ::= 0)%C.

Definition demo_bad_format : function :=
  Function "k" Tint [] [] (Sprintf "%d" [];; Sreturn 0)%C.

(** They are caught by the interpreter. *)
Example demo_fn_errors :
  run_function Wraps 0 demo_unassigned [] demo_good
  = Ret (inl (Unbound "i")) demo_good
  ∧ run_function Wraps 0 demo_mistyped [Vptr demo_p] demo_good
    = Ret (inl IllTyped) demo_good
  ∧ run_function Wraps 0 demo_no_return [] demo_good
    = Ret (inl NoReturn) demo_good
  ∧ run_function Wraps 0 demo_bad_format [] demo_good
    = Ret (inl BadFormat) demo_good.
Proof. repeat split; run. Qed.

(** The check of [CTyping] rejects them, as it rejects [batch_pt] without
    the declaration of [result]; it accepts the functions of the source. *)
Example demo_check :
  check_function demo_unassigned = false
  ∧ check_function demo_mistyped = false
  ∧ check_function demo_no_return = false
  ∧ check_function demo_bad_format = false
  ∧ check_function
      (Function "batch_pt" Tint (fn_params batch_pt_fn)
         (take 5 (fn_locals batch_pt_fn)) (fn_body batch_pt_fn)) = false
  ∧ check_function <$> ceq_functions = [true; true; true; true; true].
Proof. by vm_compute. Qed.

(** ** A batch that does not fit

    Three items of [2^30] species: the offset of the third slice is [2^31].
    The solver of this run only checks that its output slice does not lie
    before the array [X1], which starts at cell 0. *)

Definition guard_solver : Solver := {|
  solve_pt _ _ _ _ _ _ _ _ X1 _ := ret (if X1 <? 0 then 7 else 0);
  solve_rhou _ _ _ _ _ _ _ _ X1 _ _ := ret (if X1 <? 0 then 7 else 0)
|}.

Definition big_nsp : Z := 1073741824.

(** Three pressures from cell 0 on and three temperatures from cell 3 on;
    the other arrays are not allocated (the solver does not read them). *)
Definition big_store : state :=
  State (cells 0 [101325; 101325; 101325]%float
         ∪ cells 3 [300; 400; 500]%float) "".

Definition big_args : list value :=
  batch_pt_args 3 0 3 0 big_nsp 1 0 0 0 0 0.

(** In the reading of ISO C the third iteration overflows. *)
Example demo_fn_overflow :
  @run_function guard_solver Undefined 3 batch_pt_fn big_args big_store
  = Ret (inl Overflow) big_store.
Proof. run. Qed.

(** In the wrapping reading its output slice starts [2^31] cells before
    [X1]. *)
Example demo_fn_wraps :
  @run_function guard_solver Wraps 3 batch_pt_fn big_args big_store
  = Ret (inr (Vint 7))
        (State (st_mem big_store) "Error in batch_pt @ position: 2")
  ∧ ptr_add 0 (int_mul 2 big_nsp) = -2147483648.
Proof. split; run. Qed.

(** ** The theorems of [CeqDeep] on the demo store *)

Lemma batch_fn_defined_witness :
  in_int 2 ∧ slices_fit 2 2 ∧ (Z.to_nat 2 ≤ 5)%nat ∧
  run_function Undefined 5 batch_pt_fn (demo_pt_args 2 0) demo_bad
  = returns_int (demo_batch_pt 2 0) demo_bad
  ∧ run_function Undefined 5 batch_rhou_fn (demo_rhou_args 2 0) demo_bad
    = returns_int (demo_batch_rhou 2 0) demo_bad.
Proof.
  split; [bounds|]. split; [bounds|]. split; [lia|].
  apply (batch_fn_defined 2 demo_p demo_T demo_X0 2 1 demo_lewis demo_M
           demo_a demo_X1 demo_Tout 0 5 demo_bad); [bounds|bounds|lia].
Defined.

Lemma batch_pt_fn_overflow_witness :
  ¬ in_int (2 * big_nsp)
  ∧ is_Some (load (st_mem big_store) (ptr_add 3 2))
  ∧ is_Some (load (st_mem big_store) (ptr_add 0 2))
  ∧ @exec_stmt guard_solver Undefined 3 batch_pt_solve
      (batch_pt_env 3 0 3 0 big_nsp 1 0 0 0 0 0
         (PtLocals None None None None None) 2) big_store
    = Ret (inl Overflow) big_store.
Proof.
  assert (¬ in_int (2 * big_nsp)) as Hfit by (unfold big_nsp; bounds).
  assert (is_Some (load (st_mem big_store) (ptr_add 3 2))) as HT
    by (by eexists; run).
  assert (is_Some (load (st_mem big_store) (ptr_add 0 2))) as Hp
    by (by eexists; run).
  split; [exact Hfit|]. split; [exact HT|]. split; [exact Hp|].
  apply (@batch_pt_fn_overflow guard_solver 3 0 3 0 big_nsp 1 0 0 0 0 0 3
           (PtLocals None None None None None) 2 big_store Hfit HT Hp).
Defined.

Lemma batch_pt_fn_correct_witness :
  in_int 2 ∧ (Z.to_nat 2 ≤ 5)%nat ∧
  run_function Wraps 5 batch_pt_fn (demo_pt_args 2 0) demo_bad
  = returns_int (demo_batch_pt 2 0) demo_bad.
Proof.
  split; [bounds|]. split; [lia|].
  apply (batch_pt_fn_correct 2 demo_p demo_T demo_X0 2 1 demo_lewis demo_M
           demo_a demo_X1 0 5 demo_bad); [bounds|lia].
Defined.

Lemma batch_rhou_fn_correct_witness :
  in_int 2 ∧ (Z.to_nat 2 ≤ 5)%nat ∧
  run_function Wraps 5 batch_rhou_fn (demo_rhou_args 2 0) demo_bad
  = returns_int (demo_batch_rhou 2 0) demo_bad.
Proof.
  split; [bounds|]. split; [lia|].
  apply (batch_rhou_fn_correct 2 demo_p demo_T demo_X0 2 1 demo_lewis demo_M
           demo_a demo_X1 demo_Tout 0 5 demo_bad); [bounds|lia].
Defined.

Lemma ceq_functions_safe_witness :
  well_typed_args batch_rhou_fn (demo_rhou_args 2 0)
  ∧ ends_well Undefined
      (run_function Undefined 2 batch_rhou_fn (demo_rhou_args 2 0) demo_bad).
Proof.
  assert (well_typed_args batch_rhou_fn (demo_rhou_args 2 0)) as Hargs
    by (apply (bool_decide_unpack _); run).
  split; [exact Hargs|].
  apply (ceq_functions_safe Undefined batch_rhou_fn (demo_rhou_args 2 0) 2
           demo_bad);
    [do 3 apply list_elem_of_further; apply list_elem_of_here|exact Hargs].
Defined.
