(* ===== verification/DemoWorkers.v ===== *)
(** * DemoWorkers: the workers on the demo store

    Schedules of the workers of [BatchWorkers] are run on the stores of
    [Demo] by evaluation, and the theorems of [BatchWorkers] are applied to
    them.  A last example runs two schedules on arrays in which the output
    overlaps the temperatures: the status then depends on the
    interleaving. *)

From Corelib Require Import PrimFloat.
From stdpp Require Import gmap.
From S2P Require Import Prelude CInt Memory Exec Solver PureSolver Loop.
From S2P Require Import Ceq CeqFacts.
From S2P Require Import BatchSpec BatchFrame BatchIndep BatchList.
From S2P Require Import BatchWorkers BatchStep Report Demo.

(** The workers on the demo arrays, with output array [X1]. *)
Definition demo_run (X1 : ptr) : list event → pool → option pool :=
  run_events demo_pure 2 demo_p demo_T demo_X0 2 1 demo_lewis demo_M demo_a
    X1 0.

(** Two workers: both read before either writes, and the second item is
    written first. *)
Definition demo_schedule : list event := [Take 1; Take 0; Put 1; Put 0].

(** The pool after that schedule on the store whose second item fails. *)
Definition demo_pool_bad : pool :=
  Pool (demo_full (st_mem demo_bad)) ∅ {[0 := 0; 1 := 3]}.

(** The pool in which a worker has read the second item. *)
Definition demo_pool_one : pool :=
  Pool (st_mem demo_good) {[1 := PtAnswer 0 [0.25; 0.75]%float ""]} ∅.

Example demo_items_apart :
  items_apart 2 demo_p demo_T demo_X0 2 1 demo_lewis demo_M demo_a demo_X1.
Proof. apply inputs_apart_items_apart, demo_inputs_apart. Qed.

(** ** Runs *)

Example demo_schedule_bad :
  demo_run demo_X1 demo_schedule (pool_start (st_mem demo_bad))
  = Some demo_pool_bad
  ∧ pool_status 2 demo_pool_bad = 3.
Proof. split; run. Qed.

(** One worker that takes the items in the order of the indices leaves
    the same pool. *)
Example demo_sequential_bad :
  demo_run demo_X1 (in_order [0; 1]) (pool_start (st_mem demo_bad))
  = Some demo_pool_bad.
Proof. run. Qed.

(** An item is not taken twice, and not written before it is taken. *)
Example demo_no_event :
  demo_run demo_X1 [Take 0; Take 0] (pool_start (st_mem demo_good)) = None
  ∧ demo_run demo_X1 [Put 0] (pool_start (st_mem demo_good)) = None.
Proof. split; run. Qed.

(** With the output array on the temperatures the items are not apart,
    and the status depends on the schedule: the first item overwrites the
    temperature of the second, which fails only when it reads before. *)
Example demo_workers_overlap :
  (∃ w, demo_run demo_T (in_order [0; 1]) (pool_start (st_mem demo_bad))
        = Some w ∧ pool_status 2 w = 0)
  ∧ (∃ w, demo_run demo_T (in_order [1; 0]) (pool_start (st_mem demo_bad))
          = Some w ∧ pool_status 2 w = 3).
Proof. split; eexists; split; run. Qed.

(** ** The theorems of [BatchWorkers] on the demo store *)

Lemma workers_agree_with_batch_witness :
  items_apart 2 demo_p demo_T demo_X0 2 1 demo_lewis demo_M demo_a demo_X1 ∧
  ∃ s', demo_batch_pt 2 0 demo_bad = Ret (pool_status 2 demo_pool_bad) s'
    ∧ agree_on
        (between demo_X1
           (Z.of_nat (length (br_written (batch_pt_ref 0 demo_answers_bad)))))
        (pool_mem demo_pool_bad) (st_mem s')
    ∧ (pool_status 2 demo_pool_bad = 0
       → pool_mem demo_pool_bad = st_mem s').
Proof.
  split; [apply demo_items_apart|].
  apply (@workers_agree_with_batch demo_pure demo_pure_ok 2 demo_p demo_T
           demo_X0 2 1 demo_lewis demo_M demo_a demo_X1 0 ltac:(lia)
           demo_items_apart demo_bad demo_answers_bad demo_schedule
           demo_pool_bad);
    [bounds|bounds|run|run|apply (bool_decide_unpack _); run].
Defined.

Lemma workers_progress_witness :
  items_apart 2 demo_p demo_T demo_X0 2 1 demo_lewis demo_M demo_a demo_X1 ∧
  ∃ e w', do_event demo_pure 2 demo_p demo_T demo_X0 2 1 demo_lewis demo_M
            demo_a demo_X1 0 e demo_pool_one = Some w'.
Proof.
  split; [apply demo_items_apart|].
  apply (@workers_progress demo_pure demo_pure_ok 2 demo_p demo_T
           demo_X0 2 1 demo_lewis demo_M demo_a demo_X1 0 ltac:(lia)
           demo_items_apart (st_mem demo_good) [Take 1] demo_pool_one);
    [eexists; run|apply (bool_decide_unpack _); run|run
    |apply (bool_decide_unpack _); run].
Defined.

Lemma workers_complete_witness :
  items_apart 2 demo_p demo_T demo_X0 2 1 demo_lewis demo_M demo_a demo_X1 ∧
  (length [Take 1] ≤ 2 * Z.to_nat 2)%nat
  ∧ (finished 2 demo_pool_one ↔ length [Take 1] = (2 * Z.to_nat 2)%nat)
  ∧ ∃ es' w', demo_run demo_X1 ([Take 1] ++ es')
                (pool_start (st_mem demo_good)) = Some w'
      ∧ finished 2 w'.
Proof.
  split; [apply demo_items_apart|].
  apply (@workers_complete demo_pure demo_pure_ok 2 demo_p demo_T
           demo_X0 2 1 demo_lewis demo_M demo_a demo_X1 0 ltac:(lia)
           demo_items_apart (st_mem demo_good) [Take 1] demo_pool_one);
    [eexists; run|apply (bool_decide_unpack _); run|run].
Defined.
