(* ===== verification/DemoNewton.v ===== *)
(** * DemoNewton: the solvers of the specification on the demo store

    A small numerical kernel, so that the iterations of [Newton] run by
    evaluation: the mole numbers stay as they are, every step halves the
    residual, and the reduced system is singular for a pressure that is not
    positive.  With it, the batch functions are run on the store of [Demo],
    and the theorems of [BatchNewton] are applied to it. *)

From Corelib Require Import PrimFloat.
From stdpp Require Import gmap pretty.
From S2P Require Import Prelude CInt Memory Exec Solver PureSolver Loop.
From S2P Require Import Ceq CeqFacts.
From S2P Require Import BatchSpec BatchFrame BatchIndep BatchList.
From S2P Require Import Status Thermo Newton BatchNewton Demo.

(** ** The kernel *)

#[export] Instance demo_kernel : Kernel := {|
  possible pr := true;
  initial_state pr :=
    {| it_n := pr_X0 pr; it_pi := []; it_active := (λ _, true) <$> pr_X0 pr;
       it_count := 0; it_residual := 1 |};
  reduced_solve pr st :=
    if (pr_p pr <=? 0)%float then None
    else Some {| d_ln_n := (λ _, 0%float) <$> it_n st; d_pi := [] |};
  advance pr lam d st :=
    {| it_n := it_n st; it_pi := it_pi st; it_active := it_active st;
       it_count := it_count st;
       it_residual := (it_residual st / 2)%float |};
  favourable pr st s := false;
  trace_line st := "step;";
  initial_temperature rho u X := (u / 2)%float;
  internal_energy table M T X := T;
  cv_mix table M T X := 1%float
|}.

#[export] Instance demo_kernel_ok : KernelOk.
Proof. by split. Qed.

(** The ranges of the polynomials and the policy. *)
Definition demo_bounds : range_bounds :=
  {| T_min := 200; T_low := 1000; T_high := 6000; T_max := 20000 |}.

Definition demo_policy : policy :=
  {| tolerance := 0.25; max_inner_iter := 5; max_outer_iter := 4;
     damping_cap := 2; trace_threshold := 0x1p-30 |}.

(** The solver of the specification on this kernel, behind the interface
    of [src/ceq.c]. *)
Definition demo_newton : Solver := lift (newton demo_bounds demo_policy).

Definition demo_newton_pt (N verbose : Z) : exec Z :=
  batch_pt (H := demo_newton) N demo_p demo_T demo_X0 2 1 demo_lewis demo_M
    demo_a demo_X1 verbose.

Definition demo_newton_rhou (N verbose : Z) : exec Z :=
  batch_rhou (H := demo_newton) N demo_p demo_T demo_X0 2 1 demo_lewis
    demo_M demo_a demo_X1 demo_Tout verbose.

(** The problems that the two items of the demo stores pose. *)
Definition demo_problem (p T : double) (X0 : list double) : problem :=
  {| pr_p := p; pr_T := T; pr_X0 := X0; pr_nsp := 2; pr_nel := 1;
     pr_table := replicate 54 1%float; pr_M := [2; 32]%float;
     pr_a := [2; 2]%float |}.

Definition demo_problems_good : list problem :=
  [demo_problem 101325 300 [0.5; 0.5]%float;
   demo_problem 101325 400 [0.25; 0.75]%float].

Definition demo_problems_bad : list problem :=
  [demo_problem 101325 300 [0.5; 0.5]%float;
   demo_problem (-5) (-1) [0.25; 0.75]%float].

(** ** Runs *)

(** The residual 1 is halved three times to fall below the tolerance 0.25:
    three steps, within the cap of five. *)
Example demo_pt_solve_good :
  pt_solve demo_bounds demo_policy (demo_problem 101325 300 [0.5; 0.5]%float)
  = (None, [0.5; 0.5]%float, "step;step;step;").
Proof. run. Qed.

(** With a cap of two steps the same solve fails to converge. *)
Example demo_pt_solve_capped :
  (pt_solve demo_bounds
     {| tolerance := 0.25; max_inner_iter := 2; max_outer_iter := 4;
        damping_cap := 2; trace_threshold := 0x1p-30 |}
     (demo_problem 101325 300 [0.5; 0.5]%float)).1.1
  = Some ConvergenceFailure.
Proof. run. Qed.

(** The four kinds of failure, each on an input of its own. *)
Example demo_pt_solve_failures :
  verdict_of demo_bounds demo_policy
    (demo_problem 101325 30000 [0.5; 0.5]%float)
  = Some OutOfRangeTemperature
  ∧ verdict_of demo_bounds demo_policy
      (demo_problem 101325 nan [0.5; 0.5]%float)
    = Some OutOfRangeTemperature
  ∧ verdict_of demo_bounds demo_policy
      (demo_problem 101325 300 [0.5; 1]%float)
    = Some InconsistentInput
  ∧ verdict_of demo_bounds demo_policy
      (demo_problem 101325 300 [1.5; (-0.5)]%float)
    = Some InconsistentInput
  ∧ verdict_of demo_bounds demo_policy
      (demo_problem (-5) 300 [0.5; 0.5]%float)
    = Some SingularSystem.
Proof. repeat split; run. Qed.

(** The bounds are in order; a boundary belongs to the range above it, a
    temperature outside the bounds or one that is not a number has no
    range. *)
Example demo_ranges :
  ordered demo_bounds
  ∧ select_range demo_bounds <$> [200; 999.5; 1000; 6000; 20000]%float
    = [Some Low; Some Low; Some Mid; Some High; Some High]
  ∧ select_range demo_bounds <$> [199.5; 20000.5; nan; infinity]%float
    = [None; None; None; None].
Proof. by vm_compute. Qed.

(** A step that would change an active species by more than the cap is
    scaled for all species; a resting species does not count. *)
Example demo_damping :
  damping_factor 2 [true; true; false] [1; (-8); 100]%float = 0.25%float
  ∧ damping_factor 2 [true; true; false] [1; (-2); 100]%float = 1%float.
Proof. split; run. Qed.

(** The batch on the good store: both items converge, with a trace when
    [verbose] is set. *)
Example demo_newton_pt_good :
  demo_newton_pt 2 1 demo_good
  = Ret 0 (State (demo_full (st_mem demo_good))
             "step;step;step;step;step;step;").
Proof. run. Qed.

(** The batch on the bad store: the temperature of the second item is out
    of range, the status is the code of that kind, and the index is
    reported. *)
Example demo_newton_pt_bad :
  demo_newton_pt 2 0 demo_bad
  = Ret 3 (State (demo_full (st_mem demo_bad))
             "Error in batch_pt @ position: 1")
  ∧ kind_of 3 = Some (Some OutOfRangeTemperature).
Proof. split; run. Qed.

(** ** The theorems of [BatchNewton] on the demo store *)

Lemma batch_pt_newton_verdict_witness :
  writes_apart 2 demo_p demo_T demo_X0 2 1 demo_lewis demo_M demo_a demo_X1 ∧
  ∃ r s', demo_newton_pt 2 0 demo_bad = Ret r s'
    ∧ ((r = 0
        ∧ Forall (λ pr, reason demo_bounds demo_policy pr None)
            demo_problems_bad)
       ∨ ∃ (i : nat) pr e,
           item_problem demo_p demo_T demo_X0 2 1 demo_lewis demo_M demo_a
             (st_mem demo_bad) (Z.of_nat i) = Some pr
           ∧ Forall (λ pr', reason demo_bounds demo_policy pr' None)
               (take i demo_problems_bad)
           ∧ reason demo_bounds demo_policy pr (Some e)
           ∧ r = status_code e ∧ kind_of r = Some (Some e)).
Proof.
  split; [apply demo_writes_apart|].
  apply (@batch_pt_newton_verdict demo_kernel demo_kernel_ok default_codes
           demo_bounds demo_policy 2 demo_p demo_T
           demo_X0 2 1 demo_lewis demo_M demo_a demo_X1 0 demo_bad
           demo_problems_bad);
    [bounds|bounds|lia|apply demo_writes_apart|run
    |apply (bool_decide_unpack _); run].
Defined.

Lemma batch_rhou_newton_verdict_witness :
  rhou_writes_apart 2 demo_p demo_T demo_X0 2 1 demo_lewis demo_M demo_a
    demo_X1 demo_Tout ∧
  ∃ r s', demo_newton_rhou 2 0 demo_bad = Ret r s'
    ∧ kind_of r
      = Some (first_failure
                (rhou_verdict_of demo_bounds demo_policy
                   <$> demo_problems_bad)).
Proof.
  split; [apply demo_rhou_writes_apart|].
  apply (@batch_rhou_newton_verdict demo_kernel demo_kernel_ok default_codes
           demo_bounds demo_policy 2 demo_p demo_T
           demo_X0 2 1 demo_lewis demo_M demo_a demo_X1 demo_Tout 0 demo_bad
           demo_problems_bad);
    [bounds|bounds|lia|apply demo_rhou_writes_apart|run
    |apply (bool_decide_unpack _); run|apply (bool_decide_unpack _); run].
Defined.

