(* ===== verification/DemoBalance.v ===== *)
(** * DemoBalance: the Newton step on a small mixture

    The species H2, O2 and H2O over the elements H and O.  The Newton step
    of [Balance] is run on it by evaluation, in exact arithmetic (the
    rationals [Qc], which satisfy [Exact]) and in double precision; the two
    results agree to within [2^-50].  A composition matrix with a zero row
    makes the step fail in both, and makes the solve of [Newton] end with
    [SingularSystem] for a kernel whose reduced system is that of
    [BalanceKernel].  The theorems of [Elimination] and [Balance] are
    applied to the mixture. *)

From Stdlib Require Import QArith Qcanon Field.
From Corelib Require Import PrimFloat.
From S2P Require Import Prelude Memory Status Thermo Newton.
From S2P Require Import Linear Elimination Balance BalanceKernel.

(** ** The rationals as exact numbers *)

#[export] Instance Qc_eq_decision : EqDecision Qc := Qc_eq_dec.

#[export] Instance Qc_number : Number Qc := {|
  num_zero := 0%Qc;
  num_one := 1%Qc;
  num_add := Qcplus;
  num_sub := Qcminus;
  num_mul := Qcmult;
  num_div := Qcdiv;
  num_opp := Qcopp;
  negligible x := bool_decide (x = 0%Qc)
|}.

#[export] Instance Qc_exact : Exact Qc.
Proof.
  split.
  - destruct Qcft as [R one_neq div_def inv_l]. constructor; try done.
    + intros p q. change (Qcdiv p q = Qcmult p (Qcdiv 1%Qc q)).
      rewrite !div_def. ring.
    + intros p Hp. change (Qcmult (Qcdiv 1%Qc p) p = 1%Qc). by field.
  - intros x. apply bool_decide_eq_true.
Qed.

(** The rational [n/d]. *)
Definition ratio (n : Z) (d : positive) : Qc := Q2Qc (n # d).

(** The numerators and denominators of a list of rationals. *)
Definition fractions_of (l : list Qc) : list Q := this <$> l.

Ltac run := vm_compute; reflexivity.

(** ** Elimination *)

(** The first equation has no coefficient for the first unknown: the
    second is the pivot.  [x1 = 3], [2 x0 + x1 = 5]. *)
Definition demo_system : list (equation Qc) :=
  [Equation [ratio 0 1; ratio 1 1] (ratio 3 1);
   Equation [ratio 2 1; ratio 1 1] (ratio 5 1)].

Example demo_solve :
  fractions_of <$> solve 2 demo_system = Some [1%Q; 3%Q].
Proof. run. Qed.

(** The second equation is twice the first: the system is singular. *)
Definition demo_singular : list (equation Qc) :=
  [Equation [ratio 1 1; ratio 2 1] (ratio 3 1);
   Equation [ratio 2 1; ratio 4 1] (ratio 5 1)].

Example demo_solve_singular : solve 2 demo_singular = None.
Proof. run. Qed.

(** ** The mixture *)

Definition integers (l : list Z) : list Qc := (λ z, ratio z 1) <$> l.

(** The composition matrix, stored row by row.  Rows: H, O.  Columns: H2,
    O2, H2O. *)
Definition exact_matrix : list Qc := integers [2; 0; 2; 0; 2; 1].

(** The same with the row of H set to zero. *)
Definition exact_matrix_no_H : list Qc := integers [0; 0; 0; 0; 2; 1].

Definition exact_moles : list Qc := [ratio 1 2; ratio 1 4; ratio 1 4].

(** Mole numbers [1/2, 1/4, 1/4], total 1, chemical potentials
    [-1, -2, -5], every species active; the abundances are those of the
    mole numbers. *)
Definition exact_balance : balance Qc :=
  balance_of_arrays 2 3 exact_matrix exact_moles exact_moles (ratio 1 1)
    (integers [-1; -2; -5]) [true; true; true].

Definition exact_balance_no_H : balance Qc :=
  balance_of_arrays 2 3 exact_matrix_no_H exact_moles exact_moles
    (ratio 1 1) (integers [-1; -2; -5]) [true; true; true].

(** The step in exact arithmetic. *)
Example demo_newton_step :
  (λ st, (fractions_of (bs_species st), this (bs_total st),
          fractions_of (bs_potentials st))) <$> newton_step exact_balance
  = Some ([-8 # 9; -8 # 9; 16 # 9], -2 # 9, [-5 # 6; -4 # 3])%Q.
Proof. run. Qed.

Example demo_newton_step_no_H : newton_step exact_balance_no_H = None.
Proof. run. Qed.

(** With the chemical potentials [2, 4, 4] the mole numbers are an
    equilibrium, with the element potentials [1, 2]: the step corrects
    nothing. *)
Definition exact_balance_at_rest : balance Qc :=
  balance_of_arrays 2 3 exact_matrix exact_moles exact_moles (ratio 1 1)
    (integers [2; 4; 4]) [true; true; true].

Example demo_newton_step_rest :
  (λ st, (fractions_of (bs_species st), this (bs_total st),
          fractions_of (bs_potentials st)))
    <$> newton_step exact_balance_at_rest
  = Some ([0; 0; 0], 0, [1; 2])%Q.
Proof. run. Qed.

(** ** Double precision *)

Definition demo_eps : double := 0x1p-40.

#[local] Instance demo_double_number : Number double :=
  double_number demo_eps.

Definition double_moles : list double := [0.5; 0.25; 0.25]%float.

Definition double_balance : balance double :=
  balance_of_arrays 2 3 [2; 0; 2; 0; 2; 1]%float double_moles double_moles
    1%float [-1; -2; -5]%float [true; true; true].

Definition double_balance_no_H : balance double :=
  balance_of_arrays 2 3 [0; 0; 0; 0; 2; 1]%float double_moles double_moles
    1%float [-1; -2; -5]%float [true; true; true].

(** The doubles [x] and [y] differ by less than [2^-50]. *)
Definition near (x y : double) : bool := (abs (x - y) <? 0x1p-50)%float.

(** The step in double precision is the exact step up to rounding. *)
Example demo_newton_step_double :
  match newton_step double_balance with
  | Some st =>
      match bs_species st, bs_potentials st with
      | [d1; d2; d3], [p1; p2] =>
          (near d1 (-8 / 9) && near d2 (-8 / 9) && near d3 (16 / 9)
           && near (bs_total st) (-2 / 9) && near p1 (-5 / 6)
           && near p2 (-4 / 3))%float
      | _, _ => false
      end
  | None => false
  end = true.
Proof. run. Qed.

Example demo_newton_step_double_no_H :
  newton_step double_balance_no_H = None.
Proof. run. Qed.

(** ** A kernel that solves its reduced system by elimination *)

(** The kernel of this run leaves the mole numbers as they are and halves
    the residual in each step; its reduced system is that of
    [BalanceKernel], with the chemical potential -1 for every species. *)
Definition balance_kernel : Kernel := {|
  possible pr := true;
  initial_state pr :=
    {| it_n := pr_X0 pr; it_pi := []; it_active := (λ _, true) <$> pr_X0 pr;
       it_count := 0; it_residual := 1 |};
  reduced_solve :=
    balance_reduced_solve demo_eps (λ pr st, (λ _, (-1)%float) <$> it_n st);
  advance pr lam d st :=
    {| it_n := it_n st; it_pi := d_pi d; it_active := it_active st;
       it_count := it_count st;
       it_residual := (it_residual st / 2)%float |};
  favourable pr st s := false;
  trace_line st := "step;";
  initial_temperature rho u X := (u / 2)%float;
  internal_energy table M T X := T;
  cv_mix table M T X := 1%float
|}.

Definition kernel_bounds : range_bounds :=
  {| T_min := 200; T_low := 1000; T_high := 6000; T_max := 20000 |}.

Definition kernel_policy : policy :=
  {| tolerance := 0.25; max_inner_iter := 5; max_outer_iter := 4;
     damping_cap := 2; trace_threshold := 0x1p-30 |}.

(** Two species of one element. *)
Definition kernel_problem (a : list double) : problem :=
  {| pr_p := 101325; pr_T := 300; pr_X0 := [0.5; 0.5]%float; pr_nsp := 2;
     pr_nel := 1; pr_table := replicate 54 1%float; pr_M := [2; 32]%float;
     pr_a := a |}.

(** With the element in both species the iteration converges. *)
Example demo_kernel_solve :
  @pt_solve balance_kernel kernel_bounds kernel_policy
    (kernel_problem [2; 2]%float)
  = (None, [0.5; 0.5]%float, "step;step;step;").
Proof. run. Qed.

(** With the element in no species the first step fails: the solve
    reports a singular system and not a composition. *)
Example demo_kernel_solve_no_element :
  (@pt_solve balance_kernel kernel_bounds kernel_policy
     (kernel_problem [0; 0]%float)).1.1
  = Some SingularSystem.
Proof. run. Qed.

(** ** The theorems of [Elimination] and [Balance] on the mixture *)

Definition exact_sized (flat : list Qc) : Prop :=
  arrays_sized 2 3 flat exact_moles (integers [-1; -2; -5])
    [true; true; true].

Lemma newton_step_correct_witness :
  Exact Qc ∧ exact_sized exact_matrix ∧
  match newton_step exact_balance with
  | Some st =>
      linearised exact_balance st
      ∧ ∀ st', linearised exact_balance st' → st' = st
  | None => singular 3 (reduced_system exact_balance)
  end.
Proof.
  assert (exact_sized exact_matrix) as Hsized
    by (apply (bool_decide_unpack _); run).
  split; [apply _|]. split; [exact Hsized|].
  apply (@newton_step_correct Qc Qc_number Qc_exact 2 3 exact_matrix
           exact_moles exact_moles (ratio 1 1) (integers [-1; -2; -5])
           [true; true; true] Hsized).
Defined.

Lemma newton_step_rests_witness :
  Exact Qc
  ∧ arrays_sized 2 3 exact_matrix exact_moles (integers [2; 4; 4])
      [true; true; true]
  ∧ match newton_step exact_balance_at_rest with
    | Some st =>
        bs_species st = zeros 3 ∧ bs_total st = 0%Qc
        ↔ equilibrium exact_balance_at_rest (bs_potentials st)
    | None => False
    end.
Proof.
  assert (arrays_sized 2 3 exact_matrix exact_moles (integers [2; 4; 4])
            [true; true; true]) as Hsized
    by (apply (bool_decide_unpack _); run).
  split; [apply _|]. split; [exact Hsized|].
  pose proof demo_newton_step_rest as Hrun.
  destruct (newton_step exact_balance_at_rest) as [st|] eqn:Hst;
    [|discriminate Hrun].
  apply (@newton_step_rests Qc Qc_number Qc_exact 2 3 exact_matrix
           exact_moles exact_moles (ratio 1 1) (integers [2; 4; 4])
           [true; true; true] st Hsized Hst).
Defined.

Lemma zero_row_fails_witness :
  Exact Qc ∧ exact_sized exact_matrix_no_H ∧ (0 < 2)%nat
  ∧ Forall (λ x, x = 0%Qc) (take 3 exact_matrix_no_H)
  ∧ newton_step exact_balance_no_H = None.
Proof.
  assert (exact_sized exact_matrix_no_H) as Hsized
    by (apply (bool_decide_unpack _); run).
  assert (Forall (λ x, x = 0%Qc) (take 3 exact_matrix_no_H)) as Hzero
    by (by repeat constructor).
  split; [apply _|]. split; [exact Hsized|]. split; [lia|].
  split; [exact Hzero|].
  apply (@zero_row_fails Qc Qc_number Qc_exact 2 3 exact_matrix_no_H
           exact_moles exact_moles (ratio 1 1) (integers [-1; -2; -5])
           [true; true; true] 0 Hsized); [lia|].
  intros s Hs. by do 3 (destruct s as [|s]; [done|]); lia.
Defined.

Lemma elimination_correct_witness :
  Exact Qc ∧ square 2 demo_system ∧
  match solve 2 demo_system with
  | Some x =>
      Forall (satisfies x) demo_system
      ∧ ∀ y, length y = 2%nat → Forall (satisfies y) demo_system → y = x
  | None => singular 2 demo_system
  end.
Proof.
  assert (square 2 demo_system) as Hsq by (apply (bool_decide_unpack _); run).
  split; [apply _|]. split; [exact Hsq|].
  apply (@elimination_correct Qc Qc_number Qc_exact 2 demo_system Hsq).
Defined.
